(** * mdflow prompt-compilation pipeline: a shallow embedding

    The development follows the TypeScript sources of the import parser
    ([src/imports-parser.ts]), the import resolver ([src/imports.ts]), the
    argument compiler ([src/command.ts]) and the configuration cascade
    ([src/config.ts]).

    JavaScript strings are sequences of UTF-16 code units; a code unit is a
    number [N] and a string is a list of them, indexed from zero.  Objects used
    as dictionaries are finite maps ([gmap]) where only lookups matter and
    association lists where [Object.entries] order is observable.  *)

From Stdlib Require Import ZArith NArith Lia Ascii String.
From stdpp Require Import base option list gmap sorting.

Open Scope nat_scope.

(* ===================================================================== *)
(** * Part I. Definitions                                                 *)
(* ===================================================================== *)

(** ** JavaScript strings *)

Abbreviation char := N (only parsing).
Abbreviation jsstring := (list N) (only parsing).

(** A string literal of the development, as code units. *)
Definition str (s : string) : jsstring :=
  map N_of_ascii (list_ascii_of_string s).

Definition ch_tab : char := 9%N.
Definition ch_nl : char := 10%N.
Definition ch_cr : char := 13%N.
Definition ch_space : char := 32%N.
Definition ch_bang : char := 33%N.
Definition ch_hash : char := 35%N.
Definition ch_dollar : char := 36%N.
Definition ch_star : char := 42%N.
Definition ch_minus : char := 45%N.
Definition ch_dot : char := 46%N.
Definition ch_slash : char := 47%N.
Definition ch_colon : char := 58%N.
Definition ch_qmark : char := 63%N.
Definition ch_at : char := 64%N.
Definition ch_lbrack : char := 91%N.
Definition ch_underscore : char := 95%N.
Definition ch_backtick : char := 96%N.
Definition ch_tilde : char := 126%N.

(** [c1 === c2] on code units. *)
Definition ceq (a b : char) : bool := N.eqb a b.

Definition in_range (lo hi c : char) : bool := (N.leb lo c && N.leb c hi)%bool.

(** The class [\s] of ECMAScript: WhiteSpace and LineTerminator. *)
Definition is_space (c : char) : bool :=
  (in_range 9 13 c || ceq c 32 || ceq c 160 || ceq c 5760
   || in_range 8192 8202 c || ceq c 8232 || ceq c 8233 || ceq c 8239
   || ceq c 8287 || ceq c 12288 || ceq c 65279)%bool.

(** Line terminators, which [.] does not match. *)
Definition is_line_terminator (c : char) : bool :=
  (ceq c 10 || ceq c 13 || ceq c 8232 || ceq c 8233)%bool.

Definition is_digit (c : char) : bool := in_range 48 57 c.
Definition is_alpha (c : char) : bool := (in_range 65 90 c || in_range 97 122 c)%bool.

(** [s.slice(a, b)] for [0 <= a] and [0 <= b]: both ends are clamped to the
    length, and an empty string results when [b <= a]. *)
Definition slice (s : jsstring) (a b : nat) : jsstring := take (b - a) (drop a s).

(** [s.slice(a)]. *)
Definition slice_from (s : jsstring) (a : nat) : jsstring := drop a s.

(** [s.startsWith(p)]. *)
Definition startsWith (p s : jsstring) : bool := bool_decide (take (length p) s = p).

(** [s.includes(c)] for a one-character needle. *)
Definition includes_char (c : char) (s : jsstring) : bool := existsb (ceq c) s.

(** [String.prototype.trim]: strips [\s] code units at both ends. *)
Fixpoint trim_start (s : jsstring) : jsstring :=
  match s with
  | c :: s' => if is_space c then trim_start s' else s
  | [] => []
  end.

Definition trim (s : jsstring) : jsstring := rev (trim_start (rev (trim_start s))).

(** [parts.join(sep)]. *)
Fixpoint join (sep : jsstring) (parts : list jsstring) : jsstring :=
  match parts with
  | [] => []
  | [p] => p
  | p :: rest => p ++ sep ++ join sep rest
  end.

(** [s.split(c)] for a one-character separator: always at least one part. *)
Fixpoint split_on (c : char) (s : jsstring) : list jsstring :=
  match s with
  | [] => [[]]
  | x :: s' =>
      if ceq x c then [] :: split_on c s'
      else match split_on c s' with
           | p :: ps => (x :: p) :: ps
           | [] => [[x]]
           end
  end.

(** Decimal digits of a natural number, for [String(n)] and template
    literals on integers. *)
Definition digit_char (d : N) : char := (48 + d)%N.

Fixpoint digits_fuel (fuel : nat) (n : N) (acc : jsstring) : jsstring :=
  match fuel with
  | 0 => acc
  | S f =>
      let acc' := digit_char (n mod 10) :: acc in
      if (n <? 10)%N then acc' else digits_fuel f (n / 10)%N acc'
  end.

Definition N_to_jsstring (n : N) : jsstring := digits_fuel (S (N.to_nat (N.log2 n))) n [].

Definition Z_to_jsstring (z : Z) : jsstring :=
  match z with
  | Zneg p => ch_minus :: N_to_jsstring (Npos p)
  | _ => N_to_jsstring (Z.to_N z)
  end.

(** [parseInt(ds, 10)] on a string of decimal digits. *)
Definition parse_digits (ds : jsstring) : Z :=
  fold_left (fun acc c => (acc * 10 + Z.of_N (c - 48))%Z) ds 0%Z.

(** ** Regular expressions

    The patterns of the sources are regular-expression literals.  Their
    meaning is the backtracking semantics of ECMAScript: a pattern applied at
    a position yields the end positions it can reach, most preferred first,
    and the first one that lets the rest of the pattern succeed is taken. *)

Inductive regex : Type :=
| RChar (cls : char -> bool)                    (* one code unit of a class *)
| REmpty
| RSeq (r1 r2 : regex)
| RAlt (r1 r2 : regex)
| RQuant (greedy : bool) (lo : nat) (hi : option nat) (r : regex)
| RGroup (n : nat) (r : regex)                  (* capturing group number n *)
| RBackref (n : nat)                            (* \n *)
| RBol                                          (* ^ without the m flag *)
| REol.                                         (* $ without the m flag *)

(** Captures: group number to the half-open span it matched. *)
Abbreviation captures := (gmap nat (nat * nat)) (only parsing).

(** The repetition of ECMAScript's RepeatMatcher.  [ma i c] are the ways the
    repeated atom matches at [i].  Once the minimum is reached an iteration
    that consumes nothing is rejected.  Every iteration either lowers the
    minimum or advances, which bounds the number of iterations by
    [lo + length s - i]. *)
Fixpoint repeat_matcher (fuel : nat) (ma : nat -> captures -> list (nat * captures))
    (greedy : bool) (lo : nat) (hi : option nat) (i : nat) (c : captures)
    : list (nat * captures) :=
  match fuel with
  | 0 => []
  | S fuel' =>
      match hi with
      | Some 0 => [(i, c)]
      | _ =>
          let more :=
            '(j, c') ← ma i c;
            if ((lo =? 0) && (j =? i))%bool then []
            else repeat_matcher fuel' ma greedy (pred lo) (pred <$> hi) j c' in
          if negb (lo =? 0) then more
          else if greedy then more ++ [(i, c)]
          else (i, c) :: more
      end
  end.

(** [rmatch r s i c]: the end positions (with captures) of the matches of [r]
    in [s] starting at [i], in backtracking order.  No pattern of the sources
    has a capturing group inside a quantifier, so the reset of inner captures
    at each iteration is not modelled. *)
Fixpoint rmatch (r : regex) (s : jsstring) (i : nat) (c : captures)
    : list (nat * captures) :=
  match r with
  | RChar cls =>
      match s !! i with
      | Some x => if cls x then [(S i, c)] else []
      | None => []
      end
  | REmpty => [(i, c)]
  | RSeq r1 r2 => '(j, c') ← rmatch r1 s i c; rmatch r2 s j c'
  | RAlt r1 r2 => rmatch r1 s i c ++ rmatch r2 s i c
  | RQuant greedy lo hi r1 =>
      repeat_matcher (S (lo + length s)) (rmatch r1 s) greedy lo hi i c
  | RGroup n r1 => '(j, c') ← rmatch r1 s i c; [(j, <[n := (i, j)]> c')]
  | RBackref n =>
      match c !! n with
      | None => [(i, c)]
      | Some (a, b) =>
          let len := b - a in
          if (i + len <=? length s) && bool_decide (slice s i (i + len) = slice s a b)
          then [(i + len, c)] else []
      end
  | RBol => if i =? 0 then [(i, c)] else []
  | REol => if i =? length s then [(i, c)] else []
  end.

(** The result of [RegExp.prototype.exec]: [index], the end of the match and
    the captures.  [match[0]] is the slice between the two. *)
Record rx_match : Type := RxMatch {
  m_index : nat;
  m_end : nat;
  m_caps : captures;
}.

Definition m_text (s : jsstring) (m : rx_match) : jsstring :=
  slice s (m_index m) (m_end m).

(** [match[n]] for a group that took part in the match. *)
Definition m_group (s : jsstring) (m : rx_match) (n : nat) : jsstring :=
  match m_caps m !! n with
  | Some (a, b) => slice s a b
  | None => []
  end.

(** The leftmost match at or after [i]. *)
Fixpoint exec_from (fuel : nat) (r : regex) (s : jsstring) (i : nat) : option rx_match :=
  match fuel with
  | 0 => None
  | S fuel' =>
      match rmatch r s i ∅ with
      | (e, c) :: _ => Some (RxMatch i e c)
      | [] => exec_from fuel' r s (S i)
      end
  end.

(** [re.exec(s)] with [re.lastIndex = lastIndex]. *)
Definition exec (r : regex) (s : jsstring) (lastIndex : nat) : option rx_match :=
  exec_from (S (length s) - lastIndex) r s lastIndex.

(** [re.lastIndex = 0; while ((match = re.exec(s)) !== null) ...] for a
    global pattern: the matches in the order of the loop.  Each successful
    [exec] leaves [lastIndex] at the end of its match. *)
Fixpoint exec_loop (fuel : nat) (r : regex) (s : jsstring) (lastIndex : nat) : list rx_match :=
  match fuel with
  | 0 => []
  | S fuel' =>
      match exec r s lastIndex with
      | None => []
      | Some m => m :: exec_loop fuel' r s (m_end m)
      end
  end.

Definition exec_all (r : regex) (s : jsstring) : list rx_match :=
  exec_loop (S (length s)) r s 0.

(** [s.match(re)] for a pattern without the g flag. *)
Definition match_ (r : regex) (s : jsstring) : option rx_match := exec r s 0.

(** [re.test(s)]. *)
Definition test (r : regex) (s : jsstring) : bool := bool_decide (is_Some (exec r s 0)).

(** Pattern-building shorthands. *)
Definition rlit_char (c : char) : regex := RChar (ceq c).
Definition rlit (s : jsstring) : regex := foldr (fun c r => RSeq (rlit_char c) r) REmpty s.
Definition rany : regex := RChar (fun _ => true).                       (* [\s\S] *)
Definition rdot : regex := RChar (fun c => negb (is_line_terminator c)). (* . *)
Definition rplus (r : regex) : regex := RQuant true 1 None r.
Definition rstar (r : regex) : regex := RQuant true 0 None r.
Definition ropt (r : regex) : regex := RQuant true 0 (Some 1) r.
Definition rplus_lazy (r : regex) : regex := RQuant false 1 None r.
Definition rstar_lazy (r : regex) : regex := RQuant false 0 None r.
Definition rseqs (rs : list regex) : regex := foldr RSeq REmpty rs.

(** ** The context-aware scanner ([src/imports-parser.ts]) *)

Inductive ScanContext : Type := normal | fenced_code | inline_code.

Global Instance ScanContext_eq_dec : EqDecision ScanContext.
Proof. solve_decision. Defined.

Record range : Type := Range { r_start : nat; r_end : nat }.

(** The local variables of [findSafeRanges]; [pos] is the loop index [i] and
    [fenceChar = None] stands for the initial empty string. *)
Record scan_state : Type := ScanState {
  context : ScanContext;
  rangeStart : nat;
  pos : nat;
  fenceChar : option char;
  fenceLen : nat;
  safeRanges : list range;
}.

(** [while (j < content.length && content[j] === char) { len++; j++; }] *)
Fixpoint run_length (c : char) (l : jsstring) : nat :=
  match l with
  | x :: l' => if ceq x c then S (run_length c l') else 0
  | [] => 0
  end.

(** [while (i < content.length && content[i] !== '\n') i++] *)
Fixpoint until_newline (l : jsstring) : nat :=
  match l with
  | x :: l' => if ceq x ch_nl then 0 else S (until_newline l')
  | [] => 0
  end.

Definition push_range (st : scan_state) (i : nat) : list range :=
  if rangeStart st <? i then safeRanges st ++ [Range (rangeStart st) i]
  else safeRanges st.

Definition advance (st : scan_state) : scan_state :=
  ScanState (context st) (rangeStart st) (S (pos st)) (fenceChar st) (fenceLen st)
    (safeRanges st).

(** One iteration of the outer [while (i < content.length)] loop. *)
Definition scan_step (s : jsstring) (st : scan_state) : scan_state :=
  let i := pos st in
  match context st with
  | normal =>
      let len := match s !! i with
                 | Some c => run_length c (drop i s)
                 | None => 0
                 end in
      if (bool_decide (s !! i = Some ch_backtick) || bool_decide (s !! i = Some ch_tilde))
         && (3 <=? len)
      then
        let i1 := i + len in
        ScanState fenced_code (rangeStart st) (i1 + until_newline (drop i1 s))
          (s !! i) len (push_range st i)
      else if bool_decide (s !! i = Some ch_backtick)
              && negb (bool_decide (s !! (i + 1) = Some ch_backtick))
      then
        ScanState inline_code (rangeStart st) (S i) (fenceChar st) (fenceLen st)
          (push_range st i)
      else advance st
  | fenced_code =>
      let atLineStart := (i =? 0) || bool_decide (s !! (i - 1) = Some ch_nl) in
      match fenceChar st with
      | Some fc =>
          if atLineStart && bool_decide (s !! i = Some fc)
             && (fenceLen st <=? run_length fc (drop i s))
          then
            let i1 := i + run_length fc (drop i s) in
            let i2 := i1 + until_newline (drop i1 s) in
            let i3 := if i2 <? length s then S i2 else i2 in
            ScanState normal i3 i3 (fenceChar st) (fenceLen st) (safeRanges st)
          else advance st
      | None => advance st
      end
  | inline_code =>
      if bool_decide (s !! i = Some ch_backtick) then
        ScanState normal (S i) (S i) (fenceChar st) (fenceLen st) (safeRanges st)
      else if bool_decide (s !! i = Some ch_nl) then
        ScanState normal i (S i) (fenceChar st) (fenceLen st) (safeRanges st)
      else advance st
  end.

Fixpoint scan_loop (fuel : nat) (s : jsstring) (st : scan_state) : scan_state :=
  match fuel with
  | 0 => st
  | S fuel' => if pos st <? length s then scan_loop fuel' s (scan_step s st) else st
  end.

Definition scan_init : scan_state := ScanState normal 0 0 None 0 [].

(** Every iteration advances [i], so [length content] iterations suffice. *)
Definition scan_final (s : jsstring) : scan_state := scan_loop (length s) s scan_init.

Definition findSafeRanges (content : jsstring) : list range :=
  let st := scan_final content in
  match context st with
  | normal =>
      if rangeStart st <? length content
      then safeRanges st ++ [Range (rangeStart st) (length content)]
      else safeRanges st
  | _ => safeRanges st
  end.

Definition isInSafeRange (index : nat) (ranges : list range) : bool :=
  existsb (fun r => (r_start r <=? index) && (index <? r_end r)) ranges.

(** The classification the scanner gives to the code units it consumes in one
    iteration: the context of the iteration, except that the delimiter that
    opens a fence or an inline span belongs to the code it opens, and the
    newline that ends an unclosed inline span is back in normal text (the
    scanner starts the next safe range on it). *)
Definition step_label (s : jsstring) (st : scan_state) : ScanContext :=
  match context st with
  | normal => context (scan_step s st)
  | fenced_code => fenced_code
  | inline_code => if bool_decide (s !! pos st = Some ch_nl) then normal else inline_code
  end.

Fixpoint scan_trace (fuel : nat) (s : jsstring) (st : scan_state) : list ScanContext :=
  match fuel with
  | 0 => []
  | S fuel' =>
      if pos st <? length s
      then replicate (pos (scan_step s st) - pos st) (step_label s st)
             ++ scan_trace fuel' s (scan_step s st)
      else []
  end.

(** The context of every code unit of the body, as the single left-to-right
    pass of [findSafeRanges] classifies it. *)
Definition contexts (s : jsstring) : list ScanContext := scan_trace (length s) s scan_init.

(** ** Directive patterns and the parser *)

Definition not_space (c : char) : bool := negb (is_space c).
Definition not_newline (c : char) : bool := negb (ceq c ch_nl).

(** [/@(~?[./][^\s]+)/g] *)
Definition FILE_IMPORT_PATTERN : regex :=
  RSeq (rlit_char ch_at)
    (RGroup 1 (RSeq (ropt (rlit_char ch_tilde))
              (RSeq (RChar (fun c => ceq c ch_dot || ceq c ch_slash))
                    (rplus (RChar not_space))))).

(** [/!(`+)([\s\S]+?)\1/g] *)
Definition COMMAND_INLINE_PATTERN : regex :=
  RSeq (rlit_char ch_bang)
    (RSeq (RGroup 1 (rplus (rlit_char ch_backtick)))
      (RSeq (RGroup 2 (rplus_lazy rany)) (RBackref 1))).

(** [/@(https?:\/\/[^\s]+)/g] *)
Definition URL_IMPORT_PATTERN : regex :=
  RSeq (rlit_char ch_at)
    (RGroup 1 (RSeq (rlit (str "http"))
              (RSeq (ropt (rlit_char 115))
              (RSeq (rlit (str "://")) (rplus (RChar not_space)))))).

(** [/(`{3,})(.*?)\n(#![^\n]+)\n([\s\S]*?)\1/g] *)
Definition EXECUTABLE_FENCE_PATTERN : regex :=
  RSeq (RGroup 1 (RQuant true 3 None (rlit_char ch_backtick)))
    (RSeq (RGroup 2 (rstar_lazy rdot))
    (RSeq (rlit_char ch_nl)
    (RSeq (RGroup 3 (RSeq (rlit (str "#!")) (rplus (RChar not_newline))))
    (RSeq (rlit_char ch_nl)
    (RSeq (RGroup 4 (rstar_lazy rany)) (RBackref 1)))))).

Definition isGlobPattern (path : jsstring) : bool :=
  includes_char ch_star path || includes_char ch_qmark path || includes_char ch_lbrack path.

(** [/^(.+):(\d+)-(\d+)$/] *)
Definition LINE_RANGE_PATTERN : regex :=
  rseqs [RBol; RGroup 1 (rplus rdot); rlit_char ch_colon; RGroup 2 (rplus (RChar is_digit));
         rlit_char ch_minus; RGroup 3 (rplus (RChar is_digit)); REol].

Definition is_ident_start (c : char) : bool :=
  is_alpha c || ceq c ch_underscore || ceq c ch_dollar.

(** [/^(.+)#(ID)$/] where [ID] is [[a-zA-Z_$][a-zA-Z0-9_$]*] *)
Definition SYMBOL_PATTERN : regex :=
  rseqs [RBol; RGroup 1 (rplus rdot); rlit_char ch_hash;
         RGroup 2 (RSeq (RChar is_ident_start)
                        (rstar (RChar (fun c => is_ident_start c || is_digit c))));
         REol].

Definition truthy (s : jsstring) : bool := negb (bool_decide (s = [])).

(** [parseLineRange]: the path and, when the syntax is present, the range. *)
Definition parseLineRange (path : jsstring) : jsstring * option (Z * Z) :=
  match match_ LINE_RANGE_PATTERN path with
  | Some m =>
      if truthy (m_group path m 1) && truthy (m_group path m 2) && truthy (m_group path m 3)
      then (m_group path m 1,
            Some (parse_digits (m_group path m 2), parse_digits (m_group path m 3)))
      else (path, None)
  | None => (path, None)
  end.

(** [parseSymbolExtraction]: the path and, when the syntax is present, the
    symbol. *)
Definition parseSymbolExtraction (path : jsstring) : jsstring * option jsstring :=
  match match_ SYMBOL_PATTERN path with
  | Some m =>
      if truthy (m_group path m 1) && truthy (m_group path m 2)
      then (m_group path m 1, Some (m_group path m 2))
      else (path, None)
  | None => (path, None)
  end.

Inductive ImportAction : Type :=
| FileImport (path : jsstring) (lineRange : option (Z * Z)) (original : jsstring) (index : nat)
| GlobImport (pattern : jsstring) (original : jsstring) (index : nat)
| UrlImport (url : jsstring) (original : jsstring) (index : nat)
| CommandImport (command : jsstring) (original : jsstring) (index : nat)
| SymbolImport (path symbol : jsstring) (original : jsstring) (index : nat)
| ExecutableCodeFence (shebang language code : jsstring) (original : jsstring) (index : nat).

Definition action_index (a : ImportAction) : nat :=
  match a with
  | FileImport _ _ _ i | GlobImport _ _ i | UrlImport _ _ i | CommandImport _ _ i
  | SymbolImport _ _ _ i | ExecutableCodeFence _ _ _ _ i => i
  end.

Definition action_original (a : ImportAction) : jsstring :=
  match a with
  | FileImport _ _ o _ | GlobImport _ o _ | UrlImport _ o _ | CommandImport _ o _
  | SymbolImport _ _ o _ | ExecutableCodeFence _ _ _ o _ => o
  end.

Definition is_exec_fence (a : ImportAction) : bool :=
  match a with ExecutableCodeFence _ _ _ _ _ => true | _ => false end.

Definition parseFileImportPath (fullMatch path : jsstring) (index : nat) : ImportAction :=
  if isGlobPattern path then GlobImport path fullMatch index
  else
    match parseSymbolExtraction path with
    | (p, Some sym) => SymbolImport p sym fullMatch index
    | (_, None) =>
        match parseLineRange path with
        | (p, Some (a, b)) => FileImport p (Some (a, b)) fullMatch index
        | (_, None) => FileImport path None fullMatch index
        end
    end.

(** [Array.prototype.sort(cmp)]: a stable sort.  [x] is inserted in front of
    a sorted list whose elements all came after it, so it goes before the
    first element it does not compare greater than. *)
Fixpoint insert_by {A : Type} (cmp : A -> A -> Z) (x : A) (l : list A) : list A :=
  match l with
  | [] => [x]
  | y :: l' => if (cmp x y <=? 0)%Z then x :: y :: l' else y :: insert_by cmp x l'
  end.

Definition sort_by {A : Type} (cmp : A -> A -> Z) (l : list A) : list A :=
  foldr (insert_by cmp) [] l.

(** The gaps between safe ranges start where a code block starts. *)
Definition unsafeStarts (content : jsstring) (ranges : list range) : gset nat :=
  match ranges with
  | r0 :: _ =>
      (if 0 <? r_start r0 then {[0]} else ∅)
      ∪ list_to_set (r_end <$> filter (fun r => r_end r < length content) ranges)
  | [] => if 0 <? length content then {[0]} else ∅
  end.

(** [infoString.trim().split(/\s+/)[0]]: the first word. *)
Fixpoint before_space (s : jsstring) : jsstring :=
  match s with
  | c :: s' => if is_space c then [] else c :: before_space s'
  | [] => []
  end.

Definition file_actions (content : jsstring) (ranges : list range) : list ImportAction :=
  (fun m => parseFileImportPath (m_text content m) (m_group content m 1) (m_index m))
  <$> filter (fun m => isInSafeRange (m_index m) ranges && truthy (m_group content m 1) = true)
        (exec_all FILE_IMPORT_PATTERN content).

Definition url_actions (content : jsstring) (ranges : list range) : list ImportAction :=
  (fun m => UrlImport (m_group content m 1) (m_text content m) (m_index m))
  <$> filter (fun m => isInSafeRange (m_index m) ranges && truthy (m_group content m 1) = true)
        (exec_all URL_IMPORT_PATTERN content).

Definition command_actions (content : jsstring) (ranges : list range) : list ImportAction :=
  (fun m => CommandImport (m_group content m 2) (m_text content m) (m_index m))
  <$> filter (fun m => isInSafeRange (m_index m) ranges && truthy (m_group content m 2) = true)
        (exec_all COMMAND_INLINE_PATTERN content).

Definition fence_actions (content : jsstring) (starts : gset nat) : list ImportAction :=
  (fun m =>
     let language := before_space (trim (m_group content m 2)) in
     ExecutableCodeFence (m_group content m 3)
       (if truthy language then language else str "txt")
       (trim (m_group content m 4)) (m_text content m) (m_index m))
  <$> filter (fun m => bool_decide (m_index m ∈ starts) && truthy (m_group content m 3) = true)
        (exec_all EXECUTABLE_FENCE_PATTERN content).

Definition by_index (a b : ImportAction) : Z :=
  (Z.of_nat (action_index a) - Z.of_nat (action_index b))%Z.

(** The [actions] array before the final sort: the four loops push in this
    order. *)
Definition collected_actions (content : jsstring) : list ImportAction :=
  let ranges := findSafeRanges content in
  let starts := unsafeStarts content ranges in
  file_actions content ranges ++ url_actions content ranges
  ++ command_actions content ranges ++ fence_actions content starts.

Definition parseImports (content : jsstring) : list ImportAction :=
  sort_by by_index (collected_actions content).

Definition hasImportsInContent (content : jsstring) : bool :=
  0 <? length (parseImports content).

(** [matched s r m]: [m] is what [exec] returns for a match of [r] at
    [m_index m], the most preferred way of matching there. *)
Definition matched (s : jsstring) (r : regex) (m : rx_match) : Prop :=
  m_index m <= length s /\
  exists rest, rmatch r s (m_index m) ∅ = (m_end m, m_caps m) :: rest.

(** *** What the scanner maintains

    [tr] is the classification of the code units consumed so far.  A recorded
    safe range is non-empty, consists of normal text, and ends on the
    delimiter that opens a fence or an inline span. *)
Definition normal_on (tr : list ScanContext) (a b : nat) : Prop :=
  forall k, a <= k < b -> tr !! k = Some normal.

Definition opening_at (s : jsstring) (tr : list ScanContext) (i : nat) : Prop :=
  tr !! i = Some fenced_code
  \/ (tr !! i = Some inline_code /\ s !! S i <> Some ch_backtick).

Definition pushed_ok (s : jsstring) (tr : list ScanContext) (r : range) : Prop :=
  r_start r < r_end r /\ normal_on tr (r_start r) (r_end r) /\ opening_at s tr (r_end r).

Definition scan_inv (s : jsstring) (st : scan_state) (tr : list ScanContext) : Prop :=
  length tr = pos st
  /\ pos st <= length s
  /\ (context st = normal ->
      rangeStart st <= pos st /\ normal_on tr (rangeStart st) (pos st))
  /\ Forall (pushed_ok s tr) (safeRanges st).

(** A position opens an unsafe range when it is not normal text and is the
    first code unit of the body or follows normal text. *)
Definition unsafe_range_start (tr : list ScanContext) (i : nat) : Prop :=
  (exists x, tr !! i = Some x /\ x <> normal)
  /\ (i = 0 \/ tr !! (i - 1) = Some normal).

(** *** The scan, in words

    What [findSafeRanges] takes for code, told on the text alone.  The scan
    reads the body from its start, in normal text, inside a fenced block
    opened by [n] characters [c], or inside an inline span.

    In normal text a fence opens at a run of three or more backticks or
    tildes, wherever on the line the run stands, and takes the rest of the
    line; an inline span opens at a backtick that no backtick follows;
    every other code unit is read as text.  A fenced block closes at the
    start of a line with a run of at least [n] characters [c], which takes
    the rest of the line and its newline.  An inline span closes at the
    next backtick, or ends before a newline, which is read as text. *)
Inductive scan_mode : Type :=
| in_text
| in_fence (c : char) (n : nat)
| in_span.

(** Exactly [n] code units [c] stand at [i]. *)
Definition run_at (s : jsstring) (c : char) (i n : nat) : Prop :=
  (forall k, i <= k < i + n -> s !! k = Some c) /\ s !! (i + n) <> Some c.

(** [j] is the end of the line that holds [i]: the first newline from [i]
    on, or the end of the body. *)
Definition line_end (s : jsstring) (i j : nat) : Prop :=
  i <= j <= length s
  /\ (forall k, i <= k < j -> s !! k <> Some ch_nl)
  /\ (j < length s -> s !! j = Some ch_nl).

Definition fence_opens (s : jsstring) (i : nat) (c : char) (n : nat) : Prop :=
  (c = ch_backtick \/ c = ch_tilde) /\ 3 <= n /\ run_at s c i n.

Definition span_opens (s : jsstring) (i : nat) : Prop :=
  s !! i = Some ch_backtick /\ s !! S i <> Some ch_backtick.

Definition fence_closes (s : jsstring) (i : nat) (c : char) (n m : nat) : Prop :=
  (i = 0 \/ s !! (i - 1) = Some ch_nl) /\ 0 < m /\ n <= m /\ run_at s c i m.

(** Whether the code units a step takes are text or code. *)
Inductive step_kind : Type := as_text | as_code.

Inductive read_step (s : jsstring) : step_kind -> nat * scan_mode -> nat * scan_mode -> Prop :=
| read_plain i :
    i < length s -> (forall c n, ~ fence_opens s i c n) -> ~ span_opens s i ->
    read_step s as_text (i, in_text) (S i, in_text)
| read_fence_open i c n j :
    fence_opens s i c n -> line_end s (i + n) j ->
    read_step s as_code (i, in_text) (j, in_fence c n)
| read_span_open i :
    span_opens s i -> read_step s as_code (i, in_text) (S i, in_span)
| read_fenced i c n :
    i < length s -> (forall m, ~ fence_closes s i c n m) ->
    read_step s as_code (i, in_fence c n) (S i, in_fence c n)
| read_fence_close i c n m j :
    fence_closes s i c n m -> line_end s (i + m) j ->
    read_step s as_code (i, in_fence c n) (if decide (j < length s) then S j else j, in_text)
| read_span i :
    i < length s -> s !! i <> Some ch_backtick -> s !! i <> Some ch_nl ->
    read_step s as_code (i, in_span) (S i, in_span)
| read_span_close i :
    s !! i = Some ch_backtick -> read_step s as_code (i, in_span) (S i, in_text)
| read_span_eol i :
    s !! i = Some ch_nl -> read_step s as_text (i, in_span) (S i, in_text).

Definition read_next (s : jsstring) (p q : nat * scan_mode) : Prop :=
  exists kind, read_step s kind p q.

(** The scan arrives at position [p.1] in mode [p.2]. *)
Definition reads (s : jsstring) (p : nat * scan_mode) : Prop :=
  rtc (read_next s) (0, in_text) p.

(** The code unit at [k] is read as text. *)
Definition text_at (s : jsstring) (k : nat) : Prop :=
  exists m q, reads s (k, m) /\ read_step s as_text (k, m) q.

(** The code unit at [k] is taken by a step that reads code: it belongs to
    a fenced block, from the fence that opens it to the line that closes
    it, or to an inline span with its backticks. *)
Definition code_at (s : jsstring) (k : nat) : Prop :=
  exists p q, reads s p /\ read_step s as_code p q /\ p.1 <= k < q.1.

(** *** Fenced blocks, in the words of the specification

    A fenced block opens on a line that starts with three or more
    backticks or tildes, after at most three spaces, and closes on the next
    line that starts with at least as many of the same character.  Inline
    code does not pass a newline, so lines alone decide. *)
Definition spec_opening (line : jsstring) : option (nat * char * nat) :=
  let indent := run_length ch_space line in
  match drop indent line with
  | c :: _ =>
      let n := run_length c (drop indent line) in
      if (indent <=? 3) && (ceq c ch_backtick || ceq c ch_tilde) && (3 <=? n)
      then Some (indent, c, n) else None
  | [] => None
  end.

(** The newline between a line and the next, when there is a next. *)
Definition line_break (inside : bool) (rest : list jsstring) : list bool :=
  match rest with [] => [] | _ => [inside] end.

(** For each code unit of the lines, whether it is inside a fenced block. *)
Fixpoint spec_fence_scan (open : option (char * nat)) (lines : list jsstring) : list bool :=
  match lines with
  | [] => []
  | line :: rest =>
      match open with
      | None =>
          match spec_opening line with
          | Some (indent, c, n) =>
              replicate indent false ++ replicate (length line - indent) true
                ++ line_break true rest ++ spec_fence_scan (Some (c, n)) rest
          | None =>
              replicate (length line) false ++ line_break false rest
                ++ spec_fence_scan None rest
          end
      | Some (c, n) =>
          replicate (length line) true ++ line_break true rest
            ++ spec_fence_scan (if n <=? run_length c line then None else open) rest
      end
  end.

Definition spec_fenced (content : jsstring) : list bool :=
  spec_fence_scan None (split_on ch_nl content).

(** A body whose first fence stands in the middle of a line. *)
Definition fence_in_line : jsstring :=
  str "a ```" ++ [ch_nl] ++ str "```" ++ [ch_nl] ++ str "@./x" ++ [ch_nl] ++ str "```".

(** The mode the local variables of the scanner stand for. *)
Definition mode_of (st : scan_state) : scan_mode :=
  match context st with
  | normal => in_text
  | fenced_code => in_fence (default ch_backtick (fenceChar st)) (fenceLen st)
  | inline_code => in_span
  end.

(** A fence opens at [k], where the scan arrives in normal text. *)
Definition fence_read_at (s : jsstring) (k : nat) : Prop :=
  reads s (k, in_text) /\ exists c n, fence_opens s k c n.

(** What the scanner maintains with respect to the scan in words: it is
    where the scan arrives, what it classified as normal is read as text,
    and a fenced block it entered at the start of the body or after normal
    text begins with a fence read in normal text. *)
Definition read_inv (s : jsstring) (st : scan_state) (tr : list ScanContext) : Prop :=
  reads s (pos st, mode_of st)
  /\ (forall k, tr !! k = Some normal -> text_at s k)
  /\ (forall k, tr !! k = Some fenced_code -> (k = 0 \/ tr !! (k - 1) = Some normal) ->
        fence_read_at s k)
  /\ (context st = fenced_code -> is_Some (fenceChar st) /\ last tr = Some fenced_code).

(** *** Spans of directives *)

(** The pattern a directive comes from: the file pattern yields file, glob
    and symbol imports. *)
Inductive family : Type := FamFile | FamUrl | FamCommand | FamFence.

Global Instance family_eq_dec : EqDecision family.
Proof. solve_decision. Defined.

Definition action_family (a : ImportAction) : family :=
  match a with
  | FileImport _ _ _ _ | GlobImport _ _ _ | SymbolImport _ _ _ _ => FamFile
  | UrlImport _ _ _ => FamUrl
  | CommandImport _ _ _ => FamCommand
  | ExecutableCodeFence _ _ _ _ _ => FamFence
  end.

(** The half-open span [index, index + len original) a directive replaces. *)
Definition span_end (a : ImportAction) : nat :=
  action_index a + length (action_original a).

Definition spans_disjoint (a b : ImportAction) : Prop :=
  span_end a <= action_index b \/ span_end b <= action_index a.

(** [original] is the text of the body at [index]. *)
Definition occurs_at (content : jsstring) (a : ImportAction) : Prop :=
  span_end a <= length content
  /\ slice content (action_index a) (span_end a) = action_original a.

Definition strictly_ascending (ds : list ImportAction) : Prop :=
  StronglySorted (fun a b => action_index a < action_index b) ds.

Definition pairwise_disjoint (ds : list ImportAction) : Prop :=
  forall i j a b, i <> j -> ds !! i = Some a -> ds !! j = Some b -> spans_disjoint a b.

(** The same, for directives that come from one pattern. *)
Definition pairwise_disjoint_in_family (ds : list ImportAction) : Prop :=
  forall i j a b, i <> j -> ds !! i = Some a -> ds !! j = Some b ->
    action_family a = action_family b -> spans_disjoint a b.

(** The text each pattern requires where its match starts. *)
Definition head_ok (s : jsstring) (f : family) (i : nat) : Prop :=
  match f with
  | FamFile =>
      s !! i = Some ch_at
      /\ (s !! S i = Some ch_tilde \/ s !! S i = Some ch_dot \/ s !! S i = Some ch_slash)
  | FamUrl => s !! i = Some ch_at /\ s !! S i = Some 104%N
  | FamCommand => s !! i = Some ch_bang
  | FamFence =>
      s !! i = Some ch_backtick /\ s !! S i = Some ch_backtick
      /\ s !! S (S i) = Some ch_backtick
  end.

(** What one pattern contributes to the directives of a body. *)
Definition actions_of_family (content : jsstring) (f : family) : list ImportAction :=
  let ranges := findSafeRanges content in
  match f with
  | FamFile => file_actions content ranges
  | FamUrl => url_actions content ranges
  | FamCommand => command_actions content ranges
  | FamFence => fence_actions content (unsafeStarts content ranges)
  end.

(** The gate a directive passed: a safe range, or for an executable fence the
    start of an unsafe gap. *)
Definition gate_ok (content : jsstring) (a : ImportAction) : Prop :=
  if is_exec_fence a
  then action_index a ∈ unsafeStarts content (findSafeRanges content)
  else isInSafeRange (action_index a) (findSafeRanges content) = true.

(** ** Injection of resolved imports ([src/imports.ts]) *)

(** [ParsedImport], the resolver's view of a directive. *)
Inductive ParsedImport : Type :=
| PFile (full path : jsstring) (index : nat)
| PUrl (full url : jsstring) (index : nat)
| PCommand (full command : jsstring) (index : nat)
| PFence (full : jsstring) (action : ImportAction) (index : nat).

Definition p_full (p : ParsedImport) : jsstring :=
  match p with PFile f _ _ | PUrl f _ _ | PCommand f _ _ | PFence f _ _ => f end.

Definition p_index (p : ParsedImport) : nat :=
  match p with PFile _ _ i | PUrl _ _ i | PCommand _ _ i | PFence _ _ i => i end.

(** The [rawActions.map] of [expandImports]: line ranges and symbols go back
    into the path. *)
Definition to_parsed (a : ImportAction) : ParsedImport :=
  match a with
  | FileImport path (Some (start, end_)) original index =>
      PFile original
        (path ++ [ch_colon] ++ Z_to_jsstring start ++ [ch_minus] ++ Z_to_jsstring end_) index
  | FileImport path None original index => PFile original path index
  | GlobImport pattern original index => PFile original pattern index
  | SymbolImport path symbol original index =>
      PFile original (path ++ [ch_hash] ++ symbol) index
  | UrlImport url original index => PUrl original url index
  | CommandImport command original index => PCommand original command index
  | ExecutableCodeFence _ _ _ original index => PFence original a index
  end.

Record ResolvedImportResult : Type := Resolved {
  r_import : ParsedImport;
  r_content : jsstring;
}.

Definition res_index (r : ResolvedImportResult) : nat := p_index (r_import r).
Definition res_full (r : ResolvedImportResult) : jsstring := p_full (r_import r).
Definition res_end (r : ResolvedImportResult) : nat := res_index r + length (res_full r).

(** [result.slice(0, imp.index) + replacement
     + result.slice(imp.index + imp.full.length)] *)
Definition splice (result : jsstring) (r : ResolvedImportResult) : jsstring :=
  slice result 0 (res_index r) ++ r_content r ++ slice_from result (res_end r).

Definition by_index_desc (a b : ResolvedImportResult) : Z :=
  (Z.of_nat (res_index b) - Z.of_nat (res_index a))%Z.

Definition injectResolvedImports (content : jsstring) (resolved : list ResolvedImportResult)
    : jsstring :=
  fold_left splice (sort_by by_index_desc resolved) content.

(** The original of a resolved directive is the text of the body at its
    index. *)
Definition resolved_occurs (content : jsstring) (r : ResolvedImportResult) : Prop :=
  res_end r <= length content
  /\ slice content (res_index r) (res_end r) = res_full r.

Definition resolved_disjoint (a b : ResolvedImportResult) : Prop :=
  res_end a <= res_index b \/ res_end b <= res_index a.

Definition resolved_pairwise_disjoint (rs : list ResolvedImportResult) : Prop :=
  forall i j a b, i <> j -> rs !! i = Some a -> rs !! j = Some b -> resolved_disjoint a b.

(** The sum over the directives of [len(replacement) - len(original)]. *)
Definition length_delta (rs : list ResolvedImportResult) : Z :=
  foldr (fun r acc =>
           (Z.of_nat (length (r_content r)) - Z.of_nat (length (res_full r)) + acc)%Z)
        0%Z rs.

Definition descending (rs : list ResolvedImportResult) : Prop :=
  StronglySorted (fun a b => res_index b <= res_index a) rs.

(** ** Line ranges ([extractLines], [src/imports.ts]) *)

(** The index [Array.prototype.slice] computes from a possibly negative
    argument: negative arguments count from the end. *)
Definition relative_index (len : nat) (k : Z) : nat :=
  if (k <? 0)%Z then Z.to_nat (Z.max 0 (Z.of_nat len + k))
  else Nat.min (Z.to_nat k) len.

(** [arr.slice(a, b)]. *)
Definition array_slice {A : Type} (l : list A) (a b : Z) : list A :=
  let from := relative_index (length l) a in
  let to := relative_index (length l) b in
  take (to - from) (drop from l).

Definition extractLines (content : jsstring) (start end_ : Z) : jsstring :=
  let lines := split_on ch_nl content in
  let startIdx := Z.max 0 (start - 1) in
  let endIdx := Z.min (Z.of_nat (length lines)) end_ in
  join [ch_nl] (array_slice lines startIdx endIdx).

(** The lines numbered [lo] to [hi] inclusive, the first line having number
    [first]. *)
Fixpoint lines_numbered (first : Z) (lo hi : Z) (lines : list jsstring) : list jsstring :=
  match lines with
  | [] => []
  | l :: rest =>
      let tail := lines_numbered (first + 1) lo hi rest in
      if ((lo <=? first) && (first <=? hi))%Z then l :: tail else tail
  end.

(** What the claim says [extractLines] returns: lines [max(1, start)] through
    [min(lineCount, end)], counted from one, joined by newlines. *)
Definition clamped_lines (content : jsstring) (start end_ : Z) : jsstring :=
  let lines := split_on ch_nl content in
  join [ch_nl]
    (lines_numbered 1 (Z.max 1 start) (Z.min (Z.of_nat (length lines)) end_) lines).

(** ** Front matter and the argument compiler ([src/command.ts]) *)

(** The values a parsed front matter holds.  Numbers are the integers that
    a number holds exactly and [String] prints in decimal, those below
    [2^53] in magnitude; [VNum] of another integer stands for no value of
    the program. *)
#[warnings="-register-all"]
Inductive value : Type :=
| VUndefined
| VNull
| VBool (b : bool)
| VNum (n : Z)
| VStr (s : jsstring)
| VArr (items : list value)
| VObj (fields : list (jsstring * value)).

(** A front matter, as [Object.entries] lists it. *)
Abbreviation AgentFrontmatter := (list (jsstring * value)) (only parsing).

Definition ch_comma : char := 44%N.

(** [String(v)]: an array prints its elements separated by commas, with
    nothing for [null] and [undefined]. *)
Fixpoint String_ (v : value) : jsstring :=
  match v with
  | VUndefined => str "undefined"
  | VNull => str "null"
  | VBool true => str "true"
  | VBool false => str "false"
  | VNum n => Z_to_jsstring n
  | VStr s => s
  | VArr items =>
      join [ch_comma]
        (map (fun e => match e with
                       | VUndefined | VNull => []
                       | _ => String_ e
                       end) items)
  | VObj _ => str "[object Object]"
  end.

Definition SYSTEM_KEYS : list jsstring := [str "args"].

(** [/^\$\d+$/] *)
Definition POSITIONAL_KEY_PATTERN : regex :=
  rseqs [RBol; rlit_char ch_dollar; rplus (RChar is_digit); REol].

Definition isPositionalKey (key : jsstring) : bool := test POSITIONAL_KEY_PATTERN key.

Definition toFlag (key : jsstring) : jsstring :=
  if startsWith [ch_minus] key then key
  else if length key =? 1 then [ch_minus] ++ key
  else [ch_minus; ch_minus] ++ key.

(** [typeof value === "object" && value !== null && !Array.isArray(value)] *)
Definition is_plain_object (v : value) : bool :=
  match v with VObj _ => true | _ => false end.

(** The body of the [for] loop of [buildArgs]: [args] after one entry. *)
Definition buildArgs_entry (templateVars : gset jsstring) (args : list jsstring)
    (entry : jsstring * value) : list jsstring :=
  let '(key, value) := entry in
  if bool_decide (key ∈ SYSTEM_KEYS) then args
  else if isPositionalKey key then args
  else if startsWith [ch_dollar] key then args
  else if startsWith [ch_underscore] key then args
  else if bool_decide (key ∈ templateVars) then args
  else if bool_decide (key = str "env") && is_plain_object value then args
  else
    match value with
    | VUndefined | VNull | VBool false => args
    | VBool true => args ++ [toFlag key]
    | VArr items => fold_left (fun acc v => acc ++ [toFlag key; String_ v]) items args
    | _ => args ++ [toFlag key; String_ value]
    end.

Definition buildArgs (frontmatter : AgentFrontmatter) (templateVars : gset jsstring)
    : list jsstring :=
  fold_left (buildArgs_entry templateVars) frontmatter [].

(** *** The argument compiler in the words of the specification *)

(** The keys that never become flags. *)
Definition skipped_key (templateVars : gset jsstring) (key : jsstring) : bool :=
  bool_decide (key = str "args")
  || isPositionalKey key
  || startsWith [ch_dollar] key
  || startsWith [ch_underscore] key
  || bool_decide (key ∈ templateVars).

(** The flag as the claim renders it: [-k] for a single character, [--key]
    otherwise. *)
Definition claimed_flag (key : jsstring) : jsstring :=
  if length key =? 1 then [ch_minus] ++ key else [ch_minus; ch_minus] ++ key.

(** What one entry emits, given the rendering of flags. *)
Definition emitted (flag : jsstring -> jsstring) (templateVars : gset jsstring)
    (entry : jsstring * value) : list jsstring :=
  let '(key, value) := entry in
  if skipped_key templateVars key then []
  else
    match value with
    | VUndefined | VNull | VBool false => []
    | VBool true => [flag key]
    | VArr items => items ≫= (fun v => [flag key; String_ v])
    | VObj _ => if bool_decide (key = str "env") then [] else [flag key; String_ value]
    | _ => [flag key; String_ value]
    end.

Definition claimed_buildArgs (frontmatter : AgentFrontmatter) (templateVars : gset jsstring)
    : list jsstring :=
  frontmatter ≫= emitted claimed_flag templateVars.

(** ** Interactive mode ([applyInteractiveMode], [src/config.ts]) *)

(** What the source uses of a [ToolAdapter]. *)
Record ToolAdapter : Type := {
  adapter_name : jsstring;
  adapter_getDefaults : list (jsstring * value);
  adapter_applyInteractiveMode : list (jsstring * value) -> list (jsstring * value);
}.

(** [key in frontmatter] *)
Definition has_key (key : jsstring) (fm : AgentFrontmatter) : bool :=
  existsb (fun kv => bool_decide (kv.1 = key)) fm.

(** [frontmatter[key]] *)
Fixpoint get_key (key : jsstring) (fm : AgentFrontmatter) : value :=
  match fm with
  | [] => VUndefined
  | (k, v) :: rest => if bool_decide (k = key) then v else get_key key rest
  end.

(** [delete result[key]] on a copy *)
Definition delete_key (key : jsstring) (fm : AgentFrontmatter) : AgentFrontmatter :=
  filter (fun kv => kv.1 <> key) fm.

Definition is_true (v : value) : bool := match v with VBool true => true | _ => false end.
Definition is_false (v : value) : bool := match v with VBool false => true | _ => false end.
Definition is_null (v : value) : bool := match v with VNull => true | _ => false end.
Definition is_undefined (v : value) : bool := match v with VUndefined => true | _ => false end.
Definition is_empty_string (v : value) : bool := match v with VStr [] => true | _ => false end.

Section interactive.
(** [getAdapter] of [src/adapters], which is not part of these sources: the
    registry of tool adapters, by command name. *)
Variable getAdapter : jsstring -> ToolAdapter.

Definition applyInteractiveMode (frontmatter : AgentFrontmatter) (command : jsstring)
    (interactiveFromExternal : bool) : AgentFrontmatter :=
  let hasInteractiveKey := has_key (str "_interactive") frontmatter in
  let hasIKey := has_key (str "_i") frontmatter in
  let interactiveValue :=
    if hasInteractiveKey then get_key (str "_interactive") frontmatter
    else get_key (str "_i") frontmatter in
  let interactiveMode :=
    interactiveFromExternal
    || is_true interactiveValue
    || is_empty_string interactiveValue
    || (hasInteractiveKey && is_null interactiveValue)
    || (hasIKey && is_null interactiveValue)
    || (negb (is_undefined interactiveValue) && negb (is_false interactiveValue)) in
  if negb interactiveMode then frontmatter
  else
    let result := delete_key (str "_i") (delete_key (str "_interactive") frontmatter) in
    adapter_applyInteractiveMode (getAdapter command) result.

(** The transform applied in interactive mode. *)
Definition interactive_transform (frontmatter : AgentFrontmatter) (command : jsstring)
    : AgentFrontmatter :=
  adapter_applyInteractiveMode (getAdapter command)
    (delete_key (str "_i") (delete_key (str "_interactive") frontmatter)).
End interactive.

(** The condition of the claim: the external flag, or some [_interactive] or
    [_i] key present with a value other than [false]. *)
Definition claimed_interactive (frontmatter : AgentFrontmatter) (external : bool) : bool :=
  external
  || (has_key (str "_interactive") frontmatter
      && negb (is_false (get_key (str "_interactive") frontmatter)))
  || (has_key (str "_i") frontmatter
      && negb (is_false (get_key (str "_i") frontmatter))).

(** The condition of the code: [_interactive] decides when it is present,
    [_i] otherwise, and a key holding [undefined] counts as absent. *)
Definition deciding_value (frontmatter : AgentFrontmatter) : value :=
  if has_key (str "_interactive") frontmatter
  then get_key (str "_interactive") frontmatter
  else get_key (str "_i") frontmatter.

Definition interactive_requested (frontmatter : AgentFrontmatter) (external : bool) : bool :=
  external
  || (negb (is_undefined (deciding_value frontmatter))
      && negb (is_false (deciding_value frontmatter))).

(** Modelled from the spec: the registry [getAdapter] of [src/adapters] is not
    part of these sources.  Unknown tool names fall back to a default adapter
    that contributes no defaults and removes only the [_interactive] and [_i]
    keys, which [applyInteractiveMode] has already deleted when it calls the
    adapter. *)
Definition defaultAdapter (name : jsstring) : ToolAdapter :=
  {| adapter_name := name;
     adapter_getDefaults := [];
     adapter_applyInteractiveMode := fun fm => fm |}.

(** ** Own properties in their order

    An ordinary object lists its own properties with the array indices
    first, in ascending order, and the other names after them in the order
    of their creation.  The lists below are in that order, the one
    [Object.entries] and a spread follow. *)

Definition key_proto : jsstring := str "__proto__".

(** The data properties of [Object.prototype]: its methods.  All are truthy
    and none has an enumerable property of its own.  The remaining property
    is the accessor [__proto__]. *)
Definition OBJECT_PROTOTYPE_METHODS : list jsstring :=
  [str "constructor"; str "hasOwnProperty"; str "isPrototypeOf";
   str "propertyIsEnumerable"; str "toLocaleString"; str "toString"; str "valueOf";
   str "__defineGetter__"; str "__defineSetter__"; str "__lookupGetter__";
   str "__lookupSetter__"].

(** An array index: the canonical decimal name of an integer below
    [2^32 - 1]. *)
Definition array_index (key : jsstring) : option Z :=
  let n := parse_digits key in
  if bool_decide (key = Z_to_jsstring n) && (n <? 4294967295)%Z then Some n else None.

Section own_properties.
Context {A : Type}.

Fixpoint get_own (key : jsstring) (l : list (jsstring * A)) : option A :=
  match l with
  | [] => None
  | e :: l' => if bool_decide (e.1 = key) then Some e.2 else get_own key l'
  end.

(** The value of an existing own property changes in place. *)
Fixpoint update_own (key : jsstring) (v : A) (l : list (jsstring * A))
    : list (jsstring * A) :=
  match l with
  | [] => []
  | e :: l' => if bool_decide (e.1 = key) then (key, v) :: l' else e :: update_own key v l'
  end.

(** A new array index goes before the first greater index and before the
    other names. *)
Fixpoint insert_index (n : Z) (key : jsstring) (v : A) (l : list (jsstring * A))
    : list (jsstring * A) :=
  match l with
  | [] => [(key, v)]
  | e :: l' =>
      match array_index e.1 with
      | Some m => if (m <? n)%Z then e :: insert_index n key v l' else (key, v) :: l
      | None => (key, v) :: l
      end
  end.

(** A new own property. *)
Definition define_own (key : jsstring) (v : A) (l : list (jsstring * A))
    : list (jsstring * A) :=
  match array_index key with
  | Some n => insert_index n key v l
  | None => l ++ [(key, v)]
  end.

(** The own data property [key] is given the value [v]. *)
Definition set_own (key : jsstring) (v : A) (l : list (jsstring * A))
    : list (jsstring * A) :=
  match get_own key l with
  | Some _ => update_own key v l
  | None => define_own key v l
  end.

(** The object literal [{ ...l }]: the properties are made one by one. *)
Definition own_of (l : list (jsstring * A)) : list (jsstring * A) :=
  fold_left (fun acc e => set_own e.1 e.2 acc) l [].
End own_properties.

(** ** The configuration cascade ([src/config.ts])

    [GlobalConfig] has one optional property, [commands], an object that
    maps command names to their defaults, and the defaults of a command are
    an object from keys to values of any kind.  A [commands] object is read
    and written by command name, so besides its own properties its
    prototype matters: a command named [__proto__] is an own property after
    [JSON.parse] or [yaml.load], but assigning to that name on an object
    made by [{}] reaches the accessor of [Object.prototype] and replaces the
    prototype.  The defaults of a command are only spread and listed, which
    looks at own properties alone; they are finite maps. *)

(** What the code asks of a value it finds through a prototype: whether
    [v || {}] takes it, and the own enumerable properties [{ ...v }]
    copies. *)
Class JsValue (V : Type) : Type := {
  truthy_value : V -> bool;
  spread_value : V -> gmap jsstring V;
}.

Section config.
Context `{JsValue V}.

Record CommandsObject : Type := Commands {
  (** the own properties, as [Object.entries] lists them *)
  own_commands : list (jsstring * gmap jsstring V);
  (** the prototype when an assignment to [__proto__] has set one, an
      object made by a literal; [None] for [Object.prototype] *)
  prototype : option (gmap jsstring V);
}.

Record GlobalConfig : Type := Config {
  commands : option CommandsObject;
}.

(** What [cmds[cmd]] evaluates to. *)
Inductive property : Type :=
| OwnProperty (defaults : gmap jsstring V)
| Inherited (v : V)
| PrototypeOf (p : option (gmap jsstring V))
| Method
| Undefined.

(** The properties of [Object.prototype], at the end of the chain: the
    getter of [__proto__] returns the prototype of the object the read
    started from. *)
Definition object_prototype_get (cmds : CommandsObject) (cmd : jsstring) : property :=
  if bool_decide (cmd = key_proto) then PrototypeOf (prototype cmds)
  else if bool_decide (cmd ∈ OBJECT_PROTOTYPE_METHODS) then Method
  else Undefined.

(** [cmds[cmd]]: an own property, else a property of the prototype, else a
    property of [Object.prototype]. *)
Definition get_command (cmds : CommandsObject) (cmd : jsstring) : property :=
  match get_own cmd (own_commands cmds) with
  | Some defaults => OwnProperty defaults
  | None =>
      match prototype cmds with
      | Some p =>
          match p !! cmd with
          | Some v => Inherited v
          | None => object_prototype_get cmds cmd
          end
      | None => object_prototype_get cmds cmd
      end
  end.

Definition truthy_property (x : property) : bool :=
  match x with
  | OwnProperty _ | PrototypeOf _ | Method => true
  | Inherited v => truthy_value v
  | Undefined => false
  end.

(** [{ ...x }]: the own enumerable properties of [x]; [Object.prototype]
    and its methods have none. *)
Definition spread_property (x : property) : gmap jsstring V :=
  match x with
  | OwnProperty defaults => defaults
  | Inherited v => spread_value v
  | PrototypeOf (Some p) => p
  | PrototypeOf None | Method | Undefined => ∅
  end.

(** [{ ...(x || {}) }] *)
Definition spread_or_empty (x : property) : gmap jsstring V :=
  if truthy_property x then spread_property x else ∅.

(** [cmds[cmd] = defaults], where [defaults] is an object just made.  An
    own property is overwritten.  Otherwise the name [__proto__] reaches
    the setter of [Object.prototype], which makes [defaults] the prototype,
    unless the prototype has a property of that name, a data property; in
    that case and for every other name an own property is made. *)
Definition set_command (cmds : CommandsObject) (cmd : jsstring)
    (defaults : gmap jsstring V) : CommandsObject :=
  let as_own := Commands (set_own cmd defaults (own_commands cmds)) (prototype cmds) in
  match get_own cmd (own_commands cmds) with
  | Some _ => as_own
  | None =>
      if bool_decide (cmd = key_proto) then
        match prototype cmds with
        | Some p => if bool_decide (is_Some (p !! key_proto)) then as_own
                    else Commands (own_commands cmds) (Some defaults)
        | None => Commands (own_commands cmds) (Some defaults)
        end
      else as_own
  end.

(** [const result = {};
     if (config.commands) {
       result.commands = {};
       for (const [cmd, defaults] of Object.entries(config.commands))
         result.commands[cmd] = { ...defaults };
     }] *)
Definition deepCloneConfig (config : GlobalConfig) : GlobalConfig :=
  match commands config with
  | Some cmds =>
      Config (Some (fold_left (fun rc e => set_command rc e.1 e.2)
                      (own_commands cmds) (Commands [] None)))
  | None => Config None
  end.

(** [result.commands[cmd] = { ...(result.commands[cmd] || {}), ...defaults }]:
    in a spread the later source wins, and [∪] on maps prefers its left
    argument. *)
Definition merge_entry (rc : CommandsObject) (e : jsstring * gmap jsstring V)
    : CommandsObject :=
  set_command rc e.1 (e.2 ∪ spread_or_empty (get_command rc e.1)).

(** [{ ...result.commands }]: the own properties, under [Object.prototype]. *)
Definition spread_commands (cmds : CommandsObject) : CommandsObject :=
  Commands (own_of (own_commands cmds)) None.

(** [const result = deepCloneConfig(base);
     if (override.commands) {
       result.commands = result.commands ? { ...result.commands } : {};
       for (const [cmd, defaults] of Object.entries(override.commands))
         result.commands[cmd] = { ...(result.commands[cmd] || {}), ...defaults };
     }] *)
Definition mergeConfigs (base override : GlobalConfig) : GlobalConfig :=
  let result := deepCloneConfig base in
  match commands override with
  | Some ocmds =>
      let copy := match commands result with
                  | Some rcmds => spread_commands rcmds
                  | None => Commands [] None
                  end in
      Config (Some (fold_left merge_entry (own_commands ocmds) copy))
  | None => result
  end.

(** The defaults a configuration holds for a command as an own property of
    its [commands]. *)
Definition command_defaults (config : GlobalConfig) (cmd : jsstring)
    : option (gmap jsstring V) :=
  commands config ≫= fun cmds => get_own cmd (own_commands cmds).

(** The names of the own properties are distinct, as in every object, and
    none of them is [__proto__]. *)
Definition no_proto_command (config : GlobalConfig) : Prop :=
  match commands config with
  | Some cmds => NoDup (own_commands cmds).*1 /\ (key_proto ∉ (own_commands cmds).*1)
  | None => True
  end.

(** A configuration as the loaders read it from a file without a command
    named [__proto__]: in addition the prototype of [commands] is
    [Object.prototype]. *)
Definition plain (config : GlobalConfig) : Prop :=
  no_proto_command config
  /\ match commands config with
     | Some cmds => prototype cmds = None
     | None => True
     end.

(** Two configurations cannot be told apart by reading: both have
    [commands] or neither has, with the same commands in some order, the
    same prototype, and the same answer for every name read. *)
Definition same_config (a b : GlobalConfig) : Prop :=
  match commands a, commands b with
  | Some ca, Some cb =>
      own_commands ca ≡ₚ own_commands cb
      /\ prototype ca = prototype cb
      /\ forall cmd, get_command ca cmd = get_command cb cmd
  | None, None => True
  | _, _ => False
  end.
End config.

Arguments CommandsObject : clear implicits.
Arguments GlobalConfig : clear implicits.
Arguments property : clear implicits.

(** The front-matter values as such values: [null], [undefined], [false],
    [0] and the empty string are falsy; an object spreads its properties, an
    array its elements and a string its code units under their indices. *)
Definition value_truthy (v : value) : bool :=
  match v with
  | VUndefined | VNull | VBool false | VNum 0 | VStr [] => false
  | _ => true
  end.

Definition value_spread (v : value) : gmap jsstring value :=
  match v with
  | VObj fields => list_to_map fields
  | VArr items => list_to_map (imap (fun i x => (N_to_jsstring (N.of_nat i), x)) items)
  | VStr s => list_to_map (imap (fun i c => (N_to_jsstring (N.of_nat i), VStr [c])) s)
  | _ => ∅
  end.

#[global] Instance value_js : JsValue value :=
  {| truthy_value := value_truthy; spread_value := value_spread |}.

(** Strings alone. *)
#[global] Instance jsstring_js : JsValue jsstring :=
  {| truthy_value := truthy;
     spread_value := fun s => list_to_map (imap (fun i c => (N_to_jsstring (N.of_nat i), [c])) s) |}.

(** Three layers with defaults for the commands [claude] and [gemini]. *)
Definition config_a : GlobalConfig value :=
  Config (Some (Commands [(str "claude", {[str "model" := VStr (str "opus")]})] None)).
Definition config_b : GlobalConfig value :=
  Config (Some (Commands [(str "claude", {[str "print" := VBool true]});
                          (str "gemini", {[str "model" := VStr (str "pro")]})] None)).
Definition config_c : GlobalConfig value :=
  Config (Some (Commands [(str "gemini", {[str "model" := VStr (str "flash")]})] None)).

(** [{ commands: { x: { r: 1 } } }], [{}] and what [JSON.parse] makes of
    [{ "commands": { "__proto__": { "x": { "p": 2 } }, "x": { "q": 3 } } }]. *)
Definition config_x : GlobalConfig value :=
  Config (Some (Commands [(str "x", {[str "r" := VNum 1]})] None)).
Definition config_empty : GlobalConfig value := Config None.
Definition config_proto : GlobalConfig value :=
  Config (Some (Commands [(key_proto, {[str "x" := VObj [(str "p", VNum 2)]]});
                          (str "x", {[str "q" := VNum 3]})] None)).

(** ** The configuration cascade on the heap

    For what [mergeConfigs] shares with its arguments, objects live in a
    store and are held by reference.  An object has its own properties, in
    their order, and a prototype; a configuration is an object, given by
    its location.  Arrays are held as the objects they are, with their
    indices as properties. *)

Module Heap.
Abbreviation loc := positive (only parsing).

Inductive hval : Type :=
| HUndefined
| HNull
| HBool (b : bool)
| HNum (n : Z)
| HStr (s : jsstring)
| HRef (l : loc)
(** [Object.prototype] and its methods *)
| HObjectPrototype
| HMethod (name : jsstring).

Inductive prototype : Type :=
| ProtoObject
| ProtoNull
| ProtoRef (l : loc).

Record object : Type := Obj {
  props : list (jsstring * hval);
  proto : prototype;
}.

Abbreviation heap := (gmap positive object) (only parsing).

(** A new object, at a location not in use. *)
Definition alloc (o : object) (h : heap) : loc * heap :=
  let l := fresh (dom h) in (l, <[l := o]> h).

Definition load (h : heap) (l : loc) : object := default (Obj [] ProtoObject) (h !! l).

(** Where the search for a property ends: at a data property of the object
    or of an object of its prototype chain, at [Object.prototype], or at
    [null]. *)
Inductive lookup_end : Type :=
| Data (v : hval)
| EndObjectPrototype
| EndNull.

(** The search along the prototype chain.  A chain has no cycle, so it
    passes through each object of the store at most once, and [fuel] equal
    to the size of the store is not used up. *)
Fixpoint lookup_chain (fuel : nat) (h : heap) (l : loc) (key : jsstring) : lookup_end :=
  match get_own key (props (load h l)) with
  | Some v => Data v
  | None =>
      match proto (load h l) with
      | ProtoObject => EndObjectPrototype
      | ProtoNull => EndNull
      | ProtoRef l' =>
          match fuel with
          | S fuel' => lookup_chain fuel' h l' key
          | 0 => EndNull
          end
      end
  end.

(** The search from [l] ends with [e] after [n] steps up the chain. *)
Inductive ends_after (h : heap) (key : jsstring) : nat -> loc -> lookup_end -> Prop :=
| ends_own l v :
    get_own key (props (load h l)) = Some v -> ends_after h key 0 l (Data v)
| ends_object l :
    get_own key (props (load h l)) = None -> proto (load h l) = ProtoObject ->
    ends_after h key 0 l EndObjectPrototype
| ends_null l :
    get_own key (props (load h l)) = None -> proto (load h l) = ProtoNull ->
    ends_after h key 0 l EndNull
| ends_up n l l' e :
    get_own key (props (load h l)) = None -> proto (load h l) = ProtoRef l' ->
    ends_after h key n l' e -> ends_after h key (S n) l e.

Definition proto_value (p : prototype) : hval :=
  match p with
  | ProtoObject => HObjectPrototype
  | ProtoNull => HNull
  | ProtoRef l => HRef l
  end.

(** [l[key]].  At [Object.prototype] the getter of [__proto__] returns the
    prototype of [l]. *)
Definition get_prop (h : heap) (l : loc) (key : jsstring) : hval :=
  match lookup_chain (size h) h l key with
  | Data v => v
  | EndObjectPrototype =>
      if bool_decide (key = key_proto) then proto_value (proto (load h l))
      else if bool_decide (key ∈ OBJECT_PROTOTYPE_METHODS) then HMethod key
      else HUndefined
  | EndNull => HUndefined
  end.

Definition truthy (v : hval) : bool :=
  match v with
  | HUndefined | HNull | HBool false | HNum 0 | HStr [] => false
  | _ => true
  end.

(** The code units of a string under their indices. *)
Definition string_entries (s : jsstring) : list (jsstring * hval) :=
  imap (fun i c => (N_to_jsstring (N.of_nat i), HStr [c])) s.

(** [Object.entries(v)], for a [v] that is not [null] or [undefined]: the
    own enumerable properties.  Numbers, booleans, [Object.prototype] and
    its methods have none. *)
Definition entries (h : heap) (v : hval) : list (jsstring * hval) :=
  match v with
  | HRef l => props (load h l)
  | HStr s => string_entries s
  | _ => []
  end.

(** What [{ ...v }] copies: the same properties, and nothing for [null]
    and [undefined]. *)
Definition spread (h : heap) (v : hval) : list (jsstring * hval) := entries h v.

Definition key_commands : jsstring := str "commands".

(** The object literal [{ ...l }]: a new ordinary object. *)
Definition literal (l : list (jsstring * hval)) : object := Obj (own_of l) ProtoObject.

(** [o[key] = v] when it makes or changes an own property of [o]. *)
Definition write_own (key : jsstring) (v : hval) (o : object) : object :=
  Obj (set_own key v (props o)) (proto o).

(** What [target[key] = ...] finds above [target] when it has no own
    property [key]. *)
Definition inherited (h : heap) (target : loc) (key : jsstring) : lookup_end :=
  match proto (load h target) with
  | ProtoObject => EndObjectPrototype
  | ProtoNull => EndNull
  | ProtoRef l' => lookup_chain (size h) h l' key
  end.

(** [target[key] = { ...l }]: the right-hand side is evaluated to a new
    object, which is then assigned.  An own property is overwritten.
    Otherwise the name [__proto__], when the search for it ends at
    [Object.prototype], reaches the setter there, and the new object
    becomes the prototype of [target]; being new, it is not above itself.
    In every other case an own property is made: an inherited data property
    is writable. *)
Definition assign_new (h : heap) (target : loc) (key : jsstring)
    (l : list (jsstring * hval)) : loc * heap :=
  let '(new, h1) := alloc (literal l) h in
  let o := load h1 target in
  let o' :=
    match get_own key (props o) with
    | Some _ => write_own key (HRef new) o
    | None =>
        if bool_decide (key = key_proto) then
          match inherited h1 target key with
          | EndObjectPrototype => Obj (props o) (ProtoRef new)
          | Data _ | EndNull => write_own key (HRef new) o
          end
        else write_own key (HRef new) o
    end in
  (new, <[target := o']> h1).

(** [result.commands[cmd] = { ...defaults }] *)
Definition clone_entry (rc : loc) (h : heap) (e : jsstring * hval) : heap :=
  (assign_new h rc e.1 (spread h e.2)).2.

(** [const result = {};
     if (config.commands) {
       result.commands = {};
       for (const [cmd, defaults] of Object.entries(config.commands))
         result.commands[cmd] = { ...defaults };
     }] *)
Definition deepCloneConfig (config : loc) (h : heap) : loc * heap :=
  let '(result, h1) := alloc (literal []) h in
  let cmds := get_prop h1 config key_commands in
  if truthy cmds then
    let '(rc, h2) := assign_new h1 result key_commands [] in
    (result, fold_left (clone_entry rc) (entries h2 cmds) h2)
  else (result, h1).

(** [result.commands[cmd] = { ...(result.commands[cmd] || {}), ...defaults }] *)
Definition merge_entry (rc : loc) (h : heap) (e : jsstring * hval) : heap :=
  let existing := get_prop h rc e.1 in
  let under := if truthy existing then spread h existing else [] in
  (assign_new h rc e.1 (under ++ spread h e.2)).2.

(** [const result = deepCloneConfig(base);
     if (override.commands) {
       result.commands = result.commands ? { ...result.commands } : {};
       for (const [cmd, defaults] of Object.entries(override.commands))
         result.commands[cmd] = { ...(result.commands[cmd] || {}), ...defaults };
     }] *)
Definition mergeConfigs (base override : loc) (h : heap) : loc * heap :=
  let '(result, h1) := deepCloneConfig base h in
  let ocmds := get_prop h1 override key_commands in
  if truthy ocmds then
    let rcmds := get_prop h1 result key_commands in
    let '(copy, h2) :=
      assign_new h1 result key_commands (if truthy rcmds then spread h1 rcmds else []) in
    (result, fold_left (merge_entry copy) (entries h2 ocmds) h2)
  else (result, h1).

(** The locations a list of properties refers to. *)
Definition refs_of (l : list (jsstring * hval)) : gset loc :=
  list_to_set (omap (fun e => match e.2 with HRef l => Some l | _ => None end) l).

Definition proto_ref (p : prototype) : gset loc :=
  match p with ProtoRef l => {[l]} | _ => ∅ end.

(** Every own property of the object is a reference. *)
Definition all_refs (o : object) : Prop :=
  Forall (fun e => exists l, e.2 = HRef l) (props o).

(** The objects a configuration consists of: the configuration itself, its
    [commands] object, the object of each command, and the prototype of
    [commands] when it is not [Object.prototype]. *)
Definition config_objects (h : heap) (r : loc) : gset loc :=
  {[r]} ∪ match get_own key_commands (props (load h r)) with
          | Some (HRef lc) =>
              {[lc]} ∪ refs_of (props (load h lc)) ∪ proto_ref (proto (load h lc))
          | _ => ∅
          end.

(** The commands of a configuration are objects. *)
Definition commands_are_objects (h : heap) (r : loc) : Prop :=
  match get_own key_commands (props (load h r)) with
  | Some (HRef lc) => all_refs (load h lc)
  | _ => True
  end.

(** *** What the loops of the two functions maintain

    [h0] is the store before the call.  The store only grows, and the
    result, its [commands] object, every object stored in that and its
    prototype are objects that did not exist in [h0]. *)
Definition fresh_refs (h0 : heap) (o : object) : Prop :=
  Forall (fun e => exists l, e.2 = HRef l /\ l ∉ dom h0) (props o)
  /\ match proto o with
     | ProtoObject => True
     | ProtoNull => False
     | ProtoRef l => l ∉ dom h0
     end.

Definition frame_inv (h0 : heap) (result rc : loc) (h : heap) : Prop :=
  h0 ⊆ h
  /\ (result ∉ dom h0) /\ (rc ∉ dom h0) /\ result <> rc
  /\ h !! result = Some (Obj [(key_commands, HRef rc)] ProtoObject)
  /\ exists o, h !! rc = Some o /\ fresh_refs h0 o.

Definition clone_post (h0 : heap) (result : loc) (h : heap) : Prop :=
  (h0 ⊆ h /\ (result ∉ dom h0) /\ h !! result = Some (Obj [] ProtoObject))
  \/ exists rc, frame_inv h0 result rc h.

(** [l[key] = v] for a key other than [__proto__]: an own property of [l]
    is written or made. *)
Definition store_own (h : heap) (l : loc) (key : jsstring) (v : hval) : heap :=
  <[l := write_own key v (load h l)]> h.

(** The value at the end of a path of property names. *)
Definition get_path (h : heap) (l : loc) (path : list jsstring) : hval :=
  fold_left (fun v key => match v with HRef l' => get_prop h l' key | _ => HUndefined end)
    path (HRef l).
End Heap.

(** A store with two configurations, at [1] and at [4]; the defaults of the
    command [claude] in the first hold a list, at [7]. *)
Definition example_store : gmap positive Heap.object :=
  <[1%positive := Heap.literal [(Heap.key_commands, Heap.HRef 2%positive)]]>
  (<[2%positive := Heap.literal [(str "claude", Heap.HRef 3%positive)]]>
  (<[3%positive := Heap.literal [(str "model", Heap.HStr (str "opus"));
                                 (str "args", Heap.HRef 7%positive)]]>
  (<[4%positive := Heap.literal [(Heap.key_commands, Heap.HRef 5%positive)]]>
  (<[5%positive := Heap.literal [(str "claude", Heap.HRef 6%positive)]]>
  (<[6%positive := Heap.literal [(str "model", Heap.HStr (str "sonnet"))]]>
  (<[7%positive := Heap.literal [(str "0", Heap.HStr (str "--verbose"))]]> ∅)))))).

(** A store with [{ commands: { x: { r: 1 } } }] at [1], [{}] at [4] and, at
    [5], a configuration whose [commands] has an own property [__proto__]. *)
Definition proto_store : gmap positive Heap.object :=
  <[1%positive := Heap.literal [(Heap.key_commands, Heap.HRef 2%positive)]]>
  (<[2%positive := Heap.literal [(str "x", Heap.HRef 3%positive)]]>
  (<[3%positive := Heap.literal [(str "r", Heap.HNum 1)]]>
  (<[4%positive := Heap.literal []]>
  (<[5%positive := Heap.literal [(Heap.key_commands, Heap.HRef 6%positive)]]>
  (<[6%positive := Heap.literal [(key_proto, Heap.HRef 7%positive);
                                 (str "x", Heap.HRef 9%positive)]]>
  (<[7%positive := Heap.literal [(str "x", Heap.HRef 8%positive)]]>
  (<[8%positive := Heap.literal [(str "p", Heap.HNum 2)]]>
  (<[9%positive := Heap.literal [(str "q", Heap.HNum 3)]]> ∅)))))))).

(** ** Text decoding

    [new TextDecoder().decode(bytes)]: the UTF-8 decoder of the Encoding
    standard, with U+FFFD for malformed input and a leading byte order mark
    removed; the result is in UTF-16 code units. *)

Record utf8_state : Type := Utf8State {
  u_needed : nat;
  u_seen : nat;
  u_code_point : N;
  u_lower : N;
  u_upper : N;
}.

Definition utf8_init : utf8_state := Utf8State 0 0 0 128 191.

Definition replacement_char : N := 65533%N.

Definition code_point_units (cp : N) : jsstring :=
  if (cp <? 65536)%N then [cp]
  else [(55296 + (cp - 65536) / 1024)%N; (56320 + (cp - 65536) mod 1024)%N].

(** A byte read in the initial state. *)
Definition utf8_lead (b : N) : utf8_state * jsstring :=
  if (b <=? 127)%N then (utf8_init, [b])
  else if in_range 194 223 b then (Utf8State 1 0 (N.land b 31) 128 191, [])
  else if in_range 224 239 b then
    (Utf8State 2 0 (N.land b 15) (if (b =? 224)%N then 160 else 128)%N
       (if (b =? 237)%N then 159 else 191)%N, [])
  else if in_range 240 244 b then
    (Utf8State 3 0 (N.land b 7) (if (b =? 240)%N then 144 else 128)%N
       (if (b =? 244)%N then 143 else 191)%N, [])
  else (utf8_init, [replacement_char]).

Definition utf8_step (st : utf8_state) (b : N) : utf8_state * jsstring :=
  if u_needed st =? 0 then utf8_lead b
  else if negb (in_range (u_lower st) (u_upper st) b) then
    let '(st', out) := utf8_lead b in (st', replacement_char :: out)
  else
    let cp := N.lor (N.shiftl (u_code_point st) 6) (N.land b 63) in
    if S (u_seen st) =? u_needed st then (utf8_init, code_point_units cp)
    else (Utf8State (u_needed st) (S (u_seen st)) cp 128 191, []).

Fixpoint utf8_run (st : utf8_state) (bytes : list N) : jsstring :=
  match bytes with
  | [] => if u_needed st =? 0 then [] else [replacement_char]
  | b :: rest => let '(st', out) := utf8_step st b in out ++ utf8_run st' rest
  end.

Definition TextDecoder_decode (bytes : list N) : jsstring :=
  match utf8_run utf8_init bytes with
  | c :: rest => if ceq c 65279 then rest else c :: rest
  | [] => []
  end.

(** ** The file system the resolver reads

    Paths are absolute and normalized; a symbolic link holds its target in
    that form.  Following a link that leads back to itself never ends: after
    [max_symlinks] links the operating system gives up with ELOOP. *)

Inductive node : Type :=
| RegularFile (bytes : list N)
| SymLink (target : jsstring)
| Directory.

Definition max_symlinks : nat := 40.

(** Where a path leads after following links: [None] is ENOENT or ELOOP. *)
Fixpoint follow_links (hops : nat) (fs : gmap jsstring node) (p : jsstring)
    : option jsstring :=
  match fs !! p with
  | None => None
  | Some (SymLink target) =>
      match hops with
      | 0 => None
      | S hops' => follow_links hops' fs target
      end
  | Some _ => Some p
  end.

(** The file a path denotes, through links. *)
Definition file_at (fs : gmap jsstring node) (p : jsstring) : option (list N) :=
  match follow_links max_symlinks fs p with
  | Some q => match fs !! q with Some (RegularFile bytes) => Some bytes | _ => None end
  | None => None
  end.

(** [await Bun.file(p).exists()] *)
Definition file_exists (fs : gmap jsstring node) (p : jsstring) : bool :=
  bool_decide (is_Some (file_at fs p)).

(** [realpathSync(p)], [None] when it throws. *)
Definition realpathSync (fs : gmap jsstring node) (p : jsstring) : option jsstring :=
  follow_links max_symlinks fs p.

Definition toCanonicalPath (fs : gmap jsstring node) (filePath : jsstring) : jsstring :=
  match realpathSync fs filePath with
  | Some real => real
  | None => filePath
  end.

(** ** File imports ([processFileImport], [src/imports.ts]) *)

(** The result of an asynchronous function: the value it resolves to, or the
    message of the [Error] it rejects with. *)
Inductive outcome : Type :=
| Ok (text : jsstring)
| Throw (message : jsstring).

Definition ch_backslash : char := 92%N.

(** [s.toLowerCase()] on the letters A to Z. *)
Definition toLowerCase (s : jsstring) : jsstring :=
  map (fun c => if in_range 65 90 c then (c + 32)%N else c) s.

(** [/\.[^./\\]+$/] *)
Definition EXTENSION_PATTERN : regex :=
  rseqs [rlit_char ch_dot;
         rplus (RChar (fun c => negb (ceq c ch_dot || ceq c ch_slash || ceq c ch_backslash)));
         REol].

Definition BINARY_EXTENSIONS : list jsstring :=
  str <$> [".png"; ".jpg"; ".jpeg"; ".gif"; ".ico"; ".webp"; ".bmp"; ".svg"; ".tiff"; ".tif";
           ".exe"; ".dll"; ".so"; ".dylib"; ".bin";
           ".zip"; ".tar"; ".gz"; ".7z"; ".rar"; ".bz2"; ".xz";
           ".pdf"; ".doc"; ".docx"; ".xls"; ".xlsx"; ".ppt"; ".pptx";
           ".sqlite"; ".db"; ".sqlite3";
           ".dat"; ".data";
           ".DS_Store";
           ".wasm"; ".pyc"; ".class"; ".o"; ".a"; ".lib"]%string.

Definition BINARY_CHECK_SIZE : nat := N.to_nat 8192.

(** The last component of a path split at [/] and [\]. *)
Fixpoint last_component (acc : jsstring) (s : jsstring) : jsstring :=
  match s with
  | [] => acc
  | c :: rest =>
      if ceq c ch_slash || ceq c ch_backslash then last_component [] rest
      else last_component (acc ++ [c]) rest
  end.

(** [isBinaryFile(filePath)] without content. *)
Definition isBinaryFile (filePath : jsstring) : bool :=
  let lower := toLowerCase filePath in
  let ext := match match_ EXTENSION_PATTERN lower with
             | Some m => m_text lower m
             | None => []
             end in
  bool_decide (ext ∈ BINARY_EXTENSIONS)
  || bool_decide (last_component [] filePath = str ".DS_Store").

(** [isBinaryFileAsync(filePath)] on a file that holds [bytes]. *)
Definition isBinaryFileAsync (filePath : jsstring) (bytes : list N) : bool :=
  isBinaryFile filePath || existsb (N.eqb 0) (take BINARY_CHECK_SIZE bytes).

(** The replacement text of [String.prototype.replace] for a pattern that
    is a string: [$$] stands for [$], [$&] for the match, [$`] for the text
    before it and [$'] for the text after it; there are no captures, so
    every other [$] stands for itself. *)
Fixpoint substitution (matched before after replacement : jsstring) : jsstring :=
  match replacement with
  | 36%N :: 36%N :: rest => 36%N :: substitution matched before after rest
  | 36%N :: 38%N :: rest => matched ++ substitution matched before after rest
  | 36%N :: 96%N :: rest => before ++ substitution matched before after rest
  | 36%N :: 39%N :: rest => after ++ substitution matched before after rest
  | c :: rest => c :: substitution matched before after rest
  | [] => []
  end.

(** [filePath.replace("~", homedir())] on a path that starts with [~]: the
    first [~] gives way to the home directory, read as a replacement
    text. *)
Definition expandTilde (homedir filePath : jsstring) : jsstring :=
  if startsWith (str "~/") filePath || bool_decide (filePath = str "~")
  then substitution (str "~") [] (drop 1 filePath) homedir ++ drop 1 filePath
  else filePath.

Definition not_found_message (path resolvedPath : jsstring) : jsstring :=
  str "Import not found: " ++ path ++ str " (resolved to " ++ resolvedPath ++ str ")".

Definition binary_message (path resolvedPath : jsstring) : jsstring :=
  str "Cannot import binary file: " ++ path ++ str " (resolved to " ++ resolvedPath ++ str ")".

Definition circular_prefix : jsstring := str "Circular import detected: ".

Definition circular_message (stack : list jsstring) (canonicalPath : jsstring) : jsstring :=
  circular_prefix ++ join (str " -> ") (stack ++ [canonicalPath]).

(** An error of the CircularImport kind is one whose message names a cycle. *)
Definition is_circular_import (o : outcome) : bool :=
  match o with
  | Throw message => startsWith circular_prefix message
  | Ok _ => false
  end.

Section file_import.
(** The parts of the platform and of the repository that these sources
    call but do not contain. *)
Variable fs : gmap jsstring node.
Variable homedir : jsstring.
(** [path.resolve(dir, p)] and [path.dirname(p)] *)
Variable path_resolve : jsstring -> jsstring -> jsstring.
Variable path_dirname : jsstring -> jsstring.
(** [exceedsLimit] and the message of [FileSizeLimitError], of [src/limits] *)
Variable exceedsLimit : nat -> bool.
Variable fileSizeLimitMessage : jsstring -> nat -> jsstring.
(** [processGlobImport], [extractSymbol] and the recursive [expandImports] *)
Variable processGlobImport : jsstring -> jsstring -> outcome.
Variable extractSymbol : jsstring -> jsstring -> outcome.
Variable expandImports : jsstring -> jsstring -> list jsstring -> outcome.

Definition resolveImportPath (importPath currentFileDir : jsstring) : jsstring :=
  let expanded := expandTilde homedir importPath in
  if startsWith [ch_slash] expanded then expanded
  else path_resolve currentFileDir expanded.

(** The checks every direct import starts with, then [k] on the bytes. *)
Definition read_checked (path resolvedPath : jsstring) (cycle_check : option outcome)
    (k : list N -> outcome) : outcome :=
  match file_at fs resolvedPath with
  | None => Throw (not_found_message path resolvedPath)
  | Some bytes =>
      match cycle_check with
      | Some err => err
      | None =>
          if exceedsLimit (length bytes)
          then Throw (fileSizeLimitMessage resolvedPath (length bytes))
          else if isBinaryFileAsync resolvedPath bytes
          then Throw (binary_message path resolvedPath)
          else k bytes
      end
  end.

(** The import stack is a [Set] in insertion order. *)
Definition processFileImport (importPath currentFileDir : jsstring)
    (stack : list jsstring) : outcome :=
  if isGlobPattern importPath then processGlobImport importPath currentFileDir
  else
    match parseSymbolExtraction importPath with
    | (symbolPath, Some symbol) =>
        let resolvedPath := resolveImportPath symbolPath currentFileDir in
        read_checked symbolPath resolvedPath None
          (fun bytes => extractSymbol (TextDecoder_decode bytes) symbol)
    | (_, None) =>
        match parseLineRange importPath with
        | (rangePath, Some (start, end_)) =>
            let resolvedPath := resolveImportPath rangePath currentFileDir in
            read_checked rangePath resolvedPath None
              (fun bytes => Ok (extractLines (TextDecoder_decode bytes) start end_))
        | (_, None) =>
            let resolvedPath := resolveImportPath importPath currentFileDir in
            let canonicalPath := toCanonicalPath fs resolvedPath in
            read_checked importPath resolvedPath
              (if bool_decide (canonicalPath ∈ stack)
               then Some (Throw (circular_message stack canonicalPath))
               else None)
              (fun bytes =>
                 expandImports (TextDecoder_decode bytes) (path_dirname resolvedPath)
                   (stack ++ [canonicalPath]))
        end
    end.

(** The path part of an import: without its symbol or line range. *)
Definition import_target (importPath : jsstring) : jsstring :=
  match parseSymbolExtraction importPath with
  | (symbolPath, Some _) => symbolPath
  | (_, None) =>
      match parseLineRange importPath with
      | (rangePath, Some _) => rangePath
      | (_, None) => importPath
      end
  end.
End file_import.

(** *** A small file system for examples

    [/a/main.md] imports [/a/loop.md], a symbolic link to itself. *)
Definition loop_fs : gmap jsstring node :=
  {[ str "/a/main.md" := RegularFile (str "@/a/loop.md");
     str "/a/loop.md" := SymLink (str "/a/loop.md");
     str "/srv/self" := SymLink (str "/srv/self") ]}.

(** Stand-ins for the parts outside these sources, for absolute paths. *)
Definition join_path (dir p : jsstring) : jsstring := dir ++ [ch_slash] ++ p.
Definition no_limit (size : nat) : bool := false.
Definition no_limit_message (path : jsstring) (size : nat) : jsstring := [].
Definition no_glob (pattern dir : jsstring) : outcome := Ok [].
Definition whole_file (content symbol : jsstring) : outcome := Ok content.
Definition no_expansion (content dir : jsstring) (stack : list jsstring) : outcome := Ok content.

(** ** Inline commands ([processCommandInline], [src/imports.ts]) *)

(** [hay.includes(needle)] *)
Fixpoint includes (needle hay : jsstring) : bool :=
  startsWith needle hay
  || match hay with
     | [] => false
     | _ :: rest => includes needle rest
     end.

(** [s.replace(re, replacement)] for a global pattern and a replacement
    without [$]: the text between the matches, with the replacement in place
    of each match. *)
Fixpoint replace_matches (s : jsstring) (from : nat) (ms : list rx_match)
    (replacement : jsstring) : jsstring :=
  match ms with
  | [] => slice_from s from
  | m :: rest =>
      slice s from (m_index m) ++ replacement ++ replace_matches s (m_end m) rest replacement
  end.

Definition replace_all (r : regex) (replacement s : jsstring) : jsstring :=
  replace_matches s 0 (exec_all r s) replacement.

Definition in_chars (cs : string) (c : char) : bool := existsb (ceq c) (str cs).

(** The pattern of ANSI escape sequences: ESC or CSI; any number of the
    characters [[()#;?]; optionally one to four digits and then any number
    of groups of a semicolon and up to four digits; and a final character
    among [0-9A-ORZcf-nqry=><].  All quantifiers are greedy. *)
Definition ANSI_ESCAPE_REGEX : regex :=
  rseqs [RChar (fun c => ceq c 27 || ceq c 155);
         rstar (RChar (in_chars "[()#;?"));
         ropt (RSeq (RQuant true 1 (Some 4) (RChar is_digit))
                    (rstar (RSeq (rlit_char 59) (RQuant true 0 (Some 4) (RChar is_digit)))));
         RChar (fun c => is_digit c || in_range 65 79 c || in_chars "RZc" c
                         || in_range 102 110 c || in_chars "qry=><" c)].

(** [/^(~?\.?\.?\/)?[^\s]+\.md(\s|$)/] *)
Definition MD_FILE_COMMAND_PATTERN : regex :=
  rseqs [RBol;
         ropt (RGroup 1 (rseqs [ropt (rlit_char ch_tilde); ropt (rlit_char ch_dot);
                                ropt (rlit_char ch_dot); rlit_char ch_slash]));
         rplus (RChar not_space);
         rlit (str ".md");
         RGroup 2 (RAlt (RChar is_space) REol)].

Definition isMarkdownFileCommand (command : jsstring) : bool :=
  test MD_FILE_COMMAND_PATTERN (trim command).

Definition COMMAND_TIMEOUT_MS : Z := 30000.
Definition MAX_COMMAND_OUTPUT_SIZE : nat := N.to_nat 100000.

(** [/\{% endraw %\}/g] and what replaces it *)
Definition ENDRAW_PATTERN : regex := rlit (str "{% endraw %}").
Definition endraw_escaped : jsstring := str "{% endraw %}{{ '{% endraw %}' }}{% raw %}".

Definition raw_open : jsstring := str "{% raw %}" ++ [ch_nl].
Definition raw_close : jsstring := [ch_nl] ++ str "{% endraw %}".

(** What the resolver needs of [ImportContext] here. *)
Record ImportContext : Type := {
  ctx_invocationCwd : option jsstring;
  ctx_templateVars : option (list (jsstring * jsstring));
  ctx_dryRun : bool;
}.

(** How the spawned shell ends: [Bun.spawn] throws, the timer of
    [COMMAND_TIMEOUT_MS] fires before both streams are read, or the process
    exits with the bytes of its streams. *)
Inductive proc_outcome : Type :=
| SpawnThrows (message : jsstring)
| TimedOut
| Exited (stdoutBytes stderrBytes : list N) (exitCode : Z).

(** [a || b] on strings *)
Definition or_else (a b : jsstring) : jsstring := if truthy a then a else b.

Section command_inline.
(** [substituteTemplateVars] renders with LiquidJS; [platform() === "win32"];
    the shell process; [n.toLocaleString()]. *)
Variable substituteTemplateVars : jsstring -> list (jsstring * jsstring) -> jsstring.
Variable isWin : bool.
Variable spawn : list jsstring -> jsstring -> proc_outcome.
Variable toLocaleString : nat -> jsstring.

(** The command after template substitution. *)
Definition processedCommand (command : jsstring) (importCtx : ImportContext) : jsstring :=
  match ctx_templateVars importCtx with
  | Some (v :: vars) => substituteTemplateVars command (v :: vars)
  | _ => command
  end.

(** The command the shell runs: a markdown file is run with [mdflow]. *)
Definition actualCommand (command : jsstring) (importCtx : ImportContext) : jsstring :=
  let processed := processedCommand command importCtx in
  if isMarkdownFileCommand processed then str "mdflow " ++ processed else processed.

(** [[shell, ...shellArgs]] *)
Definition shell_argv (actual : jsstring) : list jsstring :=
  if isWin then [str "cmd.exe"; str "/d"; str "/s"; str "/c"; actual]
  else [str "sh"; str "-c"; actual].

(** [importCtx?.invocationCwd ?? currentFileDir] *)
Definition commandCwd (currentFileDir : jsstring) (importCtx : ImportContext) : jsstring :=
  default currentFileDir (ctx_invocationCwd importCtx).

(** The [catch] block: time-outs and exit codes pass, the rest is wrapped. *)
Definition rethrow (actual message : jsstring) : outcome :=
  if includes (str "timed out") message || includes (str "Exit ") message
  then Throw message
  else Throw (str "Command failed: " ++ actual ++ str " - " ++ message).

Definition combine_output (stdout stderr : jsstring) : jsstring :=
  if truthy stderr && truthy stdout then stderr ++ [ch_nl] ++ stdout
  else or_else stdout (or_else stderr []).

Definition truncate_output (output : jsstring) : jsstring :=
  if MAX_COMMAND_OUTPUT_SIZE <? length output
  then slice output 0 MAX_COMMAND_OUTPUT_SIZE
       ++ [ch_nl] ++ str "... [Output truncated: "
       ++ toLocaleString (length output - MAX_COMMAND_OUTPUT_SIZE)
       ++ str " characters removed]"
  else output.

Definition wrap_raw (output : jsstring) : jsstring :=
  if truthy output
  then raw_open ++ replace_all ENDRAW_PATTERN endraw_escaped output ++ raw_close
  else output.

Definition exit_message (actual : jsstring) (exitCode : Z) (stdout stderr : jsstring)
    : jsstring :=
  str "Command failed (Exit " ++ Z_to_jsstring exitCode ++ str "): " ++ actual
  ++ [ch_nl] ++ str "Output: " ++ or_else stderr (or_else stdout (str "No output")).

Definition processCommandInline (command currentFileDir : jsstring)
    (importCtx : ImportContext) : outcome :=
  let actual := actualCommand command importCtx in
  if ctx_dryRun importCtx then
    Ok (raw_open ++ str "[Dry Run: Command " ++ [34%N] ++ actual ++ [34%N]
        ++ str " not executed]" ++ raw_close)
  else
    match spawn (shell_argv actual) (commandCwd currentFileDir importCtx) with
    | SpawnThrows message => rethrow actual message
    | TimedOut =>
        rethrow actual
          (str "Command timed out after " ++ Z_to_jsstring COMMAND_TIMEOUT_MS
           ++ str "ms: " ++ actual)
    | Exited stdoutBytes stderrBytes exitCode =>
        if existsb (N.eqb 0) (take 1024 stdoutBytes) then
          rethrow actual
            (str "Command returned binary data. Inline commands must return text: "
             ++ actual)
        else
          let stdout := replace_all ANSI_ESCAPE_REGEX [] (trim (TextDecoder_decode stdoutBytes)) in
          let stderr := replace_all ANSI_ESCAPE_REGEX [] (trim (TextDecoder_decode stderrBytes)) in
          if negb (exitCode =? 0)%Z then
            rethrow actual (exit_message actual exitCode stdout stderr)
          else Ok (wrap_raw (truncate_output (combine_output stdout stderr)))
    end.

(** The two streams as the resolver sees them: decoded, trimmed and
    without ANSI escape sequences. *)
Definition cleaned (bytes : list N) : jsstring :=
  replace_all ANSI_ESCAPE_REGEX [] (trim (TextDecoder_decode bytes)).

(** The replacement the claim gives for a command that exits with zero. *)
Definition claimed_replacement (stdoutBytes stderrBytes : list N) : jsstring :=
  raw_open ++ combine_output (cleaned stdoutBytes) (cleaned stderrBytes) ++ raw_close.

(** The replacement of the code: nothing for an empty output; otherwise
    the output, cut to [MAX_COMMAND_OUTPUT_SIZE] with a notice and with
    every [{% endraw %}] escaped, inside a raw block. *)
Definition replacement (stdoutBytes stderrBytes : list N) : jsstring :=
  let output := combine_output (cleaned stdoutBytes) (cleaned stderrBytes) in
  if truthy output
  then raw_open ++ replace_all ENDRAW_PATTERN endraw_escaped (truncate_output output)
       ++ raw_close
  else [].
End command_inline.

(** Stand-ins for a run on a POSIX system with nothing to substitute: a
    shell that prints its command line's last word, as [echo] would. *)
Definition no_substitution (command : jsstring) (vars : list (jsstring * jsstring)) : jsstring :=
  command.
Definition plain_number (n : nat) : jsstring := N_to_jsstring (N.of_nat n).
Definition plain_context : ImportContext :=
  {| ctx_invocationCwd := None; ctx_templateVars := None; ctx_dryRun := false |}.
Definition echo_shell (stdout : jsstring) (exitCode : Z) (argv : list jsstring)
    (cwd : jsstring) : proc_outcome :=
  Exited (stdout ++ [ch_nl]) [] exitCode.

(** ** Command defaults and the configuration cascade ([src/config.ts]) *)

Section defaults.
Context `{JsValue V}.

(** [config.commands?.[command]] *)
Definition getCommandDefaultsFromConfig (config : GlobalConfig V) (command : jsstring)
    : property V :=
  match commands config with
  | Some cmds => get_command cmds command
  | None => Undefined
  end.

(** [obj[key] = value] on an ordinary object, as its own properties.  The
    key [__proto__] reaches the accessor of [Object.prototype] instead, and
    no own property is made. *)
Definition assign_prop (key : jsstring) (value : V) (obj : gmap jsstring V)
    : gmap jsstring V :=
  if bool_decide (key = str "__proto__") then obj else <[key := value]> obj.

(** [result[key] = value] on the own properties of an object made by a
    literal, which may have an own property [__proto__] copied from its
    source: that one is overwritten, and only without it does the key reach
    the accessor. *)
Definition assign_own (key : jsstring) (value : V) (obj : gmap jsstring V)
    : gmap jsstring V :=
  if bool_decide (key = key_proto) && negb (bool_decide (is_Some (obj !! key)))
  then obj else <[key := value]> obj.

(** [if (!defaults) return frontmatter;
     const result = { ...defaults };
     for (const [key, value] of Object.entries(frontmatter)) result[key] = value]
    on the own properties of the objects. *)
Definition applyDefaults (frontmatter : gmap jsstring V) (defaults : property V)
    : gmap jsstring V :=
  if truthy_property defaults then
    fold_left (fun result e => assign_own e.1 e.2 result) (map_to_list frontmatter)
      (spread_property defaults)
  else frontmatter.

(** The value a configuration gives to [key] of [command]: the own property
    [key] of what [applyDefaults] starts from. *)
Definition config_value (config : GlobalConfig V) (command key : jsstring) : option V :=
  spread_or_empty (getCommandDefaultsFromConfig config command) !! key.

(** The first of two answers. *)
Definition or_value (a b : option V) : option V :=
  match a with Some v => Some v | None => b end.
End defaults.

(** The loaders, over what the platform finds on disk: the parsed user
    configuration ([None] when the file is missing or cannot be used), the
    git root of a directory, the project configuration file of a directory
    and its parsed content. *)
Section loaders.
Context `{JsValue V}.
Variable BUILTIN_DEFAULTS : GlobalConfig V.
Variable userConfig : option (GlobalConfig V).
Variable resolve : jsstring -> jsstring.
Variable findGitRoot : jsstring -> option jsstring.
Variable findProjectConfigFile : jsstring -> option jsstring.
Variable loadConfigFile : jsstring -> option (GlobalConfig V).

Definition loadGlobalConfig : GlobalConfig V :=
  match userConfig with
  | Some parsed => mergeConfigs BUILTIN_DEFAULTS parsed
  | None => mergeConfigs BUILTIN_DEFAULTS (Config None)
  end.

Definition gitRootConfig (resolvedCwd : jsstring) : GlobalConfig V :=
  match findGitRoot resolvedCwd with
  | Some gitRoot =>
      if truthy gitRoot && negb (bool_decide (gitRoot = resolvedCwd)) then
        match findProjectConfigFile gitRoot with
        | Some gitRootConfigFile =>
            match loadConfigFile gitRootConfigFile with
            | Some config => config
            | None => Config None
            end
        | None => Config None
        end
      else Config None
  | None => Config None
  end.

Definition loadProjectConfig (cwd : jsstring) : GlobalConfig V :=
  let resolvedCwd := resolve cwd in
  let projectConfig := gitRootConfig resolvedCwd in
  match findProjectConfigFile resolvedCwd with
  | Some cwdConfigFile =>
      match loadConfigFile cwdConfigFile with
      | Some cwdConfig => mergeConfigs projectConfig cwdConfig
      | None => projectConfig
      end
  | None => projectConfig
  end.

Definition loadFullConfig (cwd : jsstring) : GlobalConfig V :=
  mergeConfigs loadGlobalConfig (loadProjectConfig cwd).

(** The project configuration found in a directory, empty when there is
    none or it cannot be loaded. *)
Definition configAt (dir : jsstring) : GlobalConfig V :=
  match findProjectConfigFile dir with
  | Some file => default (Config None) (loadConfigFile file)
  | None => Config None
  end.
End loaders.

(** ** Command-line arguments ([parseCliArgs], [src/cli.ts]) *)

Record CliArgs : Type := {
  filePath : jsstring;
  passthroughArgs : list jsstring;
  help : bool;
}.

(** [arr.findIndex(pred)], [None] standing for [-1]. *)
Fixpoint findIndex {A : Type} (pred : A -> bool) (l : list A) : option nat :=
  match l with
  | [] => None
  | x :: l' => if pred x then Some 0 else S <$> findIndex pred l'
  end.

Definition parseCliArgs (argv : list jsstring) : CliArgs :=
  let args := drop 2 argv in
  let fileIndex := findIndex (fun arg => negb (startsWith [ch_minus] arg)) args in
  let file := match fileIndex with
              | Some i => default [] (args !! i)
              | None => []
              end in
  if truthy file then
    let i := default 0 fileIndex in
    {| filePath := file;
       passthroughArgs := take i args ++ drop (S i) args;
       help := false |}
  else
    {| filePath := [];
       passthroughArgs := args;
       help := existsb (fun arg => bool_decide (arg = str "--help")
                                   || bool_decide (arg = str "-h")) args |}.

(** ** Template variables from the command line ([parseTemplateArgs],
    [src/template.ts])

    The loop over [i] visits a suffix of [args] at each iteration; taking a
    value skips one more argument. *)
Fixpoint parseTemplateArgs_from (knownFlags : gset jsstring) (args : list jsstring)
    (vars : gmap jsstring jsstring) : gmap jsstring jsstring :=
  match args with
  | [] => vars
  | arg :: rest =>
      if negb (startsWith (str "--") arg) then parseTemplateArgs_from knownFlags rest vars
      else
        let key := drop 2 arg in
        if bool_decide (arg ∈ knownFlags) || bool_decide (str "--" ++ key ∈ knownFlags)
        then parseTemplateArgs_from knownFlags rest vars
        else
          match rest with
          | nextArg :: rest' =>
              if truthy nextArg && negb (startsWith [ch_minus] nextArg)
              then parseTemplateArgs_from knownFlags rest' (assign_prop key nextArg vars)
              else parseTemplateArgs_from knownFlags rest (assign_prop key (str "true") vars)
          | [] => parseTemplateArgs_from knownFlags rest (assign_prop key (str "true") vars)
          end
  end.

Definition parseTemplateArgs (args : list jsstring) (knownFlags : gset jsstring)
    : gmap jsstring jsstring :=
  parseTemplateArgs_from knownFlags args ∅.

(** ** Positional arguments and the environment ([src/command.ts]) *)

(** The number nearest to a natural number [n], ties to the even
    significand: [n] itself below [2^53], else [n] rounded to 53 significant
    bits.  [2^1024], which no finite number has as its value, stands for
    [Infinity]. *)
Definition to_double (n : Z) : Z :=
  if (n <? 2 ^ 53)%Z then n
  else
    let e := (Z.log2 n - 52)%Z in
    let q := (n / 2 ^ e)%Z in
    let r := (n mod 2 ^ e)%Z in
    let half := (2 ^ (e - 1))%Z in
    let q' := if (half <? r)%Z || ((r =? half)%Z && Z.odd q) then (q + 1)%Z else q in
    Z.min (q' * 2 ^ e) (2 ^ 1024).

(** [parseInt(ds, 10)] on a string of decimal digits: a number, the digits
    converted with correct rounding. *)
Definition parseInt_decimal (ds : jsstring) : Z := to_double (parse_digits ds).

(** The keys of the [Map] are the numbers [parseInt(key.slice(1), 10)];
    two keys whose digits round to the same number are one entry. *)
Definition extractPositionalMappings (frontmatter : AgentFrontmatter) : gmap Z jsstring :=
  fold_left (fun mappings entry =>
               match entry.2 with
               | VStr flag =>
                   if isPositionalKey entry.1
                   then <[parseInt_decimal (drop 1 entry.1) := flag]> mappings
                   else mappings
               | _ => mappings
               end) frontmatter ∅.

(** [frontmatter.env] when it is a mapping. *)
Definition extractEnvVars (frontmatter : AgentFrontmatter)
    : option (list (jsstring * value)) :=
  match get_key (str "env") frontmatter with
  | VObj fields => Some fields
  | _ => None
  end.

(** The loop of [runCommand] over the positional arguments: [i] is the
    index of the first of [positionals]. *)
Fixpoint push_positionals (positionalMappings : gmap Z jsstring) (i : nat)
    (positionals : list jsstring) (finalArgs : list jsstring) : list jsstring :=
  match positionals with
  | [] => finalArgs
  | value :: rest =>
      let pos := Z.of_nat (i + 1) in
      push_positionals positionalMappings (S i) rest
        match positionalMappings !! pos with
        | Some flagName => finalArgs ++ [toFlag flagName; value]
        | None => finalArgs ++ [value]
        end
  end.

(** [finalArgs] of [runCommand], the arguments the command is spawned with. *)
Definition finalArgs (args positionals : list jsstring)
    (positionalMappings : gmap Z jsstring) : list jsstring :=
  push_positionals positionalMappings 0 positionals args.

(** *** The order of the safe ranges

    While the scanner runs, the recorded ranges are non-empty, in ascending
    order with a gap between any two, and end before [limit]: the start of
    the range being collected in normal text, the scanner's position inside
    code. *)
Definition range_limit (st : scan_state) : nat :=
  match context st with
  | normal => rangeStart st
  | _ => pos st
  end.

Definition separated (a b : range) : Prop := r_end a < r_start b.

Definition ranges_inv (st : scan_state) : Prop :=
  Forall (fun r => r_start r < r_end r /\ r_end r < range_limit st) (safeRanges st)
  /\ StronglySorted separated (safeRanges st).

(** *** The injected body, piece by piece

    For directives in ascending order whose spans are non-empty, apart from
    each other and inside the body: the text of the body from [from] on, with
    each span replaced by its content. *)
Fixpoint woven (content : jsstring) (from : nat) (rs : list ResolvedImportResult)
    : jsstring :=
  match rs with
  | [] => slice_from content from
  | r :: rest =>
      slice content from (res_index r) ++ r_content r ++ woven content (res_end r) rest
  end.

Fixpoint apart_within (content : jsstring) (from : nat) (rs : list ResolvedImportResult)
    : Prop :=
  match rs with
  | [] => from <= length content
  | r :: rest =>
      from <= res_index r /\ res_index r < res_end r
      /\ apart_within content (res_end r) rest
  end.

(** *** Runs of a character class

    The number of code units at the head of [l] that belong to [cls]: how far
    a quantified class can reach. *)
Fixpoint class_run (cls : char -> bool) (l : jsstring) : nat :=
  match l with
  | x :: l' => if cls x then S (class_run cls l') else 0
  | [] => 0
  end.

(** The end positions [i + lo], ..., [i + n], with the captures [c]. *)
Definition reach (i lo n : nat) (c : gmap nat (nat * nat)) : list (nat * gmap nat (nat * nat)) :=
  (fun k => (i + k, c)) <$> seq lo (S n - lo).

(** [x] is the first element of [l]: the match [exec] takes. *)
Definition first_is {A : Type} (l : list A) (x : A) : Prop := exists rest, l = x :: rest.

(** ** The command of an agent file ([src/command.ts])

    Under the [i] flag a letter of the pattern matches in either case. *)
Definition either_case (lower : char) (c : char) : bool :=
  ceq c lower || ceq c (lower - 32)%N.

Definition not_dot (c : char) : bool := negb (ceq c ch_dot).

(** [\.md$] under the [i] flag, the end of both patterns *)
Definition MD_TAIL : regex :=
  rseqs [rlit_char ch_dot; RChar (either_case 109); RChar (either_case 100); REol].

(** [/\.([^.]+)\.md$/i] *)
Definition COMMAND_NAME_PATTERN : regex :=
  rseqs [rlit_char ch_dot; RGroup 1 (rplus (RChar not_dot)); rlit_char ch_dot;
         RChar (either_case 109); RChar (either_case 100); REol].

(** [/\.i\.[^.]+\.md$/i] *)
Definition INTERACTIVE_MARKER_PATTERN : regex :=
  rseqs [rlit_char ch_dot; RChar (either_case 105); rlit_char ch_dot;
         rplus (RChar not_dot); rlit_char ch_dot;
         RChar (either_case 109); RChar (either_case 100); REol].

Definition no_command_message : jsstring :=
  str "No command specified. Use --_command flag, or name your file like 'task.claude.md'".

Section command_name.
(** [basename] of [path] *)
Variable basename : jsstring -> jsstring.

Definition parseCommandFromFilename (filePath : jsstring) : option jsstring :=
  let name := basename filePath in
  match match_ COMMAND_NAME_PATTERN name with
  | Some m => Some (m_group name m 1)
  | None => None
  end.

Definition hasInteractiveMarker (filePath : jsstring) : bool :=
  test INTERACTIVE_MARKER_PATTERN (basename filePath).

Definition resolveCommand (filePath : jsstring) : outcome :=
  match parseCommandFromFilename filePath with
  | Some fromFilename =>
      if truthy fromFilename then Ok fromFilename else Throw no_command_message
  | None => Throw no_command_message
  end.
End command_name.

(** The extension [md], in either case of its letters. *)
Definition is_md (ext : jsstring) : bool :=
  match ext with
  | [m; d] => either_case 109 m && either_case 100 d
  | _ => false
  end.

(** A command name: not empty, without a dot. *)
Definition is_command_name (cmd : jsstring) : Prop := cmd <> [] /\ ch_dot ∉ cmd.

(** *** Classes of the path patterns *)

(** [.]: any code unit but a line terminator. *)
Definition dot_class (c : char) : bool := negb (is_line_terminator c).

(** [[a-zA-Z0-9_$]] *)
Definition ident_char (c : char) : bool := is_ident_start c || is_digit c.

(** The path a file directive hands to [processFileImport]. *)
Definition parsed_path (p : ParsedImport) : jsstring :=
  match p with
  | PFile _ path _ => path
  | _ => []
  end.

(** ** Environment files ([src/env.ts]) *)

Definition ch_dquote : char := 34%N.
Definition ch_squote : char := 39%N.
Definition ch_equals : char := 61%N.

(** [s.trimEnd()] *)
Definition trimEnd (s : jsstring) : jsstring := rev (trim_start (rev s)).

(** [s.endsWith(p)] *)
Definition endsWith (p s : jsstring) : bool :=
  (length p <=? length s) && bool_decide (drop (length s - length p) s = p).

(** [s.indexOf(needle)], [None] standing for [-1]. *)
Fixpoint indexOf (needle hay : jsstring) : option nat :=
  if startsWith needle hay then Some 0
  else match hay with
       | [] => None
       | _ :: rest => S <$> indexOf needle rest
       end.

Definition is_word_start (c : char) : bool := is_alpha c || ceq c ch_underscore.
Definition is_word (c : char) : bool := is_alpha c || is_digit c || ceq c ch_underscore.

(** The pattern of an assignment line: at the start a name (group 1),
    white space, [=], white space, and the rest of the line (group 2). *)
Definition ENV_LINE_PATTERN : regex :=
  rseqs [RBol;
         RGroup 1 (RSeq (RChar is_word_start) (rstar (RChar is_word)));
         rstar (RChar is_space); rlit_char ch_equals; rstar (RChar is_space);
         RGroup 2 (rstar (RChar dot_class))].

(** The local variables of [parseEnvFile]. *)
Record env_state : Type := EnvState {
  vars : gmap jsstring jsstring;
  currentKey : option jsstring;
  currentValue : list jsstring;
  inMultiline : bool;
  quoteChar : option jsstring;
}.

(** A string in a place that expects one: [null] reads as its name. *)
Definition or_null (s : option jsstring) : jsstring := default (str "null") s.

Definition quoted_with (q : char) (value : jsstring) : bool :=
  startsWith [q] value && endsWith [q] value.

(** The body of the loop over the lines. *)
Definition parseEnvLine (st : env_state) (line : jsstring) : env_state :=
  if negb (inMultiline st)
     && (bool_decide (trim line = []) || startsWith [ch_hash] (trim line))
  then st
  else if inMultiline st then
    let collected := currentValue st ++ [line] in
    if endsWith (or_null (quoteChar st)) (trimEnd line) then
      let fullValue := join [ch_nl] collected in
      EnvState (assign_prop (or_null (currentKey st)) (array_slice fullValue 0 (-1)) (vars st))
        None [] false None
    else EnvState (vars st) (currentKey st) collected true (quoteChar st)
  else
    match match_ ENV_LINE_PATTERN line with
    | None => st
    | Some m =>
        let key := m_group line m 1 in
        let rawValue := m_group line m 2 in
        if negb (truthy key) then st
        else
          let value := trim rawValue in
          if quoted_with ch_dquote value || quoted_with ch_squote value then
            EnvState (assign_prop key (array_slice value 1 (-1)) (vars st))
              (currentKey st) (currentValue st) (inMultiline st) (quoteChar st)
          else if startsWith [ch_dquote] value || startsWith [ch_squote] value then
            EnvState (vars st) (Some key) [drop 1 value] true (Some (take 1 value))
          else
            let value' := match indexOf (str " #") value with
                          | Some commentIndex => trim (slice value 0 commentIndex)
                          | None => value
                          end in
            EnvState (assign_prop key value' (vars st))
              (currentKey st) (currentValue st) (inMultiline st) (quoteChar st)
    end.

Definition parseEnvFile (content : jsstring) : gmap jsstring jsstring :=
  vars (fold_left parseEnvLine (split_on ch_nl content) (EnvState ∅ None [] false None)).

(** A name as the pattern takes it: a letter or [_], then letters, digits
    and [_]. *)
Definition env_name (key : jsstring) : Prop :=
  exists c rest, key = c :: rest /\ is_word_start c = true
                 /\ Forall (fun x => is_word x = true) rest.

(** [line] assigns to [key]: it begins with [key], optional white space and
    [=]. *)
Definition assigns (key line : jsstring) : Prop :=
  exists ws rest, line = key ++ ws ++ ch_equals :: rest
                  /\ Forall (fun c => is_space c = true) ws.

(** A value that needs no quotes: on one line, without white space at its
    ends, not starting with a quote, and without [ #]. *)
Definition plain_value (value : jsstring) : Prop :=
  Forall (fun c => is_line_terminator c = false) value
  /\ trim_start value = value /\ trim_start (rev value) = rev value
  /\ startsWith [ch_dquote] value = false /\ startsWith [ch_squote] value = false
  /\ indexOf (str " #") value = None.

(** The line [KEY=value]. *)
Definition env_line (entry : jsstring * jsstring) : jsstring :=
  entry.1 ++ ch_equals :: entry.2.

(** [loadEnvFiles], over the files that exist and can be read. *)
Record load_state : Type := LoadState {
  env : gmap jsstring jsstring;
  loadedKeys : gset jsstring;
  loadedCount : nat;
}.

Definition env_file_names (nodeEnv : jsstring) : list jsstring :=
  [str ".env"; str ".env.local"; str ".env." ++ nodeEnv;
   str ".env." ++ nodeEnv ++ str ".local"].

(** [process.env.NODE_ENV || "development"] *)
Definition node_env (process_env : gmap jsstring jsstring) : jsstring :=
  match process_env !! str "NODE_ENV" with
  | Some v => if truthy v then v else str "development"
  | None => str "development"
  end.

Section loadEnvFiles.
(** [path.join] and the text of a file, [None] when it does not exist or
    cannot be read *)
Variable join_dir : jsstring -> jsstring -> jsstring.
Variable read_file : jsstring -> option jsstring.

Definition set_env_var (preExistingKeys : gset jsstring) (st : load_state)
    (entry : jsstring * jsstring) : load_state :=
  if negb (bool_decide (entry.1 ∈ preExistingKeys)) || bool_decide (entry.1 ∈ loadedKeys st)
  then LoadState (<[entry.1 := entry.2]> (env st)) ({[entry.1]} ∪ loadedKeys st)
         (loadedCount st)
  else st.

(** One file of the loop.  [Object.entries(vars)] lists each key once, and an
    entry changes only its own key, so the order of the entries does not
    show in the outcome. *)
Definition load_env_file (directory : jsstring) (preExistingKeys : gset jsstring)
    (st : load_state) (envFile : jsstring) : load_state :=
  match read_file (join_dir directory envFile) with
  | Some content =>
      let st' := fold_left (set_env_var preExistingKeys)
                   (map_to_list (parseEnvFile content)) st in
      LoadState (env st') (loadedKeys st') (S (loadedCount st'))
  | None => st
  end.

(** The number of files loaded, and [process.env] afterwards. *)
Definition loadEnvFiles (directory : jsstring) (process_env : gmap jsstring jsstring)
    : nat * gmap jsstring jsstring :=
  let nodeEnv := node_env process_env in
  let st := fold_left (load_env_file directory (dom process_env))
              (env_file_names nodeEnv) (LoadState process_env ∅ 0) in
  (loadedCount st, env st).

(** The variables a file of the directory defines. *)
Definition file_vars (directory envFile : jsstring) : gmap jsstring jsstring :=
  match read_file (join_dir directory envFile) with
  | Some content => parseEnvFile content
  | None => ∅
  end.
End loadEnvFiles.

(** ** The element names of imported files ([formatFilesAsXml], [src/imports.ts]) *)

Definition is_lower_alnum (c : char) : bool := in_range 97 122 c || is_digit c.
Definition not_lower_alnum (c : char) : bool := negb (is_lower_alnum c).
Definition is_dash (c : char) : bool := ceq ch_minus c.

(** The last extension: a dot and one or more code units other than a dot,
    at the end. *)
Definition LAST_EXTENSION_PATTERN : regex :=
  rseqs [rlit_char ch_dot; rplus (RChar not_dot); REol].

(** One or more code units outside [a-z0-9], with the g flag. *)
Definition NON_ALNUM_PATTERN : regex := rplus (RChar not_lower_alnum).

(** One or more [-] at the start, or one or more [-] at the end, with the g
    flag. *)
Definition EDGE_DASHES_PATTERN : regex :=
  RAlt (RSeq RBol (rplus (RChar is_dash))) (RSeq (rplus (RChar is_dash)) REol).

(** A digit at the start, as group 1. *)
Definition LEADING_DIGIT_PATTERN : regex := RSeq RBol (RGroup 1 (RChar is_digit)).

(** [s.replace(re, replacement)] for a pattern without the g flag and a
    replacement without [$]. *)
Definition replace_first (r : regex) (replacement s : jsstring) : jsstring :=
  match exec r s 0 with
  | Some m => slice s 0 (m_index m) ++ replacement ++ slice_from s (m_end m)
  | None => s
  end.

(** [s.replace(LEADING_DIGIT_PATTERN, "_$1")]: [$1] stands for group 1. *)
Definition prefix_digit (s : jsstring) : jsstring :=
  match exec LEADING_DIGIT_PATTERN s 0 with
  | Some m => slice s 0 (m_index m) ++ str "_" ++ m_group s m 1 ++ slice_from s (m_end m)
  | None => s
  end.

Record ImportedFile : Type := {
  file_path : jsstring;
  file_content : jsstring;
}.

Section formatFilesAsXml.
(** [basename] of [path], and [String.prototype.toLowerCase] on all of
    Unicode *)
Variable basename : jsstring -> jsstring.
Variable toLowerCase_unicode : jsstring -> jsstring.

Definition xml_name (path : jsstring) : jsstring :=
  let name :=
    prefix_digit
      (replace_all EDGE_DASHES_PATTERN []
         (replace_all NON_ALNUM_PATTERN (str "-")
            (toLowerCase_unicode (replace_first LAST_EXTENSION_PATTERN [] (basename path))))) in
  if truthy name then name else str "file".

Definition formatFilesAsXml (files : list ImportedFile) : jsstring :=
  join [ch_nl; ch_nl]
    (map (fun file =>
            let name := xml_name (file_path file) in
            str "<" ++ name ++ str " path=" ++ [ch_dquote] ++ file_path file ++ [ch_dquote]
            ++ str ">" ++ [ch_nl] ++ file_content file ++ [ch_nl] ++ str "</" ++ name ++ str ">")
         files).
End formatFilesAsXml.

(** A name that can open an element: a lower-case letter or [_], then
    lower-case letters, digits and [-]. *)
Definition tag_name (name : jsstring) : Prop :=
  exists c rest, name = c :: rest
    /\ (in_range 97 122 c || ceq c ch_underscore) = true
    /\ Forall (fun x => (is_lower_alnum x || is_dash x) = true) rest.

(** The digits of a positional key: one or more decimal digits. *)
Definition positional_digits (ds : jsstring) : Prop :=
  ds <> [] /\ Forall (fun c => is_digit c = true) ds.

(** ** Symbols ([extractSymbol], [src/imports.ts])

    The patterns are built with [new RegExp] from the name of the symbol.
    The names that reach [extractSymbol] consist of letters, digits, [_]
    and [$]; in a pattern the first three stand for themselves and [$] is
    the end of the input. *)
Definition symbol_name_regex (symbolName : jsstring) : regex :=
  rseqs (map (fun c => if ceq c ch_dollar then REol else rlit_char c) symbolName).

Definition ch_lbrace : char := 123%N.
Definition ch_rbrace : char := 125%N.
Definition ch_lparen : char := 40%N.
Definition ch_rparen : char := 41%N.
Definition ch_semicolon : char := 59%N.
Definition ch_lt : char := 60%N.
Definition ch_gt : char := 62%N.

Definition rspaces : regex := rplus (RChar is_space).
Definition rspaces_opt : regex := rstar (RChar is_space).
Definition rnot (c : char) : regex := rplus (RChar (fun x => negb (ceq x c))).

(** [(word\s+)?] as group [n] *)
Definition ropt_word (n : nat) (word : string) : regex :=
  ropt (RGroup n (RSeq (rlit (str word)) rspaces)).

(** A pattern with the name of the symbol in it. *)
Definition declaration (before after : list regex) (symbolName : jsstring) : regex :=
  rseqs (before ++ symbol_name_regex symbolName :: after).

(** The six patterns, in the order of the source: interface, type,
    function, class, const/let/var and enum.  Their groups are optional and
    nothing reads them. *)
Definition symbol_patterns (symbolName : jsstring) : list regex :=
  [ declaration [RBol; ropt_word 1 "export"; rlit (str "interface"); rspaces]
      [rspaces_opt;
       ropt (RGroup 2 (rseqs [rlit (str "extends"); rspaces; rnot ch_lbrace]));
       rlit_char ch_lbrace] symbolName;
    declaration [RBol; ropt_word 1 "export"; rlit (str "type"); rspaces]
      [rspaces_opt;
       ropt (RGroup 2 (rseqs [rlit_char ch_lt; rnot ch_gt; rlit_char ch_gt]));
       rspaces_opt; rlit_char ch_equals] symbolName;
    declaration [RBol; ropt_word 1 "export"; ropt_word 2 "async"; rlit (str "function");
                 rspaces]
      [rspaces_opt;
       ropt (RGroup 3 (rseqs [rlit_char ch_lt; rnot ch_gt; rlit_char ch_gt]));
       rspaces_opt; rlit_char ch_lparen] symbolName;
    declaration [RBol; ropt_word 1 "export"; ropt_word 2 "abstract"; rlit (str "class");
                 rspaces]
      [rspaces_opt;
       ropt (RGroup 3 (rseqs [rlit (str "extends"); rspaces; rnot ch_lbrace]));
       ropt (RGroup 4 (rseqs [rlit (str "implements"); rspaces; rnot ch_lbrace]));
       rlit_char ch_lbrace] symbolName;
    declaration [RBol; ropt_word 1 "export";
                 RGroup 2 (RAlt (rlit (str "const")) (RAlt (rlit (str "let")) (rlit (str "var"))));
                 rspaces]
      [rspaces_opt;
       ropt (RGroup 3 (rseqs [rlit_char ch_colon; rnot ch_equals]));
       rspaces_opt; rlit_char ch_equals] symbolName;
    declaration [RBol; ropt_word 1 "export"; rlit (str "enum"); rspaces]
      [rspaces_opt; rlit_char ch_lbrace] symbolName ].

(** [patterns.some(pattern => pattern.test(line))], as the inner loop
    decides it. *)
Definition declares (symbolName line : jsstring) : bool :=
  existsb (fun pattern => test pattern line) (symbol_patterns symbolName).

(** The counters of the scan of a declaration. *)
Record brace_state : Type := BraceState {
  braceDepth : Z;
  parenDepth : Z;
  inString : bool;
  stringChar : option char;
}.

Definition is_quote (c : char) : bool :=
  ceq c ch_dquote || ceq c ch_squote || ceq c ch_backtick.

(** One code unit of a line; [prevChar] is [None] in front of the first. *)
Definition scan_char (st : brace_state) (prevChar : option char) (c : char) : brace_state :=
  let st1 :=
    if negb (inString st) && is_quote c
    then BraceState (braceDepth st) (parenDepth st) true (Some c)
    else if inString st && bool_decide (stringChar st = Some c)
            && negb (bool_decide (prevChar = Some ch_backslash))
    then BraceState (braceDepth st) (parenDepth st) false (stringChar st)
    else st in
  if negb (inString st1) then
    if ceq c ch_lbrace
    then BraceState (braceDepth st1 + 1) (parenDepth st1) (inString st1) (stringChar st1)
    else if ceq c ch_rbrace
    then BraceState (braceDepth st1 - 1) (parenDepth st1) (inString st1) (stringChar st1)
    else if ceq c ch_lparen
    then BraceState (braceDepth st1) (parenDepth st1 + 1) (inString st1) (stringChar st1)
    else if ceq c ch_rparen
    then BraceState (braceDepth st1) (parenDepth st1 - 1) (inString st1) (stringChar st1)
    else st1
  else st1.

Fixpoint scan_chars (st : brace_state) (prevChar : option char) (line : jsstring)
    : brace_state :=
  match line with
  | [] => st
  | c :: rest => scan_chars (scan_char st prevChar c) (Some c) rest
  end.

Definition symbol_not_found (symbolName : jsstring) : jsstring :=
  str "Symbol " ++ [ch_dquote] ++ symbolName ++ [ch_dquote] ++ str " not found in file".

(** Whether the declaration ends with the line at index [i]. *)
Definition declaration_ends (lines : list jsstring) (i : nat) (currentLine : jsstring)
    (foundDeclaration : bool) (st : brace_state) : bool :=
  foundDeclaration && (braceDepth st =? 0)%Z && (parenDepth st =? 0)%Z
  && (let trimmedLine := trim currentLine in
      endsWith [ch_semicolon] trimmedLine || endsWith [ch_rbrace] trimmedLine
      || ((i + 1 <? length lines)
          && match lines !! (i + 1) with
             | Some nextLine => truthy nextLine && negb (startsWith [ch_dot] (trim nextLine))
             | None => false
             end)).

(** The loop over the lines, from index [i] on: [rest] are the lines not
    yet visited. *)
Fixpoint extract_loop (symbolName : jsstring) (lines : list jsstring) (i : nat)
    (rest : list jsstring) (startLine : option nat) (foundDeclaration : bool)
    (st : brace_state) : outcome :=
  match rest with
  | [] =>
      match startLine with
      | Some from => Ok (join [ch_nl] (drop from lines))
      | None => Throw (symbol_not_found symbolName)
      end
  | currentLine :: rest' =>
      if negb (truthy currentLine)
      then extract_loop symbolName lines (S i) rest' startLine foundDeclaration st
      else
        let line := trim currentLine in
        let starts := match startLine with
                      | None => declares symbolName line
                      | Some _ => false
                      end in
        let startLine' := if starts then Some i else startLine in
        let foundDeclaration' := if starts then true else foundDeclaration in
        match startLine' with
        | Some from =>
            let st' := scan_chars st None currentLine in
            if declaration_ends lines i currentLine foundDeclaration' st'
            then Ok (join [ch_nl] (array_slice lines (Z.of_nat from) (Z.of_nat (i + 1))))
            else extract_loop symbolName lines (S i) rest' startLine' foundDeclaration' st'
        | None => extract_loop symbolName lines (S i) rest' startLine' foundDeclaration' st
        end
  end.

Definition extractSymbol_lines (lines : list jsstring) (symbolName : jsstring) : outcome :=
  extract_loop symbolName lines 0 lines None false (BraceState 0 0 false None).

(** [extractSymbol], in a module of its own: the resolver of file imports
    takes the extraction as a parameter of this name. *)
Module Symbols.
Definition extractSymbol (content symbolName : jsstring) : outcome :=
  extractSymbol_lines (split_on ch_nl content) symbolName.
End Symbols.

(** A lower bound on the number of code units a pattern takes. *)
Fixpoint min_len (r : regex) : nat :=
  match r with
  | RChar _ => 1
  | RSeq r1 r2 => min_len r1 + min_len r2
  | RAlt r1 r2 => Nat.min (min_len r1) (min_len r2)
  | RGroup _ r1 => min_len r1
  | REmpty | RQuant _ _ _ _ | RBackref _ | RBol | REol => 0
  end.

(** A command whose first word is a Markdown file: the word is more than
    [.md] and ends with it. *)
Definition md_file_word (text : jsstring) : Prop :=
  exists word rest,
    text = word ++ str ".md" ++ rest
    /\ word <> [] /\ Forall (fun c => is_space c = false) word
    /\ (rest = [] \/ exists c rest', rest = c :: rest' /\ is_space c = true).

(** The code units between two positions are no white space. *)
Definition solid (s : jsstring) (i j : nat) : Prop :=
  forall k x, i <= k < j -> s !! k = Some x -> is_space x = false.

(** *** Ways of writing a variable

    A value can be written bare, between two quotes on one line, or between
    two quotes over several lines. *)
Inductive env_value : Type :=
| Bare (value : jsstring)
| Quoted (quote : char) (value : jsstring)
| Block (quote : char) (first : jsstring) (middle : list jsstring) (final : jsstring).

(** The lines of a variable in the file. *)
Definition written (entry : jsstring * env_value) : list jsstring :=
  match entry.2 with
  | Bare value => [entry.1 ++ ch_equals :: value]
  | Quoted quote value => [entry.1 ++ ch_equals :: quote :: value ++ [quote]]
  | Block quote first middle final =>
      (entry.1 ++ ch_equals :: quote :: first) :: middle ++ [final ++ [quote]]
  end.

(** The value that is meant. *)
Definition meant (value : env_value) : jsstring :=
  match value with
  | Bare value => value
  | Quoted _ value => value
  | Block _ first middle final => join [ch_nl] (first :: middle ++ [final])
  end.

Definition one_line (text : jsstring) : Prop :=
  Forall (fun c => is_line_terminator c = false) text.

Definition env_quote (quote : char) : Prop := quote = ch_dquote \/ quote = ch_squote.

(** What the parser can read back: a bare value is plain; a quoted value is
    on one line; the first line of a block is not empty, has no white space
    at its end and does not end with the quote, and no line before the
    final one ends with the quote once the white space at its end is
    dropped. *)
Definition well_written (value : env_value) : Prop :=
  match value with
  | Bare value => plain_value value
  | Quoted quote value => env_quote quote /\ one_line value
  | Block quote first middle final =>
      env_quote quote /\ one_line first /\ first <> []
      /\ trim_start (rev first) = rev first /\ last first <> Some quote
      /\ Forall (fun line => (ch_nl ∉ line) /\ endsWith [quote] (trimEnd line) = false) middle
      /\ ch_nl ∉ final
  end.

(** The state of the parser between two variables. *)
Definition idle (m : gmap jsstring jsstring) : env_state := EnvState m None [] false None.

(** A code unit that the scan of a declaration passes over: no quote, brace
    or parenthesis. *)
Definition plain_code (c : char) : bool :=
  negb (is_quote c || ceq c ch_lbrace || ceq c ch_rbrace || ceq c ch_lparen || ceq c ch_rparen).

(* ===================================================================== *)
(** * Part II. Theorems                                                   *)
(* ===================================================================== *)

(** ** Strings *)

Lemma slice_length (s : jsstring) (a b : nat) :
  a <= b -> b <= length s -> length (slice s a b) = b - a.
Proof. intros Hab Hb. unfold slice. rewrite length_take, length_drop. lia. Qed.

Lemma slice_at (s : jsstring) (a b : nat) :
  take (length (slice s a b)) (drop a s) = slice s a b.
Proof.
  unfold slice. rewrite length_take.
  destruct (decide (b - a <= length (drop a s))).
  - by rewrite Nat.min_l.
  - rewrite Nat.min_r by lia. rewrite !take_ge; [done|lia..].
Qed.

(** ** The regular-expression matcher *)

Section rmatch_facts.
Context (s : jsstring).

Lemma rmatch_char_inv cls i c j c' :
  (j, c') ∈ rmatch (RChar cls) s i c ->
  exists x, s !! i = Some x /\ cls x = true /\ j = S i /\ c' = c.
Proof.
  cbn. destruct (s !! i) as [x|]; [|by intros ?%elem_of_nil].
  destruct (cls x) eqn:Hx; [|by intros ?%elem_of_nil].
  intros Hin%list_elem_of_singleton. injection Hin as -> ->. eauto.
Qed.

Lemma rmatch_seq_inv r1 r2 i c j c' :
  (j, c') ∈ rmatch (RSeq r1 r2) s i c ->
  exists j1 c1, (j1, c1) ∈ rmatch r1 s i c /\ (j, c') ∈ rmatch r2 s j1 c1.
Proof. cbn. intros ([j1 c1] & H2 & H1)%list_elem_of_bind. eauto. Qed.

Lemma rmatch_group_inv n r i c j c' :
  (j, c') ∈ rmatch (RGroup n r) s i c ->
  exists c1, (j, c1) ∈ rmatch r s i c /\ c' = <[n := (i, j)]> c1.
Proof.
  cbn. intros ([j1 c1] & H2 & H1)%list_elem_of_bind.
  apply list_elem_of_singleton in H2. injection H2 as -> ->. eauto.
Qed.

(** An iteration with a positive minimum runs the atom once. *)
Lemma repeat_matcher_pos_inv fuel ma greedy lo i c j c' :
  (j, c') ∈ repeat_matcher (S fuel) ma greedy (S lo) None i c ->
  exists j1 c1, (j1, c1) ∈ ma i c /\ (j, c') ∈ repeat_matcher fuel ma greedy lo None j1 c1.
Proof. cbn. intros ([j1 c1] & H2 & H1)%list_elem_of_bind. eauto. Qed.

(** An optional atom is skipped or matched once. *)
Lemma rmatch_opt_inv r i c j c' :
  (j, c') ∈ rmatch (ropt r) s i c ->
  (j, c') = (i, c) \/ (j, c') ∈ rmatch r s i c.
Proof.
  cbn. rewrite elem_of_app, list_elem_of_singleton.
  intros [([j1 c1] & H2 & H1)%list_elem_of_bind|]; [right|by left].
  destruct (j1 =? i); [by apply elem_of_nil in H2|].
  destruct (length s); cbn in H2; [by apply elem_of_nil in H2|].
  apply list_elem_of_singleton in H2. by injection H2 as -> ->.
Qed.

Lemma repeat_matcher_bounds ma :
  (forall i c j c', (j, c') ∈ ma i c -> i <= length s -> i <= j <= length s) ->
  forall fuel greedy lo hi i c j c',
    (j, c') ∈ repeat_matcher fuel ma greedy lo hi i c ->
    i <= length s -> i <= j <= length s.
Proof.
  intros Hma fuel greedy. induction fuel as [|fuel IH]; intros lo hi i c j c' Hin Hi.
  { by apply elem_of_nil in Hin. }
  assert (Hmore : forall j c',
    (j, c') ∈ ('(j1, c1) ← ma i c;
               if ((lo =? 0) && (j1 =? i))%bool then []
               else repeat_matcher fuel ma greedy (pred lo) (pred <$> hi) j1 c1) ->
    i <= j <= length s).
  { intros j0 c0 ([j1 c1] & H2 & H1)%list_elem_of_bind.
    destruct (Hma _ _ _ _ H1 Hi) as [? ?].
    destruct ((lo =? 0) && (j1 =? i))%bool; [by apply elem_of_nil in H2|].
    apply IH in H2; lia. }
  assert (Hhere : (j, c') ∈ [(i, c)] -> i <= j <= length s).
  { intros Heq%list_elem_of_singleton. injection Heq as -> ->. lia. }
  cbn in Hin. destruct hi as [[|hi]|]; [by apply Hhere| |];
    (destruct (lo =? 0); cbn in Hin; [|by apply Hmore in Hin]);
    (destruct greedy;
     [apply elem_of_app in Hin as [Hin|Hin]; [by apply Hmore in Hin|by apply Hhere]
     |apply elem_of_cons in Hin as [Hin|Hin];
      [injection Hin as -> ->; lia|by apply Hmore in Hin]]).
Qed.

Lemma rmatch_quant_eq greedy lo hi r i c :
  rmatch (RQuant greedy lo hi r) s i c
  = repeat_matcher (S (lo + length s)) (rmatch r s) greedy lo hi i c.
Proof. reflexivity. Qed.

(** A match ends at or after its start and inside the string. *)
Lemma rmatch_bounds r i c j c' :
  (j, c') ∈ rmatch r s i c -> i <= length s -> i <= j <= length s.
Proof.
  revert i c j c'. induction r as [cls| |r1 IH1 r2 IH2|r1 IH1 r2 IH2
    |greedy lo hi r IH|n r IH|n| |]; intros i c j c' Hin Hi.
  - apply rmatch_char_inv in Hin as (x & Hx & _ & -> & _).
    apply lookup_lt_Some in Hx. lia.
  - apply list_elem_of_singleton in Hin. injection Hin as -> ->. lia.
  - apply rmatch_seq_inv in Hin as (j1 & c1 & H1 & H2).
    apply IH1 in H1; [|done]. apply IH2 in H2; lia.
  - cbn in Hin. apply elem_of_app in Hin as [Hin|Hin]; eauto.
  - rewrite rmatch_quant_eq in Hin. eapply repeat_matcher_bounds in Hin; eauto.
  - apply rmatch_group_inv in Hin as (c1 & H1 & _). eauto.
  - cbn in Hin. destruct (c !! n) as [[a b]|].
    + destruct (i + (b - a) <=? length s) eqn:Hle; cbn in Hin;
        [|by apply elem_of_nil in Hin].
      apply Nat.leb_le in Hle. case_bool_decide; [|by apply elem_of_nil in Hin].
      apply list_elem_of_singleton in Hin. injection Hin as -> ->. lia.
    + apply list_elem_of_singleton in Hin. injection Hin as -> ->. lia.
  - cbn in Hin. destruct (i =? 0); [|by apply elem_of_nil in Hin].
    apply list_elem_of_singleton in Hin. injection Hin as -> ->. lia.
  - cbn in Hin. destruct (i =? length s); [|by apply elem_of_nil in Hin].
    apply list_elem_of_singleton in Hin. injection Hin as -> ->. lia.
Qed.

Lemma matched_bounds r m : matched s r m -> m_index m <= m_end m <= length s.
Proof.
  intros [Hi [rest Hr]]. eapply rmatch_bounds; [|done].
  rewrite Hr. apply list_elem_of_here.
Qed.

Lemma matched_elem r m :
  matched s r m -> (m_end m, m_caps m) ∈ rmatch r s (m_index m) ∅.
Proof. intros [_ [rest ->]]. apply list_elem_of_here. Qed.

Lemma exec_from_spec r fuel i m :
  exec_from fuel r s i = Some m ->
  i + fuel <= S (length s) -> i <= m_index m /\ matched s r m.
Proof.
  revert i. induction fuel as [|fuel IH]; intros i Hex Hf; [done|].
  cbn in Hex. destruct (rmatch r s i ∅) as [|[e c] rest] eqn:Hr.
  - apply IH in Hex; [|lia]. destruct Hex. split; [lia|done].
  - injection Hex as <-. cbn. split; [lia|]. split; cbn; [lia|eauto].
Qed.

Lemma exec_spec r lastIndex m :
  exec r s lastIndex = Some m -> lastIndex <= m_index m /\ matched s r m.
Proof.
  unfold exec. intros Hex.
  destruct (decide (lastIndex <= S (length s))) as [Hle|Hgt].
  - eapply exec_from_spec; [done|lia].
  - replace (S (length s) - lastIndex) with 0 in Hex by lia. done.
Qed.

(** The matches of the [exec] loop come one after the other: each starts
    at or after the end of the one before. *)
Lemma exec_loop_spec r fuel lastIndex :
  Forall (fun m => lastIndex <= m_index m /\ matched s r m) (exec_loop fuel r s lastIndex)
  /\ StronglySorted (fun a b => m_end a <= m_index b) (exec_loop fuel r s lastIndex).
Proof.
  revert lastIndex. induction fuel as [|fuel IH]; intros lastIndex; cbn.
  { split; constructor. }
  destruct (exec r s lastIndex) as [m|] eqn:Hex; [|split; constructor].
  apply exec_spec in Hex as [Hle Hm]. destruct (IH (m_end m)) as [Hall Hsorted].
  split.
  - constructor; [done|]. eapply Forall_impl; [exact Hall|].
    intros m' [? ?]. split; [|done]. apply matched_bounds in Hm. lia.
  - constructor; [done|]. eapply Forall_impl; [exact Hall|]. by intros m' [? _].
Qed.

Lemma exec_all_matched r : Forall (matched s r) (exec_all r s).
Proof.
  eapply Forall_impl; [apply (exec_loop_spec r (S (length s)) 0)|]. by intros m [_ ?].
Qed.

Lemma exec_all_sorted r :
  StronglySorted (fun a b => m_end a <= m_index b) (exec_all r s).
Proof. apply exec_loop_spec. Qed.
End rmatch_facts.

(** *** The fuel of the matcher is never used up *)

Section fuel.
Context (s : jsstring).

(** More fuel than the iterations that can take place changes nothing. *)
Lemma repeat_matcher_fuel ma :
  (forall i c j c', (j, c') ∈ ma i c -> i <= length s -> i <= j <= length s) ->
  forall fuel1 fuel2 greedy lo hi i c,
    i <= length s ->
    lo + (length s - i) < fuel1 -> lo + (length s - i) < fuel2 ->
    repeat_matcher fuel1 ma greedy lo hi i c = repeat_matcher fuel2 ma greedy lo hi i c.
Proof.
  intros Hma fuel1. induction fuel1 as [|fuel1 IH]; intros fuel2 greedy lo hi i c Hi H1 H2.
  { lia. }
  destruct fuel2 as [|fuel2]; [lia|]. cbn [repeat_matcher].
  assert (Hmore :
    (ma i c ≫= fun '(j, c') =>
       if ((lo =? 0) && (j =? i))%bool then []
       else repeat_matcher fuel1 ma greedy (pred lo) (pred <$> hi) j c')
    = (ma i c ≫= fun '(j, c') =>
       if ((lo =? 0) && (j =? i))%bool then []
       else repeat_matcher fuel2 ma greedy (pred lo) (pred <$> hi) j c')).
  { apply Forall_bind_ext, Forall_forall. intros [j c'] Hin.
    destruct (Hma _ _ _ _ Hin Hi) as [Hij Hj].
    destruct ((lo =? 0) && (j =? i))%bool eqn:Hempty; [done|].
    apply IH; [done|..].
    - destruct lo; cbn [pred]; [|lia].
      cbn in Hempty. apply Nat.eqb_neq in Hempty. lia.
    - destruct lo; cbn [pred]; [|lia].
      cbn in Hempty. apply Nat.eqb_neq in Hempty. lia. }
  by rewrite Hmore.
Qed.

Lemma rmatch_quant_fuel greedy lo hi r i c fuel :
  i <= length s -> lo + length s < fuel ->
  rmatch (RQuant greedy lo hi r) s i c
  = repeat_matcher fuel (rmatch r s) greedy lo hi i c.
Proof.
  intros Hi Hfuel. rewrite rmatch_quant_eq.
  apply repeat_matcher_fuel; [|done|lia..].
  intros. by eapply rmatch_bounds.
Qed.

(** When no match of the pattern is empty, the [exec] loop stops because
    [exec] finds nothing more, whatever fuel beyond the length is given. *)
Lemma exec_loop_fuel r :
  (forall m, matched s r m -> m_index m < m_end m) ->
  forall fuel1 fuel2 lastIndex,
    length s < lastIndex + fuel1 -> length s < lastIndex + fuel2 ->
    exec_loop fuel1 r s lastIndex = exec_loop fuel2 r s lastIndex.
Proof.
  intros Hne fuel1. induction fuel1 as [|fuel1 IH]; intros fuel2 lastIndex H1 H2.
  - assert (Hnone : exec r s lastIndex = None).
    { unfold exec. by replace (S (length s) - lastIndex) with 0 by lia. }
    destruct fuel2; cbn [exec_loop]; [done|]. by rewrite Hnone.
  - destruct fuel2 as [|fuel2]; cbn [exec_loop].
    + assert (Hnone : exec r s lastIndex = None).
      { unfold exec. by replace (S (length s) - lastIndex) with 0 by lia. }
      by rewrite Hnone.
    + destruct (exec r s lastIndex) as [m|] eqn:Hex; [|done].
      apply exec_spec in Hex as [Hle Hm]. specialize (Hne m Hm).
      f_equal. apply IH; lia.
Qed.
End fuel.

(** ** What the directive patterns require of the text at a match *)

Lemma ceq_true a b : ceq a b = true -> a = b.
Proof. apply N.eqb_eq. Qed.

Lemma rmatch_lit_char_inv s ch i c j c' :
  (j, c') ∈ rmatch (rlit_char ch) s i c -> s !! i = Some ch /\ j = S i /\ c' = c.
Proof.
  intros (x & Hx & Hc & -> & ->)%rmatch_char_inv. apply ceq_true in Hc as ->. done.
Qed.

Section pattern_heads.
Context (s : jsstring) (m : rx_match).

Lemma file_match_head :
  matched s FILE_IMPORT_PATTERN m ->
  s !! m_index m = Some ch_at
  /\ (s !! S (m_index m) = Some ch_tilde \/ s !! S (m_index m) = Some ch_dot
      \/ s !! S (m_index m) = Some ch_slash)
  /\ m_index m < m_end m.
Proof.
  intros Hm. pose proof (matched_elem _ _ _ Hm) as Hin. destruct Hm as [Hi _].
  unfold FILE_IMPORT_PATTERN in Hin.
  apply rmatch_seq_inv in Hin as (j1 & c1 & H1 & H2).
  apply rmatch_lit_char_inv in H1 as (Hat & -> & ->).
  pose proof (rmatch_bounds _ _ _ _ _ _ H2) as Hb.
  pose proof (lookup_lt_Some _ _ _ Hat).
  split; [done|]. split; [|lia].
  apply rmatch_group_inv in H2 as (c2 & H2 & _).
  apply rmatch_seq_inv in H2 as (j2 & c3 & Hopt & H3).
  apply rmatch_seq_inv in H3 as (j3 & c4 & Hcls & _).
  apply rmatch_char_inv in Hcls as (x & Hx & Hcls & _ & _).
  apply rmatch_opt_inv in Hopt as [Heq|Htilde].
  - injection Heq as -> ->. rewrite Hx.
    apply orb_true_iff in Hcls as [->%ceq_true| ->%ceq_true]; auto.
  - apply rmatch_lit_char_inv in Htilde as (Ht & _ & _). auto.
Qed.

Lemma url_match_head :
  matched s URL_IMPORT_PATTERN m ->
  s !! m_index m = Some ch_at /\ s !! S (m_index m) = Some 104%N
  /\ m_index m < m_end m.
Proof.
  intros Hm. pose proof (matched_elem _ _ _ Hm) as Hin. destruct Hm as [Hi _].
  unfold URL_IMPORT_PATTERN in Hin.
  apply rmatch_seq_inv in Hin as (j1 & c1 & H1 & H2).
  apply rmatch_lit_char_inv in H1 as (Hat & -> & ->).
  pose proof (rmatch_bounds _ _ _ _ _ _ H2) as Hb.
  pose proof (lookup_lt_Some _ _ _ Hat).
  split; [done|]. split; [|lia].
  apply rmatch_group_inv in H2 as (c2 & H2 & _).
  apply rmatch_seq_inv in H2 as (j2 & c3 & Hlit & _).
  change (rlit (str "http")) with
    (RSeq (rlit_char 104) (rlit (str "ttp"))) in Hlit.
  apply rmatch_seq_inv in Hlit as (j3 & c4 & Hh & _).
  by apply rmatch_lit_char_inv in Hh as (Hh & _ & _).
Qed.

Lemma command_match_head :
  matched s COMMAND_INLINE_PATTERN m ->
  s !! m_index m = Some ch_bang /\ m_index m < m_end m.
Proof.
  intros Hm. pose proof (matched_elem _ _ _ Hm) as Hin. destruct Hm as [Hi _].
  unfold COMMAND_INLINE_PATTERN in Hin.
  apply rmatch_seq_inv in Hin as (j1 & c1 & H1 & H2).
  apply rmatch_lit_char_inv in H1 as (Hat & -> & ->).
  pose proof (rmatch_bounds _ _ _ _ _ _ H2) as Hb.
  pose proof (lookup_lt_Some _ _ _ Hat).
  split; [done|lia].
Qed.

Lemma fence_match_head :
  matched s EXECUTABLE_FENCE_PATTERN m ->
  s !! m_index m = Some ch_backtick /\ s !! S (m_index m) = Some ch_backtick
  /\ s !! S (S (m_index m)) = Some ch_backtick /\ m_index m < m_end m.
Proof.
  intros Hm. pose proof (matched_elem _ _ _ Hm) as Hin. destruct Hm as [Hi _].
  unfold EXECUTABLE_FENCE_PATTERN in Hin.
  apply rmatch_seq_inv in Hin as (j1 & c1 & H1 & H2).
  pose proof (rmatch_bounds _ _ _ _ _ _ H1 Hi) as Hb1.
  pose proof (rmatch_bounds _ _ _ _ _ _ H2) as Hb2.
  apply rmatch_group_inv in H1 as (c2 & H1 & _).
  rewrite rmatch_quant_eq in H1.
  apply repeat_matcher_pos_inv in H1 as (k1 & d1 & Ha & H1).
  apply rmatch_lit_char_inv in Ha as (Ha & -> & ->).
  change (3 + length s) with (S (S (S (length s)))) in H1.
  apply repeat_matcher_pos_inv in H1 as (k2 & d2 & Hb & H1).
  apply rmatch_lit_char_inv in Hb as (Hb & -> & ->).
  apply repeat_matcher_pos_inv in H1 as (k3 & d3 & Hc & H1).
  apply rmatch_lit_char_inv in Hc as (Hc & -> & ->).
  pose proof (lookup_lt_Some _ _ _ Hc).
  eapply repeat_matcher_bounds in H1; [|intros; by eapply rmatch_bounds|lia].
  repeat split; try done. lia.
Qed.
End pattern_heads.

(** The loops over the four directive patterns find every match: no match
    is empty, so they end on a failed [exec]. *)
Lemma directive_loops_complete (s : jsstring) (r : regex) (fuel : nat) :
  r ∈ [FILE_IMPORT_PATTERN; URL_IMPORT_PATTERN; COMMAND_INLINE_PATTERN;
       EXECUTABLE_FENCE_PATTERN] ->
  length s < fuel -> exec_all r s = exec_loop fuel r s 0.
Proof.
  intros Hr Hfuel. unfold exec_all. apply exec_loop_fuel; [|lia..].
  intros m Hm. repeat (apply elem_of_cons in Hr as [->|Hr]).
  - by apply file_match_head in Hm as (_ & _ & ?).
  - by apply url_match_head in Hm as (_ & _ & ?).
  - by apply command_match_head in Hm as (_ & ?).
  - by apply fence_match_head in Hm as (_ & _ & _ & ?).
  - by apply elem_of_nil in Hr.
Qed.

(** ** The scanner *)

Lemma run_length_le c l : run_length c l <= length l.
Proof. induction l as [|x l IH]; cbn; [lia|]. destruct (ceq x c); cbn; lia. Qed.

Lemma until_newline_le l : until_newline l <= length l.
Proof. induction l as [|x l IH]; cbn; [lia|]. destruct (ceq x ch_nl); cbn; lia. Qed.

Lemma run_length_at (s : jsstring) i c :
  s !! i = Some c -> 1 <= run_length c (drop i s) /\ i + run_length c (drop i s) <= length s.
Proof.
  intros Hi. pose proof (run_length_le c (drop i s)) as Hle.
  rewrite length_drop in Hle. pose proof (lookup_lt_Some _ _ _ Hi).
  split; [|lia]. destruct (drop i s) as [|x l] eqn:Hd.
  - apply (f_equal length) in Hd. rewrite length_drop in Hd. cbn in Hd. lia.
  - assert (Hx : drop i s !! 0 = Some x) by by rewrite Hd.
    rewrite lookup_drop, Nat.add_0_r, Hi in Hx. injection Hx as ->.
    cbn. unfold ceq. rewrite N.eqb_refl. lia.
Qed.

Lemma skip_line_le (s : jsstring) i :
  i <= length s -> i + until_newline (drop i s) <= length s.
Proof.
  intros Hi. pose proof (until_newline_le (drop i s)) as Hle.
  rewrite length_drop in Hle. lia.
Qed.

(** Three equal delimiter characters in a row make a run of at least three. *)
Lemma run_length_three (s : jsstring) i c :
  s !! i = Some c -> s !! S i = Some c -> s !! S (S i) = Some c ->
  3 <= run_length c (drop i s).
Proof.
  intros H0 H1 H2.
  assert (Hd : forall k x, s !! (i + k) = Some x -> exists l, drop (i + k) s = x :: l).
  { intros k x Hx. destruct (drop (i + k) s) as [|y l] eqn:Hd.
    - apply (f_equal length) in Hd. rewrite length_drop in Hd. cbn in Hd.
      apply lookup_lt_Some in Hx. lia.
    - assert (Hy : drop (i + k) s !! 0 = Some y) by by rewrite Hd.
      rewrite lookup_drop, Nat.add_0_r, Hx in Hy. injection Hy as ->. eauto. }
  assert (Hnext : forall k x l, drop (i + k) s = x :: l -> drop (i + S k) s = l).
  { intros k x l Hk. replace (i + S k) with ((i + k) + 1) by lia.
    by rewrite <- drop_drop, Hk. }
  destruct (Hd 0 c) as [l0 Hl0]; [by rewrite Nat.add_0_r|].
  destruct (Hd 1 c) as [l1 Hl1]; [by rewrite Nat.add_1_r|].
  destruct (Hd 2 c) as [l2 Hl2]; [by replace (i + 2) with (S (S i)) by lia|].
  pose proof (Hnext _ _ _ Hl0) as E1. pose proof (Hnext _ _ _ Hl1) as E2.
  rewrite Nat.add_0_r in Hl0. rewrite Hl0. rewrite Hl1 in E1. subst l0.
  rewrite Hl2 in E2. subst l1. cbn. unfold ceq. rewrite N.eqb_refl. lia.
Qed.

Section scan_facts.
Context (s : jsstring).

Lemma normal_on_app tr ext a b :
  normal_on tr a b -> b <= length tr -> normal_on (tr ++ ext) a b.
Proof. intros Hn Hb k Hk. rewrite lookup_app_l by lia. by apply Hn. Qed.

Lemma opening_at_app tr ext i : opening_at s tr i -> opening_at s (tr ++ ext) i.
Proof.
  intros [H|[H ?]]; [left|right; split; [|done]]; by apply lookup_app_l_Some.
Qed.

Lemma pushed_ok_app tr ext r : pushed_ok s tr r -> pushed_ok s (tr ++ ext) r.
Proof.
  intros (Hlt & Hn & Ho). split; [done|]. split; [|by apply opening_at_app].
  apply normal_on_app; [done|].
  assert (r_end r < length tr); [|lia].
  destruct Ho as [H|[H _]]; by apply lookup_lt_Some in H.
Qed.

Lemma lookup_app_replicate (tr : list ScanContext) n x k :
  length tr <= k < length tr + n -> (tr ++ replicate n x) !! k = Some x.
Proof.
  intros Hk. rewrite lookup_app_r by lia. apply lookup_replicate_2. lia.
Qed.

(** Recording the range in front of an opening delimiter. *)
Lemma push_range_ok st tr n lbl :
  scan_inv s st tr -> context st = normal -> 0 < n ->
  opening_at s (tr ++ replicate n lbl) (pos st) ->
  Forall (pushed_ok s (tr ++ replicate n lbl)) (push_range st (pos st)).
Proof.
  intros (Hlen & Hpos & Hnorm & Hall) Hctx Hn Hopen.
  destruct (Hnorm Hctx) as [Hrs Hon].
  assert (Hold : Forall (pushed_ok s (tr ++ replicate n lbl)) (safeRanges st)).
  { eapply Forall_impl; [exact Hall|]. intros r. apply pushed_ok_app. }
  unfold push_range. destruct (rangeStart st <? pos st) eqn:Hlt; [|done].
  apply Nat.ltb_lt in Hlt. apply Forall_app. split; [done|].
  constructor; [|constructor]. split; [done|]. split; [|done].
  apply normal_on_app; [done|cbn; lia].
Qed.

(** One iteration keeps the invariant and moves forward. *)
Lemma scan_step_inv st tr :
  scan_inv s st tr -> pos st < length s ->
  scan_inv s (scan_step s st)
    (tr ++ replicate (pos (scan_step s st) - pos st) (step_label s st))
  /\ pos st < pos (scan_step s st).
Proof.
  intros Hinv Hlt. pose proof Hinv as (Hlen & Hpos & Hnorm & Hall).
  destruct (lookup_lt_is_Some_2 s (pos st) Hlt) as [x Hx].
  assert (Hkeep : forall n lbl,
    Forall (pushed_ok s (tr ++ replicate n lbl)) (safeRanges st)).
  { intros n lbl. eapply Forall_impl; [exact Hall|]. intros r. apply pushed_ok_app. }
  unfold scan_inv, step_label, scan_step. destruct (context st) eqn:Hctx.
  - (* normal text *)
    rewrite Hx.
    destruct ((bool_decide (Some x = Some ch_backtick)
               || bool_decide (Some x = Some ch_tilde))
              && (3 <=? run_length x (drop (pos st) s))) eqn:Hfence.
    + (* a fence opens *)
      apply andb_true_iff in Hfence as [_ Hrun%Nat.leb_le].
      destruct (run_length_at s _ _ Hx) as [_ Hr].
      pose proof (skip_line_le s _ Hr) as Hs. cbn [pos context rangeStart safeRanges advance].
      set (n := _ - pos st). assert (0 < n) by (subst n; lia).
      assert (Hopen : opening_at s (tr ++ replicate n fenced_code) (pos st)).
      { left. apply lookup_app_replicate. lia. }
      split; [|lia]. split; [rewrite length_app, length_replicate; subst n; lia|].
      split; [lia|]. split; [done|]. by apply push_range_ok.
    + destruct (bool_decide (Some x = Some ch_backtick)
                && negb (bool_decide (s !! (pos st + 1) = Some ch_backtick))) eqn:Hinl.
      * (* an inline span opens *)
        apply andb_true_iff in Hinl as [_ Hnb%negb_true_iff%bool_decide_eq_false].
        cbn [pos context rangeStart safeRanges advance]. replace (S (pos st) - pos st) with 1 by lia.
        assert (Hopen : opening_at s (tr ++ replicate 1 inline_code) (pos st)).
        { right. split; [apply lookup_app_replicate; lia|].
          by rewrite <- Nat.add_1_r. }
        split; [|lia]. split; [rewrite length_app; cbn; lia|].
        split; [lia|]. split; [done|]. apply push_range_ok; [done..|lia|done].
      * (* plain text *)
        cbn [pos context rangeStart safeRanges advance]. rewrite Hctx.
        replace (S (pos st) - pos st) with 1 by lia.
        destruct (Hnorm eq_refl) as [Hrs Hon].
        split; [|lia]. split; [rewrite length_app; cbn; lia|].
        split; [lia|]. split; [|apply Hkeep].
        intros _. split; [lia|]. intros k Hk.
        destruct (decide (k < pos st)).
        -- rewrite lookup_app_l by lia. apply Hon. lia.
        -- apply lookup_app_replicate. lia.
  - (* inside a fence *)
    destruct (fenceChar st) as [fc|].
    2:{ cbn [pos context rangeStart safeRanges advance]. rewrite Hctx.
        split; [|lia]. split; [rewrite length_app, length_replicate; lia|].
        split; [lia|]. split; [done|apply Hkeep]. }
    destruct (((pos st =? 0) || bool_decide (s !! (pos st - 1) = Some ch_nl))
              && bool_decide (s !! pos st = Some fc)
              && (fenceLen st <=? run_length fc (drop (pos st) s))) eqn:Hclose.
    + (* the closing fence *)
      apply andb_true_iff in Hclose as [[_ Hfc%bool_decide_eq_true]%andb_true_iff _].
      destruct (run_length_at s _ _ Hfc) as [Hr1 Hr].
      pose proof (skip_line_le s _ Hr) as Hs. cbn [pos context rangeStart safeRanges advance].
      set (i2 := pos st + run_length fc (drop (pos st) s) + until_newline _) in *.
      set (i3 := if i2 <? length s then S i2 else i2).
      assert (i2 <= i3 <= length s).
      { subst i3. destruct (i2 <? length s) eqn:E; [apply Nat.ltb_lt in E|]; lia. }
      split; [|lia]. split; [rewrite length_app, length_replicate; lia|].
      split; [lia|]. split; [|apply Hkeep].
      intros _. split; [lia|]. intros k Hk. lia.
    + cbn [pos context rangeStart safeRanges advance]. rewrite Hctx.
      split; [|lia]. split; [rewrite length_app, length_replicate; lia|].
      split; [lia|]. split; [done|apply Hkeep].
  - (* inside an inline span *)
    rewrite Hx. destruct (bool_decide (Some x = Some ch_backtick)) eqn:Hbt.
    + cbn [pos context rangeStart safeRanges advance].
      split; [|lia]. split; [rewrite length_app, length_replicate; lia|].
      split; [lia|]. split; [|apply Hkeep].
      intros _. split; [lia|]. intros k Hk. lia.
    + destruct (bool_decide (Some x = Some ch_nl)) eqn:Hnl.
      * cbn [pos context rangeStart safeRanges advance].
        replace (S (pos st) - pos st) with 1 by lia.
        split; [|lia]. split; [rewrite length_app; cbn; lia|].
        split; [lia|]. split; [|apply Hkeep].
        intros _. split; [lia|]. intros k Hk.
        apply lookup_app_replicate. lia.
      * cbn [pos context rangeStart safeRanges advance]. rewrite Hctx.
        split; [|lia]. split; [rewrite length_app, length_replicate; lia|].
        split; [lia|]. split; [done|apply Hkeep].
Qed.

(** The loop keeps the invariant, and with fuel for the remaining code
    units it runs to the end of the body. *)
Lemma scan_loop_inv fuel st tr :
  scan_inv s st tr -> length s <= pos st + fuel ->
  scan_inv s (scan_loop fuel s st) (tr ++ scan_trace fuel s st)
  /\ pos (scan_loop fuel s st) = length s.
Proof.
  revert st tr. induction fuel as [|fuel IH]; intros st tr Hinv Hfuel;
    cbn [scan_loop scan_trace].
  { rewrite app_nil_r. split; [done|]. destruct Hinv as (_ & ? & _). lia. }
  destruct (pos st <? length s) eqn:Hlt.
  - apply Nat.ltb_lt in Hlt. destruct (scan_step_inv st tr Hinv Hlt) as [Hinv' Hadv].
    rewrite app_assoc. apply IH; [done|lia].
  - apply Nat.ltb_ge in Hlt. rewrite app_nil_r. split; [done|].
    destruct Hinv as (_ & ? & _). lia.
Qed.

Lemma scan_init_inv : scan_inv s scan_init [].
Proof.
  split; [done|]. split; [cbn; lia|]. split; [|constructor].
  intros _. split; [done|]. intros k Hk. cbn in Hk. lia.
Qed.

Lemma scan_final_inv :
  scan_inv s (scan_final s) (contexts s) /\ pos (scan_final s) = length s.
Proof. apply (scan_loop_inv (length s) scan_init []); [apply scan_init_inv|cbn; lia]. Qed.

(** Every code unit of the body is classified. *)
Lemma contexts_length : length (contexts s) = length s.
Proof. destruct scan_final_inv as [(Hlen & _) Hpos]. congruence. Qed.

(** A safe range is non-empty, inside the body, and made of normal text;
    when it ends before the end of the body, it ends on the delimiter that
    opens a code block. *)
Lemma findSafeRanges_spec r :
  r ∈ findSafeRanges s ->
  r_start r < r_end r <= length s
  /\ normal_on (contexts s) (r_start r) (r_end r)
  /\ (r_end r < length s -> opening_at s (contexts s) (r_end r)).
Proof.
  destruct scan_final_inv as [(Hlen & _ & Hnorm & Hall) Hpos].
  assert (Hpushed : r ∈ safeRanges (scan_final s) ->
    r_start r < r_end r <= length s
    /\ normal_on (contexts s) (r_start r) (r_end r)
    /\ (r_end r < length s -> opening_at s (contexts s) (r_end r))).
  { intros Hin. rewrite Forall_forall in Hall. destruct (Hall _ Hin) as (H1 & H2 & H3).
    assert (r_end r < length (contexts s)).
    { destruct H3 as [H|[H _]]; by apply lookup_lt_Some in H. }
    rewrite contexts_length in *. repeat split; [done|lia|done|done]. }
  unfold findSafeRanges. destruct (context (scan_final s)) eqn:Hctx; [|done..].
  destruct (rangeStart (scan_final s) <? length s) eqn:Hlt; [|done].
  apply Nat.ltb_lt in Hlt. intros [Hin|Hin%list_elem_of_singleton]%elem_of_app; [auto|].
  subst r. cbn. destruct (Hnorm eq_refl) as [_ Hon]. rewrite Hpos in Hon.
  repeat split; [done|lia|done|lia].
Qed.

Lemma isInSafeRange_true i ranges :
  isInSafeRange i ranges = true <-> exists r, r ∈ ranges /\ r_start r <= i < r_end r.
Proof.
  unfold isInSafeRange. rewrite existsb_exists. split.
  - intros (r & Hin%list_elem_of_In & [?%Nat.leb_le ?%Nat.ltb_lt]%andb_true_iff). eauto.
  - intros (r & Hin & [? ?]). exists r. split; [by apply list_elem_of_In|].
    apply andb_true_iff. split; [by apply Nat.leb_le|by apply Nat.ltb_lt].
Qed.

(** A position in a safe range is normal text. *)
Lemma safe_is_normal i :
  isInSafeRange i (findSafeRanges s) = true -> contexts s !! i = Some normal.
Proof.
  intros (r & Hin & Hi)%isInSafeRange_true.
  apply findSafeRanges_spec in Hin as (_ & Hon & _). by apply Hon.
Qed.
End scan_facts.

(** ** Sorting *)

Section sort_by_facts.
Context {A : Type} (cmp : A -> A -> Z) (R : relation A).
Context (Hle : forall x y, (cmp x y <= 0)%Z -> R x y).
Context (Hgt : forall x y, (0 < cmp x y)%Z -> R y x).
Context `{!Transitive R}.

Lemma insert_by_perm x l : insert_by cmp x l ≡ₚ x :: l.
Proof.
  induction l as [|y l IH]; cbn; [done|].
  destruct (cmp x y <=? 0)%Z; [done|]. rewrite IH. apply Permutation_swap.
Qed.

Lemma sort_by_perm l : sort_by cmp l ≡ₚ l.
Proof.
  induction l as [|x l IH]; cbn; [done|].
  fold (sort_by cmp l). by rewrite insert_by_perm, IH.
Qed.

Lemma insert_by_sorted x l :
  StronglySorted R l -> StronglySorted R (insert_by cmp x l).
Proof.
  induction 1 as [|y l Hs IH Hall]; cbn; [repeat constructor|].
  destruct (cmp x y <=? 0)%Z eqn:Hc.
  - apply Z.leb_le, Hle in Hc. constructor; [by constructor|].
    constructor; [done|]. eapply Forall_impl; [exact Hall|].
    intros z Hz. by etrans.
  - apply Z.leb_gt, Hgt in Hc. constructor; [done|].
    rewrite insert_by_perm. by constructor.
Qed.

Lemma sort_by_sorted l : StronglySorted R (sort_by cmp l).
Proof.
  induction l as [|x l IH]; cbn; [constructor|].
  fold (sort_by cmp l). by apply insert_by_sorted.
Qed.
End sort_by_facts.

Lemma StronglySorted_pair {A} (R : relation A) (l : list A) i j x y :
  StronglySorted R l -> i < j -> l !! i = Some x -> l !! j = Some y -> R x y.
Proof.
  intros Hs. revert i j. induction Hs as [|z l Hs IH Hall]; intros i j Hij Hi Hj; [done|].
  destruct j as [|j]; [lia|]. destruct i as [|i]; cbn in *.
  - injection Hi as ->. rewrite Forall_forall in Hall. apply Hall.
    by eapply list_elem_of_lookup_2.
  - eapply (IH i j); [lia|done..].
Qed.

Lemma StronglySorted_filter {A} (R : relation A) (P : A -> Prop)
    `{!forall x, Decision (P x)} (l : list A) :
  StronglySorted R l -> StronglySorted R (filter P l).
Proof.
  induction 1 as [|x l Hs IH Hall]; [constructor|].
  rewrite filter_cons. destruct (decide (P x)); [|done].
  constructor; [done|]. rewrite Forall_forall in *.
  intros y [_ Hy]%list_elem_of_filter. auto.
Qed.

(** A list sorted by a key without repeated keys is strictly sorted. *)
Lemma sorted_nodup_strict {A} (key : A -> nat) (l : list A) :
  StronglySorted (fun a b => key a <= key b) l -> NoDup (key <$> l) ->
  StronglySorted (fun a b => key a < key b) l.
Proof.
  induction 1 as [|x l Hs IH Hall]; intros Hnd; [constructor|].
  rewrite fmap_cons in Hnd. apply NoDup_cons in Hnd as [Hx Hnd].
  constructor; [auto|]. rewrite Forall_forall in *. intros y Hy.
  assert (key x <> key y); [|specialize (Hall y Hy); lia].
  intros Heq. apply Hx. rewrite Heq. by apply list_elem_of_fmap_2.
Qed.

(** ** Directives, family by family *)

Lemma head_ok_inj s f1 f2 i : head_ok s f1 i -> head_ok s f2 i -> f1 = f2.
Proof.
  unfold head_ok, ch_at, ch_tilde, ch_dot, ch_slash, ch_bang, ch_backtick.
  destruct f1, f2; try done; intros H1 H2;
    repeat match goal with
    | H : _ /\ _ |- _ => destruct H
    | H : _ \/ _ |- _ => destruct H
    end; congruence.
Qed.

Lemma parseFileImportPath_fields fullMatch path index :
  action_index (parseFileImportPath fullMatch path index) = index
  /\ action_original (parseFileImportPath fullMatch path index) = fullMatch
  /\ action_family (parseFileImportPath fullMatch path index) = FamFile.
Proof.
  unfold parseFileImportPath. destruct (isGlobPattern path); [done|].
  destruct (parseSymbolExtraction path) as [p [sym|]]; [done|].
  by destruct (parseLineRange path) as [p' [[a b]|]].
Qed.

Lemma StronglySorted_with {A} (R : relation A) (Q : A -> Prop) (l : list A) :
  StronglySorted R l -> Forall Q l -> StronglySorted (fun a b => Q a /\ R a b) l.
Proof.
  induction 1 as [|x l Hs IH Hall]; intros HQ; [constructor|].
  apply Forall_cons in HQ as [Hx HQ]. constructor; [auto|].
  eapply Forall_impl; [exact Hall|]. done.
Qed.

Section family_lists.
Context (s : jsstring) (r : regex) (f : family).
Context (P : rx_match -> Prop) `{!forall m, Decision (P m)}.
Context (mk : rx_match -> ImportAction).
Context (Hidx : forall m, action_index (mk m) = m_index m).
Context (Horig : forall m, action_original (mk m) = m_text s m).
Context (Hfam : forall m, action_family (mk m) = f).
Context (Hhead : forall m, matched s r m -> head_ok s f (m_index m) /\ m_index m < m_end m).

Lemma span_end_mk m : matched s r m -> span_end (mk m) = m_end m.
Proof.
  intros Hb%matched_bounds. unfold span_end, m_text. rewrite Hidx, Horig.
  unfold m_text. rewrite slice_length; lia.
Qed.

Lemma family_list_elem a :
  a ∈ mk <$> filter P (exec_all r s) ->
  exists m, P m /\ matched s r m /\ action_index a = m_index m
    /\ action_family a = f /\ head_ok s f (action_index a)
    /\ action_index a < span_end a /\ occurs_at s a.
Proof.
  intros (m & -> & [HP Hm]%list_elem_of_filter)%list_elem_of_fmap.
  pose proof (exec_all_matched s r) as Hall. rewrite Forall_forall in Hall.
  apply Hall in Hm. destruct (Hhead m Hm) as [Hh Hlt].
  pose proof (matched_bounds _ _ _ Hm) as Hb.
  exists m. pose proof (span_end_mk m Hm) as Hse.
  unfold occurs_at. rewrite Hse, Hidx, Hfam, Horig. split_and!; try done; lia.
Qed.

Lemma family_list_sorted :
  StronglySorted (fun a b => span_end a <= action_index b)
    (mk <$> filter P (exec_all r s)).
Proof.
  eapply (StronglySorted_fmap mk (fun a b => matched s r a /\ m_end a <= m_index b)).
  { intros a b [Hm Hle]. by rewrite span_end_mk, Hidx. }
  apply StronglySorted_with.
  - apply StronglySorted_filter, exec_all_sorted.
  - apply Forall_forall. intros m [_ Hm]%list_elem_of_filter.
    pose proof (exec_all_matched s r) as Hall. rewrite Forall_forall in Hall. auto.
Qed.

Lemma family_list_nodup : NoDup (action_index <$> (mk <$> filter P (exec_all r s))).
Proof.
  pose proof family_list_sorted as Hs.
  assert (Hall : Forall (fun a => action_index a < span_end a)
                   (mk <$> filter P (exec_all r s))).
  { apply Forall_forall. intros a (m & _ & _ & _ & _ & _ & ? & _)%family_list_elem. done. }
  induction Hs as [|a l Hs IH Hfa]; [constructor|].
  apply Forall_cons in Hall as [Ha Hall]. rewrite fmap_cons. apply NoDup_cons.
  split; [|auto]. intros (b & Heq & Hb)%list_elem_of_fmap.
  rewrite Forall_forall in Hfa. specialize (Hfa b Hb). lia.
Qed.
End family_lists.

Lemma is_exec_fence_family a : is_exec_fence a = true <-> action_family a = FamFence.
Proof. by destruct a. Qed.

Lemma StronglySorted_elems {A} (R : relation A) (l : list A) x y :
  StronglySorted R l -> x ∈ l -> y ∈ l -> x = y \/ R x y \/ R y x.
Proof.
  induction 1 as [|z l Hs IH Hall]; [by intros ?%elem_of_nil|].
  rewrite Forall_forall in Hall.
  intros [->|Hx]%elem_of_cons [->|Hy]%elem_of_cons; auto.
Qed.

Section collected.
Context (s : jsstring).

Lemma collected_families a :
  a ∈ collected_actions s <-> exists f, a ∈ actions_of_family s f.
Proof.
  unfold collected_actions. rewrite !elem_of_app. split.
  - intros [H|[H|[H|H]]];
      [exists FamFile|exists FamUrl|exists FamCommand|exists FamFence]; done.
  - intros [[] H]; cbn in H; auto.
Qed.

(** Every directive a pattern contributes starts where the pattern can
    start, is non-empty, occurs in the body, and passed its gate. *)
Lemma family_elem f a :
  a ∈ actions_of_family s f ->
  action_family a = f /\ head_ok s f (action_index a)
  /\ action_index a < span_end a /\ occurs_at s a /\ gate_ok s a.
Proof.
  destruct f; cbn [actions_of_family]; intros Hin.
  - eapply (family_list_elem s FILE_IMPORT_PATTERN FamFile) in Hin
      as (m & HP & _ & Hi & Hf & Hh & Hlt & Hocc).
    + split_and!; try done. unfold gate_ok.
      destruct (is_exec_fence a) eqn:E; [apply is_exec_fence_family in E; congruence|].
      rewrite Hi. cbn beta in HP. by apply andb_true_iff in HP as [? _].
    + intros m. apply parseFileImportPath_fields.
    + intros m. apply parseFileImportPath_fields.
    + intros m. apply parseFileImportPath_fields.
    + intros m (? & ? & ?)%file_match_head. done.
  - eapply (family_list_elem s URL_IMPORT_PATTERN FamUrl) in Hin
      as (m & HP & _ & Hi & Hf & Hh & Hlt & Hocc); try done.
    + split_and!; try done. unfold gate_ok.
      destruct (is_exec_fence a) eqn:E; [apply is_exec_fence_family in E; congruence|].
      rewrite Hi. cbn beta in HP. by apply andb_true_iff in HP as [? _].
    + intros m (? & ? & ?)%url_match_head. done.
  - eapply (family_list_elem s COMMAND_INLINE_PATTERN FamCommand) in Hin
      as (m & HP & _ & Hi & Hf & Hh & Hlt & Hocc); try done.
    + split_and!; try done. unfold gate_ok.
      destruct (is_exec_fence a) eqn:E; [apply is_exec_fence_family in E; congruence|].
      rewrite Hi. cbn beta in HP. by apply andb_true_iff in HP as [? _].
    + intros m (? & ?)%command_match_head. done.
  - eapply (family_list_elem s EXECUTABLE_FENCE_PATTERN FamFence) in Hin
      as (m & HP & _ & Hi & Hf & Hh & Hlt & Hocc); try done.
    + split_and!; try done. unfold gate_ok.
      apply is_exec_fence_family in Hf as ->. rewrite Hi.
      cbn beta in HP. by apply andb_true_iff in HP as [?%bool_decide_eq_true _].
    + intros m (? & ? & ? & ?)%fence_match_head. done.
Qed.

Lemma family_sorted f :
  StronglySorted (fun a b => span_end a <= action_index b) (actions_of_family s f).
Proof.
  destruct f; cbn.
  - apply (family_list_sorted s FILE_IMPORT_PATTERN); intros m;
      apply parseFileImportPath_fields.
  - by apply (family_list_sorted s URL_IMPORT_PATTERN).
  - by apply (family_list_sorted s COMMAND_INLINE_PATTERN).
  - by apply (family_list_sorted s EXECUTABLE_FENCE_PATTERN).
Qed.

Lemma family_nodup f : NoDup (action_index <$> actions_of_family s f).
Proof.
  pose proof (family_sorted f) as Hs.
  assert (Hall : Forall (fun a => action_index a < span_end a) (actions_of_family s f)).
  { apply Forall_forall. intros a (_ & _ & ? & _)%family_elem. done. }
  induction Hs as [|a l Hs IH Hfa]; [constructor|].
  apply Forall_cons in Hall as [Ha Hall]. rewrite fmap_cons. apply NoDup_cons.
  split; [|auto]. intros (b & Heq & Hb)%list_elem_of_fmap.
  rewrite Forall_forall in Hfa. specialize (Hfa b Hb). lia.
Qed.

(** Two patterns never match at the same position. *)
Lemma families_apart f1 f2 i :
  f1 <> f2 ->
  i ∈ action_index <$> actions_of_family s f1 ->
  i ∉ action_index <$> actions_of_family s f2.
Proof.
  intros Hne (a & -> & Ha)%list_elem_of_fmap (b & Heq & Hb)%list_elem_of_fmap.
  apply family_elem in Ha as (_ & Ha & _), Hb as (_ & Hb & _).
  rewrite <- Heq in Hb. by pose proof (head_ok_inj _ _ _ _ Ha Hb).
Qed.

Lemma collected_nodup : NoDup (action_index <$> collected_actions s).
Proof.
  unfold collected_actions. cbn zeta.
  change (file_actions s (findSafeRanges s)) with (actions_of_family s FamFile).
  change (url_actions s (findSafeRanges s)) with (actions_of_family s FamUrl).
  change (command_actions s (findSafeRanges s)) with (actions_of_family s FamCommand).
  change (fence_actions s _) with (actions_of_family s FamFence).
  rewrite !fmap_app. repeat (apply NoDup_app; split; [apply family_nodup|split]);
    try apply family_nodup;
    intros i Hi; rewrite ?elem_of_app;
    repeat (intros [H|H]; [by eapply families_apart in H|revert H]);
    intros H; by eapply families_apart in H.
Qed.

Lemma parseImports_perm : parseImports s ≡ₚ collected_actions s.
Proof. apply sort_by_perm. Qed.

Lemma parseImports_elem a :
  a ∈ parseImports s <-> exists f, a ∈ actions_of_family s f.
Proof. by rewrite parseImports_perm, collected_families. Qed.

Lemma parseImports_strict : strictly_ascending (parseImports s).
Proof.
  apply (sorted_nodup_strict action_index).
  - apply (sort_by_sorted by_index); unfold by_index.
    + intros x y. lia.
    + intros x y. lia.
    + intros x y z. lia.
  - rewrite parseImports_perm. apply collected_nodup.
Qed.
End collected.

(** ** The gates of [parseImports] *)

Lemma unsafeStarts_elem content ranges i :
  i ∈ unsafeStarts content ranges ->
  i = 0 \/ exists r, r ∈ ranges /\ r_end r = i /\ i < length content.
Proof.
  unfold unsafeStarts. destruct ranges as [|r0 ranges'].
  - destruct (0 <? length content); [|by intros ?%elem_of_empty].
    intros ->%elem_of_singleton. by left.
  - intros [Hz|Hl]%elem_of_union.
    + destruct (0 <? r_start r0); [|by apply elem_of_empty in Hz].
      apply elem_of_singleton in Hz. by left.
    + apply elem_of_list_to_set, list_elem_of_fmap in Hl as (r & -> & Hr).
      apply list_elem_of_filter in Hr as [Hlt Hr]. right. eauto.
Qed.

Lemma first_step_fence s :
  head_ok s FamFence 0 ->
  context (scan_step s scan_init) = fenced_code /\ 0 < pos (scan_step s scan_init).
Proof.
  intros (H0 & H1 & H2). pose proof (run_length_three s 0 _ H0 H1 H2) as Hrun.
  unfold scan_step, scan_init. cbn [context pos]. rewrite H0.
  rewrite bool_decide_eq_true_2 by done. cbn [orb andb].
  rewrite (proj2 (Nat.leb_le _ _) Hrun). cbn [context pos]. split; [done|lia].
Qed.

(** A fence at the very start of the body is classified as code. *)
Lemma contexts_fence_at_zero s :
  head_ok s FamFence 0 -> contexts s !! 0 = Some fenced_code.
Proof.
  intros Hh. destruct (first_step_fence s Hh) as [Hctx Hpos].
  destruct Hh as (H0%lookup_lt_Some & _). unfold contexts.
  destruct (length s) as [|n] eqn:Hlen; [lia|]. cbn [scan_trace].
  replace (pos scan_init <? length s) with true
    by (symmetry; apply Nat.ltb_lt; cbn [pos scan_init]; lia).
  rewrite lookup_app_l by (rewrite length_replicate; cbn [pos scan_init]; lia).
  unfold step_label. cbn [context scan_init]. rewrite Hctx.
  apply lookup_replicate_2. cbn [pos scan_init]. lia.
Qed.

(** A fence of backticks at the start of an unsafe gap is where the scanner
    opened a fenced block, at the start of the body or right after normal
    text. *)
Lemma unsafe_start_is_fence s i :
  i ∈ unsafeStarts s (findSafeRanges s) -> head_ok s FamFence i ->
  contexts s !! i = Some fenced_code /\ unsafe_range_start (contexts s) i.
Proof.
  intros Hin Hh. destruct (decide (i = 0)) as [->|Hnz].
  { pose proof (contexts_fence_at_zero s Hh) as H0. split; [done|].
    split; [eauto|by left]. }
  apply unsafeStarts_elem in Hin as [?|(r & Hr & <- & Hlt)]; [done|].
  apply findSafeRanges_spec in Hr as (Hne & Hon & Hopen).
  destruct Hh as (_ & Hb & _).
  assert (Hf : contexts s !! r_end r = Some fenced_code).
  { destruct (Hopen Hlt) as [H|[_ H]]; [done|]. by rewrite Hb in H. }
  split; [done|]. split; [eauto|]. right. apply Hon. lia.
Qed.

(** ** The scan, in words *)

Lemma run_length_spec c (l : jsstring) :
  (forall k, k < run_length c l -> l !! k = Some c) /\ l !! run_length c l <> Some c.
Proof.
  induction l as [|x l [IH1 IH2]]; cbn [run_length]; [split; [lia|done]|].
  destruct (ceq x c) eqn:Hx.
  - apply ceq_true in Hx as ->. split; [|done].
    intros [|k] Hk; [done|]. apply IH1. lia.
  - split; [lia|]. cbn. intros [= ->]. unfold ceq in Hx. by rewrite N.eqb_refl in Hx.
Qed.

Lemma run_length_run_at (s : jsstring) c i : run_at s c i (run_length c (drop i s)).
Proof.
  destruct (run_length_spec c (drop i s)) as [H1 H2]. split.
  - intros k Hk. specialize (H1 (k - i) ltac:(lia)). rewrite lookup_drop in H1.
    by replace (i + (k - i)) with k in H1 by lia.
  - by rewrite lookup_drop in H2.
Qed.

Lemma run_at_unique (s : jsstring) c i n m : run_at s c i n -> run_at s c i m -> n = m.
Proof.
  intros [Hn Hn'] [Hm Hm']. destruct (Nat.lt_trichotomy n m) as [Hlt|[->|Hlt]]; [|done|].
  - destruct Hn'. apply Hm. lia.
  - destruct Hm'. apply Hn. lia.
Qed.

Lemma run_at_head (s : jsstring) c i n : run_at s c i n -> 0 < n -> s !! i = Some c.
Proof. intros [Hn _] Hpos. apply Hn. lia. Qed.

Lemma until_newline_spec (l : jsstring) :
  (forall k, k < until_newline l -> l !! k <> Some ch_nl)
  /\ (until_newline l < length l -> l !! until_newline l = Some ch_nl).
Proof.
  induction l as [|x l [IH1 IH2]]; cbn [until_newline]; [split; [lia|cbn; lia]|].
  destruct (ceq x ch_nl) eqn:Hx.
  - apply ceq_true in Hx as ->. split; [lia|done].
  - split.
    + intros [|k] Hk; cbn.
      * intros [= ->]. unfold ceq in Hx. by rewrite N.eqb_refl in Hx.
      * apply IH1. lia.
    + cbn. intros Hlt. apply IH2. lia.
Qed.

Lemma until_newline_line_end (s : jsstring) i :
  i <= length s -> line_end s i (i + until_newline (drop i s)).
Proof.
  intros Hi. destruct (until_newline_spec (drop i s)) as [H1 H2].
  pose proof (skip_line_le s i Hi) as Hle. split_and!; [lia|done| |].
  - intros k Hk. specialize (H1 (k - i) ltac:(lia)). rewrite lookup_drop in H1.
    by replace (i + (k - i)) with k in H1 by lia.
  - intros Hlt. rewrite length_drop, lookup_drop in H2. apply H2. lia.
Qed.

Lemma line_end_unique (s : jsstring) i j j' : line_end s i j -> line_end s i j' -> j = j'.
Proof.
  intros (Hj & Hb & He) (Hj' & Hb' & He').
  destruct (Nat.lt_trichotomy j j') as [Hlt|[->|Hlt]]; [|done|].
  - destruct (Hb' j ltac:(lia)). apply He. lia.
  - destruct (Hb j' ltac:(lia)). apply He'. lia.
Qed.

Lemma fence_opens_unique (s : jsstring) i c n c' n' :
  fence_opens s i c n -> fence_opens s i c' n' -> c = c' /\ n = n'.
Proof.
  intros (_ & Hn & Hr) (_ & Hn' & Hr').
  pose proof (run_at_head _ _ _ _ Hr ltac:(lia)) as Hc.
  pose proof (run_at_head _ _ _ _ Hr' ltac:(lia)) as Hc'.
  assert (c = c') as <- by congruence. split; [done|]. by eapply run_at_unique.
Qed.

Lemma fence_not_span (s : jsstring) i c n : fence_opens s i c n -> ~ span_opens s i.
Proof.
  intros (_ & Hn & [Hr _]) [Hb Hnb].
  pose proof (Hr i ltac:(lia)) as H0. pose proof (Hr (S i) ltac:(lia)) as H1.
  congruence.
Qed.

(** *** The scan is read one way only *)

Section read_facts.
Context (s : jsstring).

Lemma read_step_forward kind p q : read_step s kind p q -> p.1 < q.1.
Proof.
  destruct 1 as [i|i c n j (_ & Hn & _) (Hj & _)|i|i c n|i c n m j (_ & Hm & _) (Hj & _)
                |i|i|i];
    cbn [fst]; try lia.
  destruct (decide (j < length s)); lia.
Qed.

Lemma read_step_deterministic kind kind' p q q' :
  read_step s kind p q -> read_step s kind' p q' -> kind = kind' /\ q = q'.
Proof.
  destruct 1; inversion 1; subst; try done;
    repeat match goal with
    | H : forall c n, ~ fence_opens s ?i c n, H' : fence_opens s ?i _ _ |- _ =>
        destruct (H _ _ H')
    | H : ~ span_opens s ?i, H' : span_opens s ?i |- _ => destruct (H H')
    | H : fence_opens s ?i _ _, H' : span_opens s ?i |- _ =>
        destruct (fence_not_span _ _ _ _ H H')
    | H : forall m, ~ fence_closes s ?i ?c ?n m, H' : fence_closes s ?i ?c ?n _ |- _ =>
        destruct (H _ H')
    | H : s !! ?i = Some ?x, H' : s !! ?i <> Some ?x |- _ => destruct (H' H)
    | H : s !! ?i = Some ch_backtick, H' : s !! ?i = Some ch_nl |- _ =>
        rewrite H in H'; discriminate
    | H : fence_opens s ?i ?c ?n, H' : fence_opens s ?i ?c' ?n' |- _ =>
        destruct (fence_opens_unique _ _ _ _ _ _ H H') as [-> ->]; clear H'
    | H : fence_closes s ?i ?c ?n ?m, H' : fence_closes s ?i ?c ?n ?m' |- _ =>
        let Hr := fresh in let Hr' := fresh in
        pose proof H as (_ & _ & _ & Hr); pose proof H' as (_ & _ & _ & Hr');
        pose proof (run_at_unique _ _ _ _ _ Hr Hr') as ->; clear H' Hr Hr'
    | H : line_end s ?i ?j, H' : line_end s ?i ?j' |- _ =>
        pose proof (line_end_unique _ _ _ _ H H') as ->; clear H'
    end; done.
Qed.

Lemma read_next_forward p q : rtc (read_next s) p q -> p = q \/ p.1 < q.1.
Proof.
  induction 1 as [p|p p' q [kind Hstep] _ IH]; [by left|].
  apply read_step_forward in Hstep. right. destruct IH as [<-|?]; lia.
Qed.

(** Two arrivals lie on one path. *)
Lemma reads_comparable p q :
  reads s p -> reads s q -> rtc (read_next s) p q \/ rtc (read_next s) q p.
Proof.
  intros Hp Hq.
  eapply (rtc_ind_r (fun q => rtc (read_next s) p q \/ rtc (read_next s) q p) (0, in_text));
    [by right| |exact Hq].
  clear q Hq. intros q' q Hq' [kind Hstep] IH.
  destruct IH as [Hpq|Hqp].
  - left. eapply rtc_r; [exact Hpq|by exists kind].
  - destruct (rtc_inv _ _ Hqp) as [<-|(q1 & [kind1 Hstep1] & Hrest)].
    + left. apply rtc_once. by exists kind.
    + destruct (read_step_deterministic _ _ _ _ _ Hstep Hstep1) as [_ <-]. by right.
Qed.

Lemma reads_mode i m m' : reads s (i, m) -> reads s (i, m') -> m = m'.
Proof.
  intros H1 H2. destruct (reads_comparable _ _ H1 H2) as [H|H];
    apply read_next_forward in H as [[=]|Hlt]; cbn in *; (done || lia).
Qed.

(** A code unit read as text belongs to no code. *)
Lemma text_not_code k : text_at s k -> ~ code_at s k.
Proof.
  intros (m & q & Hk & Hstep) ([i mi] & [j mj] & Hi & Hcode & Hle). cbn [fst] in Hle.
  destruct (reads_comparable _ _ Hi Hk) as [H|H].
  - destruct (rtc_inv _ _ H) as [[= -> ->]|(q1 & [kind1 Hstep1] & Hrest)].
    + by destruct (read_step_deterministic _ _ _ _ _ Hstep Hcode) as [[=] _].
    + destruct (read_step_deterministic _ _ _ _ _ Hcode Hstep1) as [_ <-].
      apply read_next_forward in Hrest as [[= -> ->]|Hlt]; cbn in *; lia.
  - apply read_next_forward in H as [[= -> ->]|Hlt]; cbn in *; [|lia].
    by destruct (read_step_deterministic _ _ _ _ _ Hstep Hcode) as [[=] _].
Qed.
End read_facts.

(** *** The scanner follows the scan in words *)

Section scan_reads.
Context (s : jsstring).

Lemma last_app_replicate (tr : list ScanContext) n lbl :
  0 < n -> last (tr ++ replicate n lbl) = Some lbl.
Proof.
  intros Hn. rewrite last_lookup, length_app, length_replicate.
  apply lookup_app_replicate. lia.
Qed.

Lemma lookup_app_replicate_inv (tr : list ScanContext) n lbl k y :
  (tr ++ replicate n lbl) !! k = Some y ->
  (k < length tr /\ tr !! k = Some y) \/ (length tr <= k < length tr + n /\ y = lbl).
Proof.
  intros Hk. destruct (decide (k < length tr)) as [Hlt|Hge].
  - left. by rewrite lookup_app_l in Hk.
  - right. rewrite lookup_app_r in Hk by lia.
    apply lookup_replicate in Hk as [-> Hlt]. split; [lia|done].
Qed.

(** The code units of one iteration, added to those classified before. *)
Lemma extend_labels (tr : list ScanContext) n lbl :
  (forall k, tr !! k = Some normal -> text_at s k) ->
  (forall k, tr !! k = Some fenced_code -> (k = 0 \/ tr !! (k - 1) = Some normal) ->
     fence_read_at s k) ->
  (lbl = normal -> forall k, length tr <= k < length tr + n -> text_at s k) ->
  (lbl = fenced_code -> length tr = 0 \/ last tr = Some normal ->
     fence_read_at s (length tr)) ->
  (forall k, (tr ++ replicate n lbl) !! k = Some normal -> text_at s k)
  /\ (forall k, (tr ++ replicate n lbl) !! k = Some fenced_code ->
        (k = 0 \/ (tr ++ replicate n lbl) !! (k - 1) = Some normal) -> fence_read_at s k).
Proof.
  intros Htext Hfence Hnew Hopen. split.
  - intros k [[_ Hk]|[Hk Heq]]%lookup_app_replicate_inv; [by apply Htext|by apply Hnew].
  - intros k [[Hlt Hk]|[Hk Heq]]%lookup_app_replicate_inv Hprev.
    + apply Hfence; [done|]. destruct Hprev as [->|Hprev]; [by left|right].
      destruct (decide (k = 0)) as [->|Hnz]; [by rewrite lookup_app_l in Hprev|].
      by rewrite lookup_app_l in Hprev by lia.
    + destruct Hprev as [->|Hprev].
      * assert (length tr = 0) as Hz by lia.
        specialize (Hopen (eq_sym Heq) (or_introl Hz)). by rewrite Hz in Hopen.
      * apply lookup_app_replicate_inv in Hprev as [[Hlt Hprev]|[_ Heq']]; [|congruence].
        assert (k = length tr) as -> by lia. apply Hopen; [done|right].
        rewrite last_lookup. by replace (pred (length tr)) with (length tr - 1) by lia.
Qed.

Lemma scan_step_reads st tr :
  scan_inv s st tr -> read_inv s st tr -> pos st < length s ->
  read_inv s (scan_step s st)
    (tr ++ replicate (pos (scan_step s st) - pos st) (step_label s st)).
Proof.
  intros (Hlen & Hpos & _ & _) (Hreads & Htext & Hfence & Hin) Hlt.
  destruct (lookup_lt_is_Some_2 s (pos st) Hlt) as [x Hx].
  assert (Hnext : forall kind q, read_step s kind (pos st, mode_of st) q -> reads s q).
  { intros kind q Hstep. eapply rtc_r; [exact Hreads|by exists kind]. }
  unfold read_inv, step_label, scan_step, mode_of in *. destruct (context st) eqn:Hctx.
  - (* normal text *)
    rewrite Hx.
    destruct ((bool_decide (Some x = Some ch_backtick)
               || bool_decide (Some x = Some ch_tilde))
              && (3 <=? run_length x (drop (pos st) s))) eqn:Hfc.
    + (* a fence opens *)
      apply andb_true_iff in Hfc as [Hchar%orb_true_iff Hrun%Nat.leb_le].
      destruct (run_length_at s _ _ Hx) as [_ Hr].
      pose proof (skip_line_le s _ Hr) as Hs.
      assert (Hopens : fence_opens s (pos st) x (run_length x (drop (pos st) s))).
      { split_and!; [|done|apply run_length_run_at].
        destruct Hchar as [[= ->]%bool_decide_eq_true|[= ->]%bool_decide_eq_true]; auto. }
      cbn [pos context fenceChar fenceLen default from_option id].
      set (n := _ - pos st). assert (0 < n) by (subst n; lia).
      destruct (extend_labels tr n fenced_code Htext Hfence ltac:(done)) as [Ht Hf].
      { intros _ _. rewrite Hlen. split; [done|eauto]. }
      split_and!; [|done|done|intros _; split; [done|by apply last_app_replicate]].
      eapply Hnext, read_fence_open; [exact Hopens|].
      by apply until_newline_line_end.
    + destruct (bool_decide (Some x = Some ch_backtick)
                && negb (bool_decide (s !! (pos st + 1) = Some ch_backtick))) eqn:Hinl.
      * (* an inline span opens *)
        apply andb_true_iff in Hinl
          as [[= ->]%bool_decide_eq_true Hnb%negb_true_iff%bool_decide_eq_false].
        cbn [pos context fenceChar fenceLen].
        destruct (extend_labels tr (S (pos st) - pos st) inline_code Htext Hfence
                    ltac:(done) ltac:(done)) as [Ht Hf].
        split_and!; [|done|done|done].
        eapply Hnext, read_span_open. split; [done|]. by rewrite <- Nat.add_1_r.
      * (* plain text *)
        cbn [pos context fenceChar fenceLen advance]. rewrite Hctx.
        assert (Hplain : read_step s as_text (pos st, in_text) (S (pos st), in_text)).
        { apply read_plain; [done| |].
          - intros c n (Hc & Hn & Hrun).
            pose proof (run_at_head _ _ _ _ Hrun ltac:(lia)) as Hhead.
            assert (c = x) as -> by congruence.
            pose proof (run_at_unique _ _ _ _ _ Hrun (run_length_run_at s x (pos st))) as Hlen'.
            rewrite <- Hlen' in Hfc.
            apply andb_false_iff in Hfc as [Hfc|Hfc%Nat.leb_gt]; [|lia].
            apply orb_false_iff in Hfc as [H1%bool_decide_eq_false H2%bool_decide_eq_false].
            destruct Hc as [->| ->]; done.
          - intros [Hb Hnb]. assert (x = ch_backtick) as -> by congruence.
            rewrite bool_decide_eq_true_2 in Hinl by done. cbn [andb] in Hinl.
            apply negb_false_iff, bool_decide_eq_true in Hinl.
            by rewrite Nat.add_1_r in Hinl. }
        destruct (extend_labels tr (S (pos st) - pos st) normal Htext Hfence) as [Ht Hf].
        { intros _ k Hk. assert (k = pos st) as -> by lia. by exists in_text, (S (pos st), in_text). }
        { done. }
        split_and!; [by eapply Hnext|done|done|done].
  - (* inside a fence *)
    destruct (Hin eq_refl) as [[fc Hfc] Hlast]. rewrite Hfc in *.
    cbn [default from_option id] in *.
    assert (Hkeep : forall n,
      (forall k, (tr ++ replicate n fenced_code) !! k = Some normal -> text_at s k)
      /\ (forall k, (tr ++ replicate n fenced_code) !! k = Some fenced_code ->
            (k = 0 \/ (tr ++ replicate n fenced_code) !! (k - 1) = Some normal) ->
            fence_read_at s k)).
    { intros n. apply extend_labels; [done|done|done|].
      intros _ [Hz|Hn]; [|congruence].
      apply length_zero_iff_nil in Hz. by subst tr. }
    destruct (((pos st =? 0) || bool_decide (s !! (pos st - 1) = Some ch_nl))
              && bool_decide (s !! pos st = Some fc)
              && (fenceLen st <=? run_length fc (drop (pos st) s))) eqn:Hclose.
    + (* the closing fence *)
      apply andb_true_iff in Hclose
        as [[Hstart%orb_true_iff Hhead%bool_decide_eq_true]%andb_true_iff Hrun%Nat.leb_le].
      destruct (run_length_at s _ _ Hhead) as [Hr1 Hr].
      pose proof (skip_line_le s _ Hr) as Hs.
      cbn [pos context fenceChar fenceLen].
      set (m := run_length fc (drop (pos st) s)) in *.
      set (i2 := pos st + m + until_newline _) in *.
      destruct (Hkeep ((if i2 <? length s then S i2 else i2) - pos st)) as [Ht Hf].
      split_and!; [|done|done|done].
      assert (Hcloses : fence_closes s (pos st) fc (fenceLen st) m).
      { split_and!; [|lia|done|apply run_length_run_at].
        destruct Hstart as [?%Nat.eqb_eq|?%bool_decide_eq_true]; auto. }
      pose proof (read_fence_close s _ _ _ _ i2 Hcloses
                    (until_newline_line_end s (pos st + m) Hr)) as Hstep.
      apply Hnext in Hstep.
      destruct (decide (i2 < length s)) as [Hi2|Hi2].
      * by rewrite (proj2 (Nat.ltb_lt _ _) Hi2).
      * by rewrite (proj2 (Nat.ltb_ge i2 (length s)) ltac:(lia)).
    + cbn [pos context fenceChar fenceLen advance]. rewrite Hctx, Hfc.
      cbn [default from_option id].
      destruct (Hkeep (S (pos st) - pos st)) as [Ht Hf].
      split_and!; [|done|done|intros _; split; [done|apply last_app_replicate; lia]].
      eapply Hnext, read_fenced; [done|].
      intros m (Hstart & Hm & Hle & Hrun).
      pose proof (run_at_head _ _ _ _ Hrun Hm) as Hhead.
      pose proof (run_at_unique _ _ _ _ _ Hrun (run_length_run_at s fc (pos st))) as Hlen'.
      rewrite <- Hlen' in Hclose.
      rewrite (bool_decide_eq_true_2 _ Hhead), (proj2 (Nat.leb_le _ _) Hle) in Hclose.
      rewrite !andb_true_r in Hclose. apply orb_false_iff in Hclose as [Hz Hnl].
      destruct Hstart as [Hstart|Hstart].
      * by rewrite (proj2 (Nat.eqb_eq _ _) Hstart) in Hz.
      * by rewrite bool_decide_eq_true_2 in Hnl.
  - (* inside an inline span *)
    rewrite Hx. destruct (bool_decide (Some x = Some ch_backtick)) eqn:Hbt.
    + apply bool_decide_eq_true in Hbt as [= ->].
      rewrite bool_decide_eq_false_2 by done.
      cbn [pos context fenceChar fenceLen].
      destruct (extend_labels tr (S (pos st) - pos st) inline_code Htext Hfence
                  ltac:(done) ltac:(done)) as [Ht Hf].
      split_and!; [|done|done|done]. by eapply Hnext, read_span_close.
    + apply bool_decide_eq_false in Hbt.
      destruct (bool_decide (Some x = Some ch_nl)) eqn:Hnl.
      * apply bool_decide_eq_true in Hnl as [= ->].
        cbn [pos context fenceChar fenceLen].
        assert (Hstep : read_step s as_text (pos st, in_span) (S (pos st), in_text))
          by by apply read_span_eol.
        destruct (extend_labels tr (S (pos st) - pos st) normal Htext Hfence) as [Ht Hf].
        { intros _ k Hk. assert (k = pos st) as -> by lia.
          by exists in_span, (S (pos st), in_text). }
        { done. }
        split_and!; [by eapply Hnext|done|done|done].
      * apply bool_decide_eq_false in Hnl.
        cbn [pos context fenceChar fenceLen advance]. rewrite Hctx.
        destruct (extend_labels tr (S (pos st) - pos st) inline_code Htext Hfence
                    ltac:(done) ltac:(done)) as [Ht Hf].
        split_and!; [|done|done|done].
        eapply Hnext, read_span; [done|congruence|congruence].
Qed.

Lemma scan_loop_reads fuel st tr :
  scan_inv s st tr -> read_inv s st tr ->
  read_inv s (scan_loop fuel s st) (tr ++ scan_trace fuel s st).
Proof.
  revert st tr. induction fuel as [|fuel IH]; intros st tr Hinv Hread;
    cbn [scan_loop scan_trace].
  { by rewrite app_nil_r. }
  destruct (pos st <? length s) eqn:Hlt; [|by rewrite app_nil_r].
  apply Nat.ltb_lt in Hlt. destruct (scan_step_inv s st tr Hinv Hlt) as [Hinv' _].
  rewrite app_assoc. apply IH; [done|]. by apply scan_step_reads.
Qed.

Lemma contexts_reads : read_inv s (scan_final s) (contexts s).
Proof.
  apply (scan_loop_reads (length s) scan_init []); [apply scan_init_inv|].
  split_and!; [apply rtc_refl|done|done|done].
Qed.

(** What the scanner classifies as normal is read as text. *)
Lemma normal_is_text k : contexts s !! k = Some normal -> text_at s k.
Proof. destruct contexts_reads as (_ & Htext & _). apply Htext. Qed.

(** A fenced block the scanner enters at the start of an unsafe range
    begins with a fence read in normal text. *)
Lemma unsafe_start_is_read k :
  contexts s !! k = Some fenced_code -> unsafe_range_start (contexts s) k ->
  fence_read_at s k.
Proof.
  destruct contexts_reads as (_ & _ & Hfence & _). intros Hk [_ Hprev]. by apply Hfence.
Qed.

(** A fence read in normal text begins a fenced block. *)
Lemma fence_read_is_code k : fence_read_at s k -> code_at s k.
Proof.
  intros [Hreads (c & n & Hopens)]. pose proof Hopens as (_ & Hn & Hrun & _).
  assert (Hlen : k + n <= length s).
  { assert (Hlast : s !! (k + n - 1) = Some c) by (apply Hrun; lia).
    apply lookup_lt_Some in Hlast. lia. }
  pose proof (until_newline_line_end s (k + n) Hlen) as Hline.
  exists (k, in_text), (k + n + until_newline (drop (k + n) s), in_fence c n).
  split_and!; [done|by apply read_fence_open|cbn; lia|cbn; lia].
Qed.
End scan_reads.




(** The same body by the scan of the code: the import is in the second
    safe range. *)
Example findSafeRanges_fence_in_line :
  findSafeRanges fence_in_line = [Range 0 2; Range 10 15]
  /\ parseImports fence_in_line = [FileImport (str "./x") None (str "@./x") 10].
Proof. split; by vm_compute. Qed.

(** ** Order and spans of the directives *)

Lemma parseImports_occurs (content : jsstring) :
  Forall (occurs_at content) (parseImports content).
Proof.
  apply Forall_forall. intros a [f Hin]%parseImports_elem.
  by apply family_elem in Hin as (_ & _ & _ & ? & _).
Qed.

Lemma parseImports_disjoint_in_family (content : jsstring) :
  pairwise_disjoint_in_family (parseImports content).
Proof.
  intros i j a b Hij Hi Hj Hfam.
  assert (Hne : action_index a <> action_index b).
  { pose proof (parseImports_strict content) as Hs.
    destruct (decide (i < j)).
    - pose proof (StronglySorted_pair _ _ i j a b Hs) as H. cbn in H.
      specialize (H ltac:(lia) Hi Hj). lia.
    - pose proof (StronglySorted_pair _ _ j i b a Hs) as H. cbn in H.
      specialize (H ltac:(lia) Hj Hi). lia. }
  apply list_elem_of_lookup_2, parseImports_elem in Hi as [fa Ha].
  apply list_elem_of_lookup_2, parseImports_elem in Hj as [fb Hb].
  pose proof (family_elem _ _ _ Ha) as (Hfa & _).
  pose proof (family_elem _ _ _ Hb) as (Hfb & _).
  assert (fa = fb) as -> by congruence.
  destruct (StronglySorted_elems _ _ a b (family_sorted content fb) Ha Hb)
    as [->|[H|H]]; [done|by left|by right].
Qed.

(** C2, as the code has it.  The directives come strictly ascending by
    index, each [original] is the text of the body at its [index], and two
    directives of the same pattern never overlap. *)
Theorem parseImports_ordered (content : jsstring) :
  strictly_ascending (parseImports content)
  /\ Forall (occurs_at content) (parseImports content)
  /\ pairwise_disjoint_in_family (parseImports content).
Proof.
  split_and!; [apply parseImports_strict|apply parseImports_occurs
              |apply parseImports_disjoint_in_family].
Qed.

(** C2 as stated fails: the spans of a file import and of a URL import that
    follows it without white space overlap. *)
Lemma parseImports_overlap :
  ~ (strictly_ascending (parseImports (str "@./a@http://b"))
     /\ Forall (occurs_at (str "@./a@http://b")) (parseImports (str "@./a@http://b"))
     /\ pairwise_disjoint (parseImports (str "@./a@http://b"))).
Proof.
  intros (_ & _ & Hd).
  specialize (Hd 0 1 (FileImport (str "./a@http://b") None (str "@./a@http://b") 0)
                (UrlImport (str "http://b") (str "@http://b") 4)).
  destruct Hd as [H|H]; [done|by vm_compute|by vm_compute|vm_compute in H; lia..].
Qed.

(** ** Injection *)

Lemma splice_length result r :
  res_end r <= length result ->
  length (splice result r)
  = res_index r + length (r_content r) + (length result - res_end r).
Proof.
  intros Hb. unfold splice, slice, slice_from.
  rewrite !length_app, length_take, !length_drop. unfold res_end in *. lia.
Qed.

Lemma length_delta_perm rs1 rs2 : rs1 ≡ₚ rs2 -> length_delta rs1 = length_delta rs2.
Proof. unfold length_delta. induction 1; cbn [foldr]; lia. Qed.

Lemma StronglySorted_from_pairs {A} (R : relation A) (l : list A) :
  (forall i j a b, i < j -> l !! i = Some a -> l !! j = Some b -> R a b) ->
  StronglySorted R l.
Proof.
  induction l as [|x l IH]; intros H; [constructor|]. constructor.
  - apply IH. intros i j a b Hij Hi Hj. apply (H (S i) (S j)); [lia|done..].
  - apply Forall_forall. intros y (j & Hj)%list_elem_of_lookup_1.
    apply (H 0 (S j)); [lia|done..].
Qed.

Lemma resolved_pairwise_disjoint_perm rs1 rs2 :
  rs1 ≡ₚ rs2 -> resolved_pairwise_disjoint rs2 -> resolved_pairwise_disjoint rs1.
Proof.
  intros (_ & f & Hinj & Hf)%Permutation_inj Hd i j a b Hij Hi Hj.
  rewrite Hf in Hi, Hj. apply (Hd (f i) (f j)); [|done..].
  intros Heq. by apply Hinj in Heq.
Qed.

Lemma fold_splice_length l : forall result,
  StronglySorted (fun a b => res_index b <= res_index a /\ resolved_disjoint a b) l ->
  Forall (fun q => res_end q <= length result) l ->
  Z.of_nat (length (fold_left splice l result))
  = (Z.of_nat (length result) + length_delta l)%Z.
Proof.
  unfold length_delta.
  induction l as [|q0 l IH]; intros result Hs Hb; cbn [fold_left foldr]; [lia|].
  apply StronglySorted_inv in Hs as [Hs Hq0]. apply Forall_cons in Hb as [Hb0 Hb].
  pose proof (splice_length result q0 Hb0) as Hlen.
  rewrite IH; [unfold res_end in *; lia|done|].
  rewrite Forall_forall in *. intros q Hq.
  destruct (Hq0 q Hq) as [Hle Hdis]. specialize (Hb q Hq).
  unfold resolved_disjoint, res_end in *. destruct Hdis; lia.
Qed.

Lemma sort_desc_sorted rs : descending (sort_by by_index_desc rs).
Proof.
  apply (sort_by_sorted by_index_desc); unfold by_index_desc.
  - intros x y. lia.
  - intros x y. lia.
  - intros x y z. lia.
Qed.

(** C3, as the code has it.  When the spans of the resolved directives are
    pairwise disjoint (and every original occurs at its index), the injected
    body has the length of the original body plus the sum of the differences
    between replacement and original lengths; the replacements are applied
    in descending order of index. *)
Theorem injectResolvedImports_length (content : jsstring)
    (resolved : list ResolvedImportResult) :
  Forall (resolved_occurs content) resolved ->
  resolved_pairwise_disjoint resolved ->
  Z.of_nat (length (injectResolvedImports content resolved))
  = (Z.of_nat (length content) + length_delta resolved)%Z
  /\ exists order,
       order ≡ₚ resolved /\ descending order
       /\ injectResolvedImports content resolved = fold_left splice order content.
Proof.
  intros Hocc Hdis. split.
  - unfold injectResolvedImports.
    rewrite <- (length_delta_perm _ _ (sort_by_perm by_index_desc resolved)).
    apply fold_splice_length.
    + pose proof (sort_desc_sorted resolved) as Hdesc.
      apply StronglySorted_from_pairs. intros i j a b Hij Hi Hj. split.
      * by apply (StronglySorted_pair _ _ i j a b Hdesc).
      * pose proof (resolved_pairwise_disjoint_perm _ _
                      (sort_by_perm by_index_desc resolved) Hdis) as Hd.
        apply (Hd i j); [lia|done..].
    + rewrite (sort_by_perm by_index_desc resolved).
      eapply Forall_impl; [exact Hocc|]. by intros q [? _].
  - exists (sort_by by_index_desc resolved).
    split; [apply sort_by_perm|]. split; [apply sort_desc_sorted|done].
Qed.

Lemma injectResolvedImports_length_witness :
  Z.of_nat (length (injectResolvedImports (str "a @./x b @./y")
                      [Resolved (PFile (str "@./x") (str "./x") 2) (str "XX");
                       Resolved (PFile (str "@./y") (str "./y") 9) []]))
  = (Z.of_nat (length (str "a @./x b @./y"))
     + length_delta [Resolved (PFile (str "@./x") (str "./x") 2) (str "XX");
                     Resolved (PFile (str "@./y") (str "./y") 9) []])%Z
  /\ exists order,
       order ≡ₚ [Resolved (PFile (str "@./x") (str "./x") 2) (str "XX");
                 Resolved (PFile (str "@./y") (str "./y") 9) []]
       /\ descending order
       /\ injectResolvedImports (str "a @./x b @./y")
            [Resolved (PFile (str "@./x") (str "./x") 2) (str "XX");
             Resolved (PFile (str "@./y") (str "./y") 9) []]
          = fold_left splice order (str "a @./x b @./y").
Proof.
  apply injectResolvedImports_length.
  - repeat constructor; vm_compute; lia.
  - intros [|[|i]] [|[|j]] a b Hij Hi Hj; try done;
      injection Hi as <-; injection Hj as <-; vm_compute; lia.
Defined.

(** C3 as stated fails on the directives [parseImports] returns when two of
    them overlap: every original occurs at its index, and the length of the
    injected body is not the sum the claim gives. *)
Lemma injectResolvedImports_overlap :
  let content := str "@./a@http://b" in
  let resolved := (fun a => Resolved (to_parsed a) (str "X")) <$> parseImports content in
  Forall (resolved_occurs content) resolved
  /\ Z.of_nat (length (injectResolvedImports content resolved))
     <> (Z.of_nat (length content) + length_delta resolved)%Z.
Proof.
  split.
  - vm_compute. repeat constructor.
  - vm_compute. discriminate.
Qed.

(** ** Line ranges *)

Lemma lines_numbered_from first lo hi lines :
  (lo <= first)%Z ->
  lines_numbered first lo hi lines = take (Z.to_nat (hi + 1 - first)) lines.
Proof.
  revert first. induction lines as [|l rest IH]; intros first Hlo; cbn [lines_numbered].
  { by rewrite take_nil. }
  rewrite IH by lia. replace (lo <=? first)%Z with true by (symmetry; lia).
  cbn [andb]. destruct (first <=? hi)%Z eqn:Hhi.
  - apply Z.leb_le in Hhi.
    replace (Z.to_nat (hi + 1 - first)) with (S (Z.to_nat (hi + 1 - (first + 1)))) by lia.
    done.
  - apply Z.leb_gt in Hhi.
    replace (Z.to_nat (hi + 1 - first)) with 0 by lia.
    replace (Z.to_nat (hi + 1 - (first + 1))) with 0 by lia. done.
Qed.

Lemma lines_numbered_range first lo hi lines :
  (first <= lo)%Z ->
  lines_numbered first lo hi lines
  = take (Z.to_nat (hi + 1 - lo)) (drop (Z.to_nat (lo - first)) lines).
Proof.
  revert first. induction lines as [|l rest IH]; intros first Hlo.
  { by rewrite drop_nil, take_nil. }
  destruct (decide (lo = first)) as [->|Hne].
  { rewrite lines_numbered_from by lia.
    by replace (Z.to_nat (first - first)) with 0 by lia. }
  cbn [lines_numbered].
  replace (lo <=? first)%Z with false by (symmetry; lia). cbn [andb].
  rewrite IH by lia.
  replace (Z.to_nat (lo - first)) with (S (Z.to_nat (lo - (first + 1)))) by lia. done.
Qed.

(** C10. [extractLines] is a total function that clamps: for a
    non-negative [end] (the range syntax only produces such) it returns the
    lines [max(1, start)] through [min(lineCount, end)] joined by newlines,
    and the empty string when the clamped range is empty. *)
Theorem extractLines_clamps (content : jsstring) (start end_ : Z) :
  (0 <= end_)%Z ->
  extractLines content start end_ = clamped_lines content start end_
  /\ ((Z.min (Z.of_nat (length (split_on ch_nl content))) end_ < Z.max 1 start)%Z ->
      extractLines content start end_ = []).
Proof.
  intros Hend.
  assert (Heq : extractLines content start end_ = clamped_lines content start end_).
  { unfold extractLines, clamped_lines, array_slice, relative_index.
    set (lines := split_on ch_nl content). f_equal.
    rewrite lines_numbered_range by lia.
    replace (Z.max 0 (start - 1) <? 0)%Z with false by (symmetry; apply Z.ltb_ge; lia).
    replace (Z.min (Z.of_nat (length lines)) end_ <? 0)%Z with false
      by (symmetry; apply Z.ltb_ge; lia).
    destruct (decide (Z.to_nat (Z.max 0 (start - 1)) <= length lines)) as [Hle|Hgt].
    - f_equal; [lia|f_equal; lia].
    - rewrite !drop_ge by lia. by rewrite !take_nil. }
  split; [done|]. intros Hempty. rewrite Heq. unfold clamped_lines.
  rewrite lines_numbered_range by lia.
  replace (Z.to_nat _) with 0 by lia. done.
Qed.

Lemma extractLines_clamps_witness :
  extractLines (str "a" ++ [ch_nl] ++ str "b" ++ [ch_nl] ++ str "c") 2 10
  = clamped_lines (str "a" ++ [ch_nl] ++ str "b" ++ [ch_nl] ++ str "c") 2 10
  /\ ((Z.min (Z.of_nat (length (split_on ch_nl
                (str "a" ++ [ch_nl] ++ str "b" ++ [ch_nl] ++ str "c")))) 10
       < Z.max 1 2)%Z ->
      extractLines (str "a" ++ [ch_nl] ++ str "b" ++ [ch_nl] ++ str "c") 2 10 = []).
Proof. apply extractLines_clamps. lia. Defined.

Example extractLines_inside :
  extractLines (str "a" ++ [ch_nl] ++ str "b" ++ [ch_nl] ++ str "c") 2 10
  = str "b" ++ [ch_nl] ++ str "c".
Proof. reflexivity. Qed.

Example extractLines_outside :
  extractLines (str "a" ++ [ch_nl] ++ str "b") 5 9 = [].
Proof. reflexivity. Qed.

(** With a negative [end], which the range syntax cannot produce, [slice]
    counts from the end of the lines. *)
Example extractLines_negative_end :
  extractLines (str "a" ++ [ch_nl] ++ str "b" ++ [ch_nl] ++ str "c") 1 (-1)
  = str "a" ++ [ch_nl] ++ str "b".
Proof. reflexivity. Qed.

(** ** The argument compiler *)

Lemma fold_push_flags (flag : jsstring) (items : list value) (args : list jsstring) :
  fold_left (fun acc v => acc ++ [flag; String_ v]) items args
  = args ++ (items ≫= fun v => [flag; String_ v]).
Proof.
  revert args. induction items as [|v items IH]; intros args; cbn [fold_left].
  { by rewrite app_nil_r. }
  rewrite IH, bind_cons. by rewrite <- app_assoc.
Qed.

Lemma system_key_args key :
  bool_decide (key ∈ SYSTEM_KEYS) = bool_decide (key = str "args").
Proof. apply bool_decide_ext. unfold SYSTEM_KEYS. apply list_elem_of_singleton. Qed.

(** One iteration of the loop appends what the entry emits. *)
Lemma buildArgs_entry_emits templateVars args entry :
  buildArgs_entry templateVars args entry = args ++ emitted toFlag templateVars entry.
Proof.
  destruct entry as [key value]. unfold buildArgs_entry, emitted, skipped_key.
  rewrite system_key_args.
  destruct (bool_decide (key = str "args")); cbn [orb]; [by rewrite app_nil_r|].
  destruct (isPositionalKey key); cbn [orb]; [by rewrite app_nil_r|].
  destruct (startsWith [ch_dollar] key); cbn [orb]; [by rewrite app_nil_r|].
  destruct (startsWith [ch_underscore] key); cbn [orb]; [by rewrite app_nil_r|].
  destruct (bool_decide (key ∈ templateVars)); cbn [orb]; [by rewrite app_nil_r|].
  destruct value as [| |[]|n|s|items|fields]; cbn [is_plain_object andb];
    rewrite ?andb_false_r, ?andb_true_r, ?app_nil_r; try done.
  - apply fold_push_flags.
  - by destruct (bool_decide (key = str "env")); rewrite ?app_nil_r.
Qed.

Lemma buildArgs_from templateVars frontmatter args :
  fold_left (buildArgs_entry templateVars) frontmatter args
  = args ++ (frontmatter ≫= emitted toFlag templateVars).
Proof.
  revert args. induction frontmatter as [|e fm IH]; intros args; cbn [fold_left].
  { by rewrite app_nil_r. }
  rewrite IH, buildArgs_entry_emits, bind_cons. by rewrite <- app_assoc.
Qed.

(** C7, as the code has it.  The argument vector is the concatenation, in
    the order of the entries, of what each entry emits: nothing for a key
    that is [args], matches [^\$\d+$], starts with [$] or [_], or is a
    template variable; nothing for [null], [undefined] and [false]; the flag
    alone for [true]; the flag and the element once per element of a list;
    the flag and the stringified value for a scalar (an [env] mapping emits
    nothing).  The flag of a key that starts with [-] is the key itself;
    otherwise it is [-k] for a single character and [--key] for more. *)
Theorem buildArgs_emits (frontmatter : AgentFrontmatter) (templateVars : gset jsstring) :
  buildArgs frontmatter templateVars = frontmatter ≫= emitted toFlag templateVars
  /\ forall key,
       toFlag key = if startsWith [ch_minus] key then key else claimed_flag key.
Proof. split; [apply (buildArgs_from _ _ [])|done]. Qed.

(** C7 as stated fails: a key that starts with [-] is not given the [--]
    prefix. *)
Lemma buildArgs_dash_key :
  buildArgs [(str "-x", VBool true)] ∅ = [str "-x"]
  /\ claimed_buildArgs [(str "-x", VBool true)] ∅ = [str "---x"]
  /\ buildArgs [(str "-x", VBool true)] ∅ <> claimed_buildArgs [(str "-x", VBool true)] ∅.
Proof. split_and!; [by vm_compute..|]. vm_compute. discriminate. Qed.

Example buildArgs_model :
  buildArgs [(str "model", VStr (str "opus")); (str "p", VBool true);
             (str "_i", VNull); (str "add-dir", VArr [VStr (str "a"); VStr (str "b")])] ∅
  = [str "--model"; str "opus"; str "-p"; str "--add-dir"; str "a"; str "--add-dir"; str "b"].
Proof. by vm_compute. Qed.

(** For keys that do not start with [-], the flags are as the specification
    renders them. *)
Lemma buildArgs_without_dash (frontmatter : AgentFrontmatter) (templateVars : gset jsstring) :
  Forall (fun e => startsWith [ch_minus] e.1 = false) frontmatter ->
  buildArgs frontmatter templateVars = claimed_buildArgs frontmatter templateVars.
Proof.
  intros Hall. unfold buildArgs, claimed_buildArgs. rewrite (buildArgs_from _ _ []).
  cbn [app]. induction Hall as [|[key v] fm Hkey _ IH]; [done|].
  rewrite !bind_cons, IH. f_equal. cbn [fst] in Hkey.
  unfold emitted, toFlag, claimed_flag. by rewrite Hkey.
Qed.

(** ** Interactive mode *)

(** C5, as the code has it.  [applyInteractiveMode] applies the adapter's
    transform to the front matter without the [_interactive] and [_i] keys
    exactly when the external flag is set or the deciding key holds a value
    other than [false] and [undefined], where the deciding key is
    [_interactive] when it is present and [_i] otherwise; in every other
    case the front matter is returned unchanged. *)
Theorem applyInteractiveMode_decides (getAdapter : jsstring -> ToolAdapter)
    (frontmatter : AgentFrontmatter) (command : jsstring) (external : bool) :
  applyInteractiveMode getAdapter frontmatter command external
  = if interactive_requested frontmatter external
    then interactive_transform getAdapter frontmatter command
    else frontmatter.
Proof.
  unfold applyInteractiveMode, interactive_requested, interactive_transform,
    deciding_value.
  destruct (has_key (str "_interactive") frontmatter);
    [set (v := get_key (str "_interactive") frontmatter)
    |set (v := get_key (str "_i") frontmatter)];
    destruct (has_key (str "_i") frontmatter), external;
    destruct v as [| |[]|n|[|c s]|items|fields]; reflexivity.
Qed.

(** C5 as stated fails: with [_interactive: false] and [_i: true] some
    interactive key is present and not [false], yet the front matter comes
    back unchanged. *)
Lemma applyInteractiveMode_precedence :
  claimed_interactive [(str "_interactive", VBool false); (str "_i", VBool true)] false = true
  /\ applyInteractiveMode defaultAdapter
       [(str "_interactive", VBool false); (str "_i", VBool true)] (str "claude") false
     = [(str "_interactive", VBool false); (str "_i", VBool true)]
  /\ applyInteractiveMode defaultAdapter
       [(str "_interactive", VBool false); (str "_i", VBool true)] (str "claude") false
     <> interactive_transform defaultAdapter
          [(str "_interactive", VBool false); (str "_i", VBool true)] (str "claude").
Proof. split_and!; [by vm_compute..|]. vm_compute. discriminate. Qed.

(** ** Own properties *)

Section own_facts.
Context {A : Type}.
Implicit Types (l : list (jsstring * A)).

Lemma get_own_lookup key l : get_own key l = (list_to_map l : gmap jsstring A) !! key.
Proof.
  induction l as [|[k v] l IH]; cbn [get_own fst snd]; [by rewrite list_to_map_nil|].
  rewrite list_to_map_cons. case_bool_decide as Hk.
  - subst k. by rewrite lookup_insert_eq.
  - by rewrite lookup_insert_ne.
Qed.

Lemma get_own_None key l : get_own key l = None <-> key ∉ l.*1.
Proof. rewrite get_own_lookup. symmetry. apply not_elem_of_list_to_map. Qed.

Lemma get_own_elem key v l : NoDup l.*1 -> get_own key l = Some v <-> (key, v) ∈ l.
Proof. intros Hnd. rewrite get_own_lookup. symmetry. by apply elem_of_list_to_map. Qed.

Lemma get_own_app key l1 l2 :
  get_own key (l1 ++ l2)
  = match get_own key l1 with Some v => Some v | None => get_own key l2 end.
Proof.
  induction l1 as [|e l1 IH]; cbn [get_own app]; [done|]. by case_bool_decide.
Qed.

Lemma update_own_keys key v l : (update_own key v l).*1 = l.*1.
Proof.
  induction l as [|[k w] l IH]; cbn [update_own fmap list_fmap fst]; [done|].
  case_bool_decide as Hk; cbn [fmap list_fmap fst]; [by subst k|]. by rewrite <- IH.
Qed.

Lemma get_own_update key k v l :
  is_Some (get_own k l) ->
  get_own key (update_own k v l) = if decide (key = k) then Some v else get_own key l.
Proof.
  induction l as [|[k0 w] l IH]; cbn [get_own update_own fst snd].
  { by intros [? ?]. }
  intros Hk. case_bool_decide as Hk0.
  - subst k0. cbn [get_own fst snd]. destruct (decide (key = k)) as [->|Hne].
    + by rewrite bool_decide_eq_true_2.
    + by rewrite !bool_decide_eq_false_2 by done.
  - cbn [get_own fst snd]. rewrite IH by done.
    case_bool_decide as Hkey; [|done]. subst k0. by rewrite decide_False.
Qed.

Lemma insert_index_perm n key v l : insert_index n key v l ≡ₚ (key, v) :: l.
Proof.
  induction l as [|e l IH]; cbn [insert_index]; [done|].
  destruct (array_index e.1) as [m|]; [|done].
  destruct (m <? n)%Z; [|done]. rewrite IH. apply Permutation_swap.
Qed.

Lemma define_own_perm key v l : define_own key v l ≡ₚ (key, v) :: l.
Proof.
  unfold define_own. destruct (array_index key); [apply insert_index_perm|].
  by rewrite Permutation_app_comm.
Qed.

Lemma get_own_insert_index key n k v l :
  get_own k l = None ->
  get_own key (insert_index n k v l) = if decide (key = k) then Some v else get_own key l.
Proof.
  assert (Hhead : forall l', get_own key ((k, v) :: l')
                             = if decide (key = k) then Some v else get_own key l').
  { intros l'. cbn [get_own fst snd]. destruct (decide (key = k)) as [->|Hne].
    - by rewrite bool_decide_eq_true_2.
    - by rewrite bool_decide_eq_false_2 by done. }
  induction l as [|e l IH]; cbn [insert_index]; [intros _; apply Hhead|].
  intros Hk. cbn [get_own] in Hk. case_bool_decide as He; [done|].
  destruct (array_index e.1) as [m|]; [|apply Hhead].
  destruct (m <? n)%Z; [|apply Hhead].
  cbn [get_own]. rewrite IH by done. case_bool_decide as Hkey; [|done].
  rewrite decide_False; [done|]. congruence.
Qed.

Lemma get_own_define key k v l :
  get_own k l = None ->
  get_own key (define_own k v l) = if decide (key = k) then Some v else get_own key l.
Proof.
  intros Hk. unfold define_own. destruct (array_index k); [by apply get_own_insert_index|].
  rewrite get_own_app. cbn [get_own fst snd].
  destruct (decide (key = k)) as [->|Hne].
  - by rewrite Hk, bool_decide_eq_true_2.
  - rewrite bool_decide_eq_false_2 by done. by destruct (get_own key l).
Qed.

Lemma get_own_set_own key k v l :
  get_own key (set_own k v l) = if decide (key = k) then Some v else get_own key l.
Proof.
  unfold set_own. destruct (get_own k l) eqn:Hk.
  - by apply get_own_update.
  - by apply get_own_define.
Qed.

Lemma set_own_keys k v l :
  (set_own k v l).*1 ≡ₚ match get_own k l with Some _ => l.*1 | None => k :: l.*1 end.
Proof.
  unfold set_own. destruct (get_own k l); [by rewrite update_own_keys|].
  by rewrite define_own_perm.
Qed.

Lemma set_own_NoDup k v l : NoDup l.*1 -> NoDup (set_own k v l).*1.
Proof.
  intros Hnd. rewrite set_own_keys. destruct (get_own k l) eqn:Hk; [done|].
  apply NoDup_cons. split; [|done]. by apply get_own_None.
Qed.

Lemma set_own_values (P : A -> Prop) k v l :
  P v -> Forall (fun e => P e.2) l -> Forall (fun e => P e.2) (set_own k v l).
Proof.
  intros Hv Hl. unfold set_own. destruct (get_own k l).
  - induction Hl as [|e l He Hl IH]; cbn [update_own]; [done|].
    case_bool_decide; by constructor.
  - rewrite define_own_perm. by constructor.
Qed.

Lemma own_of_values (P : A -> Prop) l :
  Forall (fun e => P e.2) l -> Forall (fun e => P e.2) (own_of l).
Proof.
  unfold own_of. generalize (@nil (jsstring * A)) (Forall_nil_2 (fun e : jsstring * A => P e.2)).
  induction l as [|e l IH]; intros acc Hacc Hl; cbn [fold_left]; [done|].
  inversion Hl; subst. apply IH; [|done]. by apply set_own_values.
Qed.

(** A loop that writes each name of its entries once. *)
Lemma fold_set_own_lookup key l : forall acc,
  NoDup l.*1 ->
  get_own key (fold_left (fun acc e => set_own e.1 e.2 acc) l acc)
  = match get_own key l with Some v => Some v | None => get_own key acc end.
Proof.
  induction l as [|[k v] l IH]; intros acc Hnd; cbn [fold_left get_own fst snd]; [done|].
  cbn [fmap list_fmap fst] in Hnd. apply NoDup_cons in Hnd as [Hk Hnd].
  rewrite IH by done. case_bool_decide as Hkey.
  - subst k. rewrite (proj2 (get_own_None _ _) Hk).
    rewrite get_own_set_own. by rewrite decide_True.
  - rewrite get_own_set_own. rewrite decide_False by done. done.
Qed.

Lemma fold_set_own_NoDup l : forall acc,
  NoDup acc.*1 -> NoDup (fold_left (fun acc e => set_own e.1 e.2 acc) l acc).*1.
Proof.
  induction l as [|e l IH]; intros acc Hacc; cbn [fold_left]; [done|].
  apply IH. by apply set_own_NoDup.
Qed.

Lemma own_of_lookup key l : NoDup l.*1 -> get_own key (own_of l) = get_own key l.
Proof.
  intros Hnd. unfold own_of. rewrite fold_set_own_lookup by done.
  by destruct (get_own key l).
Qed.

Lemma own_of_NoDup l : NoDup (own_of l).*1.
Proof. apply fold_set_own_NoDup. constructor. Qed.

(** Lists of distinct names with the same answers have the same entries. *)
Lemma own_perm l1 l2 :
  NoDup l1.*1 -> NoDup l2.*1 -> (forall key, get_own key l1 = get_own key l2) -> l1 ≡ₚ l2.
Proof.
  intros Hnd1 Hnd2 Heq. apply NoDup_Permutation.
  - by apply (NoDup_fmap_1 fst).
  - by apply (NoDup_fmap_1 fst).
  - intros [k v]. by rewrite <- !get_own_elem, Heq.
Qed.
End own_facts.

(** ** The configuration cascade *)

Section config_facts.
Context `{JsValue V}.
Implicit Types (A B C : GlobalConfig V) (rc : CommandsObject V).

(** Under [Object.prototype] a command that is no own property gives
    nothing to a spread. *)
Lemma spread_or_empty_ordinary rc cmd :
  prototype rc = None ->
  spread_or_empty (get_command rc cmd) = default ∅ (get_own cmd (own_commands rc)).
Proof.
  intros Hp. unfold get_command, object_prototype_get. rewrite Hp.
  destruct (get_own cmd (own_commands rc)); [done|].
  by repeat case_bool_decide.
Qed.

Lemma set_command_ordinary rc cmd defaults :
  prototype rc = None -> cmd <> key_proto ->
  set_command rc cmd defaults = Commands (set_own cmd defaults (own_commands rc)) None.
Proof.
  intros Hp Hcmd. unfold set_command. rewrite Hp, bool_decide_eq_false_2 by done.
  by destruct (get_own cmd (own_commands rc)).
Qed.

(** A loop that sets each command of its entries once, none of them
    [__proto__], on an object under [Object.prototype]. *)
Lemma fold_set_command_lookup
    (g : gmap jsstring V -> option (gmap jsstring V) -> gmap jsstring V)
    (f : CommandsObject V -> jsstring * gmap jsstring V -> CommandsObject V)
    (l : list (jsstring * gmap jsstring V)) :
  (forall rc e, prototype rc = None ->
     f rc e = set_command rc e.1 (g e.2 (get_own e.1 (own_commands rc)))) ->
  NoDup l.*1 -> (key_proto ∉ l.*1) ->
  forall rc, prototype rc = None ->
  prototype (fold_left f l rc) = None
  /\ (NoDup (own_commands rc).*1 -> NoDup (own_commands (fold_left f l rc)).*1)
  /\ forall cmd,
       get_own cmd (own_commands (fold_left f l rc))
       = match get_own cmd l with
         | Some d => Some (g d (get_own cmd (own_commands rc)))
         | None => get_own cmd (own_commands rc)
         end.
Proof.
  intros Hf. induction l as [|[k d] l IH]; intros Hnd Hproto rc Hp; cbn [fold_left].
  { done. }
  cbn [fmap list_fmap fst] in Hnd, Hproto. apply NoDup_cons in Hnd as [Hk Hnd].
  apply not_elem_of_cons in Hproto as [Hne Hproto].
  rewrite Hf by done. cbn [fst snd]. rewrite set_command_ordinary by done.
  destruct (IH Hnd Hproto (Commands (set_own k (g d (get_own k (own_commands rc)))
                                       (own_commands rc)) None) eq_refl)
    as (Hp' & Hnd' & Hget).
  split_and!; [done| |].
  - intros Hrc. apply Hnd'. cbn [own_commands]. by apply set_own_NoDup.
  - intros cmd. rewrite Hget. cbn [own_commands get_own fst snd].
    rewrite get_own_set_own. case_bool_decide as Hcmd.
    + subst k. rewrite (proj2 (get_own_None _ _) Hk). by rewrite decide_True.
    + by rewrite decide_False by done.
Qed.

(** The defaults a configuration holds for a command as an own property. *)
Lemma command_defaults_None A cmd : commands A = None -> command_defaults A cmd = None.
Proof. unfold command_defaults. by intros ->. Qed.

Lemma no_proto_command_plain A : plain A -> no_proto_command A.
Proof. by intros [? _]. Qed.

(** A clone has the commands of its source, under [Object.prototype]. *)
Lemma deepCloneConfig_spec A :
  no_proto_command A ->
  plain (deepCloneConfig A)
  /\ (is_Some (commands (deepCloneConfig A)) <-> is_Some (commands A))
  /\ forall cmd, command_defaults (deepCloneConfig A) cmd = command_defaults A cmd.
Proof.
  unfold no_proto_command, plain, no_proto_command, deepCloneConfig, command_defaults.
  destruct (commands A) as [cmds|]; cbn [commands mbind option_bind]; [|done].
  intros [Hnd Hproto].
  destruct (fold_set_command_lookup (fun d _ => d) (fun rc e => set_command rc e.1 e.2)
              (own_commands cmds) ltac:(done) Hnd Hproto (Commands [] None) eq_refl)
    as (Hp & Hnd' & Hget).
  split_and!.
  - apply Hnd'. constructor.
  - apply get_own_None. rewrite Hget. cbn [own_commands get_own].
    by rewrite (proj2 (get_own_None _ _) Hproto).
  - done.
  - done.
  - intros cmd. rewrite Hget. cbn [own_commands get_own].
    by destruct (get_own cmd (own_commands cmds)).
Qed.

(** Commands are merged by name, and inside a command the override
    replaces keys. *)
Lemma mergeConfigs_spec A B :
  no_proto_command A -> no_proto_command B ->
  plain (mergeConfigs A B)
  /\ (is_Some (commands (mergeConfigs A B)) <-> is_Some (commands A) \/ is_Some (commands B))
  /\ forall cmd,
       command_defaults (mergeConfigs A B) cmd
       = match command_defaults B cmd with
         | Some d => Some (d ∪ default ∅ (command_defaults A cmd))
         | None => command_defaults A cmd
         end.
Proof.
  intros HA HB. destruct (deepCloneConfig_spec A HA) as (Hplain & Hsome & Hclone).
  unfold mergeConfigs. destruct (commands B) as [ocmds|] eqn:HcB.
  - unfold no_proto_command in HB. rewrite HcB in HB. destruct HB as [Hnd Hproto].
    set (copy := match commands (deepCloneConfig A) with
                 | Some rcmds => spread_commands rcmds
                 | None => Commands [] None
                 end).
    assert (Hcopy : prototype copy = None /\ NoDup (own_commands copy).*1
                    /\ forall cmd, get_own cmd (own_commands copy) = command_defaults A cmd).
    { subst copy. unfold command_defaults in Hclone. destruct Hplain as [Hno _].
      unfold no_proto_command in Hno.
      destruct (commands (deepCloneConfig A)) as [rcmds|]; cbn [mbind option_bind] in Hclone.
      - destruct Hno as [Hnd' _]. unfold spread_commands. cbn [prototype own_commands].
        split_and!; [done|apply own_of_NoDup|].
        intros cmd. rewrite own_of_lookup by done. apply Hclone.
      - split_and!; [done|constructor|]. intros cmd. exact (Hclone cmd). }
    destruct Hcopy as (Hp & Hndc & Hget).
    destruct (fold_set_command_lookup (fun d o => d ∪ default ∅ o) merge_entry (own_commands ocmds)
                ltac:(intros rc e Hrc; unfold merge_entry;
                      by rewrite spread_or_empty_ordinary) Hnd Hproto copy Hp)
      as (Hp' & Hnd' & Hget').
    unfold plain, no_proto_command, command_defaults. cbn [commands mbind option_bind].
    rewrite HcB. cbn [mbind option_bind].
    split_and!; [by apply Hnd'| |done|split; [by right; eauto|by eauto]|].
    + apply get_own_None. rewrite Hget'.
      rewrite (proj2 (get_own_None _ _) Hproto). rewrite Hget.
      unfold command_defaults. unfold no_proto_command in HA.
      destruct (commands A) as [ca|]; [|done]. cbn [mbind option_bind].
      apply get_own_None, HA.
    + intros cmd. rewrite Hget'. by rewrite Hget.
  - split_and!; [done|rewrite Hsome; split; [by left|by intros [?|[? ?]]]|].
    intros cmd. rewrite Hclone. by rewrite (command_defaults_None B).
Qed.

(** Two plain configurations with the same commands read the same. *)
Lemma same_config_intro A B :
  plain A -> plain B ->
  (is_Some (commands A) <-> is_Some (commands B)) ->
  (forall cmd, command_defaults A cmd = command_defaults B cmd) ->
  same_config A B.
Proof.
  unfold plain, no_proto_command, same_config, command_defaults.
  destruct (commands A) as [ca|], (commands B) as [cb|]; cbn [mbind option_bind].
  - intros [[Hnda _] Hpa] [[Hndb _] Hpb] _ Heq. split_and!.
    + by apply own_perm.
    + by rewrite Hpa, Hpb.
    + intros cmd. unfold get_command, object_prototype_get. by rewrite Heq, Hpa, Hpb.
  - intros _ _ [Hsome _] _. by destruct Hsome as [? ?]; [eauto|].
  - intros _ _ [_ Hsome] _. by destruct Hsome as [? ?]; [eauto|].
  - done.
Qed.

End config_facts.



(** ** The configuration cascade on the heap *)

Section heap_facts.
Implicit Types (h g : gmap positive Heap.object).
Implicit Types (o : Heap.object).

Lemma alloc_fresh o h : (Heap.alloc o h).1 ∉ dom h.
Proof. apply is_fresh. Qed.

Lemma alloc_heap o h : (Heap.alloc o h).2 = <[(Heap.alloc o h).1 := o]> h.
Proof. done. Qed.

Lemma subseteq_alloc g h o : g ⊆ h -> g ⊆ (Heap.alloc o h).2.
Proof.
  intros Hsub. etrans; [exact Hsub|]. rewrite alloc_heap. apply insert_subseteq.
  apply not_elem_of_dom, alloc_fresh.
Qed.

Lemma dom_subseteq_heap g h l : g ⊆ h -> l ∉ dom h -> l ∉ dom g.
Proof. intros Hsub Hl Hin. apply Hl. by apply (subseteq_dom _ _ Hsub). Qed.

(** The search for a property, where it ends at once. *)
Lemma lookup_chain_own fuel h l key v :
  get_own key (Heap.props (Heap.load h l)) = Some v ->
  Heap.lookup_chain fuel h l key = Heap.Data v.
Proof. intros Hv. destruct fuel; cbn [Heap.lookup_chain]; by rewrite Hv. Qed.

Lemma lookup_chain_ordinary fuel h l key :
  get_own key (Heap.props (Heap.load h l)) = None ->
  Heap.proto (Heap.load h l) = Heap.ProtoObject ->
  Heap.lookup_chain fuel h l key = Heap.EndObjectPrototype.
Proof. intros Hv Hp. destruct fuel; cbn [Heap.lookup_chain]; by rewrite Hv, Hp. Qed.

(** With fuel for the steps up the chain, the search finds its end. *)
Lemma lookup_chain_enough h key n l e fuel :
  Heap.ends_after h key n l e -> n <= fuel -> Heap.lookup_chain fuel h l key = e.
Proof.
  intros Hends. revert fuel.
  induction Hends as [l v Hv|l Hv Hp|l Hv Hp|n l l' e Hv Hp _ IH]; intros fuel Hfuel.
  - by apply lookup_chain_own.
  - by apply lookup_chain_ordinary.
  - destruct fuel; cbn [Heap.lookup_chain]; by rewrite Hv, Hp.
  - destruct fuel as [|fuel]; [lia|]. cbn [Heap.lookup_chain]. rewrite Hv, Hp.
    apply IH. lia.
Qed.

(** An assignment of a new object changes the target, by a reference to
    the new object as a property or as the prototype, and nothing else. *)
Lemma assign_new_shape h target key l :
  let new := (Heap.alloc (Heap.literal l) h).1 in
  let h1 := (Heap.alloc (Heap.literal l) h).2 in
  exists o',
    Heap.assign_new h target key l = (new, <[target := o']> h1)
    /\ (o' = Heap.write_own key (Heap.HRef new) (Heap.load h1 target)
        \/ o' = Heap.Obj (Heap.props (Heap.load h1 target)) (Heap.ProtoRef new)).
Proof.
  intros new h1. unfold Heap.assign_new.
  change (Heap.alloc (Heap.literal l) h) with (new, h1). cbv iota beta zeta.
  destruct (get_own key _); [eauto|].
  case_bool_decide; [|eauto]. destruct (Heap.inherited h1 target key); eauto.
Qed.

(** Assigning a new object under a key of [rc]. *)
Lemma frame_inv_assign g result rc h key l :
  Heap.frame_inv g result rc h ->
  Heap.frame_inv g result rc (Heap.assign_new h rc key l).2.
Proof.
  intros (Hsub & Hres & Hrc & Hne & Hr & orc & Horc & Hprops & Hproto).
  destruct (assign_new_shape h rc key l) as (o' & -> & Ho'). cbn [snd].
  pose proof (alloc_fresh (Heap.literal l) h) as Hnew. rewrite alloc_heap in *.
  set (new := (Heap.alloc (Heap.literal l) h).1) in *.
  assert (new <> rc) by (intros ->; apply Hnew, elem_of_dom; eauto).
  assert (new <> result) by (intros ->; apply Hnew, elem_of_dom; eauto).
  assert (Hnew' : new ∉ dom g) by by eapply dom_subseteq_heap.
  assert (Hload : Heap.load (<[new := Heap.literal l]> h) rc = orc).
  { unfold Heap.load. by rewrite lookup_insert_ne, Horc by done. }
  rewrite Hload in Ho'.
  split_and!; try done.
  - apply insert_subseteq_r; [by apply not_elem_of_dom|].
    etrans; [exact Hsub|]. apply insert_subseteq. by apply not_elem_of_dom.
  - by rewrite !lookup_insert_ne.
  - exists o'. split; [apply lookup_insert_eq|].
    destruct Ho' as [->| ->]; split; cbn [Heap.write_own Heap.props Heap.proto]; try done.
    apply (set_own_values (fun v => exists l', v = Heap.HRef l' /\ l' ∉ dom g)); [|done].
    eauto.
Qed.

Lemma frame_inv_clone_loop g result rc l h :
  Heap.frame_inv g result rc h ->
  Heap.frame_inv g result rc (fold_left (Heap.clone_entry rc) l h).
Proof.
  revert h. induction l as [|e l IH]; intros h Hinv; cbn [fold_left]; [done|].
  apply IH. by apply frame_inv_assign.
Qed.

Lemma frame_inv_merge_loop g result rc l h :
  Heap.frame_inv g result rc h ->
  Heap.frame_inv g result rc (fold_left (Heap.merge_entry rc) l h).
Proof.
  revert h. induction l as [|e l IH]; intros h Hinv; cbn [fold_left]; [done|].
  apply IH. by apply frame_inv_assign.
Qed.

Lemma assign_new_own h target key l :
  key <> key_proto ->
  Heap.assign_new h target key l
  = ((Heap.alloc (Heap.literal l) h).1,
     <[target := Heap.write_own key (Heap.HRef (Heap.alloc (Heap.literal l) h).1)
                   (Heap.load (Heap.alloc (Heap.literal l) h).2 target)]>
       (Heap.alloc (Heap.literal l) h).2).
Proof.
  intros Hkey. unfold Heap.assign_new.
  destruct (Heap.alloc (Heap.literal l) h) as [new h1]. cbn [fst snd].
  destruct (get_own key _); [done|]. by rewrite bool_decide_eq_false_2.
Qed.

(** A new object that refers to new objects becomes the [commands] of the
    result. *)
Lemma frame_inv_init g h result l :
  g ⊆ h -> result ∉ dom g ->
  (h !! result = Some (Heap.Obj [] Heap.ProtoObject)
   \/ exists rc, h !! result
                 = Some (Heap.Obj [(Heap.key_commands, Heap.HRef rc)] Heap.ProtoObject)) ->
  Forall (fun e => exists l', e.2 = Heap.HRef l' /\ l' ∉ dom g) l ->
  Heap.frame_inv g result (Heap.assign_new h result Heap.key_commands l).1
    (Heap.assign_new h result Heap.key_commands l).2.
Proof.
  intros Hsub Hres Hr Hfresh. rewrite assign_new_own by done. cbn [fst snd].
  pose proof (alloc_fresh (Heap.literal l) h) as Hnew. rewrite alloc_heap in *.
  set (new := (Heap.alloc (Heap.literal l) h).1) in *.
  assert (Hne : result <> new).
  { intros ->. apply Hnew, elem_of_dom. destruct Hr as [Hr|[rc Hr]]; eauto. }
  assert (Ho : Heap.write_own Heap.key_commands (Heap.HRef new)
                 (Heap.load (<[new := Heap.literal l]> h) result)
               = Heap.Obj [(Heap.key_commands, Heap.HRef new)] Heap.ProtoObject).
  { unfold Heap.load. rewrite lookup_insert_ne by done.
    by destruct Hr as [->|[rc ->]]. }
  rewrite Ho.
  split_and!; try done.
  - apply insert_subseteq_r; [by apply not_elem_of_dom|].
    etrans; [exact Hsub|]. apply insert_subseteq. by apply not_elem_of_dom.
  - by eapply dom_subseteq_heap.
  - apply lookup_insert_eq.
  - exists (Heap.literal l). split; [by rewrite lookup_insert_ne, lookup_insert_eq|].
    split; [|done]. cbn [Heap.literal Heap.props].
    by apply (own_of_values (fun v => exists l', v = Heap.HRef l' /\ l' ∉ dom g)).
Qed.

Lemma deepCloneConfig_post config h :
  Heap.clone_post h (Heap.deepCloneConfig config h).1 (Heap.deepCloneConfig config h).2.
Proof.
  unfold Heap.deepCloneConfig.
  destruct (Heap.alloc (Heap.literal []) h) as [result h1] eqn:Ha.
  assert (Hres : result ∉ dom h)
    by (pose proof (alloc_fresh (Heap.literal []) h) as Hf; by rewrite Ha in Hf).
  assert (Hsub : h ⊆ h1)
    by (pose proof (subseteq_alloc h h (Heap.literal []) (reflexivity _)) as Hs;
        by rewrite Ha in Hs).
  assert (Hr : h1 !! result = Some (Heap.Obj [] Heap.ProtoObject)).
  { pose proof (alloc_heap (Heap.literal []) h) as Hh. rewrite Ha in Hh. cbn in Hh. subst h1.
    apply lookup_insert_eq. }
  destruct (Heap.truthy (Heap.get_prop h1 config Heap.key_commands)).
  - pose proof (frame_inv_init h h1 result [] Hsub Hres (or_introl Hr) (Forall_nil_2 _)) as Hinit.
    destruct (Heap.assign_new h1 result Heap.key_commands []) as [rc h2].
    cbn [fst snd] in *. right. exists rc. by apply frame_inv_clone_loop.
  - cbn [fst snd]. left. done.
Qed.

Lemma mergeConfigs_post base override h :
  Heap.clone_post h (Heap.mergeConfigs base override h).1
    (Heap.mergeConfigs base override h).2.
Proof.
  unfold Heap.mergeConfigs.
  pose proof (deepCloneConfig_post base h) as Hpost.
  destruct (Heap.deepCloneConfig base h) as [result h1]. cbn [fst snd] in Hpost.
  destruct (Heap.truthy (Heap.get_prop h1 override Heap.key_commands)); [|done].
  set (rcmds := Heap.get_prop h1 result Heap.key_commands).
  set (l := if Heap.truthy rcmds then Heap.spread h1 rcmds else []).
  assert (Hfresh : Forall (fun e => exists l', e.2 = Heap.HRef l' /\ l' ∉ dom h) l).
  { subst l rcmds. unfold Heap.get_prop.
    destruct Hpost as [(_ & _ & Hr)|(rc & _ & _ & _ & _ & Hr & orc & Horc & Hf & _)].
    - rewrite lookup_chain_ordinary by (unfold Heap.load; by rewrite Hr). done.
    - rewrite (lookup_chain_own _ _ _ _ (Heap.HRef rc))
        by (unfold Heap.load; by rewrite Hr).
      cbn [Heap.truthy Heap.spread Heap.entries]. unfold Heap.load. by rewrite Horc. }
  assert (Hinit : Heap.frame_inv h result (Heap.assign_new h1 result Heap.key_commands l).1
                    (Heap.assign_new h1 result Heap.key_commands l).2).
  { destruct Hpost as [(Hsub & Hres & Hr)|(rc & Hsub & Hres & _ & _ & Hr & _)].
    - by apply frame_inv_init; [..|left|].
    - by apply frame_inv_init; [..|right; eauto|]. }
  destruct (Heap.assign_new h1 result Heap.key_commands l) as [copy h2].
  cbn [fst snd] in *. right. exists copy. by apply frame_inv_merge_loop.
Qed.

Lemma refs_of_elem (l : list (jsstring * Heap.hval)) (x : positive) :
  x ∈ Heap.refs_of l -> exists key, (key, Heap.HRef x) ∈ l.
Proof.
  unfold Heap.refs_of. rewrite elem_of_list_to_set, list_elem_of_omap.
  intros ([key v] & Hin & Hv). cbn in Hv.
  destruct v; try done. injection Hv as ->. eauto.
Qed.

(** After either function the old store is intact and the objects of the
    result are new. *)
Lemma clone_post_frame g result h :
  Heap.clone_post g result h ->
  g ⊆ h /\ Heap.config_objects h result ## dom g /\ Heap.commands_are_objects h result.
Proof.
  unfold Heap.config_objects, Heap.commands_are_objects, Heap.load.
  intros [(Hsub & Hres & Hr)|(rc & Hsub & Hres & Hrc & _ & Hr & orc & Horc & Hf & Hp)];
    rewrite Hr; cbn [default from_option id Heap.props get_own].
  - split; [done|]. split; [|done].
    intros l Hl. apply elem_of_union in Hl as [Hl|Hl].
    + apply elem_of_singleton in Hl. by subst l.
    + by apply elem_of_empty in Hl.
  - rewrite bool_decide_eq_true_2 by done. cbn [fst snd]. rewrite Horc.
    cbn [default from_option id].
    split; [done|]. split.
    + intros l Hl. apply elem_of_union in Hl as [Hl|Hl].
      { apply elem_of_singleton in Hl. by subst l. }
      apply elem_of_union in Hl as [Hl|Hl].
      { apply elem_of_union in Hl as [Hl|Hl].
        { apply elem_of_singleton in Hl. by subst l. }
        apply refs_of_elem in Hl as [key Hkey].
        rewrite Forall_forall in Hf.
        destruct (Hf _ Hkey) as (l' & Heq & Hl'). cbn in Heq. by injection Heq as ->. }
      unfold Heap.proto_ref in Hl. destruct (Heap.proto orc); try by apply elem_of_empty in Hl.
      apply elem_of_singleton in Hl. by subst l.
    + eapply Forall_impl; [exact Hf|]. intros e (l' & -> & _). eauto.
Qed.
End heap_facts.



(** The store follows a command named [__proto__] as the values do: with
    [{ commands: { x: { r: 1 } } }] at [1], [{}] at [4] and, at [5], what
    [JSON.parse] makes of
    [{ "commands": { "__proto__": { "x": { "p": 2 } }, "x": { "q": 3 } } }],
    the two ways of merging give different defaults to [x]. *)
Example mergeConfigs_proto_store :
  let left := Heap.mergeConfigs 1 4 proto_store in
  let left' := Heap.mergeConfigs left.1 5 left.2 in
  let right := Heap.mergeConfigs 4 5 proto_store in
  let right' := Heap.mergeConfigs 1 right.1 right.2 in
  Heap.entries left'.2 (Heap.get_path left'.2 left'.1 [Heap.key_commands; str "x"])
    = [(str "r", Heap.HNum 1); (str "q", Heap.HNum 3)]
  /\ Heap.entries right'.2 (Heap.get_path right'.2 right'.1 [Heap.key_commands; str "x"])
    = [(str "r", Heap.HNum 1); (str "p", Heap.HNum 2); (str "q", Heap.HNum 3)].
Proof. split; by vm_compute. Qed.

(** ** File imports and symbolic links *)

(** A link to itself leads nowhere. *)
Lemma follow_links_self fs p hops :
  fs !! p = Some (SymLink p) -> follow_links hops fs p = None.
Proof. intros Hp. induction hops as [|hops IH]; cbn; rewrite Hp; done. Qed.

Lemma file_at_self fs p : fs !! p = Some (SymLink p) -> file_at fs p = None.
Proof. intros Hp. unfold file_at. by rewrite follow_links_self. Qed.

(** Its canonical path cannot be computed, and the path itself is used. *)
Lemma toCanonicalPath_self fs p : fs !! p = Some (SymLink p) -> toCanonicalPath fs p = p.
Proof. intros Hp. unfold toCanonicalPath, realpathSync. by rewrite follow_links_self. Qed.

Lemma not_found_is_not_circular path resolvedPath :
  is_circular_import (Throw (not_found_message path resolvedPath)) = false.
Proof.
  unfold is_circular_import, not_found_message, startsWith.
  apply bool_decide_eq_false. intros Heq.
  apply (f_equal (fun l => l !! 0)) in Heq. by vm_compute in Heq.
Qed.

(** C4, as the code has it.  A file, line-range or symbol import whose
    resolved path is a symbolic link pointing at itself fails the existence
    check, which comes before cycle detection: the import is rejected with
    the "Import not found" error and not with a CircularImport error. *)
Theorem processFileImport_self_symlink (fs : gmap jsstring node) (homedir : jsstring)
    (path_resolve : jsstring -> jsstring -> jsstring) (path_dirname : jsstring -> jsstring)
    (exceedsLimit : nat -> bool) (fileSizeLimitMessage : jsstring -> nat -> jsstring)
    (processGlobImport extractSymbol : jsstring -> jsstring -> outcome)
    (expandImports : jsstring -> jsstring -> list jsstring -> outcome)
    (importPath currentFileDir : jsstring) (stack : list jsstring) :
  let resolvedPath :=
    resolveImportPath homedir path_resolve (import_target importPath) currentFileDir in
  isGlobPattern importPath = false ->
  fs !! resolvedPath = Some (SymLink resolvedPath) ->
  processFileImport fs homedir path_resolve path_dirname exceedsLimit fileSizeLimitMessage
    processGlobImport extractSymbol expandImports importPath currentFileDir stack
  = Throw (not_found_message (import_target importPath) resolvedPath)
  /\ is_circular_import
       (processFileImport fs homedir path_resolve path_dirname exceedsLimit
          fileSizeLimitMessage processGlobImport extractSymbol expandImports
          importPath currentFileDir stack) = false.
Proof.
  intros resolvedPath Hglob Hself.
  assert (Heq : processFileImport fs homedir path_resolve path_dirname exceedsLimit
            fileSizeLimitMessage processGlobImport extractSymbol expandImports
            importPath currentFileDir stack
          = Throw (not_found_message (import_target importPath) resolvedPath)).
  { subst resolvedPath. unfold processFileImport, import_target in *. rewrite Hglob.
    destruct (parseSymbolExtraction importPath) as [symbolPath [symbol|]].
    - unfold read_checked. by rewrite (file_at_self _ _ Hself).
    - destruct (parseLineRange importPath) as [rangePath [[start end_]|]];
        unfold read_checked; by rewrite (file_at_self _ _ Hself). }
  split; [done|]. rewrite Heq. apply not_found_is_not_circular.
Qed.

Lemma processFileImport_self_symlink_witness :
  processFileImport loop_fs (str "/home/u") join_path id no_limit no_limit_message
    no_glob whole_file no_expansion (str "/a/loop.md") (str "/a") [str "/a/main.md"]
  = Throw (not_found_message (import_target (str "/a/loop.md"))
             (resolveImportPath (str "/home/u") join_path
                (import_target (str "/a/loop.md")) (str "/a")))
  /\ is_circular_import
       (processFileImport loop_fs (str "/home/u") join_path id no_limit no_limit_message
          no_glob whole_file no_expansion (str "/a/loop.md") (str "/a") [str "/a/main.md"])
     = false.
Proof.
  apply (processFileImport_self_symlink loop_fs (str "/home/u") join_path id no_limit
           no_limit_message no_glob whole_file no_expansion (str "/a/loop.md") (str "/a")
           [str "/a/main.md"]).
  - vm_compute. reflexivity.
  - vm_compute. reflexivity.
Defined.

(** C4 as stated fails: the import of a link to itself is rejected as not
    found, which is not a CircularImport error. *)
Lemma processFileImport_self_symlink_not_found :
  processFileImport loop_fs (str "/home/u") join_path id no_limit no_limit_message
    no_glob whole_file no_expansion (str "/srv/self") (str "/srv") [str "/srv/main.md"]
  = Throw (str "Import not found: /srv/self (resolved to /srv/self)")
  /\ is_circular_import
       (processFileImport loop_fs (str "/home/u") join_path id no_limit no_limit_message
          no_glob whole_file no_expansion (str "/srv/self") (str "/srv") [str "/srv/main.md"])
     <> true.
Proof. split; [by vm_compute|]. vm_compute. discriminate. Qed.

(** ** Inline commands *)

Lemma startsWith_app (needle a b : jsstring) :
  startsWith needle a = true -> startsWith needle (a ++ b) = true.
Proof.
  unfold startsWith. intros Heq%bool_decide_eq_true. apply bool_decide_eq_true.
  assert (length needle <= length a).
  { apply (f_equal length) in Heq. rewrite length_take in Heq. lia. }
  by rewrite take_app_le.
Qed.

Lemma includes_app (needle a b : jsstring) :
  includes needle a = true -> includes needle (a ++ b) = true.
Proof.
  induction a as [|x a IH]; cbn [includes app].
  - rewrite orb_false_r. intros H. apply (startsWith_app _ [] b) in H.
    cbn [app] in H. destruct b; cbn [includes]; by rewrite H.
  - intros [H|H]%orb_true_iff.
    + apply (startsWith_app _ (x :: a) b) in H. cbn [app] in H. by rewrite H.
    + rewrite IH by done. apply orb_true_r.
Qed.

Lemma includes_skip (needle a b : jsstring) :
  includes needle b = true -> includes needle (a ++ b) = true.
Proof.
  intros H. induction a as [|x a IH]; [done|]. cbn [includes app].
  rewrite IH. apply orb_true_r.
Qed.

(** The message for a non-zero exit passes through the [catch] block. *)
Lemma rethrow_exit_message actual exitCode stdout stderr :
  rethrow actual (exit_message actual exitCode stdout stderr)
  = Throw (exit_message actual exitCode stdout stderr).
Proof.
  unfold rethrow.
  replace (includes (str "Exit ") (exit_message actual exitCode stdout stderr)) with true;
    [by rewrite orb_true_r|].
  symmetry. unfold exit_message. apply includes_app. by vm_compute.
Qed.

Lemma truncate_output_truthy toLocaleString output :
  truthy (truncate_output toLocaleString output) = truthy output.
Proof.
  unfold truncate_output. destruct (MAX_COMMAND_OUTPUT_SIZE <? length output) eqn:Hlong; [|done].
  apply Nat.ltb_lt in Hlong. unfold truthy.
  rewrite !bool_decide_eq_false_2; [done|..].
  - intros ->. cbn in Hlong. lia.
  - intros Heq. apply (f_equal length) in Heq. rewrite !length_app in Heq. cbn in Heq. lia.
Qed.

(** A text that does not contain a literal has no match of it. *)
Lemma rmatch_lit_text (lit s : jsstring) i c j c' :
  (j, c') ∈ rmatch (rlit lit) s i c -> take (length lit) (drop i s) = lit.
Proof.
  revert i c. induction lit as [|x lit IH]; intros i c Hin; [done|].
  change (rlit (x :: lit)) with (RSeq (rlit_char x) (rlit lit)) in Hin.
  apply rmatch_seq_inv in Hin as (j1 & c1 & H1 & H2).
  apply rmatch_lit_char_inv in H1 as (Hx & -> & ->).
  apply IH in H2. cbn [length].
  rewrite (drop_S _ _ _ Hx). cbn [take]. by rewrite H2.
Qed.

Lemma startsWith_includes (needle s : jsstring) i :
  take (length needle) (drop i s) = needle -> includes needle s = true.
Proof.
  intros Heq. rewrite <- (take_drop i s). apply includes_skip.
  destruct (drop i s) as [|x l]; cbn [includes]; unfold startsWith;
    by rewrite bool_decide_eq_true_2.
Qed.

Lemma exec_all_lit_absent (lit s : jsstring) :
  includes lit s = false -> exec_all (rlit lit) s = [].
Proof.
  intros Hno. pose proof (exec_all_matched s (rlit lit)) as Hall.
  destruct (exec_all (rlit lit) s) as [|m ms]; [done|].
  apply Forall_cons in Hall as [Hm _]. apply matched_elem, rmatch_lit_text in Hm.
  apply startsWith_includes in Hm. congruence.
Qed.

Lemma replace_all_absent (lit replacement s : jsstring) :
  includes lit s = false -> replace_all (rlit lit) replacement s = s.
Proof. intros Hno. unfold replace_all. by rewrite exec_all_lit_absent. Qed.

(** C6, as the code has it.  For an inline command that is run, whose
    process exits before the time-out and whose standard output has no NUL
    byte in its first 1024 bytes: with exit code zero the replacement is
    empty when both cleaned streams are empty, and otherwise the combined
    output (standard error, a newline and standard output when both are
    non-empty, else the non-empty one), cut to 100,000 characters with a
    notice and with every [{% endraw %}] escaped, between [{% raw %}] and
    [{% endraw %}] lines; this is the replacement of the claim when the
    output is non-empty, at most 100,000 characters long and free of
    [{% endraw %}].  With a non-zero exit code resolution fails with
    "Command failed (Exit N): command", a newline, and "Output: " followed by
    standard error, or standard output, or "No output". *)
Theorem processCommandInline_exited
    (substituteTemplateVars : jsstring -> list (jsstring * jsstring) -> jsstring)
    (isWin : bool) (spawn : list jsstring -> jsstring -> proc_outcome)
    (toLocaleString : nat -> jsstring)
    (command currentFileDir : jsstring) (importCtx : ImportContext)
    (stdoutBytes stderrBytes : list N) (exitCode : Z) :
  let actual := actualCommand substituteTemplateVars command importCtx in
  let result := processCommandInline substituteTemplateVars isWin spawn toLocaleString
                  command currentFileDir importCtx in
  let output := combine_output (cleaned stdoutBytes) (cleaned stderrBytes) in
  ctx_dryRun importCtx = false ->
  spawn (shell_argv isWin actual) (commandCwd currentFileDir importCtx)
  = Exited stdoutBytes stderrBytes exitCode ->
  existsb (N.eqb 0) (take 1024 stdoutBytes) = false ->
  (exitCode = 0%Z -> result = Ok (replacement toLocaleString stdoutBytes stderrBytes))
  /\ (exitCode = 0%Z -> output <> [] -> length output <= MAX_COMMAND_OUTPUT_SIZE ->
      includes (str "{% endraw %}") output = false ->
      result = Ok (claimed_replacement stdoutBytes stderrBytes))
  /\ (exitCode <> 0%Z ->
      result = Throw (exit_message actual exitCode (cleaned stdoutBytes) (cleaned stderrBytes))).
Proof.
  intros actual result output Hdry Hspawn Hnul.
  assert (Hzero : exitCode = 0%Z ->
                  result = Ok (replacement toLocaleString stdoutBytes stderrBytes)).
  { intros ->. subst result. unfold processCommandInline. fold actual.
    rewrite Hdry, Hspawn, Hnul. cbn [Z.eqb negb]. f_equal.
    unfold wrap_raw, replacement. fold (cleaned stdoutBytes) (cleaned stderrBytes).
    fold output. rewrite truncate_output_truthy.
    destruct (truthy output) eqn:Ht; [done|].
    unfold truncate_output.
    apply negb_false_iff, bool_decide_eq_true in Ht. rewrite Ht. done. }
  split_and!; [done| |].
  - intros Hcode Hne Hlen Hraw. rewrite Hzero by done. f_equal.
    unfold replacement, claimed_replacement. fold output.
    replace (truthy output) with true
      by (symmetry; by apply negb_true_iff, bool_decide_eq_false).
    unfold truncate_output.
    replace (MAX_COMMAND_OUTPUT_SIZE <? length output) with false
      by (symmetry; apply Nat.ltb_ge; lia).
    unfold ENDRAW_PATTERN. by rewrite replace_all_absent.
  - intros Hcode. subst result. unfold processCommandInline. fold actual.
    rewrite Hdry, Hspawn, Hnul.
    replace (exitCode =? 0)%Z with false by (symmetry; by apply Z.eqb_neq).
    cbn [negb]. apply rethrow_exit_message.
Qed.

Lemma processCommandInline_exited_witness :
  (0%Z = 0%Z ->
   processCommandInline no_substitution false (echo_shell (str "hi") 0) plain_number
     (str "echo hi") (str "/tmp") plain_context
   = Ok (replacement plain_number (str "hi" ++ [ch_nl]) []))
  /\ (0%Z = 0%Z ->
      combine_output (cleaned (str "hi" ++ [ch_nl])) (cleaned []) <> [] ->
      length (combine_output (cleaned (str "hi" ++ [ch_nl])) (cleaned []))
      <= MAX_COMMAND_OUTPUT_SIZE ->
      includes (str "{% endraw %}")
        (combine_output (cleaned (str "hi" ++ [ch_nl])) (cleaned [])) = false ->
      processCommandInline no_substitution false (echo_shell (str "hi") 0) plain_number
        (str "echo hi") (str "/tmp") plain_context
      = Ok (claimed_replacement (str "hi" ++ [ch_nl]) []))
  /\ (0%Z <> 0%Z ->
      processCommandInline no_substitution false (echo_shell (str "hi") 0) plain_number
        (str "echo hi") (str "/tmp") plain_context
      = Throw (exit_message (actualCommand no_substitution (str "echo hi") plain_context)
                 0 (cleaned (str "hi" ++ [ch_nl])) (cleaned []))).
Proof.
  apply (processCommandInline_exited no_substitution false (echo_shell (str "hi") 0)
           plain_number (str "echo hi") (str "/tmp") plain_context
           (str "hi" ++ [ch_nl]) [] 0); reflexivity.
Defined.

Example processCommandInline_hi :
  processCommandInline no_substitution false (echo_shell (str "hi") 0) plain_number
    (str "echo hi") (str "/tmp") plain_context
  = Ok (str "{% raw %}" ++ [ch_nl] ++ str "hi" ++ [ch_nl] ++ str "{% endraw %}").
Proof. by vm_compute. Qed.

(** C6 as stated fails: a command that exits with zero and prints
    [{% endraw %}] is not replaced by its output between the raw markers,
    the marker inside the output is escaped. *)
Lemma processCommandInline_endraw :
  processCommandInline no_substitution false (echo_shell (str "{% endraw %}") 0)
    plain_number (str "cat tag.txt") (str "/tmp") plain_context
  <> Ok (claimed_replacement (str "{% endraw %}" ++ [ch_nl]) []).
Proof. vm_compute. discriminate. Qed.

(** A command without output is replaced by nothing, not by an empty raw
    block. *)
Example processCommandInline_silent :
  processCommandInline no_substitution false (fun _ _ => Exited [] [] 0) plain_number
    (str "true") (str "/tmp") plain_context
  = Ok [].
Proof. by vm_compute. Qed.

(** Binary output is reported before the exit code is looked at. *)
Example processCommandInline_binary :
  processCommandInline no_substitution false (fun _ _ => Exited [0%N] [] 1) plain_number
    (str "cat a.bin") (str "/tmp") plain_context
  = Throw (str "Command failed: cat a.bin - Command returned binary data. "
           ++ str "Inline commands must return text: cat a.bin").
Proof. by vm_compute. Qed.

(** ** Command defaults and the configuration cascade *)

Section cascade_facts.
Context `{JsValue V}.
Implicit Types (A B : GlobalConfig V).

Lemma plain_empty : plain (Config None : GlobalConfig V).
Proof. done. Qed.

(** The empty configuration is a left and a right identity of
    [mergeConfigs] on plain configurations: the result has the commands of
    the other argument, with the same defaults, and reads alike. *)
Theorem mergeConfigs_empty A :
  plain A ->
  same_config (mergeConfigs (Config None) A) A /\ same_config (mergeConfigs A (Config None)) A.
Proof.
  intros HA. pose proof (no_proto_command_plain A HA) as HA'.
  destruct (mergeConfigs_spec (Config None) A ltac:(done) HA') as (Hl & Hl_some & Hl_get).
  destruct (mergeConfigs_spec A (Config None) HA' ltac:(done)) as (Hr & Hr_some & Hr_get).
  split; (apply same_config_intro; [done|done| |]).
  - rewrite Hl_some. cbn [commands]. split; [intros [[? [=]]|?]; done|by right].
  - intros cmd. rewrite Hl_get. rewrite (command_defaults_None (Config None)) by done.
    cbn [default from_option id]. destruct (command_defaults A cmd); [|done].
    by rewrite (right_id_L ∅ (∪)).
  - rewrite Hr_some. cbn [commands]. split; [intros [?|[? [=]]]; done|by left].
  - intros cmd. rewrite Hr_get. by rewrite (command_defaults_None (Config None)).
Qed.

(** Merging a plain configuration over itself changes nothing. *)
Theorem mergeConfigs_idemp A : plain A -> same_config (mergeConfigs A A) A.
Proof.
  intros HA. pose proof (no_proto_command_plain A HA) as HA'.
  destruct (mergeConfigs_spec A A HA' HA') as (Hm & Hm_some & Hm_get).
  apply same_config_intro; [done|done|rewrite Hm_some; tauto|].
  intros cmd. rewrite Hm_get. destruct (command_defaults A cmd); [|done].
  cbn [default from_option id]. by rewrite (idemp_L (∪)).
Qed.

(** Commands are merged by name, and inside a command the override
    replaces keys: when neither layer has a command named [__proto__], the
    result has [commands] exactly when a layer has, as an ordinary object
    without such a command; a command of the override has the defaults of
    the override over those of the base, and any other command has the
    defaults of the base. *)
Theorem mergeConfigs_by_name A B :
  no_proto_command A -> no_proto_command B ->
  plain (mergeConfigs A B)
  /\ (is_Some (commands (mergeConfigs A B)) <-> is_Some (commands A) \/ is_Some (commands B))
  /\ forall cmd,
       command_defaults (mergeConfigs A B) cmd
       = match command_defaults B cmd with
         | Some d => Some (d ∪ default ∅ (command_defaults A cmd))
         | None => command_defaults A cmd
         end.
Proof. apply mergeConfigs_spec. Qed.

(** What a plain configuration gives to a key of a command are the
    defaults it holds for the command. *)
Lemma config_value_plain A command key :
  plain A -> config_value A command key = command_defaults A command ≫= (.!! key).
Proof.
  unfold plain, config_value, getCommandDefaultsFromConfig, command_defaults.
  destruct (commands A) as [cmds|]; cbn [mbind option_bind]; [|by intros _].
  intros [_ Hp]. rewrite spread_or_empty_ordinary by done.
  destruct (get_own command (own_commands cmds));
    cbn [default from_option id mbind option_bind]; [done|by rewrite lookup_empty].
Qed.

(** Key by key, the override wins and the base fills in. *)
Lemma config_value_merge A B command key :
  plain A -> plain B ->
  config_value (mergeConfigs A B) command key
  = or_value (config_value B command key) (config_value A command key).
Proof.
  intros HA HB.
  destruct (mergeConfigs_spec A B (no_proto_command_plain A HA) (no_proto_command_plain B HB))
    as (Hm & _ & Hget).
  rewrite !config_value_plain, Hget by done.
  destruct (command_defaults B command) as [d|]; cbn [mbind option_bind]; [|done].
  rewrite lookup_union. destruct (d !! key) as [v|]; cbn.
  - by destruct (default ∅ (command_defaults A command) !! key).
  - rewrite (left_id_L None (∪)).
    destruct (command_defaults A command); cbn [default from_option id mbind option_bind];
      [done|by rewrite lookup_empty].
Qed.

Lemma fold_assign_own_lookup (l : list (jsstring * V)) (acc : gmap jsstring V) k :
  NoDup l.*1 -> k <> key_proto ->
  fold_left (fun result e => assign_own e.1 e.2 result) l acc !! k
  = or_value ((list_to_map l : gmap jsstring V) !! k) (acc !! k).
Proof.
  intros Hnd Hk. revert acc Hnd. induction l as [|[k' v'] l IH]; intros acc Hnd.
  { by rewrite list_to_map_nil, lookup_empty. }
  cbn [fmap list_fmap fst] in Hnd. apply NoDup_cons in Hnd as [Hk' Hnd].
  cbn [fold_left fst snd]. rewrite (IH _ Hnd), list_to_map_cons. unfold assign_own.
  destruct (decide (k = k')) as [->|Hne].
  - rewrite bool_decide_eq_false_2 by done. cbn [andb].
    rewrite !lookup_insert_eq, (not_elem_of_list_to_map_1 _ _ Hk'). done.
  - rewrite lookup_insert_ne by done.
    destruct (_ && _); [done|]. by rewrite lookup_insert_ne by done.
Qed.

Lemma applyDefaults_lookup (frontmatter : gmap jsstring V) (defaults : property V) key :
  key <> key_proto ->
  applyDefaults frontmatter defaults !! key
  = or_value (frontmatter !! key) (spread_or_empty defaults !! key).
Proof.
  intros Hkey. unfold applyDefaults, spread_or_empty.
  destruct (truthy_property defaults).
  - rewrite fold_assign_own_lookup by (done || apply NoDup_fst_map_to_list).
    by rewrite list_to_map_to_list.
  - rewrite lookup_empty. by destruct (frontmatter !! key).
Qed.

(** The value a run uses for a key of its command, the configuration being
    two plain layers: the front matter's, else the override layer's, else
    the base layer's. *)
Theorem applyDefaults_precedence (frontmatter : gmap jsstring V) A B command key :
  plain A -> plain B -> key <> key_proto ->
  applyDefaults frontmatter (getCommandDefaultsFromConfig (mergeConfigs A B) command) !! key
  = or_value (frontmatter !! key)
      (or_value (config_value B command key) (config_value A command key)).
Proof.
  intros HA HB Hkey. rewrite applyDefaults_lookup by done.
  by rewrite <- config_value_merge.
Qed.

Lemma mergeConfigs_plain A B : plain A -> plain B -> plain (mergeConfigs A B).
Proof.
  intros HA HB.
  by destruct (mergeConfigs_spec A B (no_proto_command_plain A HA)
                 (no_proto_command_plain B HB)) as (Hm & _).
Qed.

(** The cascade of [loadFullConfig], all configurations being plain: a key
    of a command is taken from the project configuration of the working
    directory, else from the one at the git root (when that is another
    directory), else from the user's configuration, else from the built-in
    defaults. *)
Theorem loadFullConfig_precedence (BUILTIN_DEFAULTS : GlobalConfig V)
    (userConfig : option (GlobalConfig V)) (resolve : jsstring -> jsstring)
    (findGitRoot findProjectConfigFile : jsstring -> option jsstring)
    (loadConfigFile : jsstring -> option (GlobalConfig V)) (cwd command key : jsstring) :
  plain BUILTIN_DEFAULTS ->
  (forall config, userConfig = Some config -> plain config) ->
  (forall file config, loadConfigFile file = Some config -> plain config) ->
  config_value
    (loadFullConfig BUILTIN_DEFAULTS userConfig resolve findGitRoot findProjectConfigFile
       loadConfigFile cwd) command key
  = or_value (config_value (configAt findProjectConfigFile loadConfigFile (resolve cwd))
                command key)
      (or_value (config_value (gitRootConfig findGitRoot findProjectConfigFile loadConfigFile
                                 (resolve cwd)) command key)
         (or_value (config_value (default (Config None) userConfig) command key)
            (config_value BUILTIN_DEFAULTS command key))).
Proof.
  intros Hbuiltin Huser Hfile.
  assert (Hnone : forall c k, config_value (Config None : GlobalConfig V) c k = None) by done.
  assert (Hgit : plain (gitRootConfig findGitRoot findProjectConfigFile loadConfigFile
                          (resolve cwd))).
  { unfold gitRootConfig. destruct (findGitRoot _) as [gitRoot|]; [|done].
    destruct (_ && _); [|done]. destruct (findProjectConfigFile gitRoot) as [file|]; [|done].
    destruct (loadConfigFile file) as [config|] eqn:Hload; [by eapply Hfile|done]. }
  assert (Hglobal_plain : plain (loadGlobalConfig BUILTIN_DEFAULTS userConfig)).
  { unfold loadGlobalConfig. destruct userConfig as [parsed|]; apply mergeConfigs_plain;
      try done. by apply Huser. }
  assert (Hglobal : config_value (loadGlobalConfig BUILTIN_DEFAULTS userConfig) command key
    = or_value (config_value (default (Config None) userConfig) command key)
        (config_value BUILTIN_DEFAULTS command key)).
  { unfold loadGlobalConfig. destruct userConfig as [parsed|];
      rewrite config_value_merge; try done. by apply Huser. }
  assert (Hproject_plain : plain (loadProjectConfig resolve findGitRoot findProjectConfigFile
                                    loadConfigFile cwd)).
  { unfold loadProjectConfig. destruct (findProjectConfigFile (resolve cwd)) as [file|]; [|done].
    destruct (loadConfigFile file) as [cwdConfig|] eqn:Hload; [|done].
    apply mergeConfigs_plain; [done|by eapply Hfile]. }
  unfold loadFullConfig. rewrite config_value_merge, Hglobal by done.
  unfold loadProjectConfig, configAt.
  destruct (findProjectConfigFile (resolve cwd)) as [file|]; [|by rewrite Hnone].
  destruct (loadConfigFile file) as [cwdConfig|] eqn:Hload; cbn [default from_option id].
  - rewrite config_value_merge by (done || by eapply Hfile).
    by destruct (config_value cwdConfig command key), (config_value (gitRootConfig _ _ _ _) _ _).
  - by rewrite Hnone.
Qed.
End cascade_facts.

(** The hypotheses on a given configuration are decided by evaluation. *)
Ltac plain_by_evaluation :=
  repeat split; try (apply (bool_decide_unpack _); vm_compute; reflexivity).

Lemma mergeConfigs_by_name_witness :
  plain (mergeConfigs config_a config_b)
  /\ (is_Some (commands (mergeConfigs config_a config_b))
      <-> is_Some (commands config_a) \/ is_Some (commands config_b))
  /\ forall cmd,
       command_defaults (mergeConfigs config_a config_b) cmd
       = match command_defaults config_b cmd with
         | Some d => Some (d ∪ default ∅ (command_defaults config_a cmd))
         | None => command_defaults config_a cmd
         end.
Proof. apply mergeConfigs_by_name; plain_by_evaluation. Defined.

Lemma mergeConfigs_empty_witness :
  same_config (mergeConfigs (Config None) config_b) config_b
  /\ same_config (mergeConfigs config_b (Config None)) config_b.
Proof. apply mergeConfigs_empty. plain_by_evaluation. Defined.

Lemma mergeConfigs_idemp_witness : same_config (mergeConfigs config_b config_b) config_b.
Proof. apply mergeConfigs_idemp. plain_by_evaluation. Defined.

Lemma applyDefaults_precedence_witness :
  applyDefaults {[str "model" := VStr (str "haiku")]}
    (getCommandDefaultsFromConfig (mergeConfigs config_a config_b) (str "claude"))
    !! str "print"
  = or_value (({[str "model" := VStr (str "haiku")]} : gmap jsstring value) !! str "print")
      (or_value (config_value config_b (str "claude") (str "print"))
         (config_value config_a (str "claude") (str "print"))).
Proof.
  apply applyDefaults_precedence; [plain_by_evaluation..|]. vm_compute. discriminate.
Defined.

Lemma loadFullConfig_precedence_witness :
  config_value
    (loadFullConfig config_a (Some config_b) (fun cwd => cwd) (fun _ => None)
       (fun dir => Some dir) (fun _ => Some config_c) (str "/work")) (str "gemini")
    (str "model")
  = or_value (config_value (configAt (fun dir => Some dir) (fun _ => Some config_c)
                              (str "/work")) (str "gemini") (str "model"))
      (or_value (config_value (gitRootConfig (fun _ => None) (fun dir => Some dir)
                                 (fun _ => Some config_c) (str "/work"))
                   (str "gemini") (str "model"))
         (or_value (config_value (default (Config None) (Some config_b)) (str "gemini")
                      (str "model"))
            (config_value config_a (str "gemini") (str "model")))).
Proof.
  apply (loadFullConfig_precedence config_a (Some config_b) (fun cwd => cwd) (fun _ => None)
           (fun dir => Some dir) (fun _ => Some config_c)).
  - plain_by_evaluation.
  - intros config [= <-]. plain_by_evaluation.
  - intros file config [= <-]. plain_by_evaluation.
Defined.

(** The cascade at work: the project layer wins for [gemini], and the
    built-in layer still gives [claude] its model. *)
Example loadFullConfig_example :
  let config := loadFullConfig config_a (Some config_b) (fun cwd => cwd) (fun _ => None)
                  (fun dir => Some dir) (fun _ => Some config_c) (str "/work") in
  config_value config (str "gemini") (str "model") = Some (VStr (str "flash"))
  /\ config_value config (str "claude") (str "model") = Some (VStr (str "opus"))
  /\ config_value config (str "claude") (str "print") = Some (VBool true).
Proof. split_and!; by vm_compute. Qed.

(** A command named [__proto__] in a layer read by [JSON.parse]: merged
    over the empty configuration it is no command of the result but the
    prototype of its [commands], and what it holds is found under the
    names of other commands. *)
Example mergeConfigs_proto_defaults :
  let config :=
    Config (Some (Commands [(key_proto, {[str "claude" := VObj [(str "p", VNum 1)]]})] None)) in
  command_defaults (mergeConfigs (Config None) config) key_proto = None
  /\ command_defaults (mergeConfigs (Config None) config) (str "claude") = None
  /\ getCommandDefaultsFromConfig (mergeConfigs (Config None) config) (str "claude")
     = Inherited (VObj [(str "p", VNum 1)])
  /\ config_value (mergeConfigs (Config None) config) (str "claude") (str "p")
     = Some (VNum 1).
Proof. split_and!; by vm_compute. Qed.

(** ** Command-line arguments *)

Lemma findIndex_spec {A : Type} (pred : A -> bool) (l : list A) :
  match findIndex pred l with
  | Some i => exists x, l !! i = Some x /\ pred x = true
                        /\ Forall (fun y => pred y = false) (take i l)
  | None => Forall (fun y => pred y = false) l
  end.
Proof.
  induction l as [|x l IH]; cbn; [done|].
  destruct (pred x) eqn:Hx.
  - exists x. cbn. split_and!; [done|done|constructor].
  - destruct (findIndex pred l) as [i|]; cbn.
    + destruct IH as (y & Hy & Hp & Hall). exists y. split_and!; [done|done|].
      by constructor.
    + by constructor.
Qed.

(** [parseCliArgs] read on its input.  Let the arguments after the first two
    begin with [flags], all starting with [-].  If nothing follows them,
    there is no file: every argument is passed through and [help] says
    whether [--help] or [-h] is among them.  If [file], which does not start
    with [-], follows them, then a non-empty [file] is taken as the file or
    subcommand, every other argument is passed through in its order and
    [help] is off, whatever the flags are; an empty [file] is no file, and
    all arguments, the empty one too, are passed through. *)
Theorem parseCliArgs_accounts (argv flags : list jsstring) :
  Forall (fun arg => startsWith [ch_minus] arg = true) flags ->
  (drop 2 argv = flags ->
     filePath (parseCliArgs argv) = []
     /\ passthroughArgs (parseCliArgs argv) = flags
     /\ (help (parseCliArgs argv) = true <-> str "--help" ∈ flags \/ str "-h" ∈ flags))
  /\ (forall file rest,
        startsWith [ch_minus] file = false ->
        drop 2 argv = flags ++ file :: rest ->
        if bool_decide (file = []) then
          filePath (parseCliArgs argv) = []
          /\ passthroughArgs (parseCliArgs argv) = flags ++ [] :: rest
          /\ (help (parseCliArgs argv) = true <->
                str "--help" ∈ drop 2 argv \/ str "-h" ∈ drop 2 argv)
        else
          parseCliArgs argv =
            {| filePath := file; passthroughArgs := flags ++ rest; help := false |}).
Proof.
  intros Hflags.
  assert (Hhelp : forall args,
    existsb (fun arg => bool_decide (arg = str "--help") || bool_decide (arg = str "-h")) args
      = true <-> str "--help" ∈ args \/ str "-h" ∈ args).
  { intros args. rewrite existsb_exists. split.
    - intros (a & Ha & Hor). apply list_elem_of_In in Ha.
      apply orb_true_iff in Hor as [->%bool_decide_eq_true| ->%bool_decide_eq_true]; auto.
    - intros [Hin|Hin]; eexists; (split; [apply list_elem_of_In; exact Hin|done]). }
  assert (Hnone : findIndex (fun arg => negb (startsWith [ch_minus] arg)) flags = None).
  { induction Hflags as [|x l Hx _ IH]; [done|]. cbn. by rewrite Hx, IH. }
  assert (Hsome : forall file rest, startsWith [ch_minus] file = false ->
    findIndex (fun arg => negb (startsWith [ch_minus] arg)) (flags ++ file :: rest)
      = Some (length flags)).
  { intros file rest Hfile. clear Hnone.
    induction Hflags as [|x l Hx _ IH]; cbn; [by rewrite Hfile|]. by rewrite Hx, IH. }
  split.
  - intros Hargs. unfold parseCliArgs. rewrite Hargs, Hnone. cbn. split_and!; first [done | apply Hhelp].
  - intros file rest Hfile Hargs. unfold parseCliArgs.
    rewrite Hargs, (Hsome file rest Hfile). cbn [default from_option id].
    rewrite list_lookup_middle by done. cbn [default from_option id].
    rewrite take_app_length.
    replace (drop (S (length flags)) (flags ++ file :: rest)) with rest
      by (by rewrite (cons_middle file flags rest), app_assoc, drop_app_length';
          [|rewrite length_app; cbn; lia]).
    unfold truthy. case_bool_decide as Hempty.
    + subst file. cbn. split_and!; first [done | apply Hhelp].
    + done.
Qed.

Lemma parseCliArgs_accounts_witness :
  (filePath (parseCliArgs [str "node"; str "md"; str "--help"]) = []
   /\ passthroughArgs (parseCliArgs [str "node"; str "md"; str "--help"]) = [str "--help"]
   /\ (help (parseCliArgs [str "node"; str "md"; str "--help"]) = true
       <-> str "--help" ∈ [str "--help"] \/ str "-h" ∈ [str "--help"]))
  /\ parseCliArgs [str "node"; str "md"; str "--model"; str "task.claude.md"; str "opus";
                   str "--help"]
     = {| filePath := str "task.claude.md";
          passthroughArgs := [str "--model"; str "opus"; str "--help"];
          help := false |}.
Proof.
  split.
  - refine (proj1 (parseCliArgs_accounts [str "node"; str "md"; str "--help"]
                     [str "--help"] _) _).
    + repeat constructor.
    + reflexivity.
  - refine (proj2 (parseCliArgs_accounts
      [str "node"; str "md"; str "--model"; str "task.claude.md"; str "opus"; str "--help"]
      [str "--model"] _) (str "task.claude.md") [str "opus"; str "--help"] _ _).
    + repeat constructor.
    + reflexivity.
    + reflexivity.
Defined.

(** ** Template variables from the command line *)

Lemma startsWith_dashes (arg : jsstring) :
  startsWith (str "--") arg = true -> arg = str "--" ++ drop 2 arg.
Proof.
  unfold startsWith. intros Heq%bool_decide_eq_true. cbn [length str] in Heq.
  change (length (str "--")) with 2 in Heq.
  rewrite <- Heq at 1. by rewrite take_drop.
Qed.

Lemma parseTemplateArgs_from_inv (knownFlags : gset jsstring) (args : list jsstring) :
  forall vars key v,
    parseTemplateArgs_from knownFlags args vars !! key = Some v ->
    vars !! key = Some v
    \/ ((str "--" ++ key) ∈ args /\ ((str "--" ++ key) ∉ knownFlags)
        /\ (v = str "true" \/ (v ∈ args /\ truthy v = true
                                /\ startsWith [ch_minus] v = false))).
Proof.
  induction args as [args IH] using (induction_ltof1 _ (@length _)); unfold ltof in IH.
  intros vars key v. destruct args as [|arg rest]; cbn [parseTemplateArgs_from]; [by left|].
  destruct (startsWith (str "--") arg) eqn:Hdash; cbn [negb].
  2: { intros H. apply IH in H; [|cbn; lia]. destruct H as [?|(?&?&[?|(?&?&?)])]; [by left|right..].
       - split_and!; [by right|done|by left].
       - split_and!; [by right|done|]. right. split_and!; [by right|done..]. }
  apply startsWith_dashes in Hdash.
  destruct (bool_decide (arg ∈ knownFlags) || bool_decide (str "--" ++ drop 2 arg ∈ knownFlags))
    eqn:Hknown.
  { intros H. apply IH in H; [|cbn; lia]. destruct H as [?|(?&?&[?|(?&?&?)])]; [by left|right..].
    - split_and!; [by right|done|by left].
    - split_and!; [by right|done|]. right. split_and!; [by right|done..]. }
  apply orb_false_iff in Hknown as [Hk1%bool_decide_eq_false _].
  assert (Hins : forall w, assign_prop (drop 2 arg) w vars !! key = Some v ->
            vars !! key = Some v \/ (key = drop 2 arg /\ v = w)).
  { intros w. unfold assign_prop. case_bool_decide; [by left|].
    destruct (decide (drop 2 arg = key)) as [<-|Hne].
    - rewrite lookup_insert_eq. intros [= <-]. by right.
    - rewrite lookup_insert_ne by done. by left. }
  destruct rest as [|nextArg rest'].
  { cbn [parseTemplateArgs_from]. intros [?|[-> ->]]%Hins; [by left|right].
    rewrite <- Hdash. split_and!; [by left|done|by left]. }
  destruct (truthy nextArg && negb (startsWith [ch_minus] nextArg)) eqn:Hnext.
  - intros H. apply IH in H; [|cbn; lia].
    destruct H as [[?|[-> ->]]%Hins|(?&?&[?|(?&?&?)])]; [by left|right..].
    + apply andb_true_iff in Hnext as [? ?%negb_true_iff]. rewrite <- Hdash.
      split_and!; [by left|done|]. right. split_and!; [by right; left|done..].
    + split_and!; [by do 2 right|done|by left].
    + split_and!; [by do 2 right|done|]. right. split_and!; [by do 2 right|done..].
  - intros H. apply IH in H; [|cbn; lia].
    destruct H as [[?|[-> ->]]%Hins|(?&?&[?|(?&?&?)])]; [by left|right..].
    + rewrite <- Hdash. split_and!; [by left|done|by left].
    + split_and!; [by right|done|by left].
    + split_and!; [by right|done|]. right. split_and!; [by right|done..].
Qed.

(** A template variable comes from an argument [--key] that is not a known
    flag; its value is [true] or a later non-empty argument that does not
    start with [-].  Known flags never become template variables. *)
Theorem parseTemplateArgs_sound (args : list jsstring) (knownFlags : gset jsstring)
    (key v : jsstring) :
  parseTemplateArgs args knownFlags !! key = Some v ->
  (str "--" ++ key) ∈ args
  /\ ((str "--" ++ key) ∉ knownFlags)
  /\ (v = str "true"
      \/ (v ∈ args /\ truthy v = true /\ startsWith [ch_minus] v = false)).
Proof.
  intros H. apply parseTemplateArgs_from_inv in H as [H|H]; [|done].
  by rewrite lookup_empty in H.
Qed.

Lemma parseTemplateArgs_sound_witness :
  (str "--" ++ str "name") ∈ [str "--name"; str "Ada"]
  /\ ((str "--" ++ str "name") ∉ (∅ : gset jsstring))
  /\ (str "Ada" = str "true"
      \/ (str "Ada" ∈ [str "--name"; str "Ada"] /\ truthy (str "Ada") = true
          /\ startsWith [ch_minus] (str "Ada") = false)).
Proof.
  apply (parseTemplateArgs_sound [str "--name"; str "Ada"] ∅ (str "name") (str "Ada")).
  vm_compute. reflexivity.
Defined.

(** ** Positional arguments and the environment *)

Lemma push_positionals_spec (m : gmap Z jsstring) (positionals : list jsstring) :
  forall i acc,
    push_positionals m i positionals acc
    = acc ++ mjoin (imap (fun k value =>
                            match m !! Z.of_nat (i + k + 1) with
                            | Some flagName => [toFlag flagName; value]
                            | None => [value]
                            end) positionals).
Proof.
  induction positionals as [|v rest IH]; intros i acc.
  { cbn. by rewrite app_nil_r. }
  cbn [push_positionals]. rewrite IH, imap_cons. cbn [mjoin list_join].
  rewrite Nat.add_0_r.
  erewrite (imap_ext (_ ∘ S)); [|intros k x _; cbn;
    replace (i + S k + 1) with (S i + k + 1) by lia; reflexivity].
  destruct (m !! Z.of_nat (i + 1)); by rewrite <- app_assoc.
Qed.

(** The command is spawned with the arguments compiled from the front
    matter, followed by the positional arguments in their order: the one at
    position [n] (counted from 1) behind the flag that [$n] maps it to, and
    bare when [$n] is not mapped. *)
Theorem finalArgs_spec (args positionals : list jsstring) (m : gmap Z jsstring) :
  finalArgs args positionals m
  = args ++ mjoin (imap (fun i value =>
                           match m !! Z.of_nat (i + 1) with
                           | Some flagName => [toFlag flagName; value]
                           | None => [value]
                           end) positionals).
Proof. apply (push_positionals_spec m positionals 0 args). Qed.

(** The mapping [$1: prompt] turns the body into the value of [--prompt],
    and the key itself is no flag. *)
Example finalArgs_prompt :
  let frontmatter := [(str "$1", VStr (str "prompt")); (str "model", VStr (str "gpt"))] in
  finalArgs (buildArgs frontmatter ∅) [str "body"; str "more"]
    (extractPositionalMappings frontmatter)
  = [str "--model"; str "gpt"; str "--prompt"; str "body"; str "more"].
Proof. by vm_compute. Qed.

Lemma get_key_elem (key : jsstring) (fm : list (jsstring * value)) v :
  NoDup fm.*1 -> (key, v) ∈ fm -> get_key key fm = v.
Proof.
  induction fm as [|[k w] fm IH]; intros Hnd Hin; [by apply elem_of_nil in Hin|].
  cbn [fmap list_fmap fst] in Hnd. apply NoDup_cons in Hnd as [Hk Hnd].
  cbn [get_key]. apply elem_of_cons in Hin as [[= <- <-]|Hin].
  - by rewrite bool_decide_eq_true_2.
  - rewrite bool_decide_eq_false_2; [by apply IH|].
    intros ->. apply Hk. apply list_elem_of_fmap. by exists (key, v).
Qed.

(** An [env] mapping is taken as the environment of the command and leaves
    no trace in its arguments. *)
Theorem buildArgs_env_mapping (frontmatter : list (jsstring * value))
    (templateVars : gset jsstring) (fields : list (jsstring * value)) :
  NoDup frontmatter.*1 ->
  extractEnvVars frontmatter = Some fields ->
  buildArgs frontmatter templateVars
  = buildArgs (delete_key (str "env") frontmatter) templateVars.
Proof.
  intros Hnd Henv. unfold buildArgs. rewrite !(buildArgs_from _ _ []). cbn [app].
  assert (Hall : forall v, (str "env", v) ∈ frontmatter -> v = VObj fields).
  { intros v Hin. rewrite <- (get_key_elem _ _ _ Hnd Hin) . unfold extractEnvVars in Henv.
    destruct (get_key (str "env") frontmatter); try done. by injection Henv as ->. }
  clear Hnd Henv. unfold delete_key.
  induction frontmatter as [|[k v] fm IH]; [done|].
  rewrite filter_cons. cbn [fst]. rewrite bind_cons.
  rewrite IH by (intros w Hw; apply Hall; by right).
  destruct (decide (k <> str "env")) as [Hne|Heq].
  - by rewrite bind_cons.
  - apply dec_stable in Heq as ->. rewrite (Hall v) by by left.
    unfold emitted. destruct (skipped_key templateVars (str "env")); [done|].
    by rewrite bool_decide_eq_true_2.
Qed.

Lemma buildArgs_env_mapping_witness :
  buildArgs [(str "env", VObj [(str "KEY", VStr (str "v"))]); (str "p", VBool true)] ∅
  = buildArgs (delete_key (str "env")
                 [(str "env", VObj [(str "KEY", VStr (str "v"))]); (str "p", VBool true)]) ∅.
Proof.
  apply (buildArgs_env_mapping _ ∅ [(str "KEY", VStr (str "v"))]).
  - apply (bool_decide_unpack _). by vm_compute.
  - reflexivity.
Defined.

(** ** The order of the safe ranges *)

Section range_order.
Context (s : jsstring).

Lemma StronglySorted_snoc {A : Type} (R : A -> A -> Prop) (l : list A) (x : A) :
  StronglySorted R l -> Forall (fun y => R y x) l -> StronglySorted R (l ++ [x]).
Proof.
  induction 1 as [|y l Hl IH Hy]; intros Hall; cbn.
  { repeat constructor. }
  apply Forall_cons in Hall as [Hyx Hall]. constructor; [by apply IH|].
  apply Forall_app. split; [done|]. by constructor.
Qed.

Lemma ranges_inv_weaken (l : list range) (lim lim' : nat) :
  lim <= lim' ->
  Forall (fun r => r_start r < r_end r /\ r_end r < lim) l ->
  Forall (fun r => r_start r < r_end r /\ r_end r < lim') l.
Proof. intros Hle H. eapply Forall_impl; [exact H|]. intros r [? ?]. cbn in *. lia. Qed.

(** Recording the range in front of a delimiter at [pos st]. *)
Lemma push_range_inv st lim :
  context st = normal -> rangeStart st <= pos st -> pos st < lim ->
  ranges_inv st ->
  Forall (fun r => r_start r < r_end r /\ r_end r < lim) (push_range st (pos st))
  /\ StronglySorted separated (push_range st (pos st)).
Proof.
  intros Hctx Hrs Hlim [Hall Hsorted]. unfold range_limit in Hall. rewrite Hctx in Hall.
  unfold push_range. destruct (rangeStart st <? pos st) eqn:Hlt.
  - apply Nat.ltb_lt in Hlt. split.
    + apply Forall_app. split.
      * eapply ranges_inv_weaken; [|exact Hall]. lia.
      * repeat constructor; cbn; lia.
    + apply StronglySorted_snoc; [done|].
      eapply Forall_impl; [exact Hall|]. intros r [_ ?]. unfold separated. cbn. lia.
  - split; [|done]. eapply ranges_inv_weaken; [|exact Hall]. lia.
Qed.

Lemma scan_step_ranges st tr :
  scan_inv s st tr -> pos st < length s -> ranges_inv st ->
  ranges_inv (scan_step s st).
Proof.
  intros Hinv Hlt Hr. destruct (scan_step_inv s st tr Hinv Hlt) as [_ Hadv].
  destruct Hinv as (_ & _ & Hnorm & _).
  revert Hadv. unfold scan_step, ranges_inv, range_limit.
  destruct (context st) eqn:Hctx.
  - destruct (Hnorm eq_refl) as [Hrs _].
    repeat case_match; cbn [pos context safeRanges rangeStart advance]; intros Hadv;
      first [ by (cbn in *; congruence)
            | apply push_range_inv; [done|done|lia|done]
            | destruct Hr as [Hall Hs]; unfold range_limit in Hall;
              by rewrite Hctx in Hall ].
  - destruct Hr as [Hall Hs]. unfold range_limit in Hall. rewrite Hctx in Hall.
    repeat case_match; cbn [pos context safeRanges rangeStart advance]; intros Hadv;
      first [ by (cbn in *; congruence)
            | (split; [|done]); (eapply ranges_inv_weaken; [|exact Hall]); lia ].
  - destruct Hr as [Hall Hs]. unfold range_limit in Hall. rewrite Hctx in Hall.
    repeat case_match; cbn [pos context safeRanges rangeStart advance]; intros Hadv;
      first [ by (cbn in *; congruence)
            | (split; [|done]); (eapply ranges_inv_weaken; [|exact Hall]); lia ].
Qed.

Lemma scan_loop_ranges fuel st tr :
  scan_inv s st tr -> ranges_inv st -> ranges_inv (scan_loop fuel s st).
Proof.
  revert st tr. induction fuel as [|fuel IH]; intros st tr Hinv Hr; cbn [scan_loop]; [done|].
  destruct (pos st <? length s) eqn:Hlt; [|done]. apply Nat.ltb_lt in Hlt.
  destruct (scan_step_inv s st tr Hinv Hlt) as [Hinv' _].
  eapply IH; [exact Hinv'|]. by eapply scan_step_ranges.
Qed.

(** The safe ranges are non-empty, lie inside the content, and come in
    ascending order with at least one code unit between any two. *)
Theorem findSafeRanges_sorted :
  Forall (fun r => r_start r < r_end r <= length s) (findSafeRanges s)
  /\ StronglySorted separated (findSafeRanges s).
Proof.
  destruct (scan_final_inv s) as [Hinv Hpos].
  assert (Hr : ranges_inv (scan_final s)).
  { apply (scan_loop_ranges (length s) scan_init []); [apply scan_init_inv|].
    split; constructor. }
  destruct Hinv as (_ & _ & Hnorm & _). destruct Hr as [Hall Hs].
  unfold findSafeRanges, range_limit in *.
  destruct (context (scan_final s)) eqn:Hctx.
  - destruct (Hnorm eq_refl) as [Hrs _].
    destruct (rangeStart (scan_final s) <? length s) eqn:Hlt.
    + apply Nat.ltb_lt in Hlt. split.
      * apply Forall_app. split.
        -- eapply Forall_impl; [exact Hall|]. intros r [? ?]. cbn. lia.
        -- repeat constructor; cbn; lia.
      * apply StronglySorted_snoc; [done|].
        eapply Forall_impl; [exact Hall|]. intros r [_ ?]. unfold separated. cbn. lia.
    + split; [|done]. eapply Forall_impl; [exact Hall|]. intros r [? ?]. cbn. lia.
  - split; [|done]. eapply Forall_impl; [exact Hall|]. intros r [? ?]. cbn. lia.
  - split; [|done]. eapply Forall_impl; [exact Hall|]. intros r [? ?]. cbn. lia.
Qed.
End range_order.

(** ** Text without code, text without directives *)

Lemma scan_step_plain (s : jsstring) (st : scan_state) :
  context st = normal ->
  s !! pos st <> Some ch_backtick -> s !! pos st <> Some ch_tilde ->
  scan_step s st = advance st.
Proof.
  intros Hctx Hb Ht. unfold scan_step. rewrite Hctx. cbn zeta.
  rewrite (bool_decide_eq_false_2 (s !! pos st = Some ch_backtick)) by done.
  by rewrite (bool_decide_eq_false_2 (s !! pos st = Some ch_tilde)) by done.
Qed.

Lemma scan_loop_plain (s : jsstring) :
  ch_backtick ∉ s -> ch_tilde ∉ s ->
  forall fuel i, i + fuel = length s ->
    scan_loop fuel s (ScanState normal 0 i None 0 []) = ScanState normal 0 (length s) None 0 [].
Proof.
  intros Hb Ht. induction fuel as [|fuel IH]; intros i Hi; cbn [scan_loop].
  { by replace i with (length s) by lia. }
  cbn [pos]. replace (i <? length s) with true by (symmetry; apply Nat.ltb_lt; lia).
  rewrite scan_step_plain; cbn [pos context]; try done.
  - unfold advance. cbn [pos context rangeStart fenceChar fenceLen safeRanges].
    apply IH. lia.
  - intros Hin. apply Hb. by eapply list_elem_of_lookup_2.
  - intros Hin. apply Ht. by eapply list_elem_of_lookup_2.
Qed.

(** Content without a backtick or a tilde is one safe range, from its first
    code unit to its last. *)
Theorem findSafeRanges_plain (content : jsstring) :
  ch_backtick ∉ content -> ch_tilde ∉ content -> content <> [] ->
  findSafeRanges content = [Range 0 (length content)].
Proof.
  intros Hb Ht Hne. unfold findSafeRanges, scan_final, scan_init.
  rewrite (scan_loop_plain content Hb Ht (length content) 0) by lia.
  cbn [context rangeStart safeRanges]. destruct content; [done|]. done.
Qed.

Lemma findSafeRanges_plain_witness :
  findSafeRanges (str "see notes") = [Range 0 (length (str "see notes"))].
Proof.
  apply findSafeRanges_plain.
  - apply (bool_decide_unpack _). by vm_compute.
  - apply (bool_decide_unpack _). by vm_compute.
  - discriminate.
Defined.

(** Every directive starts with the marker of its pattern: a file, glob or
    symbol import with [@] followed by [~], [.] or [/], a URL import with
    [@h], an inline command with [!], an executable fence with three
    backticks.  So the [@] of an e-mail address starts no import. *)
Theorem parseImports_heads (content : jsstring) (a : ImportAction) :
  a ∈ parseImports content ->
  head_ok content (action_family a) (action_index a).
Proof.
  intros [f Hin]%parseImports_elem.
  by apply family_elem in Hin as (-> & ? & _).
Qed.

Lemma parseImports_heads_witness :
  head_ok (str "@./a.md") (action_family (FileImport (str "./a.md") None (str "@./a.md") 0))
    (action_index (FileImport (str "./a.md") None (str "@./a.md") 0)).
Proof.
  apply (parseImports_heads (str "@./a.md")). vm_compute. left.
Defined.

(** Content without [@], [!] and backtick holds no directive. *)
Theorem parseImports_plain (content : jsstring) :
  ch_at ∉ content -> ch_bang ∉ content -> ch_backtick ∉ content ->
  parseImports content = [] /\ hasImportsInContent content = false.
Proof.
  intros Hat Hbang Hbt.
  assert (Hnil : parseImports content = []).
  { destruct (parseImports content) as [|a l] eqn:Hp; [done|]. exfalso.
    assert (Hin : a ∈ parseImports content) by (rewrite Hp; left).
    apply parseImports_elem in Hin as [f Hin].
    apply family_elem in Hin as (_ & Hh & _).
    destruct f; cbn in Hh.
    - destruct Hh as [Hh _]. apply Hat. by eapply list_elem_of_lookup_2.
    - destruct Hh as [Hh _]. apply Hat. by eapply list_elem_of_lookup_2.
    - apply Hbang. by eapply list_elem_of_lookup_2.
    - destruct Hh as [Hh _]. apply Hbt. by eapply list_elem_of_lookup_2. }
  split; [done|]. unfold hasImportsInContent. by rewrite Hnil.
Qed.

Lemma parseImports_plain_witness :
  parseImports (str "mail me: a.b") = [] /\ hasImportsInContent (str "mail me: a.b") = false.
Proof.
  apply parseImports_plain; apply (bool_decide_unpack _); by vm_compute.
Defined.

(** ** The injected body, piece by piece *)

Section woven_facts.
Context (content : jsstring).

Lemma apart_within_bounds rs : forall from,
  apart_within content from rs ->
  from <= length content
  /\ Forall (fun r => from <= res_index r /\ res_end r <= length content) rs
  /\ StronglySorted (fun a b => res_index a < res_index b) rs.
Proof.
  induction rs as [|r rest IH]; intros from Hap; cbn [apart_within] in Hap.
  { split_and!; [done|constructor|constructor]. }
  destruct Hap as (Hfrom & Hne & Hrest). destruct (IH _ Hrest) as (Hlen & Hall & Hs).
  split_and!; [lia| |].
  - constructor; [lia|]. eapply Forall_impl; [exact Hall|]. intros x [? ?]. lia.
  - constructor; [done|]. eapply Forall_impl; [exact Hall|]. intros x [? ?]. lia.
Qed.

Lemma fold_left_reverse {A B : Type} (f : B -> A -> B) (l : list A) (b : B) :
  fold_left f (reverse l) b = foldr (fun x acc => f acc x) b l.
Proof.
  induction l as [|x l IH]; [done|].
  by rewrite reverse_cons, fold_left_app, IH.
Qed.

Lemma descending_reverse (rs : list ResolvedImportResult) :
  StronglySorted (fun a b => res_index a < res_index b) rs ->
  descending (reverse rs).
Proof.
  induction 1 as [|r rest Hs IH Hall]; [constructor|].
  rewrite reverse_cons. apply StronglySorted_app_2; [|done|repeat constructor].
  intros x1 x2 Hx1 Hx2%list_elem_of_singleton. subst x2.
  rewrite elem_of_reverse in Hx1.
  rewrite Forall_forall in Hall. specialize (Hall x1 Hx1). lia.
Qed.

(** Splicing from the last directive to the first leaves the text in front
    of the directives as it was. *)
Lemma foldr_splice_woven rs : forall from,
  apart_within content from rs ->
  foldr (fun r acc => splice acc r) content rs
  = take from content ++ woven content from rs.
Proof.
  induction rs as [|r rest IH]; intros from Hap; cbn [foldr woven].
  { unfold slice_from. by rewrite take_drop. }
  cbn [apart_within] in Hap. destruct Hap as (Hfrom & Hne & Hrest).
  destruct (apart_within_bounds _ _ Hrest) as (Hlen & _ & _).
  rewrite (IH _ Hrest). unfold splice, slice, slice_from.
  rewrite Nat.sub_0_r, drop_0.
  rewrite take_app_le by (rewrite length_take; lia).
  rewrite take_take, Nat.min_l by lia.
  rewrite drop_app_length' by (rewrite length_take; lia).
  assert (Hsplit : take (res_index r) content
                   = take from content ++ take (res_index r - from) (drop from content)).
  { rewrite <- (take_drop from content) at 1.
    rewrite take_app_ge by (rewrite length_take; lia).
    rewrite length_take, Nat.min_l by lia. done. }
  by rewrite Hsplit, <- app_assoc.
Qed.

(** With the spans of the resolved directives non-empty, apart and inside
    the body, [injectResolvedImports] keeps the text between the directives
    and puts each content in the place of its directive, whatever the order
    in which the directives were resolved. *)
Theorem injectResolvedImports_woven (resolved rs : list ResolvedImportResult) :
  resolved ≡ₚ rs -> apart_within content 0 rs ->
  injectResolvedImports content resolved = woven content 0 rs.
Proof.
  intros Hperm Hap. destruct (apart_within_bounds _ _ Hap) as (_ & _ & Hs).
  unfold injectResolvedImports.
  assert (Hsort : sort_by by_index_desc resolved = reverse rs).
  { apply (StronglySorted_unique_strong (fun a b => res_index b <= res_index a)).
    - intros x1 x2 Hx1 Hx2 H12 H21.
      rewrite sort_by_perm, Hperm in Hx1. rewrite elem_of_reverse in Hx2.
      apply list_elem_of_lookup_1 in Hx1 as [i Hi]. apply list_elem_of_lookup_1 in Hx2 as [j Hj].
      destruct (Nat.lt_trichotomy i j) as [Hij|[->|Hij]].
      + pose proof (StronglySorted_pair _ _ i j _ _ Hs Hij Hi Hj). cbn in *. lia.
      + congruence.
      + pose proof (StronglySorted_pair _ _ j i _ _ Hs Hij Hj Hi). cbn in *. lia.
    - apply sort_desc_sorted.
    - by apply descending_reverse.
    - by rewrite sort_by_perm, Hperm, reverse_Permutation. }
  rewrite Hsort, fold_left_reverse, (foldr_splice_woven rs 0 Hap). by rewrite take_0.
Qed.
End woven_facts.

Lemma injectResolvedImports_woven_witness :
  injectResolvedImports (str "a @./x b !`ls` c")
    [Resolved (PCommand (str "!`ls`") (str "ls") 9) (str "out");
     Resolved (PFile (str "@./x") (str "./x") 2) (str "text")]
  = woven (str "a @./x b !`ls` c") 0
      [Resolved (PFile (str "@./x") (str "./x") 2) (str "text");
       Resolved (PCommand (str "!`ls`") (str "ls") 9) (str "out")].
Proof.
  apply injectResolvedImports_woven.
  - apply Permutation_swap.
  - vm_compute. lia.
Defined.

(** ** How quantified classes match

    A class under a quantifier without upper bound reaches every position
    from its minimum to the end of the run of the class: a greedy quantifier
    tries the farthest first, a lazy one the nearest. *)

Section class_facts.
Context (s : jsstring).

Lemma class_run_le cls l : class_run cls l <= length l.
Proof. induction l as [|x l IH]; cbn; [lia|]. destruct (cls x); cbn; lia. Qed.

Lemma class_run_cons cls i x :
  s !! i = Some x -> cls x = true ->
  class_run cls (drop i s) = S (class_run cls (drop (S i) s)).
Proof.
  intros Hx Hc. rewrite (drop_S _ _ _ Hx). cbn. by rewrite Hc.
Qed.

Lemma class_run_stop cls i :
  (forall x, s !! i = Some x -> cls x = false) -> class_run cls (drop i s) = 0.
Proof.
  intros H. destruct (s !! i) as [x|] eqn:Hx.
  - rewrite (drop_S _ _ _ Hx). cbn. by rewrite (H x).
  - by rewrite drop_ge by by apply lookup_ge_None.
Qed.

Lemma rmatch_char_eq cls i c :
  rmatch (RChar cls) s i c
  = match s !! i with
    | Some x => if cls x then [(S i, c)] else []
    | None => []
    end.
Proof. reflexivity. Qed.

Lemma reach_succ i lo n c : reach i (S lo) (S n) c = reach (S i) lo n c.
Proof.
  unfold reach. replace (S (S n) - S lo) with (S n - lo) by lia.
  rewrite <- fmap_S_seq, <- list_fmap_compose. apply list_fmap_ext.
  intros _ k _. cbn. f_equal. lia.
Qed.

Lemma reach_zero i n c : reach i 0 (S n) c = (i, c) :: reach (S i) 0 n c.
Proof.
  rewrite <- reach_succ. unfold reach.
  replace (S (S n) - 0) with (S (S (S n) - 1)) by lia.
  cbn [seq fmap list_fmap]. by rewrite Nat.add_0_r.
Qed.

Lemma reach_none i lo c : reach i lo 0 c = if lo =? 0 then [(i, c)] else [].
Proof.
  unfold reach. destruct lo as [|lo]; cbn; [by rewrite Nat.add_0_r|done].
Qed.

Lemma repeat_class cls greedy c : forall fuel lo i,
  i <= length s -> lo + (length s - i) < fuel ->
  repeat_matcher fuel (rmatch (RChar cls) s) greedy lo None i c
  = (if greedy then reverse else id) (reach i lo (class_run cls (drop i s)) c).
Proof.
  induction fuel as [|fuel IH]; intros lo i Hi Hfuel; [lia|].
  cbn [repeat_matcher]. rewrite rmatch_char_eq.
  destruct (s !! i) as [x|] eqn:Hx; [destruct (cls x) eqn:Hc|].
  - pose proof (lookup_lt_Some _ _ _ Hx) as Hlt.
    rewrite (class_run_cons cls i x Hx Hc). set (n := class_run cls (drop (S i) s)).
    cbn [mbind list_bind fmap list_fmap app]. rewrite app_nil_r.
    replace (S i =? i) with false by (symmetry; apply Nat.eqb_neq; lia).
    rewrite andb_false_r. cbn [option_fmap option_map].
    rewrite (IH (pred lo) (S i)) by lia. fold n.
    destruct lo as [|lo]; cbn [Nat.eqb negb pred].
    + rewrite reach_zero. destruct greedy; cbn [id]; [by rewrite reverse_cons|done].
    + by rewrite reach_succ.
  - rewrite (class_run_stop cls i) by (intros y Hy; congruence).
    cbn [mbind list_bind fmap list_fmap app]. rewrite reach_none.
    destruct lo as [|lo]; cbn [Nat.eqb negb]; by destruct greedy.
  - rewrite (class_run_stop cls i) by (intros y Hy; congruence).
    cbn [mbind list_bind fmap list_fmap app]. rewrite reach_none.
    destruct lo as [|lo]; cbn [Nat.eqb negb]; by destruct greedy.
Qed.

(** The matches of a quantified class, in the order the matcher tries
    them. *)
Lemma rmatch_class greedy lo cls i c :
  i <= length s ->
  rmatch (RQuant greedy lo None (RChar cls)) s i c
  = (if greedy then reverse else id) (reach i lo (class_run cls (drop i s)) c).
Proof. intros Hi. rewrite rmatch_quant_eq. apply repeat_class; lia. Qed.

Lemma elem_of_reach i lo n c j c' :
  (j, c') ∈ reach i lo n c <-> c' = c /\ i + lo <= j <= i + n.
Proof.
  unfold reach. rewrite list_elem_of_fmap. split.
  - intros (k & [= -> ->] & Hk%elem_of_seq). split; [done|lia].
  - intros [-> Hj]. exists (j - i). split; [f_equal; lia|]. apply elem_of_seq. lia.
Qed.

Lemma elem_of_rmatch_class greedy lo cls i c j c' :
  i <= length s ->
  (j, c') ∈ rmatch (RQuant greedy lo None (RChar cls)) s i c
  <-> c' = c /\ i + lo <= j <= i + class_run cls (drop i s).
Proof.
  intros Hi. rewrite rmatch_class by done.
  destruct greedy; cbn [id]; [rewrite elem_of_reverse|]; apply elem_of_reach.
Qed.

(** The farthest reach comes first for a greedy quantifier. *)
Lemma reach_greedy_head i lo n c :
  lo <= n -> exists rest, reverse (reach i lo n c) = (i + n, c) :: rest.
Proof.
  intros Hle. unfold reach. replace (S n - lo) with (S (n - lo)) by lia.
  rewrite seq_S, fmap_app, reverse_app. cbn.
  replace (lo + (n - lo)) with n by lia. eauto.
Qed.
End class_facts.

(** A run of a class consists of the class, and ends at a code unit outside
    it or at the end of the string. *)
Lemma class_run_all cls (l : jsstring) :
  Forall (fun x => cls x = true) l -> class_run cls l = length l.
Proof. induction 1 as [|x l Hx _ IH]; cbn; [done|]. by rewrite Hx, IH. Qed.

Lemma class_run_app cls (l1 l2 : jsstring) :
  Forall (fun x => cls x = true) l1 ->
  class_run cls (l1 ++ l2) = length l1 + class_run cls l2.
Proof. induction 1 as [|x l Hx _ IH]; cbn; [done|]. by rewrite Hx, IH. Qed.

Lemma class_run_spec cls (l : jsstring) :
  Forall (fun x => cls x = true) (take (class_run cls l) l)
  /\ (forall x, l !! class_run cls l = Some x -> cls x = false).
Proof.
  induction l as [|x l [IH1 IH2]]; cbn; [split; [constructor|done]|].
  destruct (cls x) eqn:Hx; cbn.
  - split; [by constructor|done].
  - split; [constructor|]. intros y [= <-]. done.
Qed.

(** ** The first way a pattern matches

    [exec] takes the first element of the list of matches.  These lemmas
    find it without enumerating the others. *)

Section first_match.
Context (s : jsstring).

Lemma first_is_bind {A B : Type} (f : A -> list B) (l : list A) (x : A) (y : B) :
  first_is l x -> first_is (f x) y -> first_is (l ≫= f) y.
Proof.
  intros [l' ->] [ys Hy]. rewrite bind_cons, Hy. by eexists.
Qed.

(** The candidates in front of the first that works all fail. *)
Lemma first_is_bind_skip {A B : Type} (f : A -> list B) (l1 l2 : list A) (y : B) :
  Forall (fun z => f z = []) l1 -> first_is (l2 ≫= f) y -> first_is ((l1 ++ l2) ≫= f) y.
Proof.
  intros Hall Hy. rewrite bind_app.
  assert (Hnil : l1 ≫= f = []).
  { induction Hall as [|z l1 Hz _ IH]; [done|]. by rewrite bind_cons, Hz, IH. }
  by rewrite Hnil.
Qed.

Lemma first_seq r1 r2 i c j c1 y :
  first_is (rmatch r1 s i c) (j, c1) -> first_is (rmatch r2 s j c1) y ->
  first_is (rmatch (RSeq r1 r2) s i c) y.
Proof. intros H1 H2. cbn [rmatch]. by eapply first_is_bind. Qed.

Lemma first_group n r i c j c1 :
  first_is (rmatch r s i c) (j, c1) ->
  first_is (rmatch (RGroup n r) s i c) (j, <[n := (i, j)]> c1).
Proof.
  intros H. cbn [rmatch]. eapply first_is_bind; [exact H|]. by eexists.
Qed.

Lemma first_char cls i c x :
  s !! i = Some x -> cls x = true -> first_is (rmatch (RChar cls) s i c) (S i, c).
Proof. intros Hx Hc. rewrite rmatch_char_eq, Hx, Hc. by eexists. Qed.

Lemma first_lit ch i c :
  s !! i = Some ch -> first_is (rmatch (rlit_char ch) s i c) (S i, c).
Proof. intros Hx. apply (first_char _ i c ch Hx). apply N.eqb_refl. Qed.

Lemma first_eol c : first_is (rmatch REol s (length s) c) (length s, c).
Proof. cbn. rewrite Nat.eqb_refl. by eexists. Qed.

Lemma first_bol c : first_is (rmatch RBol s 0 c) (0, c).
Proof. cbn. by eexists. Qed.

Lemma first_empty i c : first_is (rmatch REmpty s i c) (i, c).
Proof. cbn. by eexists. Qed.

(** A greedy class goes to the end of its run. *)
Lemma first_greedy_class lo cls i c :
  i <= length s -> lo <= class_run cls (drop i s) ->
  first_is (rmatch (RQuant true lo None (RChar cls)) s i c)
    (i + class_run cls (drop i s), c).
Proof. intros Hi Hlo. rewrite rmatch_class by done. by apply reach_greedy_head. Qed.

(** A pattern that cannot match anywhere from [lastIndex] on. *)
Lemma exec_from_none r fuel i :
  (forall k, i <= k -> rmatch r s k ∅ = []) -> exec_from fuel r s i = None.
Proof.
  revert i. induction fuel as [|fuel IH]; intros i H; cbn; [done|].
  rewrite (H i) by lia. apply IH. intros k Hk. apply H. lia.
Qed.

(** The leftmost position at which the pattern matches. *)
Lemma exec_from_first r fuel i k e c :
  i <= k -> k < i + fuel ->
  (forall k', i <= k' < k -> rmatch r s k' ∅ = []) ->
  first_is (rmatch r s k ∅) (e, c) ->
  exec_from fuel r s i = Some (RxMatch k e c).
Proof.
  revert i. induction fuel as [|fuel IH]; intros i Hik Hfuel Hnone Hfirst; [lia|].
  cbn [exec_from]. destruct (decide (i = k)) as [->|Hne].
  - destruct Hfirst as [rest ->]. done.
  - rewrite (Hnone i) by lia. apply IH; [lia|lia| |done].
    intros k' Hk'. apply Hnone. lia.
Qed.

Lemma exec_first r k e c :
  k <= length s ->
  (forall k', k' < k -> rmatch r s k' ∅ = []) ->
  first_is (rmatch r s k ∅) (e, c) ->
  exec r s 0 = Some (RxMatch k e c).
Proof.
  intros Hk Hnone Hfirst. unfold exec.
  apply exec_from_first; [lia|lia| |done]. intros k' Hk'. apply Hnone. lia.
Qed.

(** A pattern anchored at the start matches at the start or not at all. *)
Lemma rmatch_bol_later r i c : rmatch (RSeq RBol r) s (S i) c = [].
Proof. done. Qed.

Lemma exec_anchored r :
  exec (RSeq RBol r) s 0
  = match rmatch (RSeq RBol r) s 0 ∅ with
    | (e, c) :: _ => Some (RxMatch 0 e c)
    | [] => None
    end.
Proof.
  unfold exec. rewrite Nat.sub_0_r. cbn [exec_from].
  destruct (rmatch (RSeq RBol r) s 0 ∅) as [|[e c] rest]; [|done].
  apply exec_from_none. intros k Hk. destruct k as [|k]; [lia|]. apply rmatch_bol_later.
Qed.

(** No match: a list without elements. *)
Lemma no_match {A : Type} (l : list A) : (forall x, x ∉ l) -> l = [].
Proof. destruct l as [|x l]; [done|]. intros H. exfalso. apply (H x). left. Qed.

Lemma rmatch_eol_inv i c j c' :
  (j, c') ∈ rmatch REol s i c -> i = length s /\ j = i /\ c' = c.
Proof.
  cbn. destruct (i =? length s) eqn:Hi; [|by intros ?%elem_of_nil].
  apply Nat.eqb_eq in Hi. intros [= -> ->]%list_elem_of_singleton. done.
Qed.

Lemma rmatch_bol_inv i c j c' :
  (j, c') ∈ rmatch RBol s i c -> i = 0 /\ j = 0 /\ c' = c.
Proof.
  cbn. destruct (i =? 0) eqn:Hi; [|by intros ?%elem_of_nil].
  apply Nat.eqb_eq in Hi. intros [= -> ->]%list_elem_of_singleton. done.
Qed.

Lemma rmatch_empty_inv i c j c' :
  (j, c') ∈ rmatch REmpty s i c -> j = i /\ c' = c.
Proof. cbn. by intros [= -> ->]%list_elem_of_singleton. Qed.
End first_match.

(** The code units of a run belong to the class. *)
Lemma class_run_lookup cls (s : jsstring) i k x :
  i <= k < i + class_run cls (drop i s) -> s !! k = Some x -> cls x = true.
Proof.
  intros Hk Hx. destruct (class_run_spec cls (drop i s)) as [Hall _].
  rewrite Forall_forall in Hall. apply Hall.
  apply list_elem_of_lookup. exists (k - i).
  rewrite lookup_take_lt by lia. rewrite lookup_drop.
  by replace (i + (k - i)) with k by lia.
Qed.

(** A run stops at the first code unit outside the class. *)
Lemma class_run_until cls (s : jsstring) i n :
  (forall k x, i <= k < i + n -> s !! k = Some x -> cls x = true) ->
  i + n <= length s ->
  (forall x, s !! (i + n) = Some x -> cls x = false) ->
  class_run cls (drop i s) = n.
Proof.
  revert i. induction n as [|n IH]; intros i Hin Hlen Hstop.
  - apply class_run_stop. intros x Hx. apply Hstop. by rewrite Nat.add_0_r.
  - destruct (lookup_lt_is_Some_2 s i) as [x Hx]; [lia|].
    rewrite (class_run_cons s cls i x Hx) by (apply (Hin i); [lia|done]).
    f_equal. apply IH.
    + intros k y Hk. apply Hin. lia.
    + lia.
    + intros y Hy. apply Hstop. by replace (i + S n) with (S i + n) by lia.
Qed.

(** ** The command of an agent file *)

Lemma not_dot_run (cmd rest : jsstring) :
  ch_dot ∉ cmd -> class_run not_dot (cmd ++ ch_dot :: rest) = length cmd.
Proof.
  intros Hdot. rewrite class_run_app.
  - cbn. lia.
  - apply Forall_forall. intros x Hx. unfold not_dot, ceq.
    apply negb_true_iff, N.eqb_neq. by intros ->.
Qed.

Lemma not_dot_dot : not_dot ch_dot = false.
Proof. done. Qed.

Section md_tail.
Context (s : jsstring).

Lemma md_tail_inv j c e c' :
  (e, c') ∈ rmatch MD_TAIL s j c ->
  s !! j = Some ch_dot /\ drop (S j) s ≠ [] /\ is_md (drop (S j) s) = true
  /\ e = length s /\ c' = c /\ j + 3 = length s.
Proof.
  unfold MD_TAIL. cbn [rseqs foldr].
  intros (j1 & c1 & (Hdot & -> & ->)%rmatch_lit_char_inv & H)%rmatch_seq_inv.
  apply rmatch_seq_inv in H as (j2 & c2 & (m & Hm & Hcm & -> & ->)%rmatch_char_inv & H).
  apply rmatch_seq_inv in H as (j3 & c3 & (d & Hd & Hcd & -> & ->)%rmatch_char_inv & H).
  apply rmatch_seq_inv in H as (j4 & c4 & (Hlen & -> & ->)%rmatch_eol_inv & H).
  apply rmatch_empty_inv in H as [-> ->].
  rewrite (drop_S _ _ _ Hm), (drop_S _ _ _ Hd), drop_ge by lia.
  cbn [is_md]. rewrite Hcm, Hcd. split_and!; try done. lia.
Qed.

Lemma md_tail_first j c m d :
  s !! j = Some ch_dot -> drop (S j) s = [m; d] ->
  either_case 109 m = true -> either_case 100 d = true ->
  first_is (rmatch MD_TAIL s j c) (length s, c).
Proof.
  intros Hdot Hext Hm Hd.
  assert (Hlen : length s = S (S (S j))).
  { apply (f_equal length) in Hext. rewrite length_drop in Hext. cbn in Hext.
    apply lookup_lt_Some in Hdot. lia. }
  assert (Hsm : s !! S j = Some m).
  { rewrite <- (Nat.add_0_r (S j)), <- lookup_drop, Hext. done. }
  assert (Hsd : s !! S (S j) = Some d).
  { replace (S (S j)) with (S j + 1) by lia. rewrite <- lookup_drop, Hext. done. }
  unfold MD_TAIL. cbn [rseqs foldr].
  eapply first_seq; [by apply first_lit|].
  eapply first_seq; [by eapply first_char|].
  eapply first_seq; [by eapply first_char|].
  rewrite <- Hlen. eapply first_seq; [apply first_eol|apply first_empty].
Qed.
End md_tail.

Section name_md.
Context (s : jsstring).

(** [[^.]+\.md$]: a name without a dot up to the extension. *)
Lemma name_md_inv (wrap : regex -> regex) i c e c' :
  (forall j c1, (j, c1) ∈ rmatch (wrap (rplus (RChar not_dot))) s i c ->
                i < j <= i + class_run not_dot (drop i s)) ->
  (e, c') ∈ rmatch (RSeq (wrap (rplus (RChar not_dot))) MD_TAIL) s i c ->
  exists j, i < j /\ j + 3 = length s
    /\ Forall (fun x => not_dot x = true) (slice s i j)
    /\ s !! j = Some ch_dot /\ is_md (drop (S j) s) = true /\ e = length s.
Proof.
  intros Hwrap (j & c1 & Hj & Htail)%rmatch_seq_inv.
  apply Hwrap in Hj. apply md_tail_inv in Htail as (Hdot & _ & Hmd & -> & _ & Hlen).
  exists j. split_and!; try done; [lia|].
  apply Forall_forall. intros x (k & Hk)%list_elem_of_lookup.
  unfold slice in Hk. apply lookup_take_Some in Hk as [Hk Hlt].
  rewrite lookup_drop in Hk. eapply (class_run_lookup not_dot s i); [|exact Hk]. lia.
Qed.

Lemma plus_not_dot_range i c j c1 :
  i <= length s ->
  (j, c1) ∈ rmatch (rplus (RChar not_dot)) s i c ->
  i < j <= i + class_run not_dot (drop i s).
Proof. intros Hi [_ ?]%elem_of_rmatch_class; [lia|done]. Qed.

Lemma group_not_dot_range i c j c1 :
  i <= length s ->
  (j, c1) ∈ rmatch (RGroup 1 (rplus (RChar not_dot))) s i c ->
  i < j <= i + class_run not_dot (drop i s) /\ c1 = <[1 := (i, j)]> c.
Proof.
  intros Hi (c2 & [-> ?]%elem_of_rmatch_class & ->)%rmatch_group_inv; [|done].
  split; [lia|done].
Qed.
End name_md.

Section command_pattern.
Context (stem cmd : jsstring) (m d : char).
Context (Hcmd : is_command_name cmd).
Context (Hm : either_case 109 m = true) (Hd : either_case 100 d = true).

Let s : jsstring := stem ++ ch_dot :: cmd ++ ch_dot :: [m; d].
Let p : nat := length stem.
Let q : nat := S p + length cmd.

Lemma named_length : length s = q + 3.
Proof. unfold s, q, p. rewrite length_app, length_cons, length_app. cbn [length]. lia. Qed.

Lemma named_at_p : s !! p = Some ch_dot.
Proof. by apply list_lookup_middle. Qed.

Lemma named_drop_p : drop (S p) s = cmd ++ ch_dot :: [m; d].
Proof.
  unfold s, p. replace (S (length stem)) with (length stem + 1) by lia.
  by rewrite <- drop_drop, drop_app_length.
Qed.

Lemma named_drop_q : drop q s = ch_dot :: [m; d].
Proof.
  unfold q. rewrite <- drop_drop, named_drop_p. by rewrite drop_app_length.
Qed.

Lemma named_at_q : s !! q = Some ch_dot.
Proof. rewrite <- (Nat.add_0_r q), <- lookup_drop, named_drop_q. done. Qed.

Lemma named_run : class_run not_dot (drop (S p) s) = length cmd.
Proof. rewrite named_drop_p. apply not_dot_run. apply Hcmd. Qed.

(** A name that starts at or before the dot at [p] cannot reach the
    extension: it would have to run across that dot. *)
Lemma no_name_across i e c' (wrap : regex -> regex) c :
  i <= p ->
  (forall j c1, (j, c1) ∈ rmatch (wrap (rplus (RChar not_dot))) s i c ->
                i < j <= i + class_run not_dot (drop i s)) ->
  (e, c') ∉ rmatch (RSeq (wrap (rplus (RChar not_dot))) MD_TAIL) s i c.
Proof.
  intros Hi Hwrap Hin.
  apply (name_md_inv s wrap) in Hin as (j & Hj & Hlen & Hall & _); [|done].
  rewrite named_length in Hlen. rewrite Forall_forall in Hall.
  assert (Hdot : not_dot ch_dot = true); [|done].
  apply Hall. apply list_elem_of_lookup. exists (p - i). unfold slice.
  rewrite lookup_take_lt by (unfold q in *; lia). rewrite lookup_drop.
  replace (i + (p - i)) with p by lia. apply named_at_p.
Qed.

Lemma command_pattern_exec :
  exec COMMAND_NAME_PATTERN s 0
  = Some (RxMatch p (length s) {[1 := (S p, q)]}).
Proof.
  pose proof named_length as Hlen.
  apply exec_first; [lia| |].
  - intros k Hk. apply no_match. intros [e c'] Hin.
    unfold COMMAND_NAME_PATTERN in Hin. cbn [rseqs foldr] in Hin.
    apply rmatch_seq_inv in Hin as (j1 & c1 & (_ & -> & ->)%rmatch_lit_char_inv & Hin).
    revert Hin. apply (no_name_across (S k) e c' (RGroup 1)); [lia|].
    intros j c1 Hj. by apply group_not_dot_range in Hj as [? _]; [|lia].
  - unfold COMMAND_NAME_PATTERN. cbn [rseqs foldr].
    eapply first_seq; [apply first_lit, named_at_p|].
    eapply first_seq.
    + apply first_group. apply first_greedy_class; [lia|]. rewrite named_run.
      destruct Hcmd as [Hne _]. destruct cmd; [done|cbn; lia].
    + rewrite named_run. fold q. rewrite insert_empty.
      apply (md_tail_first s q _ m d); [apply named_at_q| |done..].
      replace (S q) with (q + 1) by lia. by rewrite <- drop_drop, named_drop_q.
Qed.
End command_pattern.

Section command_name_facts.
Context (s : jsstring).

Lemma drop_at (i : nat) (x : char) : s !! i = Some x -> drop i s = x :: drop (S i) s.
Proof. intros Hx. by rewrite (drop_S _ _ _ Hx). Qed.

Lemma slice_drop (i j : nat) : i <= j -> drop i s = slice s i j ++ drop j s.
Proof.
  intros Hij. unfold slice.
  rewrite <- (take_drop (j - i) (drop i s)) at 1. f_equal.
  rewrite drop_drop. f_equal. lia.
Qed.

(** What a name between two dots looks like. *)
Lemma name_between i j :
  i < j <= i + class_run not_dot (drop i s) -> j <= length s ->
  is_command_name (slice s i j).
Proof.
  intros Hj Hlen. split.
  - intros Hnil. apply (f_equal length) in Hnil. rewrite slice_length in Hnil; cbn in Hnil; lia.
  - intros (k & Hk)%list_elem_of_lookup. unfold slice in Hk.
    apply lookup_take_Some in Hk as [Hk Hlt]. rewrite lookup_drop in Hk.
    assert (not_dot ch_dot = true); [|done].
    eapply (class_run_lookup not_dot s i); [|exact Hk]. lia.
Qed.

Lemma command_pattern_sound m0 :
  match_ COMMAND_NAME_PATTERN s = Some m0 ->
  exists stem ext,
    s = stem ++ ch_dot :: m_group s m0 1 ++ ch_dot :: ext
    /\ is_command_name (m_group s m0 1) /\ is_md ext = true.
Proof.
  intros [_ Hm]%exec_spec. pose proof (matched_elem _ _ _ Hm) as Hin.
  destruct Hm as [Hidx _]. destruct m0 as [idx e caps]. cbn [m_index m_end m_caps] in *.
  unfold COMMAND_NAME_PATTERN in Hin. cbn [rseqs foldr] in Hin.
  apply rmatch_seq_inv in Hin as (j1 & c1 & (Hdot & -> & ->)%rmatch_lit_char_inv & Hin).
  pose proof (lookup_lt_Some _ _ _ Hdot) as Hlt.
  apply rmatch_seq_inv in Hin as (j & c1 & Hg & Htail).
  apply group_not_dot_range in Hg as [Hj ->]; [|lia].
  apply md_tail_inv in Htail as (Hdot2 & _ & Hmd & _ & -> & Hlen).
  unfold m_group. cbn [m_caps]. rewrite lookup_insert_eq.
  exists (take idx s), (drop (S j) s). split_and!; [|apply name_between; lia|done].
  rewrite <- (drop_at j _ Hdot2), <- slice_drop by lia.
  rewrite <- (drop_at idx _ Hdot). by rewrite take_drop.
Qed.
End command_name_facts.

(** The command of an agent file is the last but one component of its
    name: [parseCommandFromFilename] returns [cmd] exactly when the base name
    is [stem.cmd.md], with a non-empty [cmd] without a dot and [md] in
    either case. *)
Theorem parseCommandFromFilename_iff (basename : jsstring -> jsstring)
    (filePath cmd : jsstring) :
  parseCommandFromFilename basename filePath = Some cmd
  <-> exists stem ext,
        basename filePath = stem ++ ch_dot :: cmd ++ ch_dot :: ext
        /\ is_command_name cmd /\ is_md ext = true.
Proof.
  unfold parseCommandFromFilename. split.
  - destruct (match_ COMMAND_NAME_PATTERN (basename filePath)) as [m0|] eqn:Hm; [|done].
    intros [= <-]. by apply command_pattern_sound.
  - intros (stem & ext & Hname & Hcmd & Hmd).
    destruct ext as [|m [|d [|? ?]]]; try done. cbn [is_md] in Hmd.
    apply andb_true_iff in Hmd as [Hm Hd].
    rewrite Hname. unfold match_.
    rewrite (command_pattern_exec stem cmd m d Hcmd Hm Hd).
    unfold m_group. cbn [m_caps]. rewrite lookup_singleton_eq. f_equal.
    unfold slice. rewrite named_drop_p.
    replace (S (length stem) + length cmd - S (length stem)) with (length cmd) by lia.
    by rewrite take_app_length.
Qed.

Section interactive_pattern.
Context (stem cmd : jsstring) (i m d : char).
Context (Hcmd : is_command_name cmd) (Hi : either_case 105 i = true).
Context (Hm : either_case 109 m = true) (Hd : either_case 100 d = true).

Let s : jsstring := stem ++ ch_dot :: i :: ch_dot :: cmd ++ ch_dot :: [m; d].
Let stem' : jsstring := stem ++ [ch_dot; i].

Lemma marked_split : s = stem' ++ ch_dot :: cmd ++ ch_dot :: [m; d].
Proof. unfold s, stem'. by rewrite <- app_assoc. Qed.

Lemma interactive_pattern_exec :
  exec INTERACTIVE_MARKER_PATTERN s 0 = Some (RxMatch (length stem) (length s) ∅).
Proof.
  assert (Hp : length stem' = S (S (length stem))).
  { unfold stem'. rewrite length_app. cbn. lia. }
  pose proof (named_length stem' cmd m d) as Hlen. rewrite <- marked_split in Hlen.
  pose proof (named_at_p stem' cmd m d) as Hdot. rewrite <- marked_split, Hp in Hdot.
  pose proof (named_run stem' cmd m d Hcmd) as Hrun. rewrite <- marked_split, Hp in Hrun.
  pose proof (named_at_q stem' cmd m d) as Hdot2. rewrite <- marked_split, Hp in Hdot2.
  pose proof (named_drop_q stem' cmd m d) as Hq. rewrite <- marked_split, Hp in Hq.
  rewrite Hp in Hlen.
  apply exec_first; [lia| |].
  - intros k Hk. apply no_match. intros [e c'] Hin.
    unfold INTERACTIVE_MARKER_PATTERN in Hin. cbn [rseqs foldr] in Hin.
    apply rmatch_seq_inv in Hin as (j1 & c1 & (_ & -> & ->)%rmatch_lit_char_inv & Hin).
    apply rmatch_seq_inv in Hin as (j2 & c2 & (x & _ & _ & -> & ->)%rmatch_char_inv & Hin).
    apply rmatch_seq_inv in Hin as (j3 & c3 & (_ & -> & ->)%rmatch_lit_char_inv & Hin).
    revert Hin. rewrite marked_split.
    apply (no_name_across stem' cmd m d (S (S (S k))) e c' (fun r => r)); [lia|].
    intros j c1 Hj. rewrite <- marked_split in *. eapply plus_not_dot_range; [|done]. lia.
  - unfold INTERACTIVE_MARKER_PATTERN. cbn [rseqs foldr].
    eapply first_seq; [apply first_lit; unfold s; by apply list_lookup_middle|].
    eapply first_seq.
    { eapply (first_char _ _ _ _ i); [|done]. unfold s.
      rewrite lookup_app_r by lia. by replace (S (length stem) - length stem) with 1 by lia. }
    eapply first_seq; [by apply first_lit|].
    eapply first_seq.
    + apply first_greedy_class; [lia|]. rewrite Hrun.
      destruct Hcmd as [Hne _]. destruct cmd; [done|cbn; lia].
    + rewrite Hrun. apply (md_tail_first s _ _ m d); [done| |done..].
      replace (S (S (S (S (length stem))) + length cmd))
        with (S (S (S (length stem))) + length cmd + 1) by lia.
      by rewrite <- drop_drop, Hq.
Qed.
End interactive_pattern.

Lemma interactive_pattern_sound (s : jsstring) :
  test INTERACTIVE_MARKER_PATTERN s = true ->
  exists stem i cmd ext,
    s = stem ++ ch_dot :: i :: ch_dot :: cmd ++ ch_dot :: ext
    /\ either_case 105 i = true /\ is_command_name cmd /\ is_md ext = true.
Proof.
  unfold test. intros [m0 Hex]%bool_decide_eq_true.
  apply exec_spec in Hex as [_ Hm]. pose proof (matched_elem _ _ _ Hm) as Hin.
  destruct Hm as [Hidx _]. destruct m0 as [idx e caps]. cbn [m_index m_end m_caps] in *.
  unfold INTERACTIVE_MARKER_PATTERN in Hin. cbn [rseqs foldr] in Hin.
  apply rmatch_seq_inv in Hin as (j1 & c1 & (Hdot & -> & ->)%rmatch_lit_char_inv & Hin).
  apply rmatch_seq_inv in Hin as (j2 & c2 & (i & Hi & Hci & -> & ->)%rmatch_char_inv & Hin).
  apply rmatch_seq_inv in Hin as (j3 & c3 & (Hdot1 & -> & ->)%rmatch_lit_char_inv & Hin).
  pose proof (lookup_lt_Some _ _ _ Hdot1) as Hlt.
  apply rmatch_seq_inv in Hin as (j & c1 & Hj & Htail).
  apply plus_not_dot_range in Hj; [|lia].
  apply md_tail_inv in Htail as (Hdot2 & _ & Hmd & _ & _ & Hlen).
  exists (take idx s), i, (slice s (S (S (S idx))) j), (drop (S j) s).
  split_and!; [|done|apply name_between; lia|done].
  rewrite <- (drop_at s j _ Hdot2), <- slice_drop by lia.
  rewrite <- (drop_at s _ _ Hdot1), <- (drop_at s _ _ Hi), <- (drop_at s _ _ Hdot).
  by rewrite take_drop.
Qed.

(** A file name carries the interactive marker exactly when its base name
    is [stem.i.cmd.md], with [i] and [md] in either case. *)
Theorem hasInteractiveMarker_iff (basename : jsstring -> jsstring) (filePath : jsstring) :
  hasInteractiveMarker basename filePath = true
  <-> exists stem i cmd ext,
        basename filePath = stem ++ ch_dot :: i :: ch_dot :: cmd ++ ch_dot :: ext
        /\ either_case 105 i = true /\ is_command_name cmd /\ is_md ext = true.
Proof.
  unfold hasInteractiveMarker. split; [apply interactive_pattern_sound|].
  intros (stem & i & cmd & ext & Hname & Hi & Hcmd & Hmd).
  destruct ext as [|m [|d [|? ?]]]; try done. cbn [is_md] in Hmd.
  apply andb_true_iff in Hmd as [Hm Hd].
  rewrite Hname. unfold test. apply bool_decide_eq_true.
  rewrite (interactive_pattern_exec stem cmd i m d Hcmd Hi Hm Hd). by eexists.
Qed.

(** The marker does not take the place of the command: the name of a file
    with the interactive marker reads [stem.i.cmd.md], where [i] is the
    letter i in either case, [cmd] is not empty and has no dot, and [md] is
    in either case of its letters; the file resolves to that [cmd], the
    command that follows [.i.]. *)
Theorem interactive_marker_command (basename : jsstring -> jsstring) (filePath : jsstring) :
  hasInteractiveMarker basename filePath = true ->
  exists stem i cmd ext,
    basename filePath = stem ++ ch_dot :: i :: ch_dot :: cmd ++ ch_dot :: ext
    /\ either_case 105 i = true
    /\ is_command_name cmd
    /\ is_md ext = true
    /\ resolveCommand basename filePath = Ok cmd.
Proof.
  intros (stem & i & cmd & ext & Hname & Hi & Hcmd & Hmd)%interactive_pattern_sound.
  exists stem, i, cmd, ext. split_and!; [done..|].
  destruct ext as [|m [|d [|? ?]]]; try done. cbn [is_md] in Hmd.
  apply andb_true_iff in Hmd as [Hm Hd].
  unfold resolveCommand, parseCommandFromFilename, match_. rewrite Hname.
  rewrite (marked_split stem cmd i m d).
  rewrite (command_pattern_exec (stem ++ [ch_dot; i]) cmd m d Hcmd Hm Hd).
  unfold m_group. cbn [m_caps]. rewrite lookup_singleton_eq.
  unfold slice. rewrite named_drop_p.
  replace (S (length (stem ++ [ch_dot; i])) + length cmd - S (length (stem ++ [ch_dot; i])))
    with (length cmd) by lia.
  rewrite take_app_length. destruct Hcmd as [Hne _].
  unfold truthy. by rewrite bool_decide_eq_false_2.
Qed.

Lemma interactive_marker_command_witness :
  exists stem i cmd ext,
    str "fix.i.claude.md" = stem ++ ch_dot :: i :: ch_dot :: cmd ++ ch_dot :: ext
    /\ either_case 105 i = true
    /\ is_command_name cmd
    /\ is_md ext = true
    /\ resolveCommand (fun name => name) (str "fix.i.claude.md") = Ok cmd.
Proof.
  apply (interactive_marker_command (fun name => name) (str "fix.i.claude.md")).
  vm_compute. reflexivity.
Defined.

(** ** Decimal digits *)

Lemma digit_char_digit (n : N) : is_digit (digit_char (n mod 10)) = true.
Proof.
  assert (Hlt : (n mod 10 < 10)%N) by (by apply N.mod_lt).
  unfold is_digit, in_range, digit_char. revert Hlt. generalize (n mod 10)%N. intros r Hr.
  apply andb_true_iff. split; apply N.leb_le; lia.
Qed.

Lemma digits_fuel_digits fuel : forall n acc,
  Forall (fun c => is_digit c = true) acc ->
  Forall (fun c => is_digit c = true) (digits_fuel fuel n acc).
Proof.
  induction fuel as [|fuel IH]; intros n acc Hacc; cbn [digits_fuel]; [done|].
  destruct (n <? 10)%N; [|apply IH]; constructor; auto using digit_char_digit.
Qed.

Lemma digits_fuel_length fuel : forall n acc,
  length acc <= length (digits_fuel fuel n acc).
Proof.
  induction fuel as [|fuel IH]; intros n acc; cbn [digits_fuel]; [done|].
  destruct (n <? 10)%N; [cbn; lia|]. etrans; [|apply IH]. cbn. lia.
Qed.

Lemma digits_fuel_parse fuel : forall n acc,
  (n < 2 ^ N.of_nat fuel)%N ->
  fold_left (fun a c => (a * 10 + Z.of_N (c - 48))%Z) (digits_fuel fuel n acc) 0%Z
  = fold_left (fun a c => (a * 10 + Z.of_N (c - 48))%Z) acc (Z.of_N n).
Proof.
  induction fuel as [|fuel IH]; intros n acc Hn; cbn [digits_fuel].
  { cbn in Hn. by replace n with 0%N by lia. }
  assert (Hdigit : (digit_char (n mod 10) - 48 = n mod 10)%N).
  { unfold digit_char. generalize (n mod 10)%N. intros r. lia. }
  assert (Hdm : (n = 10 * (n / 10) + n mod 10)%N) by (by apply N.div_mod).
  destruct (n <? 10)%N eqn:Hlt.
  - apply N.ltb_lt in Hlt. cbn [fold_left]. rewrite Hdigit, N.mod_small by done.
    f_equal; lia.
  - apply N.ltb_ge in Hlt. rewrite IH.
    + cbn [fold_left]. rewrite Hdigit. f_equal.
      revert Hdm. generalize (n / 10)%N (n mod 10)%N. intros q r ->. lia.
    + rewrite Nat2N.inj_succ, N.pow_succ_r' in Hn.
      apply N.Div0.div_lt_upper_bound. lia.
Qed.

(** [parseInt] reads back what [String] prints. *)
Lemma parse_N_to_jsstring (n : N) : parse_digits (N_to_jsstring n) = Z.of_N n.
Proof.
  unfold parse_digits, N_to_jsstring. rewrite digits_fuel_parse; [done|].
  rewrite Nat2N.inj_succ, N2Nat.id. destruct n as [|p]; [done|].
  apply N.log2_spec. lia.
Qed.

Lemma N_to_jsstring_digits (n : N) :
  N_to_jsstring n <> [] /\ Forall (fun c => is_digit c = true) (N_to_jsstring n).
Proof.
  split; [|by apply digits_fuel_digits].
  unfold N_to_jsstring. cbn [digits_fuel]. intros Hnil.
  apply (f_equal length) in Hnil. revert Hnil.
  destruct (n <? 10)%N; [done|].
  pose proof (digits_fuel_length (N.to_nat (N.log2 n)) (n / 10)
                [digit_char (n mod 10)]) as Hle.
  cbn in *. lia.
Qed.

Lemma Z_to_jsstring_nonneg (z : Z) :
  (0 <= z)%Z -> Z_to_jsstring z = N_to_jsstring (Z.to_N z).
Proof. intros Hz. destruct z; [done|done|lia]. Qed.

Lemma parse_Z_to_jsstring (z : Z) :
  (0 <= z)%Z -> parse_digits (Z_to_jsstring z) = z.
Proof.
  intros Hz. rewrite Z_to_jsstring_nonneg, parse_N_to_jsstring by done. lia.
Qed.

(** A digit is no line terminator, no glob character and no delimiter. *)
Lemma digit_range (c : char) : is_digit c = true -> (48 <= c <= 57)%N.
Proof.
  unfold is_digit, in_range. intros [H1%N.leb_le H2%N.leb_le]%andb_true_iff. lia.
Qed.

(** ** Backtracking over a greedy class *)

Section backtrack.
Context (s : jsstring).

Lemma reach_split i lo n c k :
  lo <= k <= n -> reach i lo n c = reach i lo k c ++ reach i (S k) n c.
Proof.
  intros Hk. unfold reach.
  replace (S n - lo) with ((S k - lo) + (S n - S k)) by lia.
  rewrite seq_app, fmap_app. do 3 f_equal. lia.
Qed.

(** The candidates of a greedy class down to the one that ends at
    [i + k]. *)
Lemma greedy_class_split lo cls i c k :
  i <= length s -> lo <= k <= class_run cls (drop i s) ->
  exists l2,
    rmatch (RQuant true lo None (RChar cls)) s i c
    = reverse (reach i (S k) (class_run cls (drop i s)) c) ++ (i + k, c) :: l2.
Proof.
  intros Hi Hk. rewrite rmatch_class by done. cbn.
  rewrite (reach_split i lo _ c k) by done. rewrite reverse_app.
  destruct (reach_greedy_head i lo k c) as [l2 ->]; [lia|]. eauto.
Qed.

Lemma rmatch_seq_group n r r2 i c :
  rmatch (RSeq (RGroup n r) r2) s i c
  = rmatch r s i c ≫= (fun z => rmatch r2 s z.1 (<[n := (i, z.1)]> z.2)).
Proof.
  cbn [rmatch]. induction (rmatch r s i c) as [|[j0 c0] l IH]; [done|].
  rewrite !bind_cons, bind_app, IH. cbn [fst snd]. f_equal.
  rewrite bind_cons. cbn. by rewrite app_nil_r.
Qed.

Lemma first_group_backtrack n r r2 i c l1 j c1 l2 y :
  rmatch r s i c = l1 ++ (j, c1) :: l2 ->
  (forall z, z ∈ l1 -> rmatch r2 s z.1 (<[n := (i, z.1)]> z.2) = []) ->
  first_is (rmatch r2 s j (<[n := (i, j)]> c1)) y ->
  first_is (rmatch (RSeq (RGroup n r) r2) s i c) y.
Proof.
  intros Hr Hfail Hfirst. rewrite rmatch_seq_group, Hr.
  apply first_is_bind_skip; [apply Forall_forall; exact Hfail|].
  apply (first_is_bind _ _ (j, c1)); [by eexists|exact Hfirst].
Qed.

Lemma rmatch_seq_lit_fail ch r i c :
  s !! i <> Some ch -> rmatch (RSeq (rlit_char ch) r) s i c = [].
Proof.
  intros Hne. cbn [rmatch]. unfold rlit_char. rewrite rmatch_char_eq.
  destruct (s !! i) as [x|] eqn:Hx; [|done].
  destruct (ceq ch x) eqn:Hc; [|done].
  apply ceq_true in Hc. congruence.
Qed.
End backtrack.

(** ** Paths with a line range or a symbol *)

Lemma digit_dot_class (c : char) : is_digit c = true -> dot_class c = true.
Proof.
  intros Hc%digit_range. unfold dot_class, is_line_terminator, ceq.
  by repeat (rewrite (proj2 (N.eqb_neq c _)) by lia).
Qed.

Section line_range_match.
Context (path A B : jsstring).
Context (Hpath : path <> []).
Context (Hdots : Forall (fun c => is_line_terminator c = false) path).
Context (HA : A <> []) (HAd : Forall (fun c => is_digit c = true) A).
Context (HB : B <> []) (HBd : Forall (fun c => is_digit c = true) B).

Let s : jsstring := path ++ ch_colon :: A ++ ch_minus :: B.
Let P : nat := length path.
Let Q : nat := S P + length A.

Lemma ranged_length : length s = S Q + length B.
Proof. unfold s, Q, P. rewrite length_app, length_cons, length_app. cbn [length]. lia. Qed.

Lemma ranged_drop_P : drop (S P) s = A ++ ch_minus :: B.
Proof.
  unfold s, P. replace (S (length path)) with (length path + 1) by lia.
  by rewrite <- drop_drop, drop_app_length.
Qed.

Lemma ranged_drop_Q : drop (S Q) s = B.
Proof.
  unfold Q. replace (S (S P + length A)) with (S P + (length A + 1)) by lia.
  rewrite <- drop_drop, ranged_drop_P, <- drop_drop, drop_app_length. done.
Qed.

Lemma ranged_at_P : s !! P = Some ch_colon.
Proof. by apply list_lookup_middle. Qed.

Lemma ranged_at_Q : s !! Q = Some ch_minus.
Proof.
  unfold Q. rewrite <- lookup_drop, ranged_drop_P. by apply list_lookup_middle.
Qed.

Lemma ranged_dot_class : class_run dot_class (drop 0 s) = length s.
Proof.
  rewrite drop_0. apply class_run_all. unfold s.
  apply Forall_app. split.
  - eapply Forall_impl; [exact Hdots|]. intros c Hc. unfold dot_class. by rewrite Hc.
  - constructor; [done|]. apply Forall_app. split.
    + eapply Forall_impl; [exact HAd|]. apply digit_dot_class.
    + constructor; [done|]. eapply Forall_impl; [exact HBd|]. apply digit_dot_class.
Qed.

(** Behind the last colon there is no other colon. *)
Lemma ranged_no_colon j : P < j -> s !! j <> Some ch_colon.
Proof.
  intros Hj Hc. replace j with (S P + (j - S P)) in Hc by lia.
  rewrite <- lookup_drop, ranged_drop_P in Hc.
  apply list_elem_of_lookup_2 in Hc. apply elem_of_app in Hc as [Hc|Hc].
  - rewrite Forall_forall in HAd. by apply HAd in Hc.
  - apply elem_of_cons in Hc as [Hc|Hc]; [done|].
    rewrite Forall_forall in HBd. by apply HBd in Hc.
Qed.

Lemma ranged_runs :
  class_run is_digit (drop (S P) s) = length A
  /\ class_run is_digit (drop (S Q) s) = length B.
Proof.
  rewrite ranged_drop_P, ranged_drop_Q. split.
  - rewrite class_run_app by done. cbn. lia.
  - by apply class_run_all.
Qed.

Lemma line_range_first :
  first_is (rmatch LINE_RANGE_PATTERN s 0 ∅)
    (length s, <[3 := (S Q, length s)]> (<[2 := (S P, Q)]> (<[1 := (0, P)]> ∅))).
Proof.
  pose proof ranged_length as Hlen. destruct ranged_runs as [HrunA HrunB].
  assert (HP : 0 < P) by (unfold P; destruct path; [done|cbn; lia]).
  assert (HlA : 0 < length A) by (destruct A; [done|cbn; lia]).
  assert (HlB : 0 < length B) by (destruct B; [done|cbn; lia]).
  unfold LINE_RANGE_PATTERN. cbn [rseqs foldr].
  eapply first_seq; [apply first_bol|].
  destruct (greedy_class_split s 1 dot_class 0 ∅ P) as [l2 Hsplit]; [lia| |].
  { rewrite ranged_dot_class. unfold Q in *. lia. }
  eapply first_group_backtrack; [exact Hsplit| |].
  - intros [j c1] Hz. rewrite elem_of_reverse in Hz.
    apply elem_of_reach in Hz as [-> Hj]. cbn [fst snd].
    apply rmatch_seq_lit_fail. apply ranged_no_colon. lia.
  - cbn [Nat.add]. eapply first_seq; [apply first_lit, ranged_at_P|].
    eapply first_seq.
    { apply first_group. apply first_greedy_class; [unfold Q in *; lia|].
      rewrite HrunA. lia. }
    rewrite HrunA. fold Q.
    eapply first_seq; [apply first_lit, ranged_at_Q|].
    eapply first_seq.
    { apply first_group. apply first_greedy_class; [lia|]. rewrite HrunB. lia. }
    rewrite HrunB. replace (S Q + length B) with (length s) by lia.
    eapply first_seq; [apply first_eol|apply first_empty].
Qed.

Lemma parseLineRange_parts :
  parseLineRange s = (path, Some (parse_digits A, parse_digits B)).
Proof.
  pose proof ranged_length as Hlen.
  unfold parseLineRange, match_, LINE_RANGE_PATTERN. cbn [rseqs foldr].
  rewrite exec_anchored.
  destruct line_range_first as [rest Hfirst].
  unfold LINE_RANGE_PATTERN in Hfirst. cbn [rseqs foldr] in Hfirst. rewrite Hfirst.
  unfold m_group. cbn [m_caps].
  rewrite lookup_insert_ne, lookup_insert_ne, lookup_insert_eq by done.
  rewrite lookup_insert_ne, lookup_insert_eq by done. rewrite lookup_insert_eq.
  assert (H1 : slice s 0 P = path).
  { unfold slice, s, P. by rewrite drop_0, Nat.sub_0_r, take_app_length. }
  assert (H2 : slice s (S P) Q = A).
  { unfold slice. rewrite ranged_drop_P. unfold Q.
    replace (S P + length A - S P) with (length A) by lia. by rewrite take_app_length. }
  assert (H3 : slice s (S Q) (length s) = B).
  { unfold slice. rewrite ranged_drop_Q. apply take_ge. lia. }
  rewrite H1, H2, H3. unfold truthy.
  by rewrite !bool_decide_eq_false_2.
Qed.
End line_range_match.

(** The code units of a slice inside a run belong to the class. *)
Lemma slice_in_run cls (s : jsstring) i j :
  j <= i + class_run cls (drop i s) ->
  Forall (fun x => cls x = true) (slice s i j).
Proof.
  intros Hj. apply Forall_forall. intros x (k & Hk)%list_elem_of_lookup.
  unfold slice in Hk. apply lookup_take_Some in Hk as [Hk Hlt].
  rewrite lookup_drop in Hk. eapply (class_run_lookup cls s i); [|exact Hk]. lia.
Qed.

Lemma slice_nonempty (s : jsstring) i j : i < j <= length s -> slice s i j <> [].
Proof.
  intros Hj Hnil. apply (f_equal length) in Hnil.
  rewrite slice_length in Hnil; cbn in Hnil; lia.
Qed.

Lemma parse_digits_nonneg (ds : jsstring) : (0 <= parse_digits ds)%Z.
Proof.
  unfold parse_digits.
  assert (forall z, (0 <= z)%Z ->
            (0 <= fold_left (fun acc c => (acc * 10 + Z.of_N (c - 48))%Z) ds z)%Z) as H.
  { induction ds as [|c ds IH]; intros z0 Hz; cbn [fold_left]; [done|]. apply IH. lia. }
  apply H. lia.
Qed.

(** What [parseLineRange] takes a path apart into. *)
Lemma parseLineRange_sound (path p : jsstring) (a b : Z) :
  parseLineRange path = (p, Some (a, b)) ->
  exists A B,
    path = p ++ ch_colon :: A ++ ch_minus :: B
    /\ p <> [] /\ Forall (fun c => dot_class c = true) p
    /\ A <> [] /\ Forall (fun c => is_digit c = true) A
    /\ B <> [] /\ Forall (fun c => is_digit c = true) B
    /\ a = parse_digits A /\ b = parse_digits B.
Proof.
  unfold parseLineRange.
  destruct (match_ LINE_RANGE_PATTERN path) as [m0|] eqn:Hm; [|done].
  apply exec_spec in Hm as [_ Hm]. pose proof (matched_elem _ _ _ Hm) as Hin.
  destruct Hm as [Hidx _]. destruct m0 as [idx e caps]. cbn [m_index m_end m_caps] in *.
  unfold LINE_RANGE_PATTERN in Hin. cbn [rseqs foldr] in Hin.
  apply rmatch_seq_inv in Hin as (j0 & c0 & (-> & -> & ->)%rmatch_bol_inv & Hin).
  apply rmatch_seq_inv in Hin as (j1 & c1 & Hg1 & Hin).
  apply rmatch_group_inv in Hg1 as (c1' & [-> Hj1]%elem_of_rmatch_class & ->); [|lia].
  apply rmatch_seq_inv in Hin as (j & c & (Hcolon & -> & ->)%rmatch_lit_char_inv & Hin).
  pose proof (lookup_lt_Some _ _ _ Hcolon) as Hlt1.
  apply rmatch_seq_inv in Hin as (j2 & c2 & Hg2 & Hin).
  apply rmatch_group_inv in Hg2 as (c2' & [-> Hj2]%elem_of_rmatch_class & ->); [|lia].
  apply rmatch_seq_inv in Hin as (j & c & (Hminus & -> & ->)%rmatch_lit_char_inv & Hin).
  pose proof (lookup_lt_Some _ _ _ Hminus) as Hlt2.
  apply rmatch_seq_inv in Hin as (j3 & c3 & Hg3 & Hin).
  apply rmatch_group_inv in Hg3 as (c3' & [-> Hj3]%elem_of_rmatch_class & ->); [|lia].
  apply rmatch_seq_inv in Hin as (j & c & (Hlen & -> & ->)%rmatch_eol_inv & Hin).
  apply rmatch_empty_inv in Hin as [-> ->].
  unfold m_group. cbn [m_caps].
  rewrite lookup_insert_ne, lookup_insert_ne, lookup_insert_eq by done.
  rewrite lookup_insert_ne, lookup_insert_eq by done. rewrite lookup_insert_eq.
  assert (N1 : slice path 0 j1 <> []) by (apply slice_nonempty; lia).
  assert (N2 : slice path (S j1) j2 <> []) by (apply slice_nonempty; lia).
  assert (N3 : slice path (S j2) j3 <> []) by (apply slice_nonempty; lia).
  unfold truthy. rewrite !bool_decide_eq_false_2 by done. cbn [negb andb].
  intros [= <- <- <-].
  change (fun c : N => negb (is_line_terminator c)) with dot_class in Hj1.
  exists (slice path (S j1) j2), (slice path (S j2) j3).
  split_and!; try done; try (apply slice_in_run; lia).
  rewrite <- (drop_0 path) at 1. rewrite (slice_drop path 0 j1) by lia. f_equal.
  rewrite (drop_at path j1 _ Hcolon). f_equal.
  rewrite (slice_drop path (S j1) j2) by lia. f_equal.
  rewrite (drop_at path j2 _ Hminus). f_equal.
  rewrite (slice_drop path (S j2) j3) by lia. rewrite Hlen, drop_all. by rewrite app_nil_r.
Qed.

(** What [parseSymbolExtraction] takes a path apart into. *)
Lemma parseSymbolExtraction_sound (path p sym : jsstring) :
  parseSymbolExtraction path = (p, Some sym) -> path = p ++ ch_hash :: sym.
Proof.
  unfold parseSymbolExtraction.
  destruct (match_ SYMBOL_PATTERN path) as [m0|] eqn:Hm; [|done].
  apply exec_spec in Hm as [_ Hm]. pose proof (matched_elem _ _ _ Hm) as Hin.
  destruct Hm as [Hidx _]. destruct m0 as [idx e caps]. cbn [m_index m_end m_caps] in *.
  unfold SYMBOL_PATTERN in Hin. cbn [rseqs foldr] in Hin.
  apply rmatch_seq_inv in Hin as (j0 & c0 & (-> & -> & ->)%rmatch_bol_inv & Hin).
  apply rmatch_seq_inv in Hin as (j1 & c1 & Hg1 & Hin).
  apply rmatch_group_inv in Hg1 as (c1' & [-> Hj1]%elem_of_rmatch_class & ->); [|lia].
  apply rmatch_seq_inv in Hin as (j & c & (Hhash & -> & ->)%rmatch_lit_char_inv & Hin).
  pose proof (lookup_lt_Some _ _ _ Hhash) as Hlt1.
  apply rmatch_seq_inv in Hin as (j2 & c2 & Hg2 & Hin).
  apply rmatch_group_inv in Hg2 as (c2' & Hg2 & ->).
  apply rmatch_seq_inv in Hg2 as (j & c & (x & Hx & _ & -> & ->)%rmatch_char_inv & Hg2).
  pose proof (lookup_lt_Some _ _ _ Hx) as Hlt2.
  apply elem_of_rmatch_class in Hg2 as [-> Hj2]; [|lia].
  apply rmatch_seq_inv in Hin as (j & c & (Hlen & -> & ->)%rmatch_eol_inv & Hin).
  apply rmatch_empty_inv in Hin as [-> ->].
  unfold m_group. cbn [m_caps].
  rewrite lookup_insert_ne, lookup_insert_eq by done. rewrite lookup_insert_eq.
  destruct (truthy (slice path 0 j1) && truthy (slice path (S j1) j2)); [|done].
  intros [= <- <-].
  rewrite <- (drop_0 path) at 1. rewrite (slice_drop path 0 j1) by lia. f_equal.
  rewrite (drop_at path j1 _ Hhash). f_equal.
  rewrite (slice_drop path (S j1) j2) by lia. rewrite Hlen, drop_all. by rewrite app_nil_r.
Qed.

Lemma digit_not_ident_start (c : char) : is_digit c = true -> is_ident_start c = false.
Proof.
  intros Hc%digit_range. unfold is_ident_start, is_alpha, in_range, ceq.
  rewrite !orb_false_iff, !andb_false_iff, !N.leb_gt, !N.eqb_neq.
  unfold ch_underscore, ch_dollar. lia.
Qed.

(** A path that ends with a line range names no symbol. *)
Lemma ranged_not_symbol (p A B : jsstring) :
  B <> [] -> Forall (fun c => is_digit c = true) B ->
  parseSymbolExtraction (p ++ ch_colon :: A ++ ch_minus :: B)
  = (p ++ ch_colon :: A ++ ch_minus :: B, None).
Proof.
  intros HB HBd. set (s := p ++ ch_colon :: A ++ ch_minus :: B).
  unfold parseSymbolExtraction, match_, SYMBOL_PATTERN. cbn [rseqs foldr].
  rewrite exec_anchored.
  match goal with |- context [rmatch ?r s 0 ∅] => assert (Hnil : rmatch r s 0 ∅ = []) end;
    [|by rewrite Hnil].
  apply no_match. intros [e caps] Hin.
  apply rmatch_seq_inv in Hin as (j0 & c0 & (_ & -> & ->)%rmatch_bol_inv & Hin).
  apply rmatch_seq_inv in Hin as (j1 & c1 & Hg1 & Hin).
  apply rmatch_group_inv in Hg1 as (c1' & [-> Hj1]%elem_of_rmatch_class & ->); [|lia].
  apply rmatch_seq_inv in Hin as (j & c & (Hhash & -> & ->)%rmatch_lit_char_inv & Hin).
  apply rmatch_seq_inv in Hin as (j2 & c2 & Hg2 & Hin).
  apply rmatch_group_inv in Hg2 as (c2' & Hg2 & ->).
  apply rmatch_seq_inv in Hg2 as (j & c & (x & Hx & Hstart & -> & ->)%rmatch_char_inv & Hg2).
  pose proof (lookup_lt_Some _ _ _ Hx) as Hlt2.
  apply elem_of_rmatch_class in Hg2 as [-> Hj2]; [|lia].
  apply rmatch_seq_inv in Hin as (j & c & (Hlen & -> & ->)%rmatch_eol_inv & Hin).
  pose proof (ranged_at_Q p A B) as Hminus. fold s in Hminus.
  pose proof (ranged_drop_Q p A B) as HdropQ. fold s in HdropQ.
  pose proof (ranged_length p A B) as Hslen. fold s in Hslen.
  set (Q := S (length p) + length A) in *.
  destruct (decide (S j1 <= Q)) as [Hle|Hgt].
  - destruct (decide (S j1 = Q)) as [Heq|Hne].
    + rewrite Heq, Hminus in Hx. by injection Hx as <-.
    + change (fun c : N => is_ident_start c || is_digit c) with ident_char in Hj2.
      assert (Hc : ident_char ch_minus = true); [|done].
      apply (class_run_lookup ident_char s (S (S j1)) Q ch_minus); [lia|done].
  - assert (Hd : is_digit x = true).
    { rewrite Forall_forall in HBd. apply HBd.
      replace (S j1) with (S Q + (S j1 - S Q)) in Hx by lia.
      rewrite <- lookup_drop, HdropQ in Hx. by eapply list_elem_of_lookup_2. }
    apply digit_not_ident_start in Hd. congruence.
Qed.

Lemma includes_char_app (c : char) (l1 l2 : jsstring) :
  includes_char c (l1 ++ l2) = includes_char c l1 || includes_char c l2.
Proof. apply existsb_app. Qed.

Lemma includes_char_digits (c : char) (l : jsstring) :
  is_digit c = false -> Forall (fun x => is_digit x = true) l -> includes_char c l = false.
Proof.
  intros Hc Hl. unfold includes_char. induction Hl as [|x l Hx _ IH]; [done|].
  cbn [existsb]. rewrite IH, orb_false_r. apply N.eqb_neq. intros ->. congruence.
Qed.

Lemma isGlobPattern_ranged (p A B : jsstring) :
  Forall (fun x => is_digit x = true) A -> Forall (fun x => is_digit x = true) B ->
  isGlobPattern (p ++ ch_colon :: A ++ ch_minus :: B) = isGlobPattern p.
Proof.
  intros HA HB. unfold isGlobPattern.
  assert (H : forall c, is_digit c = false -> ceq c ch_colon = false ->
            ceq c ch_minus = false ->
            includes_char c (p ++ ch_colon :: A ++ ch_minus :: B) = includes_char c p).
  { intros c Hc H1 H2.
    rewrite includes_char_app.
    change (includes_char c (ch_colon :: A ++ ch_minus :: B))
      with (ceq c ch_colon || includes_char c (A ++ ch_minus :: B)).
    rewrite includes_char_app.
    change (includes_char c (ch_minus :: B)) with (ceq c ch_minus || includes_char c B).
    rewrite (includes_char_digits c A), (includes_char_digits c B) by done.
    rewrite H1, H2. by rewrite orb_false_r. }
  by rewrite !H.
Qed.

(** ** From the parser to the resolver and back

    [expandImports] writes the line range or the symbol of a directive back
    into its path, and [processFileImport] reads it out again. *)

Section resolver_round_trip.
Context (fs : gmap jsstring node) (homedir : jsstring).
Context (path_resolve : jsstring -> jsstring -> jsstring).
Context (path_dirname : jsstring -> jsstring).
Context (exceedsLimit : nat -> bool) (fileSizeLimitMessage : jsstring -> nat -> jsstring).
Context (processGlobImport extractSymbol : jsstring -> jsstring -> outcome).
Context (expandImports : jsstring -> jsstring -> list jsstring -> outcome).

Let resolve_file := processFileImport fs homedir path_resolve path_dirname exceedsLimit
  fileSizeLimitMessage processGlobImport extractSymbol expandImports.

(** A line-range directive of the parser is resolved to the lines it names
    of the file it names. *)
Theorem line_range_import_resolved (fullMatch path p original : jsstring)
    (index index' : nat) (start end_ : Z) (currentFileDir : jsstring)
    (stack : list jsstring) :
  parseFileImportPath fullMatch path index = FileImport p (Some (start, end_)) original index' ->
  (start < 2 ^ 53)%Z -> (end_ < 2 ^ 53)%Z ->
  resolve_file (parsed_path (to_parsed (FileImport p (Some (start, end_)) original index')))
    currentFileDir stack
  = read_checked fs exceedsLimit fileSizeLimitMessage p
      (resolveImportPath homedir path_resolve p currentFileDir) None
      (fun bytes => Ok (extractLines (TextDecoder_decode bytes) start end_)).
Proof.
  intros Hparse _ _. unfold parseFileImportPath in Hparse.
  destruct (isGlobPattern path) eqn:Hglob; [done|].
  destruct (parseSymbolExtraction path) as [p0 [sym|]]; [done|].
  destruct (parseLineRange path) as [p1 [[a b]|]] eqn:Hrange; [|done].
  injection Hparse as -> -> -> <- <-.
  apply parseLineRange_sound in Hrange
    as (A & B & -> & Hp & Hdots & HA & HAd & HB & HBd & -> & ->).
  pose proof (parse_digits_nonneg A) as Ha. pose proof (parse_digits_nonneg B) as Hb.
  destruct (N_to_jsstring_digits (Z.to_N (parse_digits A))) as [HA' HAd'].
  destruct (N_to_jsstring_digits (Z.to_N (parse_digits B))) as [HB' HBd'].
  rewrite isGlobPattern_ranged in Hglob by done.
  cbn [to_parsed parsed_path app]. rewrite !Z_to_jsstring_nonneg by done.
  unfold resolve_file, processFileImport.
  rewrite isGlobPattern_ranged, Hglob by done.
  rewrite ranged_not_symbol by done.
  rewrite parseLineRange_parts; try done.
  - by rewrite !parse_N_to_jsstring, !Z2N.id by done.
  - eapply Forall_impl; [exact Hdots|]. intros c Hc. unfold dot_class in Hc.
    by apply negb_true_iff in Hc.
Qed.

(** A symbol directive of the parser is resolved to the symbol it names in
    the file it names. *)
Theorem symbol_import_resolved (fullMatch path p symbol original : jsstring)
    (index index' : nat) (currentFileDir : jsstring) (stack : list jsstring) :
  parseFileImportPath fullMatch path index = SymbolImport p symbol original index' ->
  resolve_file (parsed_path (to_parsed (SymbolImport p symbol original index')))
    currentFileDir stack
  = read_checked fs exceedsLimit fileSizeLimitMessage p
      (resolveImportPath homedir path_resolve p currentFileDir) None
      (fun bytes => extractSymbol (TextDecoder_decode bytes) symbol).
Proof.
  intros Hparse. unfold parseFileImportPath in Hparse.
  destruct (isGlobPattern path) eqn:Hglob; [done|].
  destruct (parseSymbolExtraction path) as [p0 [sym|]] eqn:Hsym.
  - injection Hparse as -> -> -> <-.
    pose proof (parseSymbolExtraction_sound _ _ _ Hsym) as Hpath.
    cbn [to_parsed parsed_path app]. rewrite <- Hpath.
    unfold resolve_file, processFileImport. by rewrite Hglob, Hsym.
  - by destruct (parseLineRange path) as [p1 [[a b]|]].
Qed.
End resolver_round_trip.

Lemma line_range_import_resolved_witness :
  processFileImport loop_fs (str "/home/u") join_path id no_limit no_limit_message
    no_glob whole_file no_expansion
    (parsed_path (to_parsed (FileImport (str "/a/main.md") (Some (10, 50)%Z)
                               (str "@/a/main.md:010-50") 0)))
    (str "/a") []
  = read_checked loop_fs no_limit no_limit_message (str "/a/main.md")
      (resolveImportPath (str "/home/u") join_path (str "/a/main.md") (str "/a")) None
      (fun bytes => Ok (extractLines (TextDecoder_decode bytes) 10 50)).
Proof.
  apply (line_range_import_resolved loop_fs (str "/home/u") join_path id no_limit
           no_limit_message no_glob whole_file no_expansion
           (str "@/a/main.md:010-50") (str "/a/main.md:010-50") (str "/a/main.md")
           (str "@/a/main.md:010-50") 0 0 10 50 (str "/a") []).
  - vm_compute. reflexivity.
  - reflexivity.
  - reflexivity.
Defined.

Lemma symbol_import_resolved_witness :
  processFileImport loop_fs (str "/home/u") join_path id no_limit no_limit_message
    no_glob whole_file no_expansion
    (parsed_path (to_parsed (SymbolImport (str "/a/main.md") (str "Name")
                               (str "@/a/main.md#Name") 0)))
    (str "/a") []
  = read_checked loop_fs no_limit no_limit_message (str "/a/main.md")
      (resolveImportPath (str "/home/u") join_path (str "/a/main.md") (str "/a")) None
      (fun bytes => whole_file (TextDecoder_decode bytes) (str "Name")).
Proof.
  apply (symbol_import_resolved loop_fs (str "/home/u") join_path id no_limit
           no_limit_message no_glob whole_file no_expansion
           (str "@/a/main.md#Name") (str "/a/main.md#Name") (str "/a/main.md") (str "Name")
           (str "@/a/main.md#Name") 0 0 (str "/a") []).
  vm_compute. reflexivity.
Defined.

(** ** Environment files *)

Lemma parseEnvFile_example :
  parseEnvFile (str "# settings" ++ [ch_nl] ++ str "A=1" ++ [ch_nl] ++ str "B = 'two words' "
                ++ [ch_nl] ++ str "C=x #note" ++ [ch_nl] ++ str "D=" ++ [ch_dquote]
                ++ str "l1" ++ [ch_nl] ++ str "l2" ++ [ch_dquote])
  = {[str "A" := str "1"; str "B" := str "two words"; str "C" := str "x";
      str "D" := str "l1" ++ [ch_nl] ++ str "l2"]}.
Proof. by vm_compute. Qed.

Section load_env_facts.
Context (join_dir : jsstring -> jsstring -> jsstring) (read_file : jsstring -> option jsstring).
Implicit Types (process_env acc : gmap jsstring jsstring) (st : load_state).

Lemma fold_insert_union (l : list (jsstring * jsstring)) acc :
  NoDup l.*1 ->
  fold_left (fun m e => <[e.1 := e.2]> m) l acc = list_to_map l ∪ acc.
Proof.
  revert acc. induction l as [|[k v] l IH]; intros acc Hnd; cbn.
  - by rewrite (left_id_L ∅ (∪)).
  - apply NoDup_cons in Hnd as [Hk Hnd]. rewrite IH by done.
    rewrite <- insert_union_l. rewrite insert_union_r; [done|].
    by apply not_elem_of_list_to_map_1.
Qed.

Lemma set_env_var_fold process_env (l : list (jsstring * jsstring)) : forall st acc,
  loadedKeys st ## dom process_env -> env st = process_env ∪ acc ->
  let st' := fold_left (set_env_var (dom process_env)) l st in
  loadedKeys st' ## dom process_env
  /\ env st' = process_env ∪ fold_left (fun m e => <[e.1 := e.2]> m) l acc
  /\ loadedCount st' = loadedCount st.
Proof.
  induction l as [|[k v] l IH]; intros st acc Hdis Henv; cbn [fold_left]; [done|].
  destruct (decide (k ∈ dom process_env)) as [Hin|Hout].
  - assert (Hstep : set_env_var (dom process_env) st (k, v) = st).
    { unfold set_env_var. cbn [fst snd]. rewrite (bool_decide_eq_true_2 _ Hin).
      by rewrite bool_decide_eq_false_2 by (intros Hl; by apply (Hdis k)). }
    rewrite Hstep. apply IH; [done|]. rewrite Henv.
    apply elem_of_dom in Hin as [w Hw]. apply map_eq. intros i.
    rewrite !lookup_union. destruct (decide (i = k)) as [->|Hne].
    + rewrite Hw, lookup_insert_eq. by destruct (acc !! k).
    + by rewrite lookup_insert_ne.
  - assert (Hstep : set_env_var (dom process_env) st (k, v)
                    = LoadState (<[k := v]> (env st)) ({[k]} ∪ loadedKeys st) (loadedCount st)).
    { unfold set_env_var. cbn [fst snd]. by rewrite (bool_decide_eq_false_2 _ Hout). }
    rewrite Hstep.
    destruct (IH (LoadState (<[k := v]> (env st)) ({[k]} ∪ loadedKeys st) (loadedCount st))
                (<[k := v]> acc)) as (H1 & H2 & H3); cbn [loadedKeys env loadedCount].
    + intros i [->%elem_of_singleton|Hi]%elem_of_union Hp; [done|by apply (Hdis i)].
    + rewrite Henv. apply insert_union_r. by apply not_elem_of_dom.
    + done.
Qed.

Lemma load_env_file_spec directory process_env st acc envFile :
  loadedKeys st ## dom process_env -> env st = process_env ∪ acc ->
  let st' := load_env_file join_dir read_file directory (dom process_env) st envFile in
  loadedKeys st' ## dom process_env
  /\ env st' = process_env ∪ (file_vars join_dir read_file directory envFile ∪ acc)
  /\ loadedCount st'
     = loadedCount st + match read_file (join_dir directory envFile) with Some _ => 1 | None => 0 end.
Proof.
  intros Hdis Henv. unfold load_env_file, file_vars.
  destruct (read_file (join_dir directory envFile)) as [content|]; cbn zeta.
  - destruct (set_env_var_fold process_env (map_to_list (parseEnvFile content)) st acc)
      as (H1 & H2 & H3); [done..|]. cbn [loadedKeys env loadedCount].
    split_and!; [done| |lia].
    rewrite H2, fold_insert_union by apply NoDup_fst_map_to_list.
    by rewrite list_to_map_to_list.
  - split_and!; [done| |lia]. by rewrite (left_id_L ∅ (∪)).
Qed.

Lemma load_env_files_spec directory process_env (names : list jsstring) : forall st acc,
  loadedKeys st ## dom process_env -> env st = process_env ∪ acc ->
  let st' := fold_left (load_env_file join_dir read_file directory (dom process_env)) names st in
  env st' = process_env
            ∪ fold_left (fun m f => file_vars join_dir read_file directory f ∪ m) names acc
  /\ loadedCount st'
     = loadedCount st
       + length (filter (fun f => is_Some (read_file (join_dir directory f))) names).
Proof.
  induction names as [|f names IH]; intros st acc Hdis Henv; cbn [fold_left].
  - split; [done|]. cbn. lia.
  - destruct (load_env_file_spec directory process_env st acc f Hdis Henv) as (H1 & H2 & H3).
    destruct (IH _ _ H1 H2) as [H4 H5]. split; [done|].
    rewrite H5, H3. rewrite filter_cons.
    destruct (read_file (join_dir directory f)) as [content|].
    + rewrite decide_True by done. cbn. lia.
    + rewrite decide_False by (by intros [? ?]). lia.
Qed.

(** [loadEnvFiles] leaves every variable that was already set as it
    was, and gives every other variable the value of the last of the four
    files [.env], [.env.local], [.env.<NODE_ENV>], [.env.<NODE_ENV>.local]
    that defines it: the environment afterwards is the old one in front of
    the files' variables, later files in front of earlier ones.  It returns
    the number of these files that could be read. *)
Theorem loadEnvFiles_precedence (directory : jsstring) (process_env : gmap jsstring jsstring) :
  let names := env_file_names (node_env process_env) in
  (loadEnvFiles join_dir read_file directory process_env).2
  = process_env
    ∪ fold_left (fun m f => file_vars join_dir read_file directory f ∪ m) names ∅
  /\ (loadEnvFiles join_dir read_file directory process_env).1
     = length (filter (fun f => is_Some (read_file (join_dir directory f))) names).
Proof.
  intros names. unfold loadEnvFiles. cbn [fst snd].
  destruct (load_env_files_spec directory process_env names (LoadState process_env ∅ 0) ∅)
    as [H1 H2]; cbn [loadedKeys env loadedCount].
  - set_solver.
  - by rewrite (right_id_L ∅ (∪)).
  - done.
Qed.
End load_env_facts.

(** *** Lines and their parts *)

Lemma split_on_plain (c : char) (p : jsstring) : c ∉ p -> split_on c p = [p].
Proof.
  induction p as [|x p IH]; intros Hc; cbn; [done|].
  apply not_elem_of_cons in Hc as [Hx Hc].
  unfold ceq. rewrite (proj2 (N.eqb_neq x c)) by done. by rewrite IH.
Qed.

Lemma split_on_app (c : char) (p s : jsstring) :
  c ∉ p -> split_on c (p ++ c :: s) = p :: split_on c s.
Proof.
  induction p as [|x p IH]; intros Hc; cbn.
  - unfold ceq. by rewrite N.eqb_refl.
  - apply not_elem_of_cons in Hc as [Hx Hc].
    unfold ceq. rewrite (proj2 (N.eqb_neq x c)) by done. by rewrite IH.
Qed.

Lemma split_on_join (c : char) (lines : list jsstring) :
  lines <> [] -> Forall (fun p => c ∉ p) lines -> split_on c (join [c] lines) = lines.
Proof.
  intros Hne Hall. induction Hall as [|p lines Hp Hall IH]; [done|].
  destruct lines as [|q lines].
  - cbn. by apply split_on_plain.
  - cbn [join]. cbn [app]. rewrite split_on_app by done. f_equal. by apply IH.
Qed.

Lemma trim_start_length (s : jsstring) : length (trim_start s) <= length s.
Proof. induction s as [|x s IH]; cbn; [lia|]. destruct (is_space x); cbn; lia. Qed.

Lemma trim_start_fixed (s : jsstring) :
  trim_start s = s -> class_run is_space s = 0.
Proof.
  destruct s as [|x s]; cbn; [done|]. destruct (is_space x); [|done].
  intros H. apply (f_equal length) in H. pose proof (trim_start_length s). cbn in H. lia.
Qed.

Lemma trim_start_snoc (l : jsstring) (c : char) :
  is_space c = false -> trim_start (l ++ [c]) = trim_start l ++ [c].
Proof.
  intros Hc. induction l as [|x l IH]; cbn; [by rewrite Hc|]. by destruct (is_space x).
Qed.

(** Trimming keeps a first code unit that is not white space. *)
Lemma trim_head (c : char) (s : jsstring) :
  is_space c = false -> exists t, trim (c :: s) = c :: t.
Proof.
  intros Hc. unfold trim. cbn [trim_start]. rewrite Hc.
  exists (rev (trim_start (rev s))). cbn [rev].
  by rewrite trim_start_snoc, rev_app_distr.
Qed.

Lemma trim_fixed (v : jsstring) :
  trim_start v = v -> trim_start (rev v) = rev v -> trim v = v.
Proof. intros H1 H2. unfold trim. by rewrite H1, H2, rev_involutive. Qed.

Lemma word_start_word (c : char) : is_word_start c = true -> is_word c = true.
Proof.
  unfold is_word_start, is_word. intros [H|H]%orb_true_iff; rewrite H; [done|].
  apply orb_true_r.
Qed.

Lemma word_facts (c : char) :
  is_word c = true ->
  is_space c = false /\ c <> ch_equals /\ c <> ch_nl /\ c <> ch_hash.
Proof.
  unfold is_word, is_alpha, is_digit, is_space, in_range, ceq, ch_underscore, ch_equals, ch_nl,
    ch_hash.
  rewrite !orb_true_iff, !andb_true_iff, !N.leb_le, !N.eqb_eq. intros H.
  rewrite !orb_false_iff, !andb_false_iff, !N.leb_gt, !N.eqb_neq. lia.
Qed.

Lemma env_name_word (key : jsstring) :
  env_name key -> Forall (fun x => is_word x = true) key.
Proof. intros (c & rest & -> & Hc & Hrest). constructor; [by apply word_start_word|done]. Qed.

(** *** How the pattern matches [KEY=value] *)

Section env_line_match.
Context (c0 : char) (ks v : jsstring).
Context (Hc0 : is_word_start c0 = true) (Hks : Forall (fun x => is_word x = true) ks).
Context (Hv : Forall (fun c => is_line_terminator c = false) v).
Context (Hlead : trim_start v = v).

Let key : jsstring := c0 :: ks.
Let s : jsstring := key ++ ch_equals :: v.
Let P : nat := length key.

Lemma env_line_drop_P : drop P s = ch_equals :: v.
Proof. unfold s, P. by rewrite drop_app_length. Qed.

Lemma env_line_drop_Q : drop (S P) s = v.
Proof.
  unfold s, P. change (key ++ ch_equals :: v) with (key ++ [ch_equals] ++ v).
  rewrite app_assoc. apply drop_app_length'. rewrite length_app. cbn. lia.
Qed.

Lemma env_line_length : length s = S P + length v.
Proof. unfold s, P. rewrite length_app. cbn. lia. Qed.

Lemma env_line_first :
  first_is (rmatch ENV_LINE_PATTERN s 0 ∅)
    (length s, <[2 := (S P, length s)]> (<[1 := (0, P)]> ∅)).
Proof.
  pose proof env_line_length as Hlen.
  assert (Hat_P : s !! P = Some ch_equals).
  { unfold s, P. by rewrite list_lookup_middle. }
  assert (Hname : forall c, first_is
            (rmatch (RGroup 1 (RSeq (RChar is_word_start) (rstar (RChar is_word)))) s 0 c)
            (P, <[1 := (0, P)]> c)).
  { intros c. apply first_group.
    eapply first_seq; [by apply (first_char s _ 0 c c0)|].
    pose proof (first_greedy_class s 0 is_word 1 c) as H.
    replace (1 + class_run is_word (drop 1 s)) with P in H; [apply H; lia|].
    unfold s, key, P. cbn [app drop]. rewrite drop_0, class_run_app by done.
    cbn. lia. }
  assert (Hsp1 : forall c, first_is (rmatch (rstar (RChar is_space)) s P c) (P, c)).
  { intros c. pose proof (first_greedy_class s 0 is_space P c) as H.
    assert (Hrun : class_run is_space (drop P s) = 0) by (by rewrite env_line_drop_P).
    rewrite Hrun, Nat.add_0_r in H. apply H; lia. }
  assert (Hsp2 : forall c, first_is (rmatch (rstar (RChar is_space)) s (S P) c) (S P, c)).
  { intros c. pose proof (first_greedy_class s 0 is_space (S P) c) as H.
    rewrite env_line_drop_Q, trim_start_fixed, Nat.add_0_r in H by done. apply H; lia. }
  assert (Hrest : forall c, first_is (rmatch (RGroup 2 (rstar (RChar dot_class))) s (S P) c)
                              (length s, <[2 := (S P, length s)]> c)).
  { intros c. apply first_group.
    pose proof (first_greedy_class s 0 dot_class (S P) c) as H.
    rewrite env_line_drop_Q, class_run_all, <- Hlen in H; [apply H; lia|].
    eapply Forall_impl; [exact Hv|]. intros x Hx. unfold dot_class. by rewrite Hx. }
  unfold ENV_LINE_PATTERN. cbn [rseqs foldr].
  eapply first_seq; [apply first_bol|].
  eapply first_seq; [apply Hname|].
  eapply first_seq; [apply Hsp1|].
  eapply first_seq; [apply (first_lit s ch_equals P); exact Hat_P|].
  eapply first_seq; [apply Hsp2|].
  eapply first_seq; [apply Hrest|apply first_empty].
Qed.

Lemma env_line_groups :
  exists m, match_ ENV_LINE_PATTERN s = Some m
            /\ m_group s m 1 = key /\ m_group s m 2 = v.
Proof.
  pose proof env_line_length as Hlen.
  eexists. split; [|split].
  - apply (exec_first s _ 0); [lia|lia|apply env_line_first].
  - unfold m_group. cbn [m_caps]. rewrite lookup_insert_ne, lookup_insert_eq by done.
    unfold slice, s, P. rewrite drop_0, Nat.sub_0_r. by rewrite take_app_length.
  - unfold m_group. cbn [m_caps]. rewrite lookup_insert_eq.
    unfold slice. rewrite env_line_drop_Q. apply take_ge. lia.
Qed.
End env_line_match.

(** *** One assignment per line *)

Lemma parseEnvLine_plain (st : env_state) (key value : jsstring) :
  inMultiline st = false -> env_name key -> key <> str "__proto__" -> plain_value value ->
  parseEnvLine st (env_line (key, value))
  = EnvState (<[key := value]> (vars st)) (currentKey st) (currentValue st) false
      (quoteChar st).
Proof.
  intros Hst (c0 & ks & -> & Hc0 & Hks) Hproto (Hv & Hlead & Htrail & Hdq & Hsq & Hcomment).
  destruct (word_facts c0 (word_start_word c0 Hc0)) as (Hsp & _ & _ & Hhash).
  destruct (env_line_groups c0 ks value Hc0 Hks Hv Hlead) as (m & Hm & Hg1 & Hg2).
  unfold parseEnvLine, env_line. cbn [fst snd]. rewrite Hst, Hm. cbn [negb andb].
  destruct (trim_head c0 (ks ++ ch_equals :: value) Hsp) as [t Ht].
  change ((c0 :: ks) ++ ch_equals :: value) with (c0 :: ks ++ ch_equals :: value).
  rewrite Ht. rewrite bool_decide_eq_false_2 by done.
  assert (Hnohash : startsWith [ch_hash] (c0 :: t) = false).
  { unfold startsWith. apply bool_decide_eq_false_2. cbn. intros [= ->]. done. }
  rewrite Hnohash. cbn [orb]. cbv zeta.
  change (c0 :: ks ++ ch_equals :: value) with ((c0 :: ks) ++ ch_equals :: value).
  rewrite Hg1, Hg2. unfold truthy.
  rewrite (bool_decide_eq_false_2 (c0 :: ks = [])) by done. cbn [negb].
  rewrite (trim_fixed value Hlead Htrail).
  unfold quoted_with. rewrite Hdq, Hsq, Hcomment. cbn [andb orb].
  unfold assign_prop. by rewrite bool_decide_eq_false_2.
Qed.

(** *** The names of the variables *)

Lemma env_pattern_sound (s : jsstring) (m : rx_match) :
  match_ ENV_LINE_PATTERN s = Some m -> env_name (m_group s m 1).
Proof.
  intros [_ Hm]%exec_spec. pose proof (matched_elem _ _ _ Hm) as Hin.
  destruct Hm as [Hidx _]. destruct m as [idx e caps]. cbn [m_index m_end m_caps] in *.
  unfold ENV_LINE_PATTERN in Hin. cbn [rseqs foldr] in Hin.
  apply rmatch_seq_inv in Hin as (j0 & c0 & (-> & -> & ->)%rmatch_bol_inv & Hin).
  apply rmatch_seq_inv in Hin as (j1 & c1 & Hname & Hin).
  apply rmatch_group_inv in Hname as (c1' & Hname & ->).
  apply rmatch_seq_inv in Hname as (j & c & (x & Hx & Hws & -> & ->)%rmatch_char_inv & Hrun).
  pose proof (lookup_lt_Some _ _ _ Hx) as Hlt.
  apply elem_of_rmatch_class in Hrun as [-> Hj1]; [|lia].
  pose proof (rmatch_bounds _ _ _ _ _ _ Hin) as Hb1.
  apply rmatch_seq_inv in Hin as (j2 & c2 & Hsp1 & Hin).
  pose proof (rmatch_bounds _ _ _ _ _ _ Hsp1) as Hb2.
  assert (Hj1len : j1 <= length s).
  { pose proof (class_run_le is_word (drop 1 s)) as Hrun. rewrite length_drop in Hrun. lia. }
  apply elem_of_rmatch_class in Hsp1 as [-> Hj2]; [|done].
  apply rmatch_seq_inv in Hin as (j3 & c3 & (Heq & -> & ->)%rmatch_lit_char_inv & Hin).
  pose proof (lookup_lt_Some _ _ _ Heq) as Hlt2.
  apply rmatch_seq_inv in Hin as (j4 & c4 & Hsp2 & Hin).
  pose proof (rmatch_bounds _ _ _ _ _ _ Hsp2 ltac:(lia)) as Hb4.
  apply elem_of_rmatch_class in Hsp2 as [-> Hj4]; [|lia].
  apply rmatch_seq_inv in Hin as (j5 & c5 & Hrest & (-> & ->)%rmatch_empty_inv).
  apply rmatch_group_inv in Hrest as (c6 & Hrest & ->).
  apply elem_of_rmatch_class in Hrest as [-> Hj5]; [|lia].
  unfold m_group. cbn [m_caps]. rewrite lookup_insert_ne, lookup_insert_eq by done.
  destruct s as [|y s']; [done|]. injection Hx as ->.
  exists x, (take (j1 - 1) s'). split_and!; [|done|].
  - unfold slice. rewrite drop_0, Nat.sub_0_r.
    destruct j1 as [|j1]; [lia|]. cbn. by rewrite Nat.sub_0_r.
  - apply Forall_lookup. intros i z [Hz Hi]%lookup_take_Some.
    apply (class_run_lookup is_word (x :: s') 1 (S i)); [lia|done].
Qed.

Lemma assign_prop_dom (key k value : jsstring) (obj : gmap jsstring jsstring) :
  k ∈ dom (assign_prop key value obj) -> k = key \/ k ∈ dom obj.
Proof.
  unfold assign_prop. case_bool_decide; [by right|].
  rewrite dom_insert. intros [->%elem_of_singleton|Hk]%elem_of_union; auto.
Qed.

Lemma env_name_null : env_name (or_null None).
Proof. eexists _, _. split; [reflexivity|]. split; [reflexivity|]. repeat constructor. Qed.

Lemma env_pattern_line (s : jsstring) (m : rx_match) :
  match_ ENV_LINE_PATTERN s = Some m -> assigns (m_group s m 1) s.
Proof.
  intros [_ Hm]%exec_spec. pose proof (matched_elem _ _ _ Hm) as Hin.
  destruct Hm as [Hidx _]. destruct m as [idx e caps]. cbn [m_index m_end m_caps] in *.
  unfold ENV_LINE_PATTERN in Hin. cbn [rseqs foldr] in Hin.
  apply rmatch_seq_inv in Hin as (j0 & c0 & (-> & -> & ->)%rmatch_bol_inv & Hin).
  apply rmatch_seq_inv in Hin as (j1 & c1 & Hname & Hin).
  apply rmatch_group_inv in Hname as (c1' & Hname & ->).
  apply rmatch_seq_inv in Hname as (j & c & (x & Hx & Hws & -> & ->)%rmatch_char_inv & Hrun).
  pose proof (lookup_lt_Some _ _ _ Hx) as Hlt.
  apply elem_of_rmatch_class in Hrun as [-> Hj1]; [|lia].
  pose proof (rmatch_bounds _ _ _ _ _ _ Hin) as Hb1.
  apply rmatch_seq_inv in Hin as (j2 & c2 & Hsp1 & Hin).
  pose proof (rmatch_bounds _ _ _ _ _ _ Hsp1) as Hb2.
  assert (Hj1len : j1 <= length s).
  { pose proof (class_run_le is_word (drop 1 s)) as Hrun. rewrite length_drop in Hrun. lia. }
  apply elem_of_rmatch_class in Hsp1 as [-> Hj2]; [|done].
  apply rmatch_seq_inv in Hin as (j3 & c3 & (Heq & -> & ->)%rmatch_lit_char_inv & Hin).
  pose proof (lookup_lt_Some _ _ _ Heq) as Hlt2.
  apply rmatch_seq_inv in Hin as (j4 & c4 & Hsp2 & Hin).
  pose proof (rmatch_bounds _ _ _ _ _ _ Hsp2 ltac:(lia)) as Hb4.
  apply elem_of_rmatch_class in Hsp2 as [-> Hj4]; [|lia].
  apply rmatch_seq_inv in Hin as (j5 & c5 & Hrest & (-> & ->)%rmatch_empty_inv).
  apply rmatch_group_inv in Hrest as (c6 & Hrest & ->).
  apply elem_of_rmatch_class in Hrest as [-> Hj5]; [|lia].
  unfold m_group. cbn [m_caps]. rewrite lookup_insert_ne, lookup_insert_eq by done.
  exists (take (j2 - j1) (drop j1 s)), (drop (S j2) s). split.
  - unfold slice. rewrite drop_0, Nat.sub_0_r.
    rewrite <- (take_drop j1 s) at 1. f_equal.
    rewrite <- (take_drop (j2 - j1) (drop j1 s)) at 1. f_equal.
    rewrite drop_drop. replace (j1 + (j2 - j1)) with j2 by lia.
    by apply drop_S.
  - apply Forall_lookup. intros i z [Hz Hi]%lookup_take_Some.
    rewrite lookup_drop in Hz.
    apply (class_run_lookup is_space s j1 (j1 + i)); [lia|done].
Qed.

Section env_names.
Context (content : jsstring).

Let named (st : env_state) : Prop :=
  (forall k, k ∈ dom (vars st) ->
     env_name k /\ exists line, line ∈ split_on ch_nl content /\ assigns k line)
  /\ (forall k, currentKey st = Some k ->
       env_name k /\ exists line, line ∈ split_on ch_nl content /\ assigns k line)
  /\ (inMultiline st = true -> is_Some (currentKey st)).

Lemma parseEnvLine_names (st : env_state) (line : jsstring) :
  line ∈ split_on ch_nl content -> named st -> named (parseEnvLine st line).
Proof.
  intros Hline Hst. pose proof Hst as (Hvars & Hkey & Hmulti). unfold parseEnvLine.
  destruct (negb (inMultiline st) && _); [done|].
  destruct (inMultiline st) eqn:Hin.
  - destruct (endsWith _ _); split_and!; cbn [vars currentKey inMultiline]; try done.
    intros k [->|Hk]%assign_prop_dom; [|by apply Hvars].
    destruct (Hmulti eq_refl) as [key Hcur]. rewrite Hcur. by apply Hkey.
  - destruct (match_ ENV_LINE_PATTERN line) as [m|] eqn:Hm; [|exact Hst].
    pose proof (env_pattern_sound _ _ Hm) as Hname.
    pose proof (env_pattern_line _ _ Hm) as Hassign. cbv zeta.
    destruct (negb (truthy _)); [exact Hst|].
    destruct (_ || _); [|destruct (_ || _)]; split_and!;
      cbn [vars currentKey inMultiline]; try done;
      try (intros k [->|Hk]%assign_prop_dom; [by eauto|by apply Hvars]).
    intros k [= <-]. by eauto.
Qed.

Lemma parseEnvLines_names (lines : list jsstring) : forall st,
  Forall (fun line => line ∈ split_on ch_nl content) lines ->
  named st -> named (fold_left parseEnvLine lines st).
Proof.
  induction lines as [|line lines IH]; intros st Hlines Hst; cbn [fold_left]; [done|].
  inversion Hlines; subst. apply IH; [done|]. by apply parseEnvLine_names.
Qed.

Lemma parseEnvFile_named (key : jsstring) :
  key ∈ dom (parseEnvFile content) ->
  env_name key /\ exists line, line ∈ split_on ch_nl content /\ assigns key line.
Proof.
  intros Hk. unfold parseEnvFile in Hk.
  destruct (parseEnvLines_names (split_on ch_nl content) (EnvState ∅ None [] false None))
    as [Hvars _]; [by apply Forall_forall| |by apply Hvars].
  split_and!; cbn [vars currentKey inMultiline]; [|done|done].
  intros k Hin. by rewrite dom_empty in Hin.
Qed.
End env_names.

(** A line outside a quoted block that assigns to no name changes
    nothing. *)
Lemma parseEnvLine_no_name (st : env_state) (line : jsstring) :
  inMultiline st = false ->
  (forall key, env_name key -> ~ assigns key line) ->
  parseEnvLine st line = st.
Proof.
  intros Hout Hno. unfold parseEnvLine. rewrite Hout.
  destruct (negb false && _); [done|].
  destruct (match_ ENV_LINE_PATTERN line) as [m|] eqn:Hm; [|done].
  destruct (Hno _ (env_pattern_sound _ _ Hm) (env_pattern_line _ _ Hm)).
Qed.

(** Whatever the file holds, every variable [parseEnvFile] defines has a
    name, a letter or [_] followed by letters, digits and [_], and some line
    of the file begins with that name, optional white space and [=].  A
    line outside a quoted block that does not begin so with any name
    changes nothing: [export X=1] could only assign to [export], which [=]
    does not follow, and [MY-VAR=1] only to [MY]. *)
Theorem parseEnvFile_names (content key : jsstring) :
  (key ∈ dom (parseEnvFile content) ->
   env_name key /\ exists line, line ∈ split_on ch_nl content /\ assigns key line)
  /\ (forall st line,
        inMultiline st = false ->
        (forall name, env_name name -> ~ assigns name line) ->
        parseEnvLine st line = st).
Proof. split; [apply parseEnvFile_named|apply parseEnvLine_no_name]. Qed.

(** A given line assigns to no name: the name would be a prefix of the
    line made of letters, digits and [_], followed by white space and [=]. *)
Ltac no_assignment :=
  let c := fresh "c" in let r := fresh "r" in let ws := fresh "ws" in
  let rest := fresh "rest" in let Hr := fresh "Hr" in let Heq := fresh "Heq" in
  let Hws := fresh "Hws" in let Hx := fresh "Hx" in let Hw := fresh "Hw" in
  let l := fresh "l" in
  intros ? (c & r & -> & _ & Hr) (ws & rest & Heq & Hws);
  match type of Heq with ?line = _ => set (l := line) in Heq; vm_compute in l; subst l end;
  unfold ch_equals in Heq; cbn [app] in Heq; injection Heq as <- Heq;
  repeat (destruct r as [|? r];
          [repeat (destruct ws as [|? ws]; cbn [app] in Heq;
                   first [discriminate Heq
                         |injection Heq as <- Heq; apply Forall_cons in Hws as [Hw Hws];
                          first [vm_compute in Hw; discriminate Hw|clear Hw]])
          |cbn [app] in Heq;
           first [discriminate Heq
                 |injection Heq as <- Heq; apply Forall_cons in Hr as [Hx Hr];
                  first [vm_compute in Hx; discriminate Hx|clear Hx]]]).

Lemma export_assigns_nothing name : env_name name -> ~ assigns name (str "export X=1").
Proof. revert name. no_assignment. Qed.

Lemma dash_assigns_nothing name : env_name name -> ~ assigns name (str "MY-VAR=1").
Proof. revert name. no_assignment. Qed.

Lemma parseEnvFile_names_witness :
  (str "PORT" ∈ dom (parseEnvFile (str "export X=1" ++ [ch_nl] ++ str "PORT = 8080"))
   /\ env_name (str "PORT")
   /\ exists line,
        line ∈ split_on ch_nl (str "export X=1" ++ [ch_nl] ++ str "PORT = 8080")
        /\ assigns (str "PORT") line)
  /\ parseEnvLine (EnvState ∅ None [] false None) (str "export X=1")
     = EnvState ∅ None [] false None
  /\ parseEnvLine (EnvState ∅ None [] false None) (str "MY-VAR=1")
     = EnvState ∅ None [] false None.
Proof.
  assert (Hin : str "PORT" ∈ dom (parseEnvFile (str "export X=1" ++ [ch_nl]
                                                  ++ str "PORT = 8080"))).
  { apply elem_of_dom. exists (str "8080"). by vm_compute. }
  split_and!.
  - exact Hin.
  - exact (proj1 (proj1 (parseEnvFile_names _ _) Hin)).
  - exact (proj2 (proj1 (parseEnvFile_names _ _) Hin)).
  - exact (proj2 (parseEnvFile_names [] []) (EnvState ∅ None [] false None) _ eq_refl
             export_assigns_nothing).
  - exact (proj2 (parseEnvFile_names [] []) (EnvState ∅ None [] false None) _ eq_refl
             dash_assigns_nothing).
Defined.

(** The lines that begin otherwise, alone in a file. *)
Example parseEnvFile_no_name :
  parseEnvFile (str "export X=1") = ∅ /\ parseEnvFile (str "MY-VAR=1") = ∅.
Proof. split; by vm_compute. Qed.

(** ** The element names of imported files *)

(** *** One or more of a class, replaced everywhere *)

Section class_plus.
Context (s : jsstring) (cls : char -> bool).

Let other (c : char) : bool := negb (cls c).

Lemma rmatch_plus_none k c :
  (forall x, s !! k = Some x -> cls x = false) -> rmatch (rplus (RChar cls)) s k c = [].
Proof.
  intros Hk. unfold rplus. rewrite rmatch_quant_eq. cbn [repeat_matcher Nat.add].
  rewrite rmatch_char_eq. destruct (s !! k) as [x|]; [|done].
  by rewrite (Hk x eq_refl).
Qed.

Lemma first_plus k c x :
  s !! k = Some x -> cls x = true ->
  first_is (rmatch (rplus (RChar cls)) s k c) (k + class_run cls (drop k s), c).
Proof.
  intros Hx Hc. pose proof (lookup_lt_Some _ _ _ Hx).
  apply first_greedy_class; [lia|]. rewrite (class_run_cons s cls k x Hx Hc). lia.
Qed.

Lemma other_run_bound i : i <= length s -> i + class_run other (drop i s) <= length s.
Proof. intros Hi. pose proof (class_run_le other (drop i s)) as H. rewrite length_drop in H. lia. Qed.

(** [exec] skips what is outside the class and takes the run that follows. *)
Lemma exec_plus i :
  i <= length s ->
  exec (rplus (RChar cls)) s i
  = let k := i + class_run other (drop i s) in
    if decide (k < length s) then Some (RxMatch k (k + class_run cls (drop k s)) ∅)
    else None.
Proof.
  intros Hi. cbv zeta. pose proof (other_run_bound i Hi) as Hk.
  set (k := i + class_run other (drop i s)) in *.
  assert (Hskip : forall k', i <= k' < k -> rmatch (rplus (RChar cls)) s k' ∅ = []).
  { intros k' Hk'. apply rmatch_plus_none. intros x Hx.
    pose proof (class_run_lookup other s i k' x Hk' Hx) as Ho. unfold other in Ho.
    by destruct (cls x). }
  unfold exec. destruct (decide (k < length s)) as [Hlt|Hge].
  - destruct (lookup_lt_is_Some_2 s k Hlt) as [x Hx].
    apply exec_from_first; [lia|lia|done|].
    apply (first_plus k ∅ x Hx).
    destruct (class_run_spec other (drop i s)) as [_ Hstop].
    specialize (Hstop x). rewrite lookup_drop in Hstop. fold k in Hstop.
    specialize (Hstop Hx). unfold other in Hstop. by destruct (cls x).
  - apply exec_from_none. intros k' Hk'.
    destruct (decide (k' < k)) as [Hin|Hout]; [apply Hskip; lia|].
    apply rmatch_plus_none. intros x Hx%lookup_lt_Some. lia.
Qed.

Lemma replace_plus_chars (replacement : jsstring) : forall fuel i,
  i <= length s -> length s - i < fuel ->
  Forall (fun x => cls x = false \/ x ∈ replacement)
    (replace_matches s i (exec_loop fuel (rplus (RChar cls)) s i) replacement).
Proof.
  induction fuel as [|fuel IH]; intros i Hi Hfuel; [lia|].
  cbn [exec_loop]. rewrite exec_plus by done. cbv zeta.
  pose proof (other_run_bound i Hi) as Hk.
  set (k := i + class_run other (drop i s)) in *.
  assert (Hothers : forall j x, i <= j < k -> s !! j = Some x -> cls x = false).
  { intros j x Hj Hx. pose proof (class_run_lookup other s i j x Hj Hx) as Ho.
    unfold other in Ho. by destruct (cls x). }
  destruct (decide (k < length s)) as [Hlt|Hge]; cbn [replace_matches m_index m_end].
  - destruct (lookup_lt_is_Some_2 s k Hlt) as [x Hx].
    assert (Hc : cls x = true).
    { destruct (class_run_spec other (drop i s)) as [_ Hstop].
      specialize (Hstop x). rewrite lookup_drop in Hstop. fold k in Hstop.
      specialize (Hstop Hx). unfold other in Hstop. by destruct (cls x). }
    pose proof (class_run_cons s cls k x Hx Hc) as Hrun.
    pose proof (class_run_le cls (drop k s)) as Hle. rewrite length_drop in Hle.
    apply Forall_app. split; [|apply Forall_app; split].
    + apply Forall_lookup. intros j y Hy. unfold slice in Hy.
      apply lookup_take_Some in Hy as [Hy Hj]. rewrite lookup_drop in Hy.
      left. apply (Hothers (i + j)); [lia|done].
    + apply Forall_forall. auto.
    + apply IH; lia.
  - unfold slice_from. apply Forall_lookup. intros j y Hy. rewrite lookup_drop in Hy.
    pose proof (lookup_lt_Some _ _ _ Hy). left. apply (Hothers (i + j)); [lia|done].
Qed.
End class_plus.

Lemma replace_non_alnum_chars (s : jsstring) :
  Forall (fun x => (is_lower_alnum x || is_dash x) = true)
    (replace_all NON_ALNUM_PATTERN (str "-") s).
Proof.
  unfold replace_all, exec_all, NON_ALNUM_PATTERN.
  eapply Forall_impl; [apply (replace_plus_chars s not_lower_alnum); lia|].
  intros x [Hx|Hx]; cbn beta in *.
  - unfold not_lower_alnum in Hx. by destruct (is_lower_alnum x).
  - apply list_elem_of_singleton in Hx as ->. done.
Qed.

(** *** Dashes at the two ends *)

Section edge_dashes.
Context (s : jsstring).

Let lead : nat := class_run is_dash s.
Let trail : nat := class_run is_dash (reverse s).

Lemma lead_le : lead <= length s.
Proof. apply class_run_le. Qed.

Lemma trail_le : trail <= length s.
Proof. unfold trail. etrans; [apply class_run_le|]. by rewrite length_reverse. Qed.

Lemma trail_dash k x : length s - trail <= k -> s !! k = Some x -> is_dash x = true.
Proof.
  intros Hk Hx. pose proof (lookup_lt_Some _ _ _ Hx) as Hlt.
  apply (class_run_lookup is_dash (reverse s) 0 (length s - S k)).
  - rewrite drop_0. fold trail. lia.
  - rewrite reverse_lookup by lia. rewrite <- Hx. f_equal. lia.
Qed.

Lemma trail_stop x : s !! (length s - S trail) = Some x -> trail < length s -> is_dash x = false.
Proof.
  intros Hx Hlt. destruct (class_run_spec is_dash (reverse s)) as [_ Hstop].
  apply Hstop. fold trail. by rewrite reverse_lookup.
Qed.

Lemma lead_stop x : s !! lead = Some x -> is_dash x = false.
Proof. destruct (class_run_spec is_dash s) as [_ Hstop]. apply Hstop. Qed.

Lemma lead_dash k x : k < lead -> s !! k = Some x -> is_dash x = true.
Proof.
  intros Hk Hx. apply (class_run_lookup is_dash s 0 k); [|done]. rewrite drop_0. fold lead. lia.
Qed.

(** A run of dashes that reaches the end lies in the trailing run. *)
Lemma run_to_end k :
  k <= length s -> k + class_run is_dash (drop k s) = length s -> length s - trail <= k.
Proof.
  intros Hk Hrun. pose proof trail_le as Hle.
  destruct (decide (length s - trail <= k)) as [|Hgt]; [done|]. exfalso.
  destruct (lookup_lt_is_Some_2 s (length s - S trail)) as [x Hx]; [lia|].
  pose proof (trail_stop x Hx ltac:(lia)) as Hno.
  pose proof (class_run_lookup is_dash s k (length s - S trail) x ltac:(lia) Hx). congruence.
Qed.

Lemma tail_run k :
  length s - trail <= k <= length s -> k + class_run is_dash (drop k s) = length s.
Proof.
  intros Hk. rewrite class_run_all; [rewrite length_drop; lia|].
  apply Forall_lookup. intros j x Hx. rewrite lookup_drop in Hx.
  apply (trail_dash (k + j)); [lia|done].
Qed.

Lemma exec_loop_S fuel r i :
  exec_loop (S fuel) r s i
  = match exec r s i with
    | None => []
    | Some m => m :: exec_loop fuel r s (m_end m)
    end.
Proof. reflexivity. Qed.

Lemma rmatch_alt_eq r1 r2 i c :
  rmatch (RAlt r1 r2) s i c = rmatch r1 s i c ++ rmatch r2 s i c.
Proof. reflexivity. Qed.

Lemma rmatch_bol_start r c : rmatch (RSeq RBol r) s 0 c = rmatch r s 0 c.
Proof. cbn [rmatch Nat.eqb mbind list_bind]. apply app_nil_r. Qed.

Lemma edge_none k :
  (k = 0 -> lead = 0) -> k < length s - trail \/ length s <= k ->
  rmatch EDGE_DASHES_PATTERN s k ∅ = [].
Proof.
  intros Hzero Hk. unfold EDGE_DASHES_PATTERN. rewrite rmatch_alt_eq.
  assert (Hfirst : rmatch (RSeq RBol (rplus (RChar is_dash))) s k ∅ = []).
  { destruct k as [|k]; [|apply rmatch_bol_later]. rewrite rmatch_bol_start.
    apply rmatch_plus_none. intros x Hx. apply lead_stop. by rewrite Hzero. }
  rewrite Hfirst, app_nil_l. apply no_match. intros [e c] Hin.
  apply rmatch_seq_inv in Hin as (j & c1 & Hrun & Hend).
  destruct (decide (k <= length s)) as [Hle|Hgt].
  - apply elem_of_rmatch_class in Hrun as [-> Hj]; [|done].
    apply rmatch_eol_inv in Hend as (Hjlen & _).
    pose proof (class_run_le is_dash (drop k s)) as Hbound. rewrite length_drop in Hbound.
    destruct Hk as [Hk|Hk]; [|lia].
    pose proof (run_to_end k Hle ltac:(lia)). lia.
  - rewrite rmatch_plus_none in Hrun; [by apply elem_of_nil in Hrun|].
    intros x Hx%lookup_lt_Some. lia.
Qed.

Lemma edge_head :
  1 <= lead -> first_is (rmatch EDGE_DASHES_PATTERN s 0 ∅) (lead, ∅).
Proof.
  intros Hlead. unfold EDGE_DASHES_PATTERN. rewrite rmatch_alt_eq, rmatch_bol_start.
  pose proof (first_greedy_class s 1 is_dash 0 ∅) as H. rewrite drop_0 in H.
  destruct H as [rest H]; [lia|done|]. cbn [Nat.add] in H. unfold rplus. rewrite H. by eexists.
Qed.

Lemma edge_tail k :
  1 <= k -> length s - trail <= k < length s ->
  first_is (rmatch EDGE_DASHES_PATTERN s k ∅) (length s, ∅).
Proof.
  intros Hpos Hk. unfold EDGE_DASHES_PATTERN. rewrite rmatch_alt_eq.
  destruct k as [|k]; [lia|]. rewrite rmatch_bol_later, app_nil_l.
  eapply first_seq; [|apply first_eol].
  pose proof (first_greedy_class s 1 is_dash (S k) ∅) as H.
  pose proof (tail_run (S k) ltac:(lia)) as Hrun. rewrite Hrun in H. apply H; lia.
Qed.

(** The search for the trailing run, from a position in front of it. *)
Lemma exec_edge_tail i :
  i <= length s -> (i = 0 -> lead = 0) ->
  (forall x, s !! i = Some x -> is_dash x = false) ->
  exec EDGE_DASHES_PATTERN s i
  = if decide (1 <= trail /\ i < length s)
    then Some (RxMatch (length s - trail) (length s) ∅) else None.
Proof.
  intros Hi Hzero Hat. pose proof trail_le as Hle. pose proof lead_le as Hlead. unfold exec.
  destruct (decide (1 <= trail /\ i < length s)) as [[Hsome Hlt]|Hnone].
  - assert (Hbefore : i < length s - trail).
    { destruct (lookup_lt_is_Some_2 s i Hlt) as [x Hx].
      destruct (decide (i < length s - trail)) as [|Hin]; [done|]. exfalso.
      pose proof (trail_dash i x ltac:(lia) Hx). specialize (Hat x Hx). congruence. }
    apply exec_from_first; [lia|lia| |apply edge_tail; lia].
    intros k' Hk'. apply edge_none; [|lia]. intros ->. apply Hzero. lia.
  - apply exec_from_none. intros k Hk. apply edge_none; [|lia].
    intros ->. apply Hzero. lia.
Qed.

(** What is left: the text between the leading and the trailing run. *)
Lemma replace_edge_dashes :
  replace_all EDGE_DASHES_PATTERN [] s = slice s lead (length s - trail).
Proof.
  pose proof trail_le as Hle. pose proof lead_le as Hlead.
  assert (Hend : forall fuel, exec_loop fuel EDGE_DASHES_PATTERN s (length s) = []).
  { intros [|fuel]; [done|]. cbn [exec_loop].
    rewrite exec_edge_tail; [|lia|lia|].
    - rewrite decide_False by lia. done.
    - intros x Hx%lookup_lt_Some. lia. }
  assert (Htail : forall fuel i, i <= length s -> (i = 0 -> lead = 0) ->
            (forall x, s !! i = Some x -> is_dash x = false) ->
            replace_matches s i (exec_loop (S fuel) EDGE_DASHES_PATTERN s i) []
            = slice s i (length s - trail)).
  { intros fuel i Hi Hzero Hat. rewrite exec_loop_S, exec_edge_tail by done.
    destruct (decide (1 <= trail /\ i < length s)) as [[Hsome Hlt]|Hnone].
    - cbn [replace_matches m_index m_end]. rewrite Hend. cbn [replace_matches app].
      unfold slice_from. rewrite drop_all. by rewrite app_nil_r.
    - cbn [replace_matches]. unfold slice_from, slice.
      destruct (decide (i < length s)) as [Hlt|Hge].
      + assert (trail = 0) as -> by lia. rewrite Nat.sub_0_r.
        symmetry. apply take_ge. rewrite length_drop. lia.
      + rewrite drop_ge by lia. by rewrite take_nil. }
  assert (Hmain : forall fuel,
            replace_matches s 0 (exec_loop (S (S fuel)) EDGE_DASHES_PATTERN s 0) []
            = slice s lead (length s - trail)).
  { intros fuel. destruct (decide (1 <= lead)) as [Hpos|Hzero].
    - rewrite exec_loop_S. unfold exec at 1. rewrite Nat.sub_0_r.
      rewrite (exec_from_first s _ _ 0 0 lead ∅); [|lia|lia|intros; lia|by apply edge_head].
      cbn [replace_matches m_index m_end app]. unfold slice at 1. rewrite take_0. cbn [app].
      apply Htail; [lia|lia|]. intros x Hx. by apply lead_stop.
    - assert (lead = 0) as Hl by lia. rewrite Hl.
      apply Htail; [lia|done|]. intros x Hx. apply lead_stop. by rewrite Hl. }
  unfold replace_all, exec_all.
  destruct (decide (length s = 0)) as [Hn|Hn].
  - apply nil_length_inv in Hn. unfold lead, trail. rewrite Hn. done.
  - replace (S (length s)) with (S (S (length s - 1))) by lia. apply Hmain.
Qed.

Lemma strip_head x : head (slice s lead (length s - trail)) = Some x -> is_dash x = false.
Proof.
  rewrite head_lookup. unfold slice. intros [Hx _]%lookup_take_Some.
  rewrite lookup_drop, Nat.add_0_r in Hx. by apply lead_stop.
Qed.

Lemma strip_last x : last (slice s lead (length s - trail)) = Some x -> is_dash x = false.
Proof.
  pose proof trail_le as Hle. pose proof lead_le as Hlead.
  rewrite last_lookup. unfold slice. intros [Hx Hlt]%lookup_take_Some.
  rewrite lookup_drop in Hx. rewrite length_take, length_drop in *.
  assert (Hpos : lead < length s - trail) by lia.
  apply trail_stop; [|lia]. rewrite <- Hx. f_equal. lia.
Qed.

Lemma strip_chars (Q : char -> Prop) :
  Forall Q s -> Forall Q (slice s lead (length s - trail)).
Proof. intros H. unfold slice. by apply Forall_take, Forall_drop. Qed.
End edge_dashes.

Lemma prefix_digit_eq (u : jsstring) :
  prefix_digit u
  = match u with
    | c :: _ => if is_digit c then ch_underscore :: u else u
    | [] => []
    end.
Proof.
  unfold prefix_digit, LEADING_DIGIT_PATTERN. rewrite exec_anchored, rmatch_bol_start.
  destruct u as [|c r]; [done|]. cbn [rmatch lookup list_lookup].
  destruct (is_digit c); [|done].
  cbn [mbind list_bind app m_index m_end]. unfold m_group. cbn [m_caps].
  by rewrite lookup_insert_eq.
Qed.

(** Whatever the path, the element that [formatFilesAsXml] opens for a file
    has a name made of lower-case letters, digits, [-] and [_] that starts
    with a letter or [_] and does not end with [-]. *)
Theorem xml_name_tag (basename toLowerCase_unicode : jsstring -> jsstring) (path : jsstring) :
  tag_name (xml_name basename toLowerCase_unicode path)
  /\ last (xml_name basename toLowerCase_unicode path) <> Some ch_minus.
Proof.
  unfold xml_name. cbv zeta.
  set (x := toLowerCase_unicode _).
  pose proof (replace_non_alnum_chars x) as Hchars.
  set (t := replace_all NON_ALNUM_PATTERN (str "-") x) in *.
  rewrite replace_edge_dashes.
  pose proof (strip_head t) as Hhead. pose proof (strip_last t) as Hlast.
  pose proof (strip_chars t _ Hchars) as Hall.
  set (u := slice t _ _) in *. rewrite prefix_digit_eq.
  destruct u as [|c r].
  - split; [|done]. exists 102%N, (str "ile"). split; [done|]. split; [done|].
    repeat constructor.
  - specialize (Hhead c eq_refl). apply Forall_cons in Hall as [Hc Hr].
    rewrite Hhead, orb_false_r in Hc.
    assert (Hend : last (c :: r) <> Some ch_minus).
    { intros Hl. by specialize (Hlast _ Hl). }
    destruct (is_digit c) eqn:Hd; unfold truthy.
    + rewrite bool_decide_eq_false_2 by done. cbn [negb]. split; [|done].
      exists ch_underscore, (c :: r). split; [done|]. split; [done|].
      constructor; [|done]. unfold is_lower_alnum. by rewrite Hd, orb_true_r.
    + rewrite bool_decide_eq_false_2 by done. cbn [negb]. split; [|done].
      exists c, r. split; [done|]. split; [|done].
      unfold is_lower_alnum in Hc. rewrite Hd, orb_false_r in Hc. by rewrite Hc.
Qed.

(** *** The usual case *)

Lemma replace_non_alnum_id (s : jsstring) :
  Forall (fun x => is_lower_alnum x = true) s ->
  replace_all NON_ALNUM_PATTERN (str "-") s = s.
Proof.
  intros Hall. unfold replace_all, exec_all, NON_ALNUM_PATTERN.
  rewrite exec_loop_S, exec_plus by lia. cbv zeta. rewrite drop_0.
  rewrite class_run_all.
  - rewrite decide_False by lia. done.
  - eapply Forall_impl; [exact Hall|]. intros c Hc. unfold not_lower_alnum.
    by rewrite Hc.
Qed.

Lemma lower_alnum_facts (c : char) :
  is_lower_alnum c = true -> is_dash c = false /\ c <> ch_dot.
Proof.
  unfold is_lower_alnum, is_digit, is_dash, in_range, ceq, ch_minus, ch_dot.
  rewrite !orb_true_iff, !andb_true_iff, !N.leb_le. intros H.
  rewrite N.eqb_neq. lia.
Qed.

Lemma replace_edge_dashes_id (s : jsstring) :
  Forall (fun x => is_lower_alnum x = true) s ->
  replace_all EDGE_DASHES_PATTERN [] s = s.
Proof.
  intros Hall. rewrite replace_edge_dashes.
  assert (Hrun : forall l : jsstring, Forall (fun x => is_lower_alnum x = true) l ->
                   class_run is_dash l = 0).
  { intros [|c l] Hl; [done|]. apply Forall_cons in Hl as [Hc _]. cbn [class_run].
    by destruct (lower_alnum_facts c Hc) as [-> _]. }
  rewrite (Hrun s Hall), (Hrun (reverse s)) by (by apply Forall_reverse).
  unfold slice. rewrite drop_0, !Nat.sub_0_r. by apply take_ge.
Qed.

Section last_extension.
Context (stem ext : jsstring).
Context (Hstem : ch_dot ∉ stem) (Hext : ext <> []) (Hdot : ch_dot ∉ ext).

Let s : jsstring := stem ++ ch_dot :: ext.

Lemma last_extension_exec :
  exec LAST_EXTENSION_PATTERN s 0
  = Some (RxMatch (length stem) (length s) ∅).
Proof.
  assert (Hlen : length s = S (length stem + length ext)).
  { unfold s. rewrite length_app. cbn. lia. }
  assert (Hat : s !! length stem = Some ch_dot) by (unfold s; by rewrite list_lookup_middle).
  assert (Hrun : class_run not_dot (drop (S (length stem)) s) = length ext).
  { unfold s. change (stem ++ ch_dot :: ext) with (stem ++ [ch_dot] ++ ext).
    rewrite app_assoc, drop_app_length' by (rewrite length_app; cbn; lia).
    apply class_run_all. apply Forall_forall. intros x Hx. unfold not_dot, ceq.
    apply negb_true_iff, N.eqb_neq. by intros ->. }
  unfold LAST_EXTENSION_PATTERN. cbn [rseqs foldr].
  apply exec_first; [lia| |].
  - intros k Hk. apply rmatch_seq_lit_fail. unfold s.
    rewrite lookup_app_l by done. intros Hin%list_elem_of_lookup_2. done.
  - eapply first_seq; [by apply first_lit|].
    eapply first_seq.
    { pose proof (first_greedy_class s 1 not_dot (S (length stem)) ∅) as H.
      rewrite Hrun in H. apply H; [lia|]. destruct ext; [done|cbn; lia]. }
    replace (S (length stem) + length ext) with (length s) by lia.
    eapply first_seq; [apply first_eol|apply first_empty].
Qed.

Lemma last_extension_stripped : replace_first LAST_EXTENSION_PATTERN [] s = stem.
Proof.
  unfold replace_first. rewrite last_extension_exec. cbn [m_index m_end app].
  unfold slice, slice_from. rewrite drop_all, app_nil_r, drop_0, Nat.sub_0_r.
  unfold s. by rewrite take_app_length.
Qed.
End last_extension.

(** A file [stem.ext], where [stem] consists of lower-case letters and
    digits and starts with a letter, gets the element name [stem]. *)
Theorem xml_name_stem (basename toLowerCase_unicode : jsstring -> jsstring)
    (path stem ext : jsstring) (c : char) (rest : jsstring) :
  basename path = stem ++ ch_dot :: ext -> ext <> [] -> ch_dot ∉ ext ->
  stem = c :: rest -> in_range 97 122 c = true ->
  Forall (fun x => is_lower_alnum x = true) rest ->
  toLowerCase_unicode stem = stem ->
  xml_name basename toLowerCase_unicode path = stem.
Proof.
  intros Hbase Hext Hdot Hstem Hc Hrest Hlower.
  assert (Hall : Forall (fun x => is_lower_alnum x = true) stem).
  { rewrite Hstem. constructor; [|done]. unfold is_lower_alnum. by rewrite Hc. }
  assert (Hnodot : ch_dot ∉ stem).
  { intros Hin. rewrite Forall_forall in Hall.
    by destruct (lower_alnum_facts _ (Hall _ Hin)) as [_ ?]. }
  unfold xml_name. cbv zeta.
  rewrite Hbase, last_extension_stripped, Hlower by done.
  rewrite replace_non_alnum_id, replace_edge_dashes_id, prefix_digit_eq by done.
  rewrite Hstem.
  assert (Hnd : is_digit c = false).
  { revert Hc. unfold is_digit, in_range. rewrite andb_true_iff, !N.leb_le.
    intros Hc. apply andb_false_iff. rewrite !N.leb_gt. lia. }
  rewrite Hnd. unfold truthy. by rewrite bool_decide_eq_false_2.
Qed.

Lemma xml_name_stem_witness :
  xml_name (last_component []) toLowerCase (str "src/utils2.ts") = str "utils2".
Proof.
  apply (xml_name_stem _ _ _ (str "utils2") (str "ts") 117%N (str "tils2")).
  - by vm_compute.
  - done.
  - apply (bool_decide_unpack _). by vm_compute.
  - done.
  - done.
  - repeat constructor.
  - by vm_compute.
Defined.

Example xml_name_examples :
  xml_name (last_component []) toLowerCase (str "docs/My File.v2.TXT") = str "my-file-v2"
  /\ xml_name (last_component []) toLowerCase (str "app/.env") = str "file"
  /\ xml_name (last_component []) toLowerCase (str "2fa--.md") = str "_2fa".
Proof. by vm_compute. Qed.

(** ** Positional keys *)

Lemma isPositionalKey_iff (key : jsstring) :
  isPositionalKey key = true <-> exists ds, key = ch_dollar :: ds /\ positional_digits ds.
Proof.
  unfold isPositionalKey, test. rewrite bool_decide_eq_true. split.
  - intros [m Hex]. apply exec_spec in Hex as [_ Hm].
    pose proof (matched_elem _ _ _ Hm) as Hin. destruct Hm as [Hidx _].
    destruct m as [idx e caps]. cbn [m_index m_end m_caps] in *.
    unfold POSITIONAL_KEY_PATTERN in Hin. cbn [rseqs foldr] in Hin.
    apply rmatch_seq_inv in Hin as (j0 & c0 & (-> & -> & ->)%rmatch_bol_inv & Hin).
    apply rmatch_seq_inv in Hin as (j1 & c1 & (Hd & -> & ->)%rmatch_lit_char_inv & Hin).
    pose proof (lookup_lt_Some _ _ _ Hd) as Hlt.
    apply rmatch_seq_inv in Hin as (j2 & c2 & Hrun & Hin).
    apply elem_of_rmatch_class in Hrun as [-> Hj2]; [|lia].
    apply rmatch_seq_inv in Hin as (j3 & c3 & (Hend & -> & ->)%rmatch_eol_inv & _).
    destruct key as [|x ds]; [done|]. injection Hd as ->. exists ds.
    cbn [drop length] in *. rewrite drop_0 in Hj2. split; [done|].
    pose proof (class_run_le is_digit ds) as Hle.
    destruct (class_run_spec is_digit ds) as [Hall _].
    assert (Hfull : class_run is_digit ds = length ds) by lia.
    rewrite Hfull, firstn_all in Hall. split; [|done].
    intros ->. cbn in *. lia.
  - intros (ds & -> & Hne & Hall).
    assert (Hrun : class_run is_digit (drop 1 (ch_dollar :: ds)) = length ds).
    { cbn [drop]. rewrite drop_0. by apply class_run_all. }
    eexists. apply (exec_first _ _ 0); [lia|lia|].
    unfold POSITIONAL_KEY_PATTERN. cbn [rseqs foldr].
    eapply first_seq; [apply first_bol|].
    eapply first_seq; [by apply first_lit|].
    eapply first_seq.
    { apply first_greedy_class; [cbn; lia|]. rewrite Hrun. destruct ds; [done|cbn; lia]. }
    rewrite Hrun. eapply first_seq; [apply (first_eol (ch_dollar :: ds))|apply first_empty].
Qed.

Lemma snoc_decompose {A : Type} (l : list A) (x e : A) (before after : list A) :
  l ++ [x] = before ++ e :: after ->
  (after = [] /\ l = before /\ x = e)
  \/ exists after', after = after' ++ [x] /\ l = before ++ e :: after'.
Proof.
  destruct after as [|y after _] using rev_ind.
  - intros [-> ->]%app_inj_tail. by left.
  - rewrite app_comm_cons, app_assoc. intros [-> ->]%app_inj_tail. right. eauto.
Qed.

(** A position, a number, is mapped to the flag of the last key [$digits]
    with a string value whose digits [parseInt] reads as that number: the
    value of the digits, exact below [2^53] and rounded to the nearest
    number from there on.  Keys that differ only in leading zeros, or whose
    digits round to the same number, name the same position. *)
Theorem extractPositionalMappings_lookup (frontmatter : list (jsstring * value))
    (pos : Z) (flag : jsstring) :
  extractPositionalMappings frontmatter !! pos = Some flag
  <-> exists before ds after,
        frontmatter = before ++ (ch_dollar :: ds, VStr flag) :: after
        /\ positional_digits ds /\ parseInt_decimal ds = pos
        /\ forall ds' flag', (ch_dollar :: ds', VStr flag') ∈ after ->
             positional_digits ds' -> parseInt_decimal ds' <> pos.
Proof.
  unfold extractPositionalMappings.
  induction frontmatter as [|[k v] fm IH] using rev_ind.
  - cbn. split; [done|]. intros (before & ds & after & Heq & _). by destruct before.
  - rewrite fold_left_app. cbn [fold_left fst snd].
    set (m := fold_left _ fm ∅) in *.
    assert (Hkeep : (exists ds f, k = ch_dollar :: ds /\ v = VStr f /\ positional_digits ds
                                  /\ parseInt_decimal ds = pos) \/
                    ((forall ds f, k = ch_dollar :: ds -> v = VStr f -> positional_digits ds ->
                                   parseInt_decimal ds <> pos))).
    { destruct (isPositionalKey k) eqn:Hk.
      - apply isPositionalKey_iff in Hk as (ds & -> & Hds).
        destruct v as [| | | |f| |]; try (right; intros; congruence).
        destruct (decide (parseInt_decimal ds = pos)); [left; eauto 10|].
        right. intros ds' f' [= <-] _ _. done.
      - right. intros ds f -> _ Hds. exfalso.
        assert (isPositionalKey (ch_dollar :: ds) = true); [|congruence].
        apply isPositionalKey_iff. eauto. }
    destruct Hkeep as [(ds & f & -> & -> & Hds & Hpos)|Hother].
    + rewrite (proj2 (isPositionalKey_iff _)) by eauto. cbn [drop]. rewrite drop_0, Hpos.
      rewrite lookup_insert_eq. split.
      * intros [= ->]. exists fm, ds, []. split_and!; [done..|].
        intros ds' flag' Hin. by apply elem_of_nil in Hin.
      * intros (before & ds0 & after & Heq & Hds0 & Hpos0 & Hlast).
        apply snoc_decompose in Heq as [(-> & -> & [= -> ->])|(after' & -> & ->)]; [done|].
        exfalso. apply (Hlast ds f); [|done|done]. apply elem_of_app. right. left.
    + assert (Hm : match v with
                   | VStr flag0 =>
                       if isPositionalKey k then <[parseInt_decimal (drop 1 k) := flag0]> m else m
                   | _ => m
                   end !! pos = m !! pos).
      { destruct v as [| | | |f| |]; try done.
        destruct (isPositionalKey k) eqn:Hk; [|done].
        apply isPositionalKey_iff in Hk as (ds & -> & Hds). cbn [drop]. rewrite drop_0.
        rewrite lookup_insert_ne; [done|]. by apply (Hother ds f). }
      rewrite Hm, IH. split.
      * intros (before & ds & after & -> & Hds & Hpos & Hlast).
        exists before, ds, (after ++ [(k, v)]). split_and!; [by rewrite <- app_assoc|done..|].
        intros ds' flag' [Hin|Hin%list_elem_of_singleton]%elem_of_app Hds'.
        -- by apply (Hlast ds' flag').
        -- injection Hin as <- <-. by apply (Hother ds' flag').
      * intros (before & ds & after & Heq & Hds & Hpos & Hlast).
        apply snoc_decompose in Heq as [(-> & -> & [= -> ->])|(after' & -> & ->)].
        -- exfalso. by apply (Hother ds flag).
        -- exists before, ds, after'. split_and!; [done..|].
           intros ds' flag' Hin. apply (Hlast ds' flag'). apply elem_of_app. by left.
Qed.

Lemma parseInt_decimal_exact (ds : jsstring) :
  (parse_digits ds < 2 ^ 53)%Z -> parseInt_decimal ds = parse_digits ds.
Proof.
  intros Hlt. unfold parseInt_decimal, to_double.
  by rewrite (proj2 (Z.ltb_lt _ _) Hlt).
Qed.

(** Leading zeros do not matter; from [2^53] on, neighbouring positions
    fall together and the later key wins. *)
Example extractPositionalMappings_rounding :
  extractPositionalMappings [(str "$1", VStr (str "a")); (str "$01", VStr (str "b"))]
    = {[ 1%Z := str "b" ]}
  /\ extractPositionalMappings [(str "$9007199254740992", VStr (str "a"));
                                (str "$9007199254740993", VStr (str "b"))]
     = {[ 9007199254740992%Z := str "b" ]}.
Proof. split; by vm_compute. Qed.

(** ** Symbols *)

Example extractSymbol_examples :
  let content :=
    str "import x" ++ [ch_nl] ++ str "export interface Foo {" ++ [ch_nl] ++ str "  a: string;"
    ++ [ch_nl] ++ str "}" ++ [ch_nl] ++ str "const bar = 1;" in
  Symbols.extractSymbol content (str "Foo")
  = Ok (str "export interface Foo {" ++ [ch_nl] ++ str "  a: string;" ++ [ch_nl] ++ str "}")
  /\ Symbols.extractSymbol content (str "bar") = Ok (str "const bar = 1;")
  /\ Symbols.extractSymbol content (str "baz") = Throw (symbol_not_found (str "baz")).
Proof. by vm_compute. Qed.

Section min_length.
Context (s : jsstring).

Lemma min_len_sound r : forall i c j c',
  (j, c') ∈ rmatch r s i c -> i <= length s -> i + min_len r <= j.
Proof.
  induction r as [cls| |r1 IH1 r2 IH2|r1 IH1 r2 IH2|greedy lo hi r IH|n r IH|n| |];
    intros i c j c' Hin Hi; cbn [min_len];
    try (pose proof (rmatch_bounds s _ _ _ _ _ Hin Hi); lia).
  - apply rmatch_char_inv in Hin as (x & _ & _ & -> & _). lia.
  - apply rmatch_seq_inv in Hin as (j1 & c1 & H1 & H2).
    pose proof (rmatch_bounds s _ _ _ _ _ H1 Hi).
    apply IH1 in H1; [|done]. apply IH2 in H2; lia.
  - cbn in Hin. apply elem_of_app in Hin as [Hin|Hin]; [apply IH1 in Hin|apply IH2 in Hin]; lia.
  - apply rmatch_group_inv in Hin as (c1 & H1 & _). by apply (IH i c j c1).
Qed.

(** A name with [$] in it can only match up to the end of the input. *)
Lemma symbol_name_dollar (symbolName : jsstring) : forall i c j c',
  ch_dollar ∈ symbolName ->
  (j, c') ∈ rmatch (symbol_name_regex symbolName) s i c -> i <= length s -> j = length s.
Proof.
  induction symbolName as [|x name IH]; intros i c j c' Hdollar Hin Hi.
  { by apply elem_of_nil in Hdollar. }
  unfold symbol_name_regex in Hin. cbn [map rseqs foldr] in Hin.
  apply rmatch_seq_inv in Hin as (j1 & c1 & H1 & H2).
  destruct (ceq x ch_dollar) eqn:Hx.
  - apply rmatch_eol_inv in H1 as (-> & -> & ->).
    pose proof (rmatch_bounds s _ _ _ _ _ H2 Hi). lia.
  - apply elem_of_cons in Hdollar as [Heq|Hdollar];
      [subst x; unfold ceq in Hx; by rewrite N.eqb_refl in Hx|].
    apply rmatch_lit_char_inv in H1 as (Hlook & -> & ->).
    apply lookup_lt_Some in Hlook. by apply (IH (S i) c j c').
Qed.

Lemma declaration_dollar (symbolName : jsstring) (after : list regex) :
  ch_dollar ∈ symbolName -> 1 <= min_len (rseqs after) ->
  forall before i c, i <= length s -> rmatch (declaration before after symbolName) s i c = [].
Proof.
  intros Hdollar Hafter before.
  induction before as [|r before IH]; intros i c Hi; apply no_match; intros [j c'] Hin;
    unfold declaration in Hin; cbn [app rseqs foldr] in Hin;
    apply rmatch_seq_inv in Hin as (j1 & c1 & H1 & H2).
  - pose proof (symbol_name_dollar symbolName i c j1 c1 Hdollar H1 Hi) as ->.
    pose proof (rmatch_bounds s _ _ _ _ _ H2 ltac:(lia)).
    apply min_len_sound in H2; [|lia]. unfold rseqs in Hafter. lia.
  - pose proof (rmatch_bounds s _ _ _ _ _ H1 Hi).
    fold (rseqs (before ++ symbol_name_regex symbolName :: after)) in H2.
    fold (declaration before after symbolName) in H2.
    rewrite IH in H2 by lia. by apply elem_of_nil in H2.
Qed.
End min_length.

Lemma declares_dollar (symbolName line : jsstring) :
  ch_dollar ∈ symbolName -> declares symbolName line = false.
Proof.
  intros Hdollar. unfold declares, symbol_patterns. cbn [existsb].
  repeat (rewrite (bool_decide_eq_false_2 (is_Some _)) ||
          match goal with
          | |- context [test (declaration (RBol :: ?before) ?after symbolName) line] =>
              unfold test at 1;
              change (declaration (RBol :: before) after symbolName)
                with (RSeq RBol (declaration before after symbolName));
              rewrite (exec_anchored line (declaration before after symbolName));
              change (RSeq RBol (declaration before after symbolName))
                with (declaration (RBol :: before) after symbolName);
              rewrite (declaration_dollar line symbolName after Hdollar ltac:(cbn; lia)
                         (RBol :: before) 0 ∅ ltac:(lia))
          end).
  all: try done.
  all: by intros [? ?].
Qed.

Lemma extract_loop_none (symbolName : jsstring) (lines rest : list jsstring) : forall i st,
  Forall (fun l => l = [] \/ declares symbolName (trim l) = false) rest ->
  extract_loop symbolName lines i rest None false st = Throw (symbol_not_found symbolName).
Proof.
  induction rest as [|l rest IH]; intros i st Hall; cbn [extract_loop]; [done|].
  apply Forall_cons in Hall as [Hl Hall]. unfold truthy.
  destruct Hl as [->|Hl].
  - rewrite bool_decide_eq_true_2 by done. cbn [negb]. by apply IH.
  - destruct (negb (negb (bool_decide (l = [])))); [by apply IH|].
    cbv zeta. rewrite Hl. by apply IH.
Qed.

(** A symbol with [$] in its name (a name of letters, digits, [_] and [$],
    as the parser of the directives passes it) is never found, whatever the
    file declares: in the patterns the [$] of the name stands for the end of
    the line, and every pattern asks for more after the name. *)
Theorem extractSymbol_dollar (content symbolName : jsstring) :
  Forall (fun c => ident_char c = true) symbolName -> ch_dollar ∈ symbolName ->
  Symbols.extractSymbol content symbolName = Throw (symbol_not_found symbolName).
Proof.
  intros _ Hdollar. unfold Symbols.extractSymbol, extractSymbol_lines.
  apply extract_loop_none. apply Forall_forall. intros l _. right.
  by apply declares_dollar.
Qed.

Lemma extractSymbol_dollar_witness :
  Symbols.extractSymbol (str "const $store = 1;") (str "$store")
  = Throw (symbol_not_found (str "$store")).
Proof.
  apply extractSymbol_dollar.
  - repeat constructor.
  - apply (bool_decide_unpack _). by vm_compute.
Defined.

(** *** The block that is returned *)

Lemma array_slice_block {A : Type} (l : list A) (from to : nat) :
  from <= to <= length l ->
  array_slice l (Z.of_nat from) (Z.of_nat to) = take (to - from) (drop from l).
Proof.
  intros H. unfold array_slice, relative_index.
  rewrite !(proj2 (Z.ltb_ge _ _)) by lia. rewrite !Nat2Z.id.
  by rewrite !Nat.min_l by lia.
Qed.

Lemma extract_loop_started (symbolName : jsstring) (lines : list jsstring) (from : nat)
    (rest : list jsstring) : forall visited found st result,
  lines = visited ++ rest -> from < length lines -> from <= length visited ->
  extract_loop symbolName lines (length visited) rest (Some from) found st = result ->
  exists n, 1 <= n /\ result = Ok (join [ch_nl] (take n (drop from lines))).
Proof.
  induction rest as [|l rest IH]; intros visited found st result Hlines Hfrom Hvis Hres;
    cbn [extract_loop] in Hres.
  - exists (length lines - from). split; [lia|]. subst result. f_equal. f_equal.
    symmetry. apply take_ge. rewrite length_drop. lia.
  - assert (Hnext : lines = (visited ++ [l]) ++ rest) by (by rewrite <- app_assoc).
    assert (Hlen : length (visited ++ [l]) = S (length visited)).
    { rewrite length_app. cbn. lia. }
    destruct (negb (truthy l)).
    + rewrite <- Hlen in Hres. eapply IH; [exact Hnext|done|lia|exact Hres].
    + cbv zeta in Hres. cbn match in Hres.
      destruct (declaration_ends _ _ _ _ _).
      * exists (length visited + 1 - from). split; [lia|]. subst result. f_equal. f_equal.
        apply array_slice_block. rewrite Hlines, length_app. cbn. lia.
      * rewrite <- Hlen in Hres. eapply IH; [exact Hnext|done|lia|exact Hres].
Qed.

Lemma extract_loop_block (symbolName : jsstring) (lines : list jsstring)
    (rest : list jsstring) : forall visited st text,
  lines = visited ++ rest ->
  Forall (fun l => l = [] \/ declares symbolName (trim l) = false) visited ->
  extract_loop symbolName lines (length visited) rest None false st = Ok text ->
  exists from first n,
    lines !! from = Some first /\ first <> [] /\ declares symbolName (trim first) = true
    /\ Forall (fun l => l = [] \/ declares symbolName (trim l) = false) (take from lines)
    /\ 1 <= n /\ text = join [ch_nl] (take n (drop from lines)).
Proof.
  induction rest as [|l rest IH]; intros visited st text Hlines Hvis Hres;
    cbn [extract_loop] in Hres; [done|].
  assert (Hnext : lines = (visited ++ [l]) ++ rest) by (by rewrite <- app_assoc).
  assert (Hlen : length (visited ++ [l]) = S (length visited)).
  { rewrite length_app. cbn. lia. }
  assert (Hat : lines !! length visited = Some l).
  { rewrite Hlines. by rewrite list_lookup_middle. }
  pose proof (lookup_lt_Some _ _ _ Hat) as Hlt.
  unfold truthy in Hres. destruct (decide (l = [])) as [->|Hne].
  - rewrite bool_decide_eq_true_2 in Hres by done. cbn [negb] in Hres.
    rewrite <- Hlen in Hres. eapply IH; [exact Hnext| |exact Hres].
    apply Forall_app. split; [done|]. constructor; [by left|constructor].
  - rewrite bool_decide_eq_false_2 in Hres by done. cbn [negb] in Hres. cbv zeta in Hres.
    destruct (declares symbolName (trim l)) eqn:Hd.
    + assert (Hblock : exists n, 1 <= n
                /\ Ok text = Ok (join [ch_nl] (take n (drop (length visited) lines)))).
      { destruct (declaration_ends _ _ _ _ _).
        - exists 1. split; [lia|]. rewrite <- Hres. f_equal. f_equal.
          rewrite array_slice_block by lia. f_equal. lia.
        - rewrite <- Hlen in Hres.
          eapply (extract_loop_started symbolName lines (length visited) rest (visited ++ [l]));
            [exact Hnext|done|lia|exact Hres]. }
      destruct Hblock as (n & Hn & [= ->]).
      exists (length visited), l, n. split_and!; try done.
      rewrite Hlines. by rewrite take_app_length.
    + rewrite <- Hlen in Hres. eapply IH; [exact Hnext| |exact Hres].
      apply Forall_app. split; [done|]. constructor; [by right|constructor].
Qed.

(** When [extractSymbol] returns, it returns a block of consecutive lines of
    the file that begins at the first non-empty line whose trimmed text
    declares the symbol. *)
Theorem extractSymbol_block (content symbolName text : jsstring) :
  Symbols.extractSymbol content symbolName = Ok text ->
  exists from first n,
    split_on ch_nl content !! from = Some first
    /\ first <> [] /\ declares symbolName (trim first) = true
    /\ Forall (fun l => l = [] \/ declares symbolName (trim l) = false)
         (take from (split_on ch_nl content))
    /\ 1 <= n /\ text = join [ch_nl] (take n (drop from (split_on ch_nl content))).
Proof.
  unfold Symbols.extractSymbol, extractSymbol_lines. intros Hres.
  eapply (extract_loop_block symbolName _ _ []); [done|constructor|exact Hres].
Qed.

Lemma extractSymbol_block_witness :
  exists from first n,
    split_on ch_nl (str "let a = 1;" ++ [ch_nl] ++ str "let b = 2;") !! from = Some first
    /\ first <> [] /\ declares (str "b") (trim first) = true
    /\ Forall (fun l => l = [] \/ declares (str "b") (trim l) = false)
         (take from (split_on ch_nl (str "let a = 1;" ++ [ch_nl] ++ str "let b = 2;")))
    /\ 1 <= n
    /\ str "let b = 2;"
       = join [ch_nl] (take n (drop from (split_on ch_nl (str "let a = 1;" ++ [ch_nl]
                                                            ++ str "let b = 2;")))).
Proof.
  apply (extractSymbol_block _ (str "b")). by vm_compute.
Defined.

(** ** Commands that are Markdown files *)

Section membership.
Context (s : jsstring).

Lemma elem_seq r1 r2 i c j1 c1 j c' :
  (j1, c1) ∈ rmatch r1 s i c -> (j, c') ∈ rmatch r2 s j1 c1 ->
  (j, c') ∈ rmatch (RSeq r1 r2) s i c.
Proof. intros H1 H2. cbn [rmatch]. apply list_elem_of_bind. by exists (j1, c1). Qed.

Lemma elem_group n r i c j c1 :
  (j, c1) ∈ rmatch r s i c -> (j, <[n := (i, j)]> c1) ∈ rmatch (RGroup n r) s i c.
Proof.
  intros H. cbn [rmatch]. apply list_elem_of_bind. exists (j, c1). split; [|done].
  apply list_elem_of_here.
Qed.

Lemma elem_opt_skip r i c : (i, c) ∈ rmatch (ropt r) s i c.
Proof. cbn. apply elem_of_app. right. apply list_elem_of_here. Qed.

Lemma rmatch_lit_eq (lit : jsstring) : forall i c,
  rmatch (rlit lit) s i c
  = if decide (take (length lit) (drop i s) = lit) then [(i + length lit, c)] else [].
Proof.
  induction lit as [|x lit IH]; intros i c.
  - cbn. by rewrite Nat.add_0_r.
  - change (rlit (x :: lit)) with (RSeq (rlit_char x) (rlit lit)).
    cbn [rmatch length]. unfold rlit_char. rewrite rmatch_char_eq.
    destruct (s !! i) as [y|] eqn:Hy.
    + rewrite (drop_S _ _ _ Hy). cbn [take]. unfold ceq.
      destruct (N.eqb_spec x y) as [->|Hne].
      * cbn [mbind list_bind]. rewrite app_nil_r, IH.
        destruct (decide (take (length lit) (drop (S i) s) = lit)) as [Heq|Hne].
        -- rewrite decide_True by congruence. f_equal. f_equal. lia.
        -- rewrite decide_False; [done|]. intros [=]. congruence.
      * cbn [mbind list_bind]. rewrite decide_False; [done|]. intros [=]. congruence.
    + cbn [mbind list_bind]. rewrite drop_ge by (by apply lookup_ge_None).
      by rewrite take_nil, decide_False.
Qed.

Lemma exec_some r j c :
  (j, c) ∈ rmatch r s 0 ∅ -> is_Some (exec r s 0).
Proof.
  intros Hin. unfold exec. rewrite Nat.sub_0_r. cbn [exec_from].
  destruct (rmatch r s 0 ∅) as [|[e c'] rest]; [by apply elem_of_nil in Hin|by eexists].
Qed.

Lemma solid_trans i j k : solid s i j -> solid s j k -> solid s i k.
Proof.
  intros H1 H2 n x Hn Hx. destruct (decide (n < j)); [apply (H1 n)|apply (H2 n)]; done || lia.
Qed.

Lemma solid_opt_lit ch i c j c' :
  is_space ch = false -> (j, c') ∈ rmatch (ropt (rlit_char ch)) s i c ->
  i <= j /\ solid s i j.
Proof.
  intros Hch [[= -> ->]|(Hx & -> & ->)%rmatch_lit_char_inv]%rmatch_opt_inv.
  - split; [lia|]. intros k x Hk. lia.
  - split; [lia|]. intros k x Hk Hk'. assert (k = i) as -> by lia. congruence.
Qed.
End membership.

Lemma md_file_sound (s : jsstring) :
  test MD_FILE_COMMAND_PATTERN s = true -> md_file_word s.
Proof.
  unfold test. intros [m Hex]%bool_decide_eq_true.
  apply exec_spec in Hex as [_ Hm]. pose proof (matched_elem _ _ _ Hm) as Hin.
  destruct Hm as [Hidx _]. destruct m as [idx e caps]. cbn [m_index m_end m_caps] in *.
  unfold MD_FILE_COMMAND_PATTERN in Hin. cbn [rseqs foldr] in Hin.
  apply rmatch_seq_inv in Hin as (j0 & c0 & (-> & -> & ->)%rmatch_bol_inv & Hin).
  apply rmatch_seq_inv in Hin as (j1 & c1 & Hpre & Hin).
  assert (Hsolid1 : j1 <= length s /\ solid s 0 j1).
  { apply rmatch_opt_inv in Hpre as [[= -> ->]|Hpre].
    { split; [lia|]. intros k x Hk. lia. }
    apply rmatch_group_inv in Hpre as (c' & Hpre & _).
    pose proof (rmatch_bounds s _ _ _ _ _ Hpre ltac:(lia)) as Hb.
    apply rmatch_seq_inv in Hpre as (k1 & d1 & [Hk1 Hs1]%solid_opt_lit & Hpre); [|done].
    apply rmatch_seq_inv in Hpre as (k2 & d2 & [Hk2 Hs2]%solid_opt_lit & Hpre); [|done].
    apply rmatch_seq_inv in Hpre as (k3 & d3 & [Hk3 Hs3]%solid_opt_lit & Hpre); [|done].
    apply rmatch_seq_inv in Hpre
      as (k4 & d4 & (Hslash & -> & ->)%rmatch_lit_char_inv & (-> & ->)%rmatch_empty_inv).
    split; [lia|].
    eapply solid_trans; [exact Hs1|]. eapply solid_trans; [exact Hs2|].
    eapply solid_trans; [exact Hs3|].
    intros k x Hk Hx. assert (k = k3) as -> by lia. rewrite Hslash in Hx. by injection Hx as <-. }
  destruct Hsolid1 as [Hj1 Hsolid1].
  apply rmatch_seq_inv in Hin as (j2 & c2 & Hword & Hin).
  apply elem_of_rmatch_class in Hword as [-> Hj2]; [|done].
  assert (Hsolid2 : solid s 0 j2).
  { eapply solid_trans; [exact Hsolid1|]. intros k x Hk Hx.
    pose proof (class_run_lookup not_space s j1 k x ltac:(lia) Hx) as Hns.
    unfold not_space in Hns. by destruct (is_space x). }
  apply rmatch_seq_inv in Hin as (j3 & c3 & Hlit & Hin).
  rewrite rmatch_lit_eq in Hlit.
  destruct (decide (take (length (str ".md")) (drop j2 s) = str ".md")) as [Htext|];
    [|by apply elem_of_nil in Hlit].
  apply list_elem_of_singleton in Hlit. injection Hlit as -> ->.
  apply rmatch_seq_inv in Hin as (j4 & c4 & Hend & _).
  apply rmatch_group_inv in Hend as (c5 & Hend & _).
  cbn [rmatch] in Hend. fold (rmatch (RChar is_space) s (j2 + length (str ".md")) c1) in Hend.
  exists (take j2 s), (drop (j2 + 3) s). split_and!.
  - change (length (str ".md")) with 3 in Htext.
    rewrite <- (take_drop j2 s) at 1. f_equal.
    rewrite <- (take_drop 3 (drop j2 s)) at 1. rewrite Htext. f_equal.
    by rewrite drop_drop.
  - intros Hnil. apply (f_equal length) in Hnil. rewrite length_take in Hnil.
    cbn in Hnil. pose proof (class_run_le not_space (drop j1 s)) as Hle.
    rewrite length_drop in Hle. lia.
  - apply Forall_lookup. intros k x [Hx Hk]%lookup_take_Some. apply (Hsolid2 k); [lia|done].
  - apply elem_of_app in Hend as [Hsp|Heol].
    + apply rmatch_char_inv in Hsp as (x & Hx & Hsp & _). right.
      exists x, (drop (S (j2 + 3)) s). split; [|done].
      change (length (str ".md")) with 3 in Hx. by apply drop_at.
    + apply rmatch_eol_inv in Heol as (Hlen & _). left.
      change (length (str ".md")) with 3 in Hlen. apply drop_ge. lia.
Qed.

Lemma md_file_complete (s : jsstring) :
  md_file_word s -> test MD_FILE_COMMAND_PATTERN s = true.
Proof.
  intros (word & rest & -> & Hne & Hword & Hrest).
  set (s := word ++ str ".md" ++ rest).
  assert (Hdrop : drop (length word) s = str ".md" ++ rest).
  { unfold s. by rewrite drop_app_length. }
  assert (Hdrop3 : drop (length word + 3) s = rest).
  { rewrite <- drop_drop, Hdrop. done. }
  assert (Hlen : length s = length word + 3 + length rest).
  { unfold s. rewrite !length_app. cbn. lia. }
  unfold test. apply bool_decide_eq_true.
  assert (Hend : exists c', (length word + 3 + match rest with [] => 0 | _ => 1 end, c')
                   ∈ rmatch (RGroup 2 (RAlt (RChar is_space) REol)) s (length word + 3) ∅).
  { destruct Hrest as [->|(x & rest' & -> & Hx)]; eexists.
    - rewrite Nat.add_0_r. apply elem_group. cbn [rmatch]. apply elem_of_app. right.
      replace (length word + 3 =? length s) with true by (symmetry; apply Nat.eqb_eq; cbn in Hlen; lia).
      apply list_elem_of_here.
    - replace (length word + 3 + 1) with (S (length word + 3)) by lia.
      apply elem_group. cbn [rmatch]. apply elem_of_app. left.
      assert (Hat : s !! (length word + 3) = Some x).
      { rewrite <- (Nat.add_0_r (length word + 3)), <- lookup_drop, Hdrop3. done. }
      rewrite Hat, Hx. apply list_elem_of_here. }
  destruct Hend as [c' Hend].
  eapply (exec_some s). unfold MD_FILE_COMMAND_PATTERN. cbn [rseqs foldr].
  eapply elem_seq; [apply list_elem_of_here|].
  eapply elem_seq; [apply elem_opt_skip|].
  eapply elem_seq.
  { apply (elem_of_rmatch_class s true 1 not_space 0 ∅ (length word) ∅); [lia|].
    split; [done|]. rewrite drop_0. unfold s. rewrite class_run_app.
    - destruct word; [done|cbn; lia].
    - eapply Forall_impl; [exact Hword|]. intros x Hx. unfold not_space. by rewrite Hx. }
  eapply elem_seq.
  { rewrite rmatch_lit_eq, Hdrop. rewrite decide_True by done. apply list_elem_of_here. }
  eapply elem_seq; [exact Hend|]. apply list_elem_of_here.
Qed.

(** [isMarkdownFileCommand] holds exactly of the commands whose first word,
    after trimming, ends with [.md] and is longer than that: the word is
    followed by white space or by nothing. *)
Theorem isMarkdownFileCommand_iff (command : jsstring) :
  isMarkdownFileCommand command = true <-> md_file_word (trim command).
Proof.
  unfold isMarkdownFileCommand. split; [apply md_file_sound|apply md_file_complete].
Qed.

Example isMarkdownFileCommand_examples :
  isMarkdownFileCommand (str " ./review.claude.md --x ") = true
  /\ isMarkdownFileCommand (str "cat notes.md") = false
  /\ isMarkdownFileCommand (str "notes.mdx") = false
  /\ isMarkdownFileCommand (str ".md") = false.
Proof. by vm_compute. Qed.

(** ** Environment files: bare values, quoted values and blocks *)

Lemma endsWith_last (q : char) (l : jsstring) :
  endsWith [q] l = bool_decide (last l = Some q).
Proof.
  unfold endsWith. destruct l as [|x l _] using rev_ind; [done|].
  rewrite length_app, last_snoc. cbn [length].
  replace (1 <=? length l + 1) with true by (symmetry; apply Nat.leb_le; lia).
  replace (length l + 1 - 1) with (length l) by lia.
  rewrite drop_app_length. cbn [andb].
  destruct (decide (x = q)) as [->|Hne].
  - by rewrite !bool_decide_eq_true_2.
  - rewrite !bool_decide_eq_false_2; [done|congruence|congruence].
Qed.

Lemma env_quote_facts (q : char) :
  env_quote q -> is_space q = false /\ is_line_terminator q = false /\ q <> ch_nl.
Proof. by intros [->| ->]. Qed.

Lemma trimEnd_snoc (l : jsstring) (q : char) :
  is_space q = false -> trimEnd (l ++ [q]) = l ++ [q].
Proof.
  intros Hq. unfold trimEnd. rewrite rev_app_distr. cbn [rev app trim_start].
  rewrite Hq. cbn [rev]. by rewrite rev_involutive.
Qed.

Lemma trim_quoted (q : char) (v : jsstring) :
  is_space q = false -> trim (q :: v ++ [q]) = q :: v ++ [q].
Proof.
  intros Hq. apply trim_fixed; cbn [trim_start rev]; [by rewrite Hq|].
  rewrite rev_app_distr. cbn [rev app trim_start]. by rewrite Hq.
Qed.

Lemma trim_opened (q : char) (first : jsstring) :
  is_space q = false -> trim_start (rev first) = rev first ->
  trim (q :: first) = q :: first.
Proof.
  intros Hq Htrail. apply trim_fixed; cbn [trim_start rev]; [by rewrite Hq|].
  by rewrite trim_start_snoc, Htrail.
Qed.

Lemma array_slice_inner {A : Type} (x y : A) (l : list A) :
  array_slice (x :: l ++ [y]) 1 (-1) = l.
Proof.
  unfold array_slice, relative_index. cbn [Z.ltb Z.compare length].
  rewrite length_app. cbn [length].
  replace (Nat.min (Z.to_nat 1) (S (length l + 1))) with 1 by lia.
  replace (Z.to_nat (Z.max 0 (Z.of_nat (S (length l + 1)) + -1))) with (S (length l)) by lia.
  cbn [drop]. rewrite drop_0. replace (S (length l) - 1) with (length l) by lia.
  by rewrite take_app_length.
Qed.

Lemma array_slice_init {A : Type} (y : A) (l : list A) :
  array_slice (l ++ [y]) 0 (-1) = l.
Proof.
  unfold array_slice, relative_index. cbn [Z.ltb Z.compare].
  rewrite length_app. cbn [length].
  replace (Nat.min (Z.to_nat 0) (length l + 1)) with 0 by lia.
  replace (Z.to_nat (Z.max 0 (Z.of_nat (length l + 1) + -1))) with (length l) by lia.
  rewrite drop_0, Nat.sub_0_r. by rewrite take_app_length.
Qed.

Lemma join_snoc_snoc (sep : jsstring) (parts : list jsstring) (final : jsstring) (q : char) :
  join sep (parts ++ [final ++ [q]]) = join sep (parts ++ [final]) ++ [q].
Proof.
  induction parts as [|p parts IH]; [done|].
  cbn [app]. destruct parts as [|p' parts].
  - cbn. by rewrite <- !app_assoc.
  - cbn [app join] in *. rewrite IH. by rewrite <- !app_assoc.
Qed.

(** An assignment line read outside a block: the pattern finds the key
    and the text after [=]. *)
Lemma parseEnvLine_assignment (st : env_state) (key value : jsstring) :
  inMultiline st = false -> env_name key -> one_line value -> trim_start value = value ->
  parseEnvLine st (key ++ ch_equals :: value)
  = let value := trim value in
    if quoted_with ch_dquote value || quoted_with ch_squote value then
      EnvState (assign_prop key (array_slice value 1 (-1)) (vars st))
        (currentKey st) (currentValue st) false (quoteChar st)
    else if startsWith [ch_dquote] value || startsWith [ch_squote] value then
      EnvState (vars st) (Some key) [drop 1 value] true (Some (take 1 value))
    else
      let value' := match indexOf (str " #") value with
                    | Some commentIndex => trim (slice value 0 commentIndex)
                    | None => value
                    end in
      EnvState (assign_prop key value' (vars st))
        (currentKey st) (currentValue st) false (quoteChar st).
Proof.
  intros Hst (c0 & ks & -> & Hc0 & Hks) Hv Hlead.
  destruct (word_facts c0 (word_start_word c0 Hc0)) as (Hsp & _ & _ & Hhash).
  destruct (env_line_groups c0 ks value Hc0 Hks Hv Hlead) as (m & Hm & Hg1 & Hg2).
  unfold parseEnvLine. rewrite Hst, Hm. cbn [negb andb].
  destruct (trim_head c0 (ks ++ ch_equals :: value) Hsp) as [t Ht].
  change ((c0 :: ks) ++ ch_equals :: value) with (c0 :: ks ++ ch_equals :: value).
  rewrite Ht. rewrite bool_decide_eq_false_2 by done.
  assert (Hnohash : startsWith [ch_hash] (c0 :: t) = false).
  { unfold startsWith. apply bool_decide_eq_false_2. cbn. intros [= ->]. done. }
  rewrite Hnohash. cbn [orb]. cbv zeta.
  change (c0 :: ks ++ ch_equals :: value) with ((c0 :: ks) ++ ch_equals :: value).
  rewrite Hg1, Hg2. unfold truthy.
  by rewrite (bool_decide_eq_false_2 (c0 :: ks = [])).
Qed.

Lemma startsWith_head (q x : char) (l : jsstring) :
  startsWith [q] (x :: l) = bool_decide (x = q).
Proof.
  unfold startsWith. cbn [length take]. rewrite take_0.
  destruct (decide (x = q)) as [->|Hne].
  - by rewrite !bool_decide_eq_true_2.
  - rewrite !bool_decide_eq_false_2; [done|done|congruence].
Qed.

Lemma parseEnvLine_quoted (m : gmap jsstring jsstring) (key value : jsstring) (q : char) :
  env_name key -> key <> str "__proto__" -> env_quote q -> one_line value ->
  parseEnvLine (idle m) (key ++ ch_equals :: q :: value ++ [q]) = idle (<[key := value]> m).
Proof.
  intros Hkey Hproto Hq Hv. destruct (env_quote_facts q Hq) as (Hsp & Hlt & _).
  rewrite parseEnvLine_assignment; [|done|done| |by cbn; rewrite Hsp].
  - cbv zeta. rewrite trim_quoted by done.
    assert (Hwrap : quoted_with ch_dquote (q :: value ++ [q])
                    || quoted_with ch_squote (q :: value ++ [q]) = true).
    { unfold quoted_with. rewrite !startsWith_head, !endsWith_last.
      rewrite app_comm_cons, last_snoc.
      destruct Hq as [->| ->]; by vm_compute. }
    rewrite Hwrap, array_slice_inner. unfold assign_prop, idle. cbn [vars currentKey
      currentValue quoteChar]. by rewrite bool_decide_eq_false_2.
  - constructor; [done|]. apply Forall_app. split; [done|]. by constructor.
Qed.

Lemma parseEnvLine_bare (m : gmap jsstring jsstring) (key value : jsstring) :
  env_name key -> key <> str "__proto__" -> plain_value value ->
  parseEnvLine (idle m) (key ++ ch_equals :: value) = idle (<[key := value]> m).
Proof.
  intros Hkey Hproto Hv. change (key ++ ch_equals :: value) with (env_line (key, value)).
  by rewrite (parseEnvLine_plain (idle m) key value eq_refl Hkey Hproto Hv).
Qed.

Lemma parseEnvLine_open (m : gmap jsstring jsstring) (key first : jsstring) (q : char) :
  env_name key -> env_quote q -> one_line first -> first <> [] ->
  trim_start (rev first) = rev first -> last first <> Some q ->
  parseEnvLine (idle m) (key ++ ch_equals :: q :: first)
  = EnvState m (Some key) [first] true (Some [q]).
Proof.
  intros Hkey Hq Hv Hne Htrail Hlast. destruct (env_quote_facts q Hq) as (Hsp & Hlt & _).
  rewrite parseEnvLine_assignment; [|done|done| |by cbn; rewrite Hsp].
  - cbv zeta. rewrite trim_opened by done.
    assert (Hend : endsWith [q] (q :: first) = false).
    { rewrite endsWith_last. apply bool_decide_eq_false_2.
      destruct first as [|x first]; [done|]. done. }
    assert (Hwrap : quoted_with ch_dquote (q :: first) || quoted_with ch_squote (q :: first)
                    = false).
    { unfold quoted_with. rewrite !startsWith_head.
      destruct Hq as [->| ->]; rewrite Hend; by vm_compute. }
    assert (Hstart : startsWith [ch_dquote] (q :: first) || startsWith [ch_squote] (q :: first)
                     = true).
    { rewrite !startsWith_head. destruct Hq as [->| ->]; by vm_compute. }
    rewrite Hwrap, Hstart. cbn [drop take]. by rewrite drop_0, take_0.
  - by constructor.
Qed.

Lemma parseEnvLine_middle (m : gmap jsstring jsstring) (key : jsstring) (q : char)
    (collected : list jsstring) (line : jsstring) :
  endsWith [q] (trimEnd line) = false ->
  parseEnvLine (EnvState m (Some key) collected true (Some [q])) line
  = EnvState m (Some key) (collected ++ [line]) true (Some [q]).
Proof.
  intros Hopen. unfold parseEnvLine, or_null. cbn [inMultiline negb andb quoteChar from_option id
    currentValue currentKey vars]. by rewrite Hopen.
Qed.

Lemma parseEnvLines_middle (m : gmap jsstring jsstring) (key : jsstring) (q : char)
    (middle : list jsstring) : forall collected,
  Forall (fun line => (ch_nl ∉ line) /\ endsWith [q] (trimEnd line) = false) middle ->
  fold_left parseEnvLine middle (EnvState m (Some key) collected true (Some [q]))
  = EnvState m (Some key) (collected ++ middle) true (Some [q]).
Proof.
  induction middle as [|line middle IH]; intros collected Hall; cbn [fold_left].
  - by rewrite app_nil_r.
  - apply Forall_cons in Hall as [[_ Hline] Hall].
    rewrite parseEnvLine_middle, IH by done. by rewrite <- app_assoc.
Qed.

Lemma parseEnvLine_close (m : gmap jsstring jsstring) (key : jsstring) (q : char)
    (collected : list jsstring) (final : jsstring) :
  key <> str "__proto__" -> is_space q = false ->
  parseEnvLine (EnvState m (Some key) collected true (Some [q])) (final ++ [q])
  = idle (<[key := join [ch_nl] (collected ++ [final])]> m).
Proof.
  intros Hproto Hq. unfold parseEnvLine, or_null. cbn [inMultiline negb andb quoteChar from_option id
    currentValue currentKey vars].
  rewrite trimEnd_snoc by done. rewrite endsWith_last, last_snoc.
  rewrite bool_decide_eq_true_2 by done.
  rewrite join_snoc_snoc, array_slice_init. unfold assign_prop.
  by rewrite bool_decide_eq_false_2.
Qed.

(** The lines of one variable, read from the idle state. *)
Lemma parseEnvLines_written (m : gmap jsstring jsstring) (key : jsstring) (v : env_value) :
  env_name key -> key <> str "__proto__" -> well_written v ->
  fold_left parseEnvLine (written (key, v)) (idle m) = idle (<[key := meant v]> m).
Proof.
  intros Hkey Hproto Hv. destruct v as [value|q value|q first middle final];
    cbn [written fst snd meant fold_left].
  - by apply parseEnvLine_bare.
  - destruct Hv as [Hq Hv]. by apply parseEnvLine_quoted.
  - destruct Hv as (Hq & Hfirst & Hne & Htrail & Hlast & Hmiddle & Hfinal).
    destruct (env_quote_facts q Hq) as (Hsp & _ & _).
    rewrite parseEnvLine_open by done.
    rewrite fold_left_app, parseEnvLines_middle by done. cbn [fold_left].
    by rewrite parseEnvLine_close.
Qed.

Lemma written_lines (key : jsstring) (v : env_value) :
  env_name key -> well_written v ->
  written (key, v) <> [] /\ Forall (fun line => ch_nl ∉ line) (written (key, v)).
Proof.
  intros Hkey Hv.
  assert (Hname : ch_nl ∉ key).
  { intros Hin. pose proof (env_name_word key Hkey) as Hall. rewrite Forall_forall in Hall.
    by destruct (word_facts _ (Hall _ Hin)) as (_ & _ & ? & _). }
  assert (Hone : forall text, one_line text -> ch_nl ∉ text).
  { intros text Hall Hin. unfold one_line in Hall. rewrite Forall_forall in Hall.
    by specialize (Hall _ Hin). }
  assert (Heq : ch_nl <> ch_equals) by done.
  destruct v as [value|q value|q first middle final]; cbn [written fst snd].
  - split; [done|]. constructor; [|constructor].
    destruct Hv as (Hv & _). apply Hone in Hv.
    rewrite elem_of_app, elem_of_cons. intuition.
  - destruct Hv as [Hq Hv]. destruct (env_quote_facts q Hq) as (_ & _ & Hnl).
    apply Hone in Hv. split; [done|]. constructor; [|constructor].
    rewrite elem_of_app, !elem_of_cons, elem_of_app, elem_of_cons, elem_of_nil.
    intuition.
  - destruct Hv as (Hq & Hfirst & _ & _ & _ & Hmiddle & Hfinal).
    destruct (env_quote_facts q Hq) as (_ & _ & Hnl). apply Hone in Hfirst.
    split; [done|]. constructor; [|apply Forall_app; split].
    + rewrite elem_of_app, !elem_of_cons. intuition.
    + eapply Forall_impl; [exact Hmiddle|]. by intros line [? _].
    + constructor; [|constructor].
      rewrite elem_of_app, elem_of_cons, elem_of_nil. intuition.
Qed.

(** A file in which every variable is written in one of the three ways is
    read back as it is meant: bare values as they stand, quoted values
    without their quotes and otherwise untouched (a [#] or white space
    inside quotes belongs to the value), blocks with their line breaks; a
    later line for a key replaces an earlier one. *)
Theorem parseEnvFile_written (entries : list (jsstring * env_value)) :
  Forall (fun e => env_name e.1 /\ e.1 <> str "__proto__" /\ well_written e.2) entries ->
  parseEnvFile (join [ch_nl] (concat (written <$> entries)))
  = fold_left (fun m e => <[e.1 := meant e.2]> m) entries ∅.
Proof.
  intros Hall. unfold parseEnvFile.
  destruct entries as [|e0 entries0] eqn:Hentries; [done|]. rewrite <- Hentries in *.
  assert (Hlines : split_on ch_nl (join [ch_nl] (concat (written <$> entries)))
                   = concat (written <$> entries)).
  { apply split_on_join.
    - rewrite Hentries. cbn [fmap list_fmap concat]. destruct e0 as [k v].
      rewrite Hentries in Hall.
      apply Forall_cons in Hall as [(Hk & _ & Hv) _].
      destruct (written_lines k v Hk Hv) as [Hne _].
      destruct (written (k, v)); [done|]. done.
    - clear Hentries. induction Hall as [|[k v] entries (Hk & _ & Hv) _ IH]; [constructor|].
      cbn [fmap list_fmap concat]. apply Forall_app. split; [|exact IH].
      by destruct (written_lines k v Hk Hv). }
  rewrite Hlines. clear Hlines Hentries e0 entries0.
  change (EnvState ∅ None [] false None) with (idle ∅).
  assert (Hfold : forall m,
            fold_left parseEnvLine (concat (written <$> entries)) (idle m)
            = idle (fold_left (fun m e => <[e.1 := meant e.2]> m) entries m)).
  { induction Hall as [|[k v] entries (Hk & Hp & Hv) _ IH]; intros m; [done|].
    cbn [fmap list_fmap concat fold_left fst snd].
    rewrite fold_left_app, parseEnvLines_written by done. apply IH. }
  by rewrite Hfold.
Qed.

Lemma parseEnvFile_written_witness :
  parseEnvFile (join [ch_nl] (concat (written <$>
      [(str "A", Bare (str "1"));
       (str "B", Quoted ch_dquote (str "x # y "));
       (str "C", Block ch_squote (str "l1") [str "# l2"; []] (str " l4"));
       (str "A", Bare [])])))
  = fold_left (fun m e => <[e.1 := meant e.2]> m)
      [(str "A", Bare (str "1"));
       (str "B", Quoted ch_dquote (str "x # y "));
       (str "C", Block ch_squote (str "l1") [str "# l2"; []] (str " l4"));
       (str "A", Bare [])] ∅.
Proof.
  apply parseEnvFile_written.
  repeat apply Forall_cons_2; try apply Forall_nil_2; cbn [fst snd];
    (split; [|split; [by vm_compute|]]).
  all: try (eexists _, _; split; [reflexivity|]; split; [reflexivity|];
            repeat constructor).
  - unfold well_written, plain_value. split_and!; try reflexivity; repeat constructor.
  - split; [by left|]. repeat constructor.
  - cbn [well_written]. split_and!; try done.
    + by right.
    + repeat constructor.
    + repeat constructor; try reflexivity.
      all: apply (bool_decide_unpack _); by vm_compute.
    + apply (bool_decide_unpack _). by vm_compute.
  - unfold well_written, plain_value. split_and!; try reflexivity; repeat constructor.
Defined.

(** *** A quote that is never closed *)

Lemma parseEnvLines_entries (entries : list (jsstring * env_value)) : forall m,
  Forall (fun e => env_name e.1 /\ e.1 <> str "__proto__" /\ well_written e.2) entries ->
  fold_left parseEnvLine (concat (written <$> entries)) (idle m)
  = idle (fold_left (fun m e => <[e.1 := meant e.2]> m) entries m).
Proof.
  intros m Hall. revert m.
  induction Hall as [|[k v] entries (Hk & Hp & Hv) _ IH]; intros m; [done|].
  cbn [fmap list_fmap concat fold_left fst snd].
  rewrite fold_left_app, parseEnvLines_written by done. apply IH.
Qed.

(** A value that opens a quote which no later line closes is lost, and so
    is everything after it: the file defines the variables in front of it
    and nothing else. *)
Theorem parseEnvFile_unclosed (entries : list (jsstring * env_value))
    (key first : jsstring) (quote : char) (rest : list jsstring) :
  Forall (fun e => env_name e.1 /\ e.1 <> str "__proto__" /\ well_written e.2) entries ->
  env_name key -> env_quote quote -> one_line first -> first <> [] ->
  trim_start (rev first) = rev first -> last first <> Some quote ->
  Forall (fun line => (ch_nl ∉ line) /\ endsWith [quote] (trimEnd line) = false) rest ->
  parseEnvFile (join [ch_nl] (concat (written <$> entries)
                              ++ (key ++ ch_equals :: quote :: first) :: rest))
  = fold_left (fun m e => <[e.1 := meant e.2]> m) entries ∅.
Proof.
  intros Hall Hkey Hq Hfirst Hne Htrail Hlast Hrest. unfold parseEnvFile.
  destruct (env_quote_facts quote Hq) as (_ & _ & Hnl).
  rewrite split_on_join.
  - change (EnvState ∅ None [] false None) with (idle ∅).
    rewrite fold_left_app, parseEnvLines_entries by done. cbn [fold_left].
    rewrite parseEnvLine_open, parseEnvLines_middle by done. done.
  - by destruct (concat (written <$> entries)).
  - apply Forall_app. split.
    + clear -Hall. induction Hall as [|[k v] entries (Hk & _ & Hv) _ IH]; [constructor|].
      cbn [fmap list_fmap concat]. apply Forall_app. split; [|exact IH].
      by destruct (written_lines k v Hk Hv).
    + constructor; [|eapply Forall_impl; [exact Hrest|]; by intros line [? _]].
      assert (Hname : ch_nl ∉ key).
      { intros Hin. pose proof (env_name_word key Hkey) as Hw. rewrite Forall_forall in Hw.
        by destruct (word_facts _ (Hw _ Hin)) as (_ & _ & ? & _). }
      assert (Hone : ch_nl ∉ first).
      { intros Hin. unfold one_line in Hfirst. rewrite Forall_forall in Hfirst.
        by specialize (Hfirst _ Hin). }
      assert (Heq : ch_nl <> ch_equals) by done.
      rewrite elem_of_app, !elem_of_cons. intuition.
Qed.

Lemma parseEnvFile_unclosed_witness :
  parseEnvFile (join [ch_nl] (concat (written <$> [(str "A", Bare (str "1"))])
                              ++ (str "B" ++ ch_equals :: ch_dquote :: str "two")
                                 :: [str "C=3"; str "D=4"]))
  = fold_left (fun m e => <[e.1 := meant e.2]> m) [(str "A", Bare (str "1"))] ∅.
Proof.
  apply parseEnvFile_unclosed.
  - repeat apply Forall_cons_2; try apply Forall_nil_2; cbn [fst snd].
    split; [|split; [by vm_compute|]].
    + eexists _, _. split; [reflexivity|]. split; [reflexivity|]. repeat constructor.
    + unfold well_written, plain_value. split_and!; try reflexivity; repeat constructor.
  - eexists _, _. split; [reflexivity|]. split; [reflexivity|]. repeat constructor.
  - by left.
  - repeat constructor.
  - done.
  - reflexivity.
  - done.
  - repeat constructor; try reflexivity.
    all: apply (bool_decide_unpack _); by vm_compute.
Defined.

(** *** An interface over several lines *)

Lemma scan_char_plain (st : brace_state) (prev : option char) (c : char) :
  inString st = false -> plain_code c = true -> scan_char st prev c = st.
Proof.
  intros Hst Hc. unfold plain_code in Hc.
  rewrite negb_true_iff, !orb_false_iff in Hc. destruct Hc as ((((Hq & H1) & H2) & H3) & H4).
  unfold scan_char. rewrite Hst, Hq. cbn [negb andb]. rewrite Hst. cbn [negb].
  by rewrite H1, H2, H3, H4.
Qed.

Lemma scan_chars_plain (line : jsstring) : forall st prev,
  inString st = false -> Forall (fun c => plain_code c = true) line ->
  scan_chars st prev line = st.
Proof.
  induction line as [|c line IH]; intros st prev Hst Hall; [done|].
  apply Forall_cons in Hall as [Hc Hall]. cbn [scan_chars].
  rewrite scan_char_plain by done. by apply IH.
Qed.

Lemma scan_chars_app (l1 l2 : jsstring) : forall st prev,
  scan_chars st prev (l1 ++ l2)
  = scan_chars (scan_chars st prev l1) (match last l1 with Some c => Some c | None => prev end)
      l2.
Proof.
  induction l1 as [|c l1 IH]; intros st prev; [done|].
  cbn [app scan_chars]. rewrite IH. f_equal.
  destruct l1 as [|c' l1]; [done|]. change (last (c :: c' :: l1)) with (last (c' :: l1)).
  destruct (last (c' :: l1)) eqn:Hl; [done|]. by apply last_None in Hl.
Qed.

Lemma word_plain (c : char) :
  is_word c = true -> plain_code c = true /\ c <> ch_dollar /\ is_space c = false.
Proof.
  unfold is_word, is_alpha, is_digit, plain_code, is_quote, is_space, in_range, ceq,
    ch_underscore, ch_dollar, ch_dquote, ch_squote, ch_backtick, ch_lbrace, ch_rbrace,
    ch_lparen, ch_rparen.
  rewrite !orb_true_iff, !andb_true_iff, !N.leb_le, !N.eqb_eq. intros H.
  rewrite negb_true_iff, !orb_false_iff, !andb_false_iff, !N.leb_gt, !N.eqb_neq. lia.
Qed.

Lemma symbol_name_plain (name : jsstring) :
  Forall (fun c => is_word c = true) name -> symbol_name_regex name = rlit name.
Proof.
  induction 1 as [|c name Hc _ IH]; [done|].
  unfold symbol_name_regex, rlit in *. cbn [map rseqs foldr]. unfold rseqs in IH. rewrite IH.
  destruct (word_plain c Hc) as (_ & Hd & _). unfold ceq.
  by rewrite (proj2 (N.eqb_neq c ch_dollar)).
Qed.

Section opt_taken.
Context (s : jsstring).

Lemma elem_opt_take r i c j c' :
  (j, c') ∈ rmatch r s i c -> j <> i -> s <> [] -> (j, c') ∈ rmatch (ropt r) s i c.
Proof.
  intros Hin Hne Hs. unfold ropt. rewrite rmatch_quant_eq. cbn [repeat_matcher Nat.add].
  cbn [Nat.eqb negb andb]. apply elem_of_app. left.
  apply list_elem_of_bind. exists (j, c'). split; [|done].
  rewrite (proj2 (Nat.eqb_neq j i)) by done. cbn [andb].
  destruct (length s) as [|n] eqn:Hn; [by apply nil_length_inv in Hn|].
  cbn. apply list_elem_of_here.
Qed.

Lemma elem_lit (lit : jsstring) i c :
  take (length lit) (drop i s) = lit -> (i + length lit, c) ∈ rmatch (rlit lit) s i c.
Proof. intros H. rewrite rmatch_lit_eq, decide_True by done. apply list_elem_of_here. Qed.

Lemma elem_lit_char ch i c :
  s !! i = Some ch -> (S i, c) ∈ rmatch (rlit_char ch) s i c.
Proof. intros Hx. destruct (first_lit s ch i c Hx) as [rest ->]. apply list_elem_of_here. Qed.

Lemma elem_space i c x :
  s !! i = Some x -> is_space x = true -> (S i, c) ∈ rmatch rspaces s i c.
Proof.
  intros Hx Hsp. pose proof (lookup_lt_Some _ _ _ Hx).
  apply (elem_of_rmatch_class s true 1 is_space i c (S i) c); [lia|].
  split; [done|]. rewrite (class_run_cons s is_space i x Hx Hsp). lia.
Qed.

Lemma elem_space_opt i c x :
  s !! i = Some x -> is_space x = true -> (S i, c) ∈ rmatch rspaces_opt s i c.
Proof.
  intros Hx Hsp. pose proof (lookup_lt_Some _ _ _ Hx).
  apply (elem_of_rmatch_class s true 0 is_space i c (S i) c); [lia|].
  split; [done|]. rewrite (class_run_cons s is_space i x Hx Hsp). lia.
Qed.
End opt_taken.

Lemma interface_declares (name pre : jsstring) :
  Forall (fun c => is_word c = true) name -> pre = [] \/ pre = str "export " ->
  declares name (pre ++ str "interface " ++ name ++ str " {") = true.
Proof.
  intros Hname Hpre. unfold declares, symbol_patterns. cbn [existsb].
  apply orb_true_iff. left. unfold test. apply bool_decide_eq_true.
  set (s := pre ++ str "interface " ++ name ++ str " {").
  set (p := length pre).
  assert (Hs : s <> []).
  { unfold s. destruct Hpre as [->| ->]; done. }
  assert (Hd1 : drop p s = str "interface " ++ name ++ str " {").
  { unfold s, p. by rewrite drop_app_length. }
  assert (Hd2 : drop (p + 10) s = name ++ str " {").
  { rewrite <- drop_drop, Hd1. done. }
  assert (Hd3 : drop (p + 10 + length name) s = str " {").
  { rewrite <- drop_drop, Hd2. by rewrite drop_app_length. }
  assert (Hat : forall i k l x, drop i s = l -> l !! k = Some x -> s !! (i + k) = Some x).
  { intros i k l x <- Hx. by rewrite lookup_drop in Hx. }
  assert (Hopt : exists c1, (p, c1) ∈ rmatch (ropt_word 1 "export") s 0 ∅).
  { destruct Hpre as [Hp|Hp].
    - exists ∅. unfold p. rewrite Hp. apply elem_opt_skip.
    - eexists. unfold ropt_word. apply elem_opt_take; [|unfold p; by rewrite Hp|done].
      apply elem_group. eapply elem_seq.
      + apply (elem_lit s (str "export") 0). unfold s. by rewrite Hp.
      + unfold p. rewrite Hp.
        apply (elem_space s 6 _ ch_space); [|done]. unfold s. by rewrite Hp. }
  destruct Hopt as [c1 Hopt].
  eapply (exec_some s). unfold declaration. cbn [app rseqs foldr].
  eapply elem_seq; [apply list_elem_of_here|].
  eapply elem_seq; [exact Hopt|].
  eapply elem_seq.
  { apply (elem_lit s (str "interface") p). rewrite Hd1. done. }
  eapply elem_seq.
  { apply (elem_space s (p + 9) _ ch_space); [|done]. by apply (Hat p 9 _ _ Hd1). }
  eapply elem_seq.
  { rewrite symbol_name_plain by done. apply (elem_lit s name (S (p + 9))).
    replace (S (p + 9)) with (p + 10) by lia. rewrite Hd2. by rewrite take_app_length. }
  eapply elem_seq.
  { apply (elem_space_opt s (S (p + 9) + length name) _ ch_space); [|done].
    replace (S (p + 9) + length name) with (p + 10 + length name + 0) by lia.
    by apply (Hat _ 0 _ _ Hd3). }
  eapply elem_seq; [apply elem_opt_skip|].
  eapply elem_seq; [|apply list_elem_of_here].
  apply elem_lit_char.
  replace (S (S (p + 9) + length name)) with (p + 10 + length name + 1) by lia.
  by apply (Hat _ 1 _ ch_lbrace Hd3).
Qed.

Lemma extract_loop_skip (name : jsstring) (lines before rest : list jsstring) : forall i st,
  Forall (fun l => l = [] \/ declares name (trim l) = false) before ->
  extract_loop name lines i (before ++ rest) None false st
  = extract_loop name lines (i + length before) rest None false st.
Proof.
  induction before as [|l before IH]; intros i st Hall; cbn [app length].
  - by rewrite Nat.add_0_r.
  - apply Forall_cons in Hall as [Hl Hall]. cbn [extract_loop]. unfold truthy.
    replace (i + S (length before)) with (S i + length before) by lia.
    destruct Hl as [->|Hl].
    + rewrite bool_decide_eq_true_2 by done. cbn [negb]. by apply IH.
    + destruct (negb (negb (bool_decide (l = [])))); [by apply IH|].
      cbv zeta. rewrite Hl. by apply IH.
Qed.

Lemma extract_loop_body (name : jsstring) (lines body rest : list jsstring) (from : nat) :
  forall i,
  Forall (fun l => Forall (fun c => plain_code c = true) l) body ->
  extract_loop name lines i (body ++ rest) (Some from) true (BraceState 1 0 false None)
  = extract_loop name lines (i + length body) rest (Some from) true
      (BraceState 1 0 false None).
Proof.
  induction body as [|l body IH]; intros i Hall; cbn [app length].
  - by rewrite Nat.add_0_r.
  - apply Forall_cons in Hall as [Hl Hall]. cbn [extract_loop].
    replace (i + S (length body)) with (S i + length body) by lia.
    destruct (negb (truthy l)); [by apply IH|].
    cbv zeta. cbn match. rewrite scan_chars_plain by done.
    assert (Hopen : forall ls i l, declaration_ends ls i l true (BraceState 1 0 false None) = false)
      by reflexivity.
    rewrite Hopen. by apply IH.
Qed.

(** An interface that opens on its first line and closes on a line of its
    own is extracted from the one to the other, when the lines between
    have no braces, parentheses or quotes and no earlier line declares the
    symbol. *)
Theorem extractSymbol_interface (content name pre : jsstring)
    (before body after : list jsstring) :
  Forall (fun c => is_word c = true) name -> pre = [] \/ pre = str "export " ->
  split_on ch_nl content
  = before ++ (pre ++ str "interface " ++ name ++ str " {") :: body ++ str "}" :: after ->
  Forall (fun l => l = [] \/ declares name (trim l) = false) before ->
  Forall (fun l => Forall (fun c => plain_code c = true) l) body ->
  Symbols.extractSymbol content name
  = Ok (join [ch_nl] ((pre ++ str "interface " ++ name ++ str " {") :: body ++ [str "}"])).
Proof.
  intros Hname Hpre Hlines Hbefore Hbody.
  unfold Symbols.extractSymbol, extractSymbol_lines. rewrite Hlines.
  set (head := pre ++ str "interface " ++ name ++ str " {").
  set (lines := before ++ head :: body ++ str "}" :: after).
  assert (Hhead : head = (pre ++ str "interface " ++ name ++ str " ") ++ [ch_lbrace]).
  { unfold head. by rewrite <- !app_assoc. }
  assert (Hne : head <> []).
  { rewrite Hhead. by destruct (pre ++ str "interface " ++ name ++ str " "). }
  assert (Htrim : trim head = head).
  { apply trim_fixed.
    - unfold head. destruct Hpre as [->| ->]; done.
    - rewrite Hhead, rev_app_distr. done. }
  assert (Hplain : Forall (fun c => plain_code c = true)
                     (pre ++ str "interface " ++ name ++ str " ")).
  { apply Forall_app. split; [destruct Hpre as [->| ->]; repeat constructor|].
    apply Forall_app. split; [repeat constructor|].
    apply Forall_app. split; [|repeat constructor].
    eapply Forall_impl; [exact Hname|]. intros c Hc. by destruct (word_plain c Hc). }
  unfold lines at 2. rewrite extract_loop_skip by done. cbn [Nat.add].
  cbn [extract_loop]. unfold truthy at 1. rewrite bool_decide_eq_false_2 by done.
  assert (Hdecl : declares name head = true) by (by apply interface_declares).
  cbn [negb]. cbv zeta. rewrite Htrim, !Hdecl. cbn match.
  assert (Hscan : scan_chars (BraceState 0 0 false None) None head
                  = BraceState 1 0 false None).
  { rewrite Hhead, scan_chars_app.
    rewrite (scan_chars_plain (pre ++ str "interface " ++ name ++ str " ")) by done.
    cbn [scan_chars]. unfold scan_char. by cbn. }
  rewrite Hscan.
  assert (Hopen : forall ls i l, declaration_ends ls i l true (BraceState 1 0 false None) = false)
    by reflexivity.
  rewrite Hopen. rewrite extract_loop_body by done.
  cbn [extract_loop]. cbv zeta. cbn match.
  change (negb (truthy (str "}"))) with false. cbn match.
  change (scan_chars (BraceState 1 0 false None) None (str "}"))
    with (BraceState 0 0 false None).
  unfold declaration_ends. cbn [braceDepth parenDepth andb Z.eqb]. cbv zeta.
  change (endsWith [ch_semicolon] (trim (str "}"))) with false.
  change (endsWith [ch_rbrace] (trim (str "}"))) with true. cbn [orb].
  f_equal. f_equal. rewrite array_slice_block.
  - unfold lines. rewrite drop_app_length.
    replace (S (length before) + length body + 1 - length before) with (S (length body + 1))
      by lia.
    cbn [take]. f_equal. rewrite (cons_middle (str "}") body after), app_assoc.
    apply take_app_length'. rewrite length_app. cbn. lia.
  - unfold lines. rewrite !length_app. cbn [length]. rewrite length_app. cbn [length]. lia.
Qed.

Lemma extractSymbol_interface_witness :
  Symbols.extractSymbol
    (str "import x" ++ [ch_nl] ++ str "export interface Foo {" ++ [ch_nl] ++ str "  a: string;"
     ++ [ch_nl] ++ [ch_nl] ++ str "  b: number" ++ [ch_nl] ++ str "}" ++ [ch_nl] ++ str "let c")
    (str "Foo")
  = Ok (join [ch_nl] ((str "export " ++ str "interface " ++ str "Foo" ++ str " {")
                      :: [str "  a: string;"; []; str "  b: number"] ++ [str "}"])).
Proof.
  apply (extractSymbol_interface _ _ _ [str "import x"] _ [str "let c"]).
  - repeat constructor.
  - by right.
  - by vm_compute.
  - constructor; [right; by vm_compute|constructor].
  - repeat constructor.
Defined.
